(** * AstProbing: the AST-to-dependency-tree pipeline of [src/data/code2ast.py]

    A shallow embedding of the tree-construction module (graph building,
    head selection, dependency projection, edge labelling, reconstruction
    and the attachment score) together with the properties stated about it.

    The module works on [networkx] graphs.  A graph is modelled by its
    insertion-ordered node dictionary and its insertion-ordered edges, from
    which the per-node adjacency orders of [networkx] are derived. *)

From Stdlib Require Import String DecimalString.
From Stdlib Require Import List ZArith Lia Bool Arith PeanoNat.
From Stdlib Require Import QArith Permutation Sorted.
Import ListNotations.

Local Open Scope string_scope.
Local Open Scope nat_scope.
Local Open Scope list_scope.
Set Warnings "-register-all".

(** ** Outcomes of a Python call *)

(** The exceptions the module and the library functions it calls can raise. *)
Inductive exn : Type :=
| IndexError
| KeyError
| AssertionError
| ZeroDivisionError
| NodeNotFound
| NetworkXNoPath
| NetworkXError
| TypeError.

(** A call returns, raises, or (for the [while True] loop of [selectHead],
    which is run with a step budget) exhausts its budget. *)
Inductive outcome (A : Type) : Type :=
| Ret (a : A)
| Raise (e : exn)
| OutOfFuel.

Arguments Ret {A} a.
Arguments Raise {A} e.
Arguments OutOfFuel {A}.

Definition bind {A B : Type} (c : outcome A) (k : A -> outcome B) : outcome B :=
  match c with
  | Ret a => k a
  | Raise e => Raise e
  | OutOfFuel => OutOfFuel
  end.

Declare Scope py_scope.
Delimit Scope py_scope with py.
Notation "x <- c ;; k" := (bind c (fun x => k))
  (at level 61, c at next level, right associativity) : py_scope.
Local Open Scope py_scope.

(** List comprehension with a guard that may raise. *)
Fixpoint filterM {A : Type} (f : A -> outcome bool) (l : list A) : outcome (list A) :=
  match l with
  | [] => Ret []
  | x :: l' =>
      b <- f x ;;
      r <- filterM f l' ;;
      Ret (if b then x :: r else r)
  end.

(** List comprehension whose element expression may raise. *)
Fixpoint mapM {A B : Type} (f : A -> outcome B) (l : list A) : outcome (list B) :=
  match l with
  | [] => Ret []
  | x :: l' =>
      y <- f x ;;
      r <- mapM f l' ;;
      Ret (y :: r)
  end.

(** A [for] loop threading the mutated object. *)
Fixpoint foldM {A S : Type} (f : S -> A -> outcome S) (l : list A) (s : S) : outcome S :=
  match l with
  | [] => Ret s
  | x :: l' =>
      s' <- f s x ;;
      foldM f l' s'
  end.

(** ** Python lists *)

Definition mem (x : nat) (l : list nat) : bool := existsb (Nat.eqb x) l.

(** [l[i]] with Python's negative indices. *)
Definition py_index {A : Type} (l : list A) (i : Z) : outcome A :=
  let len := Z.of_nat (length l) in
  let j := (if i <? 0 then len + i else i)%Z in
  if ((0 <=? j) && (j <? len))%Z
  then match nth_error l (Z.to_nat j) with
       | Some x => Ret x
       | None => Raise IndexError
       end
  else Raise IndexError.

(** [l[i:]] with Python's negative indices. *)
Definition py_slice_from {A : Type} (l : list A) (i : Z) : list A :=
  let len := Z.of_nat (length l) in
  let j := (if i <? 0 then Z.max 0 (len + i) else i)%Z in
  skipn (Z.to_nat j) l.

(** [l[1:-1]]. *)
Definition py_interior {A : Type} (l : list A) : list A := removelast (tl l).

(** [l.index(x)]; the callers only ask for members. *)
Fixpoint py_list_index (x : nat) (l : list nat) : option nat :=
  match l with
  | [] => None
  | y :: l' => if Nat.eqb x y then Some 0
               else option_map S (py_list_index x l')
  end.

(** [l.sort(key=...)]: Python's sort is stable; the keys are computed first. *)
Fixpoint insert_by_key {A : Type} (x : A * Z) (l : list (A * Z)) : list (A * Z) :=
  match l with
  | [] => [x]
  | y :: l' => if (snd x <=? snd y)%Z then x :: y :: l'
               else y :: insert_by_key x l'
  end.

Definition stable_sort {A : Type} (l : list (A * Z)) : list (A * Z) :=
  fold_right insert_by_key [] l.

Definition sort_by_key {A : Type} (key : A -> outcome Z) (l : list A) : outcome (list A) :=
  ks <- mapM key l ;;
  Ret (map fst (stable_sort (combine l ks))).

(** ** Node and edge attribute dictionaries *)

(** The attribute dictionary of a node: its keys are among [type],
    [is_terminal], [start] and [end]. *)
Record NodeAttrs : Type := mkAttrs {
  type : option string;
  is_terminal : option bool;
  start : option Z;
  end_ : option Z
}.

Definition no_attrs : NodeAttrs := mkAttrs None None None None.

Definition or_else {A : Type} (new old : option A) : option A :=
  match new with Some _ => new | None => old end.

(** [d.update(new)]. *)
Definition update_attrs (old new : NodeAttrs) : NodeAttrs :=
  mkAttrs (or_else (type new) (type old))
          (or_else (is_terminal new) (is_terminal old))
          (or_else (start new) (start old))
          (or_else (end_ new) (end_ old)).

Definition option_eqb {A : Type} (eqb : A -> A -> bool) (x y : option A) : bool :=
  match x, y with
  | Some a, Some b => eqb a b
  | None, None => true
  | _, _ => false
  end.

(** Equality of two attribute dictionaries. *)
Definition attrs_eqb (a b : NodeAttrs) : bool :=
  option_eqb String.eqb (type a) (type b)
  && option_eqb Bool.eqb (is_terminal a) (is_terminal b)
  && option_eqb Z.eqb (start a) (start b)
  && option_eqb Z.eqb (end_ a) (end_ b).

(** The label of a dependency edge. *)
Record ComplexEdgeLabels : Type := mkLabel {
  non_terminals : list string;
  depths : list nat;
  special_index : Z
}.

Fixpoint join (sep : string) (l : list string) : string :=
  match l with
  | [] => ""
  | [s] => s
  | s :: l' => String.append s (String.append sep (join sep l'))
  end.

(** [ComplexEdgeLabels.__str__] *)
Definition label_str (c : ComplexEdgeLabels) : string :=
  String.append (NilZero.string_of_int (Z.to_int (special_index c)))
    (String.append "-"
       (join "|" (py_slice_from (non_terminals c) (special_index c + 1)))).

(** [ComplexEdgeLabels.get_node_to_append] *)
Definition get_node_to_append (c : ComplexEdgeLabels) (path : list nat)
  : outcome (nat * list string) :=
  node_append <- py_index path (special_index c) ;;
  Ret (node_append, py_slice_from (non_terminals c) (special_index c + 1)).

(** The attribute dictionary of an edge: its keys are among [label],
    [complex_edge] and [complex_edge_str]. *)
Record EdgeData : Type := mkEdge {
  label : option string;
  complex_edge : option ComplexEdgeLabels;
  complex_edge_str : option string
}.

Definition no_data : EdgeData := mkEdge None None None.

Definition update_data (old new : EdgeData) : EdgeData :=
  mkEdge (or_else (label new) (label old))
         (or_else (complex_edge new) (complex_edge old))
         (or_else (complex_edge_str new) (complex_edge_str old)).

(** ** Breadth-first search *)

(** The neighbours of a node that the search has not seen, in adjacency
    order, each once. *)
Fixpoint new_nbrs (seen : list nat) (ws : list nat) : list nat :=
  match ws with
  | [] => []
  | w :: ws' => if mem w seen then new_nbrs seen ws'
                else w :: new_nbrs (w :: seen) ws'
  end.

(** The search proper: nodes leave the queue in the order they were found;
    each carries the path that found it, last node first. *)
Fixpoint bfs (adj : nat -> list nat) (fuel : nat) (seen : list nat)
  (queue : list (nat * list nat)) : list (nat * list nat) :=
  match fuel with
  | 0 => []
  | S fuel' =>
      match queue with
      | [] => []
      | (v, p) :: rest =>
          let fresh := new_nbrs seen (adj v) in
          (v, p) :: bfs adj fuel' (seen ++ fresh)
                        (rest ++ map (fun w => (w, w :: p)) fresh)
      end
  end.

(** A search visits the source and then only end points of edges, each once:
    one step more than the size of [universe] (the end points of all edges)
    is enough budget. *)
Definition bfs_from (adj : nat -> list nat) (universe : list nat) (src : nat)
  : list (nat * list nat) :=
  bfs adj (S (S (length universe))) [src] [(src, [src])].

Fixpoint lookup {A : Type} (n : nat) (l : list (nat * A)) : option A :=
  match l with
  | [] => None
  | (m, a) :: l' => if Nat.eqb n m then Some a else lookup n l'
  end.

(** ** Directed graphs: [nx.DiGraph] *)

Record DiGraph : Type := mkDiGraph {
  dg_node : list (nat * NodeAttrs);
  dg_edge : list (nat * nat * EdgeData)
}.

Definition empty_digraph : DiGraph := mkDiGraph [] [].

Definition node_ids {A : Type} (l : list (nat * A)) : list nat := map fst l.

Fixpoint update_node (n : nat) (a : NodeAttrs) (l : list (nat * NodeAttrs))
  : list (nat * NodeAttrs) :=
  match l with
  | [] => [(n, a)]
  | (m, b) :: l' => if Nat.eqb n m then (m, update_attrs b a) :: l'
                    else (m, b) :: update_node n a l'
  end.

(** [G.add_node(n, **a)] *)
Definition dg_add_node (G : DiGraph) (n : nat) (a : NodeAttrs) : DiGraph :=
  mkDiGraph (update_node n a (dg_node G)) (dg_edge G).

Fixpoint update_edge (u v : nat) (d : EdgeData) (l : list (nat * nat * EdgeData))
  : list (nat * nat * EdgeData) :=
  match l with
  | [] => [(u, v, d)]
  | (u', v', d') :: l' =>
      if Nat.eqb u u' && Nat.eqb v v' then (u', v', update_data d' d) :: l'
      else (u', v', d') :: update_edge u v d l'
  end.

(** [G.add_edge(u, v, **d)]: the end points become nodes if they are not. *)
Definition dg_add_edge (G : DiGraph) (u v : nat) (d : EdgeData) : DiGraph :=
  mkDiGraph (update_node v no_attrs (update_node u no_attrs (dg_node G)))
            (update_edge u v d (dg_edge G)).

Definition dg_has_node (G : DiGraph) (n : nat) : bool := mem n (node_ids (dg_node G)).

(** [G.nodes[n]] *)
Definition dg_attrs (G : DiGraph) (n : nat) : outcome NodeAttrs :=
  match lookup n (dg_node G) with
  | Some a => Ret a
  | None => Raise KeyError
  end.

Definition get_key {A : Type} (x : option A) : outcome A :=
  match x with
  | Some a => Ret a
  | None => Raise KeyError
  end.

(** [G.nodes[n]['is_terminal']], [G.nodes[n]['start']], [G.nodes[n]['type']] *)
Definition node_is_terminal (G : DiGraph) (n : nat) : outcome bool :=
  a <- dg_attrs G n ;; get_key (is_terminal a).

Definition node_start (G : DiGraph) (n : nat) : outcome Z :=
  a <- dg_attrs G n ;; get_key (start a).

Definition node_type (G : DiGraph) (n : nat) : outcome string :=
  a <- dg_attrs G n ;; get_key (type a).

(** The successors of [u], in the order their edges were added. *)
Definition successors (G : DiGraph) (u : nat) : list nat :=
  map (fun e => snd (fst e)) (filter (fun e => Nat.eqb (fst (fst e)) u) (dg_edge G)).

(** The edges out of [u], in the order they were added. *)
Definition out_edges (G : DiGraph) (u : nat) : list (nat * nat * EdgeData) :=
  filter (fun e => Nat.eqb (fst (fst e)) u) (dg_edge G).

(** [list(G.in_edges(n))]: the edges into [n], in the order they were added. *)
Definition in_edges (G : DiGraph) (n : nat) : outcome (list (nat * nat)) :=
  if dg_has_node G n
  then Ret (map fst (filter (fun e => Nat.eqb (snd (fst e)) n) (dg_edge G)))
  else Raise NetworkXError.

(** [G.edges(data=True)]: node by node, each node's out-edges in order. *)
Definition dg_edges (G : DiGraph) : list (nat * nat * EdgeData) :=
  flat_map (out_edges G) (node_ids (dg_node G)).

(** [G[u][v]] *)
Definition edge_data (G : DiGraph) (u v : nat) : outcome EdgeData :=
  match find (fun e => Nat.eqb (fst (fst e)) u && Nat.eqb (snd (fst e)) v) (dg_edge G) with
  | Some e => Ret (snd e)
  | None => Raise KeyError
  end.

(** [list(nx.single_source_shortest_path_length(G, source).keys())] *)
Definition single_source_shortest_path_length_keys (G : DiGraph) (source : nat)
  : outcome (list nat) :=
  if dg_has_node G source
  then Ret (map fst (bfs_from (successors G)
                              (map (fun e => snd (fst e)) (dg_edge G)) source))
  else Raise NodeNotFound.

(** ** Undirected graphs: [nx.Graph] *)

Record Graph (A : Type) : Type := mkGraph {
  g_node : list (nat * A);
  g_edge : list (nat * nat)
}.

Arguments mkGraph {A} g_node g_edge.
Arguments g_node {A} g.
Arguments g_edge {A} g.

Definition edge_eqb (u v : nat) (e : nat * nat) : bool :=
  (Nat.eqb u (fst e) && Nat.eqb v (snd e)) || (Nat.eqb u (snd e) && Nat.eqb v (fst e)).

(** The neighbours of [v], in the order their edges were added. *)
Definition neighbors {A : Type} (G : Graph A) (v : nat) : list nat :=
  flat_map (fun e => if Nat.eqb (fst e) v then [snd e]
                     else if Nat.eqb (snd e) v then [fst e] else [])
           (g_edge G).

(** [G.has_edge(u, v)] *)
Definition has_edge {A : Type} (G : Graph A) (u v : nat) : bool :=
  mem v (neighbors G u).

(** [len(G)] *)
Definition g_len {A : Type} (G : Graph A) : nat := length (g_node G).

(** Iterating over [G.edges]: node by node, each neighbour that is not an
    earlier node, so that every edge comes once. *)
Fixpoint edges_iter_aux {A : Type} (G : Graph A) (seen : list nat) (ns : list nat)
  : list (nat * nat) :=
  match ns with
  | [] => []
  | n :: ns' =>
      map (fun nbr => (n, nbr)) (filter (fun nbr => negb (mem nbr seen)) (neighbors G n))
      ++ edges_iter_aux G (n :: seen) ns'
  end.

Definition g_edges {A : Type} (G : Graph A) : list (nat * nat) :=
  edges_iter_aux G [] (node_ids (g_node G)).

(** [len(G.edges)]: half the sum of the degrees, a self-loop counting twice. *)
Definition g_edges_len {A : Type} (G : Graph A) : nat :=
  Nat.div (fold_right (fun n acc => length (neighbors G n)
                                    + (if mem n (neighbors G n) then 1 else 0) + acc)
                      0 (node_ids (g_node G))) 2.

Definition g_has_node {A : Type} (G : Graph A) (n : nat) : bool := mem n (node_ids (g_node G)).

Fixpoint update_gnode {A : Type} (upd : A -> A) (n : nat) (a : A) (l : list (nat * A))
  : list (nat * A) :=
  match l with
  | [] => [(n, a)]
  | (m, b) :: l' => if Nat.eqb n m then (m, upd b) :: l'
                    else (m, b) :: update_gnode upd n a l'
  end.

(** [G.add_node(n, **a)] *)
Definition g_add_node (G : Graph NodeAttrs) (n : nat) (a : NodeAttrs) : Graph NodeAttrs :=
  mkGraph (update_gnode (fun b => update_attrs b a) n a (g_node G)) (g_edge G).

(** [G.add_edge(u, v)] *)
Definition g_add_edge (G : Graph NodeAttrs) (u v : nat) : Graph NodeAttrs :=
  mkGraph (update_gnode (fun b => b) v no_attrs
             (update_gnode (fun b => b) u no_attrs (g_node G)))
          (if existsb (edge_eqb u v) (g_edge G) then g_edge G
           else g_edge G ++ [(u, v)]).

(** [nx.Graph(G)]: the nodes of [G] and its edges without their direction. *)
Definition to_undirected (G : DiGraph) : Graph NodeAttrs :=
  fold_left (fun U e => g_add_edge U (fst (fst e)) (snd (fst e)))
            (dg_edges G) (mkGraph (dg_node G) []).

(** [nx.shortest_path(G, source, target)].  The graphs it is applied to here
    are trees, where the path between two nodes is unique. *)
Definition shortest_path {A : Type} (G : Graph A) (source target : nat)
  : outcome (list nat) :=
  if g_has_node G source && g_has_node G target
  then match lookup target (bfs_from (neighbors G)
                              (map fst (g_edge G) ++ map snd (g_edge G)) source) with
       | Some p => Ret (rev p)
       | None => Raise NetworkXNoPath
       end
  else Raise NodeNotFound.

(** ** The parser's tree *)

(** A node of the parser's tree: its grammar symbol, its byte span and its
    children. *)
Inductive TSNode : Type :=
| TS (ts_type : string) (start_byte end_byte : Z) (children : list TSNode).

Definition ts_type (t : TSNode) : string := match t with TS ty _ _ _ => ty end.
Definition start_byte (t : TSNode) : Z := match t with TS _ s _ _ => s end.
Definition end_byte (t : TSNode) : Z := match t with TS _ _ e _ => e end.
Definition children (t : TSNode) : list TSNode := match t with TS _ _ _ cs => cs end.

(** ** The module [code2ast] *)

(** [getId]: a new id in the graph. *)
Definition getId {A : Type} (nodes : list (nat * A)) : nat :=
  if length nodes =? 0 then 0
  else fold_right Nat.max 0 (node_ids nodes) + 1.

(** [getGraphFromTree]: the graph of the tree below [node], whose id is
    [id_father]. *)
Fixpoint getGraphFromTree (node : TSNode) (G : DiGraph) (id_father : nat) : DiGraph :=
  match node with
  | TS _ _ _ cs =>
      (fix traverse (cs : list TSNode) (G : DiGraph) : DiGraph :=
         match cs with
         | [] => G
         | child :: cs' =>
             let is_terminal_child := length (children child) =? 0 in
             let id_child := getId (dg_node G) in
             let G1 := dg_add_node G id_child
                         (mkAttrs (Some (ts_type child)) (Some is_terminal_child)
                                  (Some (start_byte child)) (Some (end_byte child))) in
             let G2 := dg_add_edge G1 id_father id_child no_data in
             traverse cs' (getGraphFromTree child G2 id_child)
         end) cs G
  end.

(** [getCandidate]: the candidate head below the nonterminal [level]. *)
Definition getCandidate (G : DiGraph) (level : nat) (start : Z) : outcome (option nat) :=
  nodes <- single_source_shortest_path_length_keys G level ;;
  nodes <- filterM (node_is_terminal G) nodes ;;
  nodes <- filterM (fun n => s <- node_start G n ;; Ret (s <? start)%Z) nodes ;;
  if length nodes =? 0 then Ret None
  else
    nodes <- sort_by_key (node_start G) nodes ;;
    x <- py_index nodes 0 ;;
    Ret (Some x).

(** [list(G.in_edges(n))[0][0]] *)
Definition first_in_edge (G : DiGraph) (n : nat) : outcome nat :=
  es <- in_edges G n ;;
  e <- py_index es 0 ;;
  Ret (fst e).

(** The loop of [selectHead], with a budget of [fuel] iterations. *)
Fixpoint selectHead_loop (fuel : nat) (G : DiGraph) (n father : nat) : outcome nat :=
  match fuel with
  | 0 => OutOfFuel
  | S fuel' =>
      s <- node_start G n ;;
      cand <- getCandidate G father s ;;
      match cand with
      | Some c => Ret c
      | None =>
          father' <- first_in_edge G father ;;
          selectHead_loop fuel' G n father'
      end
  end.

(** [selectHead]: the head of a terminal that is not the root. *)
Definition selectHead (fuel : nat) (G : DiGraph) (n : nat) : outcome nat :=
  father <- first_in_edge G n ;;
  selectHead_loop fuel G n father.

(** [getRoot]: the root of the dependency tree. *)
Definition getRoot (G : DiGraph) : outcome nat :=
  nodes <- filterM (node_is_terminal G) (node_ids (dg_node G)) ;;
  nodes <- sort_by_key (node_start G) nodes ;;
  py_index nodes 0.

Section Code2Ast.

(** The collaborators of [code2ast]: the two comment strippers of
    [utils] and the parser's [parse] method. *)
Variable remove_comments_and_docstrings_python : string -> outcome string.
Variable remove_comments_and_docstrings_java_js : string -> outcome string.

(** The graph both branches of [code2ast] build from the parser's tree. *)
Definition ast_graph (root_node : TSNode) : DiGraph :=
  getGraphFromTree root_node
    (dg_add_node empty_digraph 0
       (mkAttrs (Some (ts_type root_node)) (Some false)
                (Some (start_byte root_node)) (Some (end_byte root_node))))
    0.

(** [code2ast]: the graph of the tree and the preprocessed code; [None]
    when no branch is taken. *)
Definition code2ast (code : string) (parse : string -> outcome TSNode) (lang : string)
  : outcome (option (DiGraph * string)) :=
  if String.eqb lang "python" then
    code <- remove_comments_and_docstrings_python code ;;
    tree <- parse code ;;
    Ret (Some (ast_graph tree, code))
  else if String.eqb lang "javascript" then
    code <- remove_comments_and_docstrings_java_js code ;;
    tree <- parse code ;;
    Ret (Some (ast_graph tree, code))
  else Ret None.

End Code2Ast.

Definition dependency : EdgeData := mkEdge (Some "dependency") None None.

(** The nodes both [enrichAstWithDeps] and [labelDepTree] loop over. *)
Definition non_root_terminals (G : DiGraph) (root : nat) : outcome (list nat) :=
  filterM (fun n => if negb (Nat.eqb root n) then node_is_terminal G n else Ret false)
          (node_ids (dg_node G)).

(** [enrichAstWithDeps]: the graph with a dependency edge into every
    terminal but the root. *)
Definition enrichAstWithDeps (fuel : nat) (G : DiGraph) : outcome DiGraph :=
  root <- getRoot G ;;
  nodes <- non_root_terminals G root ;;
  foldM (fun G n => h <- selectHead fuel G n ;; Ret (dg_add_edge G h n dependency))
        nodes G.

(** Truth value of [d.get("label", 'dependency')]. *)
Definition filter_edge (d : EdgeData) : bool :=
  match label d with
  | Some s => negb (String.eqb s "")
  | None => true
  end.

(** What [nx.DiGraph(view)] reads off the view: the nodes the node filter
    keeps and, from each of them, the edges both filters keep.  The view is
    lazy, so that the filters run here. *)
Definition copy_of_view (G : DiGraph) : outcome DiGraph :=
  keep <- filterM (node_is_terminal G) (node_ids (dg_node G)) ;;
  let ns := filter (fun na => mem (fst na) keep) (dg_node G) in
  let es := flat_map (fun u => filter (fun e => mem (snd (fst e)) keep
                                               && filter_edge (snd e))
                                      (out_edges G u)) keep in
  Ret (mkDiGraph ns es).

(** The constructor of a graph from a graph: whatever is raised while the
    data is read is raised anew as [NetworkXError]. *)
Definition from_graph_data {A : Type} (c : outcome A) : outcome A :=
  match c with
  | Ret a => Ret a
  | Raise _ => Raise NetworkXError
  | OutOfFuel => OutOfFuel
  end.

(** [getDependencyTree]: a copy of the subgraph on the terminals. *)
Definition getDependencyTree (G : DiGraph) : outcome DiGraph :=
  from_graph_data (copy_of_view G).

(** [getHeadDepTree] *)
Definition getHeadDepTree (T : DiGraph) (n : nat) : outcome nat := first_in_edge T n.

(** [getDepth] *)
Definition getDepth (G : DiGraph) (n root : nat) : outcome nat :=
  p <- shortest_path (to_undirected G) n root ;;
  Ret (length (py_interior p)).

(** [T[h][n]['complex_edge'] = c; T[h][n]['complex_edge_str'] = str(c)] *)
Definition set_complex_edge (T : DiGraph) (h n : nat) (c : ComplexEdgeLabels)
  : outcome DiGraph :=
  _ <- edge_data T h n ;;
  Ret (mkDiGraph (dg_node T)
         (update_edge h n (mkEdge None (Some c) (Some (label_str c))) (dg_edge T))).

(** The index the loop over [spine_n] leaves behind: that, in [spine_head],
    of the last node of [spine_n] found there. *)
Definition last_shared_index (spine_n spine_head : list nat) : option nat :=
  fold_left (fun index m => if mem m spine_head then py_list_index m spine_head
                            else index)
            spine_n None.

(** The label [labelDepTree] computes for the edge into [n]. *)
Definition edge_label (G T : DiGraph) (root n : nat) : outcome (nat * ComplexEdgeLabels) :=
  h <- getHeadDepTree T n ;;
  if Nat.eqb h root then
    p <- shortest_path (to_undirected G) h n ;;
    let nodes := py_interior p in
    node_types <- mapM (node_type G) nodes ;;
    node_depths <- mapM (fun m => getDepth G m root) nodes ;;
    Ret (h, mkLabel node_types node_depths 0%Z)
  else
    h_head <- getHeadDepTree T h ;;
    p_head <- shortest_path (to_undirected G) h h_head ;;
    let spine_head := py_interior p_head in
    p_n <- shortest_path (to_undirected G) h n ;;
    let spine_n := py_interior p_n in
    let index := match last_shared_index spine_n spine_head with
                 | Some i => Z.of_nat i
                 | None => (Z.of_nat (length spine_n) - 1)%Z
                 end in
    spine_n_types <- mapM (node_type G) spine_n ;;
    node_depths <- mapM (fun m => getDepth G m root) spine_n ;;
    Ret (h, mkLabel spine_n_types node_depths index).

(** [labelDepTree]: the dependency tree with a label on every edge. *)
Definition labelDepTree (G T : DiGraph) : outcome DiGraph :=
  root <- getRoot G ;;
  nodes <- non_root_terminals G root ;;
  foldM (fun T n =>
           hc <- edge_label G T root n ;;
           set_complex_edge T (fst hc) n (snd hc))
        nodes T.

(** [get_correspondence]: the first node of [T_ast] with the attributes of
    [n] in [T]. *)
Fixpoint get_correspondence_loop (nodes : list (nat * NodeAttrs)) (T : DiGraph) (n : nat)
  : outcome (option nat) :=
  match nodes with
  | [] => Ret None
  | (m, b) :: rest =>
      a <- dg_attrs T n ;;
      if attrs_eqb b a then Ret (Some m) else get_correspondence_loop rest T n
  end.

Definition get_correspondence (T_ast : Graph NodeAttrs) (T : DiGraph) (n : nat)
  : outcome (option nat) :=
  get_correspondence_loop (g_node T_ast) T n.

(** [nx.shortest_path] on what [get_correspondence] returned, up to the
    slice that follows it.  With [None] for an end, the library returns the
    dictionary of the paths from or to the other end, or of all paths, and
    the slice of a dictionary is a [TypeError]; when the end that is given
    is no node of the graph, the library raises [NodeNotFound]. *)
Definition shortest_path_opt (G : Graph NodeAttrs) (source target : option nat)
  : outcome (list nat) :=
  match source, target with
  | Some s, Some t => shortest_path G s t
  | Some x, None | None, Some x =>
      if g_has_node G x then Raise TypeError else Raise NodeNotFound
  | None, None => Raise TypeError
  end.

(** The inner loop of the reconstruction: a chain of new nonterminals. *)
Fixpoint append_chain (T_ast : Graph NodeAttrs) (node_append : nat) (to_append : list string)
  : Graph NodeAttrs * nat :=
  match to_append with
  | [] => (T_ast, node_append)
  | nt :: rest =>
      let m := getId (g_node T_ast) in
      let T1 := g_add_node T_ast m (mkAttrs (Some nt) (Some false) None None) in
      let T2 := g_add_edge T1 m node_append in
      append_chain T2 m rest
  end.

(** The body of the outer loop of the reconstruction. *)
Definition reconstruct_step (T : DiGraph) (root : nat) (T_ast : Graph NodeAttrs) (n : nat)
  : outcome (Graph NodeAttrs) :=
  h <- getHeadDepTree T n ;;
  path <- (if Nat.eqb h root then
             p <- shortest_path T_ast 2 0 ;; Ret (py_interior p)
           else
             h_head <- getHeadDepTree T h ;;
             h_correspondence <- get_correspondence T_ast T h ;;
             h_head_correspondence <- get_correspondence T_ast T h_head ;;
             p <- shortest_path_opt T_ast h_correspondence h_head_correspondence ;;
             Ret (py_interior p)) ;;
  d <- edge_data T h n ;;
  c <- get_key (complex_edge d) ;;
  na <- get_node_to_append c path ;;
  let (T1, node_append) := append_chain T_ast (fst na) (snd na) in
  let m := getId (g_node T1) in
  a <- dg_attrs T n ;;
  Ret (g_add_edge (g_add_node T1 m a) m node_append).

(** [from_label_dep_tree_to_ast]: the tree rebuilt from the labelled
    dependency tree. *)
Definition from_label_dep_tree_to_ast (T : DiGraph) (lang : string)
  : outcome (Graph NodeAttrs) :=
  let T_ast := mkGraph [] [] in
  root <- getRoot T ;;
  if String.eqb lang "python" then
    let T_ast := g_add_node T_ast 0 (mkAttrs (Some "module") (Some false) None None) in
    let T_ast := g_add_node T_ast 1
                   (mkAttrs (Some "function_definition") (Some false) None None) in
    a <- dg_attrs T root ;;
    let T_ast := g_add_node T_ast 2 a in
    let T_ast := g_add_edge T_ast 0 1 in
    let T_ast := g_add_edge T_ast 1 2 in
    let nodes := filter (fun n => negb (Nat.eqb n root)) (node_ids (dg_node T)) in
    nodes <- sort_by_key (node_start T) nodes ;;
    foldM (reconstruct_step T root) nodes T_ast
  else Ret T_ast.

(** [getUAS]: the share of the edges of [T_pred] that [T_true] has.  The
    quotient of the two floats is kept as the fraction it rounds. *)
Definition getUAS {A B : Type} (T_true : Graph A) (T_pred : Graph B) : outcome Q :=
  if negb (g_len T_true =? g_len T_pred) then Raise AssertionError
  else if negb (g_edges_len T_true =? g_edges_len T_pred) then Raise AssertionError
  else
    let '(count, i) :=
      fold_left (fun ci e =>
                   let '(count, i) := ci in
                   ((if has_edge T_true (fst e) (snd e) then count + 1 else count), i + 1))
                (g_edges T_pred) (0, 0) in
    if i =? 0 then Raise ZeroDivisionError
    else Ret (Z.of_nat count # Pos.of_nat i).


(** * Specification-level definitions *)

(** What the loop of [getUAS] leaves in [count] and [i]. *)
Definition uas_loop {A : Type} (T_true : Graph A) (es : list (nat * nat)) (ci : nat * nat)
  : nat * nat :=
  fold_left (fun ci e =>
               let '(count, i) := ci in
               ((if has_edge T_true (fst e) (snd e) then count + 1 else count), i + 1))
            es ci.

(** A tree of one node, and two paths on three nodes. *)
Definition one_node : Graph unit := mkGraph [(0, tt)] [].
Definition path_012 : Graph unit := mkGraph [(0, tt); (1, tt); (2, tt)] [(0, 1); (1, 2)].
Definition path_01 : Graph unit := mkGraph [(0, tt); (1, tt)] [(0, 1)].
Definition two_nodes : Graph unit := mkGraph [(0, tt); (1, tt)] [].

Definition path_0123 : Graph unit :=
  mkGraph [(0, tt); (1, tt); (2, tt); (3, tt)] [(0, 1); (1, 2); (2, 3)].
Definition path_1302 : Graph unit :=
  mkGraph [(0, tt); (1, tt); (2, tt); (3, tt)] [(1, 3); (3, 0); (0, 2)].

(** ** Paths and reachability *)

(** Consecutive elements of [l] are related by [R]. *)
Fixpoint chain {A : Type} (R : A -> A -> Prop) (l : list A) : Prop :=
  match l with
  | x :: (y :: _) as l' => R x y /\ chain R l'
  | _ => True
  end.

(** [p] is a path from [a] to [b] along the adjacency [adj]; it lists both
    end points. *)
Definition path (adj : nat -> list nat) (a b : nat) (p : list nat) : Prop :=
  hd_error p = Some a /\ last p a = b /\ chain (fun x y => In y (adj x)) p.

(** A path that visits no node twice. *)
Definition simple_path (adj : nat -> list nat) (a b : nat) (p : list nat) : Prop :=
  path adj a b p /\ NoDup p.

(** [y] can be reached from [x] along [adj]. *)
Inductive reach (adj : nat -> list nat) (x : nat) : nat -> Prop :=
| reach_refl : reach adj x x
| reach_step (y z : nat) : reach adj x y -> In z (adj y) -> reach adj x z.

(** An undirected adjacency in which every node has at most one neighbour
    with a smaller id, and none is its own neighbour: a forest whose edges
    join a node to its parent, the parent having the smaller id. *)
Record forest (adj : nat -> list nat) : Prop := {
  forest_sym : forall a b, In b (adj a) -> In a (adj b);
  forest_irrefl : forall a, ~ In a (adj a);
  forest_parent : forall c x y, In x (adj c) -> In y (adj c) -> x < c -> y < c -> x = y
}.

(** What the breadth-first search from [src] knows of every queued node:
    the path that found it, which repeats no node and stays among the seen
    nodes. *)
Definition queued_ok (adj : nat -> list nat) (src : nat) (seen : list nat)
  (e : nat * list nat) : Prop :=
  path adj src (fst e) (rev (snd e)) /\ NoDup (snd e) /\ incl (snd e) seen.

(** ** Constituency trees *)

Definition is_node (G : DiGraph) (n : nat) : Prop := In n (node_ids (dg_node G)).

(** The attributes of a node, read without the [KeyError]. *)
Definition attrs_of (G : DiGraph) (n : nat) : NodeAttrs :=
  match lookup n (dg_node G) with
  | Some a => a
  | None => no_attrs
  end.

Definition terminal (G : DiGraph) (n : nat) : bool :=
  match is_terminal (attrs_of G n) with Some b => b | None => false end.

Definition start_of (G : DiGraph) (n : nat) : Z :=
  match start (attrs_of G n) with Some s => s | None => 0%Z end.

Definition type_of (G : DiGraph) (n : nat) : string :=
  match type (attrs_of G n) with Some s => s | None => "" end.

(** The terminals of a graph, in node order. *)
Definition terminals (G : DiGraph) : list nat :=
  filter (terminal G) (node_ids (dg_node G)).

(** The nonterminals of a graph, in node order. *)
Definition nonterminals (G : DiGraph) : list nat :=
  filter (fun n => negb (terminal G n)) (node_ids (dg_node G)).

(** The source of the first edge into [n]. *)
Definition parent (G : DiGraph) (n : nat) : option nat :=
  match filter (fun e => Nat.eqb (snd (fst e)) n) (dg_edge G) with
  | e :: _ => Some (fst (fst e))
  | [] => None
  end.

Definition full_attrs (a : NodeAttrs) : bool :=
  match type a, is_terminal a, start a, end_ a with
  | Some _, Some _, Some _, Some _ => true
  | _, _, _, _ => false
  end.

Definition empty_data (d : EdgeData) : bool :=
  match label d, complex_edge d, complex_edge_str d with
  | None, None, None => true
  | _, _, _ => false
  end.

Definition edge_target (e : nat * nat * EdgeData) : nat := snd (fst e).
Definition edge_source (e : nat * nat * EdgeData) : nat := fst (fst e).

(** A constituency tree as the tree builder makes it: ids are unique, node
    0 is the root, every edge goes from a node to a node of larger id and
    carries no attribute, every node but the root has exactly one incoming
    edge, every node has its four attributes, and a node is a terminal
    exactly when it has no child and is not the root. *)
Record ast_tree (G : DiGraph) : Prop := {
  at_nodup : NoDup (node_ids (dg_node G));
  at_root : is_node G 0;
  at_edge : forall e, In e (dg_edge G) ->
              is_node G (edge_source e) /\ is_node G (edge_target e)
              /\ edge_source e < edge_target e /\ snd e = no_data;
  at_one_parent : NoDup (map edge_target (dg_edge G));
  at_has_parent : forall n, is_node G n -> n <> 0 -> In n (map edge_target (dg_edge G));
  at_attrs : forall na, In na (dg_node G) -> full_attrs (snd na) = true;
  at_leaf : forall n, is_node G n ->
              terminal G n = negb (Nat.eqb n 0) && (length (successors G n) =? 0)
}.

(** No two terminals start at the same byte. *)
Definition distinct_starts (G : DiGraph) : Prop :=
  NoDup (map (start_of G) (terminals G)).

Fixpoint nodupb (l : list nat) : bool :=
  match l with
  | [] => true
  | x :: l' => negb (mem x l') && nodupb l'
  end.

Fixpoint nodupZb (l : list Z) : bool :=
  match l with
  | [] => true
  | x :: l' => negb (existsb (Z.eqb x) l') && nodupZb l'
  end.

(** The conditions of [ast_tree], computed. *)
Definition ast_treeb (G : DiGraph) : bool :=
  let ids := node_ids (dg_node G) in
  nodupb ids
  && mem 0 ids
  && forallb (fun e => mem (edge_source e) ids && mem (edge_target e) ids
                       && (edge_source e <? edge_target e) && empty_data (snd e))
             (dg_edge G)
  && nodupb (map edge_target (dg_edge G))
  && forallb (fun n => (n =? 0) || mem n (map edge_target (dg_edge G))) ids
  && forallb (fun na => full_attrs (snd na)) (dg_node G)
  && forallb (fun n => Bool.eqb (terminal G n)
                         (negb (Nat.eqb n 0) && (length (successors G n) =? 0))) ids.

Definition distinct_startsb (G : DiGraph) : bool :=
  nodupZb (map (start_of G) (terminals G)).

(** ** Heads *)

(** [c] is the terminal with the smallest start among the terminals that
    can be reached from [level] and start before [s]. *)
Definition candidate_at (G : DiGraph) (level : nat) (s : Z) (c : nat) : Prop :=
  reach (successors G) level c /\ terminal G c = true /\ (start_of G c < s)%Z
  /\ forall y, reach (successors G) level y -> terminal G y = true ->
               (start_of G y < s)%Z -> (start_of G c <= start_of G y)%Z.

(** No terminal that can be reached from [level] starts before [s]. *)
Definition no_candidate_at (G : DiGraph) (level : nat) (s : Z) : Prop :=
  forall y, reach (successors G) level y -> terminal G y = true ->
            ~ (start_of G y < s)%Z.

(** [anc] lists the ancestors of [n] from its parent upwards, each the
    parent of the one before. *)
Definition ancestors_from (G : DiGraph) (n : nat) (anc : list nat) : Prop :=
  chain (fun x y => parent G x = Some y) (n :: anc).

(** [h] is the head of [n]: the candidate at the nearest ancestor of [n]
    that has one. *)
Definition head_of (G : DiGraph) (n h : nat) : Prop :=
  exists anc P,
    ancestors_from G n (anc ++ [P])
    /\ candidate_at G P (start_of G n) h
    /\ forall f, In f anc -> no_candidate_at G f (start_of G n).

(** ** Auxiliary notions *)

(** Order of the keys. *)
Definition key_le {A : Type} (x y : A * Z) : Prop := (snd x <= snd y)%Z.

(** Every node has its four attributes. *)
Definition attrs_ok (G : DiGraph) : Prop :=
  forall na, In na (dg_node G) -> full_attrs (snd na) = true.

(** The nodes sorted by start, the lookups having succeeded. *)
Definition sorted_by_start (G : DiGraph) (l : list nat) : list nat :=
  map fst (stable_sort (combine l (map (start_of G) l))).

(** Every edge joins two nodes. *)
Definition edges_ok (G : DiGraph) : Prop :=
  forall e, In e (dg_edge G) -> is_node G (edge_source e) /\ is_node G (edge_target e).

(** A dependency edge over the tree [G]: from a terminal to a terminal that
    starts later, its head (in the sense of [head_of]) being the source. *)
Definition dep_ok (G : DiGraph) (e : nat * nat * EdgeData) : Prop :=
  is_node G (edge_source e) /\ is_node G (edge_target e)
  /\ terminal G (edge_source e) = true /\ terminal G (edge_target e) = true
  /\ (start_of G (edge_source e) < start_of G (edge_target e))%Z
  /\ snd e = dependency.

(** [G'] is the tree [G] with the dependency edges [deps] added. *)
Definition enriched_by (G : DiGraph) (deps : list (nat * nat * EdgeData)) (G' : DiGraph)
  : Prop :=
  dg_node G' = dg_node G /\ dg_edge G' = dg_edge G ++ deps /\ Forall (dep_ok G) deps.

(** ** An example *)

(** The parser's tree of [def f(a, b): return a]. *)
Definition example_tree : TSNode :=
  TS "module" 0 24
    [TS "function_definition" 0 24
       [TS "def" 0 3 [];
        TS "identifier" 4 5 [];
        TS "parameters" 5 11
          [TS "(" 5 6 []; TS "identifier" 6 7 []; TS "," 7 8 [];
           TS "identifier" 9 10 []; TS ")" 10 11 []];
        TS ":" 11 12 [];
        TS "block" 13 24
          [TS "return_statement" 13 24
             [TS "return" 13 19 []; TS "identifier" 20 21 []]]]].

Definition example_graph : DiGraph := ast_graph example_tree.

(** ** Walking to the root of the dependency tree *)

(** The nodes visited from [n] by following head edges, at most [fuel]
    times, until a node has none. *)
Fixpoint follow_heads (fuel : nat) (T : DiGraph) (n : nat) : list nat :=
  match fuel with
  | 0 => [n]
  | S fuel' =>
      match getHeadDepTree T n with
      | Ret h => n :: follow_heads fuel' T h
      | _ => [n]
      end
  end.

(** The edge into [target e] comes from its head. *)
Definition head_edge (G : DiGraph) (e : nat * nat * EdgeData) : Prop :=
  head_of G (edge_target e) (edge_source e).

(** The nodes that get a head: the terminals but the root, in node order. *)
Definition dependents (G : DiGraph) (root : nat) : list nat :=
  filter (fun n => negb (Nat.eqb root n) && terminal G n) (node_ids (dg_node G)).

(** A bound on the ids of a graph. *)
Definition max_id (G : DiGraph) : nat := fold_right Nat.max 0 (node_ids (dg_node G)).

(** What [getDependencyTree] makes of a tree with dependency edges. *)
Record dep_tree_of (G : DiGraph) (deps : list (nat * nat * EdgeData)) (T : DiGraph)
  : Prop := {
  dt_nodes : dg_node T = filter (fun na => terminal G (fst na)) (dg_node G);
  dt_edges : Permutation (dg_edge T) deps
}.

(** ** The undirected view *)

(** [a] and [b] are joined by an edge of [U]. *)
Definition uedge {A : Type} (U : Graph A) (a b : nat) : Prop :=
  In (a, b) (g_edge U) \/ In (b, a) (g_edge U).

(** The adjacency of the constituency tree without the direction of its
    edges. *)
Definition tree_adj (G : DiGraph) : nat -> list nat := neighbors (to_undirected G).

(** ** Labels *)

(** The nodes strictly between [a] and [b] on the path [nx.shortest_path]
    returns in the undirected tree. *)
Definition spine (G : DiGraph) (a b : nat) : list nat :=
  match shortest_path (to_undirected G) a b with
  | Ret p => py_interior p
  | _ => []
  end.

(** What [getDepth] returns on a tree. *)
Definition depth_of (G : DiGraph) (root m : nat) : nat := length (spine G m root).

(** The label [labelDepTree] puts on the edge from [h] to [n], [h_head]
    being the head of [h] when [h] is not the root. *)
Definition label_of (G : DiGraph) (root h h_head n : nat) : ComplexEdgeLabels :=
  let spine_n := spine G h n in
  mkLabel (map (type_of G) spine_n) (map (depth_of G root) spine_n)
    (if Nat.eqb h root then 0%Z
     else match last_shared_index spine_n (spine G h h_head) with
          | Some i => Z.of_nat i
          | None => (Z.of_nat (length spine_n) - 1)%Z
          end).

(** The edge [e] of the labelled tree carries the label of [label_of]. *)
Definition labelled (G : DiGraph) (root : nat) (deps : list (nat * nat * EdgeData))
  (e : nat * nat * EdgeData) : Prop :=
  exists h_head,
    complex_edge (snd e) = Some (label_of G root (edge_source e) h_head (edge_target e))
    /\ (edge_source e <> root -> exists d, In (h_head, edge_source e, d) deps).

(** The special index as the specification words it: the position in
    [spine_head] of the last node of [spine_n] that occurs in [spine_head];
    when the spines share no node, the last position of [spine_n]. *)
Definition special_index_spec (spine_n spine_head : list nat) (i : Z) : Prop :=
  (exists pre m post,
      spine_n = pre ++ m :: post /\ In m spine_head
      /\ (forall x, In x post -> ~ In x spine_head)
      /\ (0 <= i)%Z /\ py_list_index m spine_head = Some (Z.to_nat i))
  \/ ((forall x, In x spine_n -> ~ In x spine_head)
      /\ i = (Z.of_nat (length spine_n) - 1)%Z).

(** The number of edges between [m] and node 0 in the constituency tree. *)
Definition depth_to_node0 (G : DiGraph) (m : nat) : outcome nat :=
  p <- shortest_path (to_undirected G) m 0 ;;
  Ret (length p - 1).

(** The pipeline up to the labelled dependency tree. *)
Definition labelled_tree (fuel : nat) (G : DiGraph) : outcome DiGraph :=
  E <- enrichAstWithDeps fuel G ;;
  T <- getDependencyTree E ;;
  labelDepTree G T.

(** The labelled dependency tree of the example. *)
Definition example_labelled : DiGraph :=
  Eval vm_compute in
    match labelled_tree 14 example_graph with
    | Ret L => L
    | _ => empty_digraph
    end.

(** The depths as the specification describes them: every entry is the
    number of edges between its nonterminal and node 0. *)
Definition depths_to_node0 (fuel : nat) (G : DiGraph) : Prop :=
  forall L h n d c i m k,
    labelled_tree fuel G = Ret L ->
    In (h, n, d) (dg_edge L) -> complex_edge d = Some c ->
    nth_error (spine G h n) i = Some m ->
    nth_error (depths c) i = Some k ->
    depth_to_node0 G m = Ret k.

(** ** Reconstruction *)

(** The root scaffold of a Python function: node 0 is a [module] whose only
    child is a [function_definition], of which the leftmost terminal [root]
    is a child. *)
Definition scaffold (G : DiGraph) (root fd : nat) : Prop :=
  successors G 0 = [fd]
  /\ type_of G 0 = "module"
  /\ type_of G fd = "function_definition"
  /\ parent G root = Some fd.

(** The head the dependency edges [deps] give to [n]. *)
Definition head_in (deps : list (nat * nat * EdgeData)) (n : nat) : nat :=
  match find (fun e => Nat.eqb (edge_target e) n) deps with
  | Some e => edge_source e
  | None => 0
  end.

(** The nodes of the constituency tree whose types the reconstruction
    appends for the dependent [n]: the spine from the head of [n] to [n]
    after the special index. *)
Definition new_nodes (G : DiGraph) (root : nat) (deps : list (nat * nat * EdgeData))
  (n : nat) : list nat :=
  let h := head_in deps n in
  let h_head := head_in deps h in
  py_slice_from (spine G h n) (special_index (label_of G root h h_head n) + 1).

(** The attributes of the terminals among [nodes], sorted by start. *)
Definition terminals_by_start (nodes : list (nat * NodeAttrs)) : list NodeAttrs :=
  map fst (stable_sort
             (map (fun a => (a, match start a with Some s => s | None => 0%Z end))
                  (filter (fun a => match is_terminal a with
                                    | Some b => b
                                    | None => false
                                    end) (map snd nodes)))).

(** The types of the nonterminals among [nodes]. *)
Definition nonterminal_types (nodes : list (nat * NodeAttrs)) : list (option string) :=
  map type (filter (fun a => match is_terminal a with
                             | Some b => negb b
                             | None => true
                             end) (map snd nodes)).

(** The whole round trip: dependency projection, edge labelling and
    reconstruction. *)
Definition round_trip (fuel : nat) (G : DiGraph) : outcome (Graph NodeAttrs) :=
  L <- labelled_tree fuel G ;;
  from_label_dep_tree_to_ast L "python".

(** The attributes of a nonterminal of the rebuilt tree. *)
Definition nonterm_attrs (ty : string) : NodeAttrs :=
  mkAttrs (Some ty) (Some false) None None.

(** What [get_correspondence] finds for the attributes [a]. *)
Definition corr (R : Graph NodeAttrs) (a : NodeAttrs) : option nat :=
  option_map fst (find (fun mb => attrs_eqb (snd mb) a) (g_node R)).

(** Hanging a chain of new nodes with the attributes [l] under [x]: the
    inner loop of the reconstruction and the terminal it ends with. *)
Fixpoint attach_chain (R : Graph NodeAttrs) (x : nat) (l : list NodeAttrs)
  : Graph NodeAttrs * nat :=
  match l with
  | [] => (R, x)
  | a :: l' =>
      let m := getId (g_node R) in
      attach_chain (g_add_edge (g_add_node R m a) m x) m l'
  end.

(** An undirected graph built by hanging new nodes under old ones. *)
Record grown (R : Graph NodeAttrs) : Prop := {
  gr_nodup : NoDup (node_ids (g_node R));
  gr_edges : forall a b, In (a, b) (g_edge R) ->
               In a (node_ids (g_node R)) /\ In b (node_ids (g_node R));
  gr_forest : forest (neighbors R)
}.

(** The attributes the reconstruction adds for the dependent [n]. *)
Definition added_attrs (G : DiGraph) (root : nat) (deps : list (nat * nat * EdgeData))
  (n : nat) : list NodeAttrs :=
  map nonterm_attrs (map (type_of G) (new_nodes G root deps n)) ++ [attrs_of G n].

(** The state of the reconstruction after the dependents [done]. *)
Record recon_inv (G : DiGraph) (root : nat) (deps : list (nat * nat * EdgeData))
  (R : Graph NodeAttrs) (done : list nat) : Prop := {
  ri_grown : grown R;
  ri_attrs : map snd (g_node R)
             = nonterm_attrs "module" :: nonterm_attrs "function_definition"
               :: attrs_of G root :: flat_map (added_attrs G root deps) done;
  ri_scaffold : simple_path (neighbors R) 2 0 [2; 1; 0];
  ri_root : corr R (attrs_of G root) = Some 2;
  ri_paths : forall n, In n done ->
    exists cn ch p,
      corr R (attrs_of G n) = Some cn
      /\ corr R (attrs_of G (head_in deps n)) = Some ch
      /\ simple_path (neighbors R) cn ch p
      /\ length (py_interior p) = length (spine G (head_in deps n) n)
}.

(** ** Two small trees for the round trip *)

(** [def f(): pass], with six terminals: the leftmost is a child of the
    function definition. *)
Definition small_tree : TSNode :=
  TS "module" 0 17
    [TS "function_definition" 0 17
       [TS "def" 0 3 [];
        TS "identifier" 4 5 [];
        TS "parameters" 5 7 [TS "(" 5 6 []; TS ")" 6 7 []];
        TS ":" 7 8 [];
        TS "block" 13 17 [TS "pass_statement" 13 17 [TS "pass" 13 17 []]]]].

Definition small_graph : DiGraph := ast_graph small_tree.

(** A tree of three terminals below [module] and [function_definition],
    whose leftmost terminal is not a child of the function definition. *)
Definition nested_tree : TSNode :=
  TS "module" 0 11
    [TS "function_definition" 0 11
       [TS "modifiers" 0 5 [TS "async" 0 5 []];
        TS "def" 6 9 [];
        TS "identifier" 10 11 []]].

Definition nested_graph : DiGraph := ast_graph nested_tree.

(** ** A graph that is no tree *)

(** Three terminals, the second below two nonterminals: its path to its
    head (node 0, through node 2) and its path to its dependent (node 4,
    through node 3) share no node. *)
Definition forked_graph : DiGraph :=
  mkDiGraph [(0, mkAttrs (Some "x") (Some true) (Some 0%Z) (Some 1%Z));
             (1, mkAttrs (Some "y") (Some true) (Some 2%Z) (Some 3%Z));
             (2, mkAttrs (Some "a") (Some false) (Some 0%Z) (Some 3%Z));
             (3, mkAttrs (Some "b") (Some false) (Some 2%Z) (Some 5%Z));
             (4, mkAttrs (Some "z") (Some true) (Some 4%Z) (Some 5%Z))]
            [(2, 0, no_data); (2, 1, no_data); (3, 1, no_data); (3, 4, no_data)].

(** Its terminals, each the head of the next. *)
Definition forked_deps : DiGraph :=
  mkDiGraph [(0, mkAttrs (Some "x") (Some true) (Some 0%Z) (Some 1%Z));
             (1, mkAttrs (Some "y") (Some true) (Some 2%Z) (Some 3%Z));
             (4, mkAttrs (Some "z") (Some true) (Some 4%Z) (Some 5%Z))]
            [(0, 1, dependency); (1, 4, dependency)].


(** ** The shape of the graph the tree builder makes *)

(** The nodes of a parser tree, parents before children and children from
    left to right. *)
Fixpoint preorder (t : TSNode) : list TSNode :=
  match t with
  | TS _ _ _ cs => t :: flat_map preorder cs
  end.

(** The attributes [getGraphFromTree] gives to a child. *)
Definition child_attrs (c : TSNode) : NodeAttrs :=
  mkAttrs (Some (ts_type c)) (Some (length (children c) =? 0))
          (Some (start_byte c)) (Some (end_byte c)).

(** The attributes [code2ast] gives to the root. *)
Definition root_attrs (t : TSNode) : NodeAttrs :=
  mkAttrs (Some (ts_type t)) (Some false) (Some (start_byte t)) (Some (end_byte t)).

(** What [getGraphFromTree] adds to a graph of [k] nodes for the children
    [cs] of the node [father]: the nodes below [father], numbered from [k]
    in preorder, and one edge into each, from [father] or from a new node;
    a new node has an edge out of it exactly when the parser gave it
    children. *)
Definition built_below (G : DiGraph) (k father : nat) (cs : list TSNode) (G' : DiGraph)
  : Prop :=
  let new := flat_map preorder cs in
  dg_node G' = dg_node G ++ combine (seq k (length new)) (map child_attrs new)
  /\ exists es,
       dg_edge G' = dg_edge G ++ es
       /\ map edge_target es = seq k (length new)
       /\ (forall e, In e es ->
             (edge_source e = father \/ k <= edge_source e)
             /\ edge_source e < edge_target e /\ snd e = no_data)
       /\ (cs <> [] -> exists e, In e es /\ edge_source e = father)
       /\ (forall i c, nth_error new i = Some c ->
             (length (children c) =? 0)
             = negb (existsb (fun e => Nat.eqb (edge_source e) (k + i)) es)).

(** ** The shape of the rebuilt tree *)

(** A tree on the ids 0, 1, ...: every edge joins two different nodes, and
    the larger end points of the edges are 1, 2, ... in edge order, so that
    every node but 0 hangs, by one edge, under a node of smaller id. *)
Definition rooted_shape (R : Graph NodeAttrs) : Prop :=
  node_ids (g_node R) = seq 0 (length (g_node R))
  /\ map (fun e => Nat.max (fst e) (snd e)) (g_edge R) = seq 1 (length (g_node R) - 1)
  /\ forall e, In e (g_edge R) -> fst e <> snd e.

(** The tree rebuilt from the labelled dependency tree of the example. *)
Definition example_rebuilt : Graph NodeAttrs :=
  Eval vm_compute in
    match from_label_dep_tree_to_ast example_labelled "python" with
    | Ret R => R
    | _ => mkGraph [] []
    end.

(** ** [getTreeFromDistances] *)

(** An undirected graph whose edges carry a weight, as
    [getTreeFromDistances] builds it: the nodes and the edges in the order
    they were added. *)
Record WGraph (W : Type) : Type := mkWGraph {
  wg_node : list (nat * NodeAttrs);
  wg_edge : list (nat * nat * W)
}.

Arguments mkWGraph {W} wg_node wg_edge.
Arguments wg_node {W} w.
Arguments wg_edge {W} w.

(** [G.add_node(n, **a)] *)
Definition wg_add_node {W : Type} (G : WGraph W) (n : nat) (a : NodeAttrs) : WGraph W :=
  mkWGraph (update_gnode (fun b => update_attrs b a) n a (wg_node G)) (wg_edge G).

(** The edge between [u] and [v], stored in either direction, gets the
    weight [w]; it is added when there is none. *)
Fixpoint update_weight {W : Type} (u v : nat) (w : W) (l : list (nat * nat * W))
  : list (nat * nat * W) :=
  match l with
  | [] => [(u, v, w)]
  | (e, w0) :: l' => if edge_eqb u v e then (e, w) :: l'
                     else (e, w0) :: update_weight u v w l'
  end.

(** [G.add_edge(u, v, weight=w)] *)
Definition wg_add_edge {W : Type} (G : WGraph W) (u v : nat) (w : W) : WGraph W :=
  mkWGraph (update_gnode (fun b => b) v no_attrs
              (update_gnode (fun b => b) u no_attrs (wg_node G)))
           (update_weight u v w (wg_edge G)).

(** [G[a][b]['weight']], when [a] and [b] are joined. *)
Definition wg_weight {W : Type} (G : WGraph W) (a b : nat) : option W :=
  option_map snd (find (fun e => edge_eqb a b (fst e)) (wg_edge G)).

(** [distances[i][j]] *)
Definition matrix_entry {W : Type} (distances : list (list W)) (i j : nat) : outcome W :=
  row <- py_index distances (Z.of_nat i) ;;
  py_index row (Z.of_nat j).

(** The attributes of the node of a token. *)
Definition token_attrs (t : string) : NodeAttrs := mkAttrs (Some t) None None None.

(** The complete graph on the positions of the tokens that
    [getTreeFromDistances] hands to [nx.minimum_spanning_tree]. *)
Definition distance_graph {W : Type} (distances : list (list W)) (tokens : list string)
  : outcome (WGraph W) :=
  let positions := seq 0 (length tokens) in
  let G := fold_left (fun G jt => wg_add_node G (fst jt) (token_attrs (snd jt)))
                     (combine positions tokens) (mkWGraph [] []) in
  foldM (fun G i =>
           foldM (fun G j =>
                    w <- matrix_entry distances i j ;;
                    Ret (wg_add_edge G i j w))
                 positions G)
        positions G.

Section TreeFromDistances.

Variable W : Type.

(** [nx.minimum_spanning_tree] *)
Variable minimum_spanning_tree : WGraph W -> WGraph W.

(** [getTreeFromDistances]: the spanning tree of the graph of all
    distances. *)
Definition getTreeFromDistances (distances : list (list W)) (tokens : list string)
  : outcome (WGraph W) :=
  G <- distance_graph distances tokens ;;
  Ret (minimum_spanning_tree G).

End TreeFromDistances.

(** ** Tokens and tuples *)

(** What [getTokens] and [get_tuples_from_labeled_dep_tree] can raise: the
    exceptions of [exn], the [ValueError] of [list.index], and the two errors
    of the codec. *)
Inductive text_exn : Type :=
| Exn (e : exn)
| ValueError
| UnicodeEncodeError
| UnicodeDecodeError.

(** A call that returns or raises; these functions have no unbounded loop. *)
Inductive result (A : Type) : Type :=
| Ok (a : A)
| Fail (e : text_exn).

Arguments Ok {A} a.
Arguments Fail {A} e.

Definition rbind {A B : Type} (c : result A) (k : A -> result B) : result B :=
  match c with
  | Ok a => k a
  | Fail e => Fail e
  end.

Notation "x <~ c ;; k" := (rbind c (fun x => k))
  (at level 61, c at next level, right associativity) : py_scope.

Fixpoint rmapM {A B : Type} (f : A -> result B) (l : list A) : result (list B) :=
  match l with
  | [] => Ok []
  | x :: l' =>
      y <~ f x ;;
      r <~ rmapM f l' ;;
      Ok (y :: r)
  end.

(** [l[i:j]] with Python's clamping and negative indices. *)
Definition py_slice {A : Type} (l : list A) (i j : Z) : list A :=
  let len := Z.of_nat (length l) in
  let clamp := fun k : Z => (if k <? 0 then Z.max 0 (len + k) else Z.min k len)%Z in
  firstn (Z.to_nat (clamp j - clamp i)) (skipn (Z.to_nat (clamp i)) l).

(** [T.nodes[n][key]] *)
Definition node_key (T : DiGraph) (key : NodeAttrs -> option Z) (n : nat) : result Z :=
  match lookup n (dg_node T) with
  | Some a => match key a with
              | Some k => Ok k
              | None => Fail (Exn KeyError)
              end
  | None => Fail (Exn KeyError)
  end.

(** [sorted(list(T.nodes), key=lambda n: T.nodes[n]['start'])] *)
Definition sorted_nodes (T : DiGraph) : result (list nat) :=
  ks <~ rmapM (node_key T start) (node_ids (dg_node T)) ;;
  Ok (map fst (stable_sort (combine (node_ids (dg_node T)) ks))).

(** [l.index(x)] *)
Definition list_index (x : nat) (l : list nat) : result nat :=
  match py_list_index x l with
  | Some i => Ok i
  | None => Fail ValueError
  end.

(** [d['complex_edge_str']] *)
Definition edge_str (d : EdgeData) : result string :=
  match complex_edge_str d with
  | Some s => Ok s
  | None => Fail (Exn KeyError)
  end.

Section Tokens.

(** Python's [str], and the codec: [bytes(code, "utf8")] and
    [b.decode("utf-8")]. *)
Variable pystr : Type.
Variable utf8_encode : pystr -> result (list Byte.byte).
Variable utf8_decode : list Byte.byte -> result pystr.

(** [getToken]: the text between two byte offsets. *)
Definition getToken (code : pystr) (start_ end_ : Z) : result pystr :=
  b <~ utf8_encode code ;;
  utf8_decode (py_slice b start_ end_).

(** [getTokens]: the tokens of the tree, by start. *)
Definition getTokens (T : DiGraph) (code : pystr) : result (list pystr) :=
  nodes <~ sorted_nodes T ;;
  rmapM (fun t =>
           s <~ node_key T start t ;;
           e <~ node_key T end_ t ;;
           getToken code s e)
        nodes.

(** [get_tuples_from_labeled_dep_tree]: for every edge, the positions of
    its end points among the nodes sorted by start, and its label string;
    then the tokens. *)
Definition get_tuples_from_labeled_dep_tree (T : DiGraph) (code : pystr)
  : result (list (nat * nat * string) * list pystr) :=
  sorted <~ sorted_nodes T ;;
  pairs <~ rmapM (fun e =>
                    l <~ edge_str (snd e) ;;
                    i <~ list_index (fst (fst e)) sorted ;;
                    j <~ list_index (snd (fst e)) sorted ;;
                    Ok (i, j, l))
                 (dg_edges T) ;;
  tokens <~ getTokens T code ;;
  Ok (pairs, tokens).

End Tokens.

(** The position of a node in a list of nodes, and the string of an edge,
    when they are there. *)
Definition position (l : list nat) (x : nat) : nat :=
  match py_list_index x l with
  | Some i => i
  | None => 0
  end.

Definition edge_text (d : EdgeData) : string :=
  match complex_edge_str d with
  | Some s => s
  | None => ""
  end.

(** The tuples of the edges of [T], the nodes sorted by start being
    [sorted]. *)
Definition tuples_of (sorted : list nat) (T : DiGraph) : list (nat * nat * string) :=
  map (fun e => (position sorted (fst (fst e)), position sorted (snd (fst e)),
                 edge_text (snd e)))
      (dg_edges T).

Definition end_of (G : DiGraph) (n : nat) : Z :=
  match end_ (attrs_of G n) with Some e => e | None => 0%Z end.

(** ** A graph with an unmarked node *)

(** One node, without [is_terminal]. *)
Definition unmarked_graph : DiGraph :=
  mkDiGraph [(0, mkAttrs (Some "module") None (Some 0%Z) (Some 1%Z))] [].


(** * Properties *)

(** ** The attachment score *)

Lemma uas_loop_counts {A : Type} (T_true : Graph A) (es : list (nat * nat)) (c i : nat) :
  uas_loop T_true es (c, i)
  = (c + length (filter (fun e => has_edge T_true (fst e) (snd e)) es), i + length es).
Proof.
  unfold uas_loop.
  revert c i; induction es as [|e es IH]; intros c i; simpl.
  - f_equal; lia.
  - rewrite IH.
    destruct (has_edge T_true (fst e) (snd e)); simpl; f_equal; lia.
Qed.

Lemma getUAS_unfold {A B : Type} (T_true : Graph A) (T_pred : Graph B) :
  g_len T_true = g_len T_pred ->
  g_edges_len T_true = g_edges_len T_pred ->
  getUAS T_true T_pred
  = let count := length (filter (fun e => has_edge T_true (fst e) (snd e)) (g_edges T_pred)) in
    let i := length (g_edges T_pred) in
    if i =? 0 then Raise ZeroDivisionError else Ret (Z.of_nat count # Pos.of_nat i).
Proof.
  intros Hn He. unfold getUAS.
  rewrite Hn, He, !Nat.eqb_refl. simpl negb. cbv iota.
  pose proof (uas_loop_counts T_true (g_edges T_pred) 0 0) as H.
  unfold uas_loop in H. rewrite H. reflexivity.
Qed.

Lemma in_edges_iter_aux {A : Type} (G : Graph A) (ns seen : list nat) (e : nat * nat) :
  In e (edges_iter_aux G seen ns) -> has_edge G (fst e) (snd e) = true.
Proof.
  revert seen; induction ns as [|n ns IH]; intros seen H; simpl in H.
  - contradiction.
  - apply in_app_or in H. destruct H as [H|H].
    + apply in_map_iff in H. destruct H as [nbr [<- H]].
      apply filter_In in H. destruct H as [H _]. simpl.
      unfold has_edge, mem. apply existsb_exists. exists nbr. split; auto.
      apply Nat.eqb_refl.
    + eapply IH; eauto.
Qed.

Lemma filter_all {A : Type} (f : A -> bool) (l : list A) :
  (forall x, In x l -> f x = true) -> filter f l = l.
Proof.
  induction l as [|x l IH]; intros H; simpl; auto.
  rewrite (H x (or_introl eq_refl)). f_equal. apply IH. intros; apply H; now right.
Qed.

Lemma filter_none {A : Type} (f : A -> bool) (l : list A) :
  (forall x, In x l -> f x = false) -> filter f l = [].
Proof.
  induction l as [|x l IH]; intros H; simpl; auto.
  rewrite (H x (or_introl eq_refl)). apply IH. intros; apply H; now right.
Qed.

(** C7. Given two trees whose node counts differ, or whose node counts agree
    and whose edge counts differ, [getUAS] raises (the failed [assert] is the
    size-mismatch error) and returns no score. *)
Theorem C7_getUAS_size_mismatch {A B : Type} (T_true : Graph A) (T_pred : Graph B) :
  g_len T_true <> g_len T_pred
  \/ (g_len T_true = g_len T_pred /\ g_edges_len T_true <> g_edges_len T_pred) ->
  getUAS T_true T_pred = Raise AssertionError
  /\ forall q, getUAS T_true T_pred <> Ret q.
Proof.
  intros H.
  assert (E : getUAS T_true T_pred = Raise AssertionError).
  { unfold getUAS. destruct H as [H | [H1 H2]].
    - apply Nat.eqb_neq in H. rewrite H. reflexivity.
    - rewrite H1, Nat.eqb_refl. apply Nat.eqb_neq in H2. rewrite H2. reflexivity. }
  split; [exact E | intros q; rewrite E; discriminate].
Qed.

Lemma C7_witness :
  getUAS path_012 path_01 = Raise AssertionError
  /\ getUAS path_01 two_nodes = Raise AssertionError.
Proof.
  split.
  - apply (C7_getUAS_size_mismatch path_012 path_01). left. vm_compute. lia.
  - apply (C7_getUAS_size_mismatch path_01 two_nodes). right. vm_compute.
    split; [reflexivity | lia].
Defined.

(** C8, as stated, fails on the tree of one node: it has no edge, and the
    score of it against itself is a division by zero. *)
Lemma C8_counterexample :
  getUAS one_node one_node = Raise ZeroDivisionError
  /\ ~ (exists q, getUAS one_node one_node = Ret q /\ Qeq q 1).
Proof.
  split; [reflexivity|].
  intros [q [H _]]. vm_compute in H. discriminate.
Qed.

(** C8 (amended). The score of a graph with at least one edge against itself
    is exactly 1; the score of a graph with at least one edge against a graph
    of the same node and edge counts that has none of its edges is exactly 0. *)
Theorem C8_getUAS_self_and_disjoint :
  (forall (A : Type) (T : Graph A),
      g_edges T <> [] ->
      exists q, getUAS T T = Ret q /\ Qeq q 1)
  /\ (forall (A B : Type) (T_true : Graph A) (T_pred : Graph B),
         g_len T_true = g_len T_pred ->
         g_edges_len T_true = g_edges_len T_pred ->
         g_edges T_pred <> [] ->
         (forall s t, In (s, t) (g_edges T_pred) -> has_edge T_true s t = false) ->
         exists q, getUAS T_true T_pred = Ret q /\ Qeq q 0).
Proof.
  split.
  - intros A T Hne.
    rewrite getUAS_unfold by reflexivity. cbv zeta.
    rewrite filter_all by (intros e He; eapply in_edges_iter_aux; exact He).
    destruct (g_edges T) as [|e es] eqn:E; [congruence|].
    simpl length. simpl Nat.eqb. eexists; split; [reflexivity|].
    unfold Qeq. cbn [Qnum Qden].
    change (Z.of_nat (S (length es))) with (Z.pos (Pos.of_succ_nat (length es))).
    rewrite Pos.of_nat_succ. lia.
  - intros A B T_true T_pred Hn He Hne Hdis.
    rewrite getUAS_unfold by assumption. cbv zeta.
    rewrite filter_none by (intros [s t] Hin; apply Hdis; exact Hin).
    destruct (g_edges T_pred) as [|e es] eqn:E; [congruence|].
    simpl length. simpl Nat.eqb. eexists; split; [reflexivity|].
    unfold Qeq. simpl. reflexivity.
Qed.

Lemma C8_witness :
  (exists q, getUAS path_012 path_012 = Ret q /\ Qeq q 1)
  /\ (exists q, getUAS path_0123 path_1302 = Ret q /\ Qeq q 0).
Proof.
  split.
  - apply (proj1 C8_getUAS_self_and_disjoint unit path_012). vm_compute. discriminate.
  - apply (proj2 C8_getUAS_self_and_disjoint unit unit path_0123 path_1302).
    + reflexivity.
    + reflexivity.
    + vm_compute. discriminate.
    + intros s t H. vm_compute in H.
      repeat (destruct H as [H|H]; [inversion H; subst; reflexivity|]).
      contradiction.
Defined.

(** ** Languages *)

(** C10. With a [lang] other than ['python'] and ['javascript'], [code2ast]
    returns [None]: it raises nothing, whatever the source text and the
    parser, and falls back on no language. *)
Theorem C10_code2ast_other_lang
  (remove_py remove_js : string -> outcome string)
  (code : string) (parse : string -> outcome TSNode) (lang : string) :
  lang <> "python" -> lang <> "javascript" ->
  code2ast remove_py remove_js code parse lang = Ret None.
Proof.
  intros Hp Hj. unfold code2ast.
  apply String.eqb_neq in Hp. apply String.eqb_neq in Hj.
  rewrite Hp, Hj. reflexivity.
Qed.

Lemma C10_witness :
  code2ast (fun _ => Raise KeyError) (fun _ => Raise KeyError)
           "def f(): pass" (fun _ => Raise KeyError) "java" = Ret None.
Proof.
  apply C10_code2ast_other_lang; intros H; discriminate H.
Defined.


(** ** Lists and outcomes *)

Lemma mem_In (x : nat) (l : list nat) : mem x l = true <-> In x l.
Proof.
  unfold mem. rewrite existsb_exists. split.
  - intros [y [H E]]. apply Nat.eqb_eq in E. now subst.
  - intros H. exists x. split; auto. apply Nat.eqb_refl.
Qed.

Lemma mem_not_In (x : nat) (l : list nat) : mem x l = false <-> ~ In x l.
Proof.
  rewrite <- mem_In. destruct (mem x l); split; intros H;
    try congruence; try (exfalso; apply H; reflexivity).
Qed.

Lemma filterM_ret {A : Type} (f : A -> outcome bool) (g : A -> bool) (l : list A) :
  (forall x, In x l -> f x = Ret (g x)) -> filterM f l = Ret (filter g l).
Proof.
  induction l as [|x l IH]; intros H; simpl; auto.
  rewrite (H x (or_introl eq_refl)). simpl.
  rewrite IH by (intros; apply H; now right). simpl.
  destruct (g x); reflexivity.
Qed.

Lemma mapM_ret {A B : Type} (f : A -> outcome B) (g : A -> B) (l : list A) :
  (forall x, In x l -> f x = Ret (g x)) -> mapM f l = Ret (map g l).
Proof.
  induction l as [|x l IH]; intros H; simpl; auto.
  rewrite (H x (or_introl eq_refl)). simpl.
  rewrite IH by (intros; apply H; now right). reflexivity.
Qed.

Lemma lookup_In {A : Type} (n : nat) (l : list (nat * A)) (a : A) :
  lookup n l = Some a -> In (n, a) l.
Proof.
  induction l as [|[m b] l IH]; simpl; intros H; [discriminate|].
  destruct (Nat.eqb_spec n m); [inversion H; subst; now left | right; auto].
Qed.

Lemma lookup_some {A : Type} (n : nat) (l : list (nat * A)) :
  In n (map fst l) -> exists a, lookup n l = Some a.
Proof.
  induction l as [|[m b] l IH]; simpl; intros H; [contradiction|].
  destruct (Nat.eqb_spec n m); [eauto|].
  destruct H as [H|H]; [congruence | auto].
Qed.

Lemma lookup_none {A : Type} (n : nat) (l : list (nat * A)) :
  ~ In n (map fst l) -> lookup n l = None.
Proof.
  induction l as [|[m b] l IH]; simpl; intros H; auto.
  destruct (Nat.eqb_spec n m); [subst; tauto | apply IH; tauto].
Qed.

Lemma lookup_NoDup {A : Type} (n : nat) (l : list (nat * A)) (a : A) :
  NoDup (map fst l) -> In (n, a) l -> lookup n l = Some a.
Proof.
  induction l as [|[m b] l IH]; simpl; intros Hnd H; [contradiction|].
  inversion Hnd; subst.
  destruct H as [H|H].
  - inversion H; subst. now rewrite Nat.eqb_refl.
  - destruct (Nat.eqb_spec n m).
    + subst. exfalso. apply H2. apply in_map_iff. exists (m, a). auto.
    + auto.
Qed.

(** ** Chains *)

Lemma chain_cons_inv {A : Type} (R : A -> A -> Prop) (x : A) (l : list A) :
  chain R (x :: l) -> chain R l.
Proof. destruct l; simpl; tauto. Qed.

Lemma chain_app {A : Type} (R : A -> A -> Prop) (l1 l2 : list A) (d : A) :
  chain R l1 -> chain R l2 ->
  (l1 <> [] -> l2 <> [] -> R (last l1 d) (hd d l2)) ->
  chain R (l1 ++ l2).
Proof.
  induction l1 as [|x l1 IH]; intros H1 H2 H; simpl; auto.
  destruct l1 as [|y l1].
  - simpl. destruct l2 as [|z l2]; auto. split; auto.
    apply H; discriminate.
  - destruct H1 as [Hxy H1]. split; auto.
    apply IH; auto. intros _ Hne. apply H; auto. discriminate.
Qed.

Lemma chain_app_inv {A : Type} (R : A -> A -> Prop) (l1 l2 : list A) :
  chain R (l1 ++ l2) -> chain R l1 /\ chain R l2.
Proof.
  induction l1 as [|x l1 IH]; intros H; simpl in *; auto.
  destruct l1 as [|y l1].
  - split; auto. simpl in H. destruct l2; simpl; tauto.
  - destruct H as [Hxy H]. destruct (IH H). simpl. tauto.
Qed.

Lemma chain_snoc {A : Type} (R : A -> A -> Prop) (l : list A) (x y : A) :
  chain R (l ++ [x]) -> R x y -> chain R (l ++ [x; y]).
Proof.
  induction l as [|z l IH]; intros H Hxy.
  - simpl. auto.
  - destruct l as [|w l].
    + simpl in *. tauto.
    + destruct H as [Hzw H]. split; [exact Hzw|]. apply IH; auto.
Qed.

Lemma chain_rev {A : Type} (R : A -> A -> Prop) (l : list A) :
  chain R l -> chain (fun x y => R y x) (rev l).
Proof.
  induction l as [|x l IH]; intros H; simpl; auto.
  destruct l as [|y l].
  - simpl. auto.
  - destruct H as [Hxy H]. specialize (IH H).
    simpl in *. rewrite <- app_assoc. simpl.
    apply chain_snoc; auto.
Qed.

Lemma chain_impl {A : Type} (R S : A -> A -> Prop) (l : list A) :
  (forall x y, R x y -> S x y) -> chain R l -> chain S l.
Proof.
  intros HRS. induction l as [|x l IH]; simpl; auto.
  destruct l; auto. intros [H1 H2]. split; auto.
Qed.

Lemma last_cons_cons {A : Type} (x y : A) (l : list A) (d : A) :
  last (x :: y :: l) d = last (y :: l) d.
Proof. reflexivity. Qed.

Lemma last_nonempty {A : Type} (l : list A) (d d' : A) :
  l <> [] -> last l d = last l d'.
Proof.
  induction l as [|x l IH]; intros H; [congruence|].
  destruct l; auto. rewrite !last_cons_cons. apply IH. discriminate.
Qed.

Lemma last_In {A : Type} (l : list A) (d : A) : l <> [] -> In (last l d) l.
Proof.
  induction l as [|x l IH]; intros H; [congruence|].
  destruct l; [now left|]. rewrite last_cons_cons. right. apply IH. discriminate.
Qed.

Lemma hd_rev {A : Type} (l : list A) (d : A) : hd d (rev l) = last l d.
Proof.
  induction l as [|x l IH]; simpl; auto.
  destruct l as [|y l]; auto.
  rewrite <- IH. simpl. destruct (rev l); reflexivity.
Qed.

Lemma last_rev {A : Type} (l : list A) (d : A) : last (rev l) d = hd d l.
Proof.
  rewrite <- (rev_involutive l) at 2. now rewrite hd_rev.
Qed.

(** ** Paths *)

Lemma path_one (adj : nat -> list nat) (a : nat) : path adj a a [a].
Proof. repeat split. Qed.

Lemma path_cons (adj : nat -> list nat) (a b c : nat) (p : list nat) :
  In b (adj a) -> path adj b c p -> path adj a c (a :: p).
Proof.
  intros Hab [Hh [Hl Hc]]. destruct p as [|x p]; [discriminate|].
  inversion Hh; subst. repeat split; auto.
  rewrite last_cons_cons. apply last_nonempty. discriminate.
Qed.

Lemma path_inv (adj : nat -> list nat) (a b : nat) (p : list nat) :
  path adj a b p ->
  (p = [a] /\ a = b)
  \/ (exists c p', p = a :: p' /\ In c (adj a) /\ path adj c b p').
Proof.
  intros [Hh [Hl Hc]]. destruct p as [|x p]; [discriminate|].
  inversion Hh; subst. destruct p as [|y p].
  - left. auto.
  - right. exists y, (y :: p). destruct Hc as [Hxy Hc]. repeat split; auto.
    rewrite last_cons_cons. apply last_nonempty. discriminate.
Qed.

Lemma path_last_In (adj : nat -> list nat) (a b : nat) (p : list nat) :
  path adj a b p -> In b p.
Proof.
  intros [Hh [Hl Hc]]. subst b. apply last_In. destruct p; discriminate.
Qed.

Lemma path_hd_In (adj : nat -> list nat) (a b : nat) (p : list nat) :
  path adj a b p -> In a p.
Proof.
  intros [Hh _]. destruct p; [discriminate|]. inversion Hh. now left.
Qed.

Lemma path_rev (adj : nat -> list nat) (a b : nat) (p : list nat) :
  (forall x y, In y (adj x) -> In x (adj y)) ->
  path adj a b p -> path adj b a (rev p).
Proof.
  intros Hsym [Hh [Hl Hc]]. destruct p as [|x p]; [discriminate|].
  inversion Hh; subst. repeat split.
  - pose proof (hd_rev (a :: p) a) as H.
    destruct (rev (a :: p)) as [|z r] eqn:E.
    + apply (f_equal (@length nat)) in E. rewrite length_rev in E. discriminate.
    + simpl in H. now rewrite H.
  - rewrite last_rev. reflexivity.
  - apply chain_rev in Hc. eapply chain_impl; [|exact Hc]. simpl. auto.
Qed.

Lemma path_app (adj : nat -> list nat) (a b c : nat) (p q : list nat) :
  path adj a b p -> path adj b c (b :: q) -> path adj a c (p ++ q).
Proof.
  revert a. induction p as [|x p IH]; intros a Hp Hq.
  - destruct Hp as [Hp _]. discriminate.
  - destruct (path_inv _ _ _ _ Hp) as [[E1 E2] | [y [p' [E [Hy Hp']]]]].
    + inversion E1; subst. simpl. exact Hq.
    + inversion E; subst. simpl. eapply path_cons; eauto.
Qed.

Lemma reach_trans (adj : nat -> list nat) (x y z : nat) :
  reach adj x y -> reach adj y z -> reach adj x z.
Proof.
  intros Hxy Hyz. induction Hyz; auto. eapply reach_step; eauto.
Qed.

Lemma path_reach (adj : nat -> list nat) (a b : nat) (p : list nat) :
  path adj a b p -> reach adj a b.
Proof.
  revert a. induction p as [|x p IH]; intros a Hp.
  - destruct Hp as [Hp _]. discriminate.
  - destruct (path_inv _ _ _ _ Hp) as [[E1 E2] | [y [p' [E [Hy Hp']]]]].
    + subst. constructor.
    + inversion E; subst. eapply reach_trans; [|apply IH; eauto].
      eapply reach_step; [constructor | auto].
Qed.

(** ** Breadth-first search *)

Lemma new_nbrs_In (seen ws : list nat) (w : nat) :
  In w (new_nbrs seen ws) -> In w ws /\ ~ In w seen.
Proof.
  revert seen. induction ws as [|x ws IH]; intros seen H; simpl in H; [contradiction|].
  destruct (mem x seen) eqn:E.
  - destruct (IH _ H). split; auto. now right.
  - destruct H as [H|H].
    + subst. split; [now left|]. now apply mem_not_In.
    + destruct (IH _ H) as [H1 H2]. split; [now right|].
      intros Hs. apply H2. now right.
Qed.

Lemma new_nbrs_cover (seen ws : list nat) (w : nat) :
  In w ws -> In w seen \/ In w (new_nbrs seen ws).
Proof.
  revert seen. induction ws as [|x ws IH]; intros seen H; simpl in *; [contradiction|].
  destruct (mem x seen) eqn:E.
  - destruct H as [H|H]; [subst; left; now apply mem_In | auto].
  - destruct H as [H|H]; [subst; right; now left|].
    destruct (IH (x :: seen) H) as [[H1|H1]|H1]; [subst; right; now left | auto | right; now right].
Qed.

Lemma new_nbrs_NoDup (seen ws : list nat) : NoDup (new_nbrs seen ws).
Proof.
  revert seen. induction ws as [|x ws IH]; intros seen; simpl; [constructor|].
  destruct (mem x seen); auto. constructor; auto.
  intros H. apply new_nbrs_In in H. destruct H as [_ H]. apply H. now left.
Qed.

Section Bfs.

Variable adj : nat -> list nat.
Variable src : nat.

Lemma bfs_sound (fuel : nat) : forall (seen : list nat) (queue : list (nat * list nat)),
  (forall e, In e queue -> queued_ok adj src seen e) ->
  forall e, In e (bfs adj fuel seen queue) ->
    path adj src (fst e) (rev (snd e)) /\ NoDup (snd e).
Proof.
  induction fuel as [|fuel IH]; intros seen queue Hq e He; simpl in He; [contradiction|].
  destruct queue as [|[v p] rest]; [contradiction|].
  destruct He as [He|He].
  - subst e. destruct (Hq (v, p) (or_introl eq_refl)) as [H1 [H2 _]]. auto.
  - eapply IH; [|exact He].
    intros e' He'. apply in_app_or in He'. destruct He' as [He'|He'].
    + destruct (Hq e' (or_intror He')) as [H1 [H2 H3]].
      split; [|split]; auto. intros x Hx. apply in_or_app. left. auto.
    + apply in_map_iff in He'. destruct He' as [w [<- Hw]].
      destruct (Hq (v, p) (or_introl eq_refl)) as [H1 [H2 H3]].
      apply new_nbrs_In in Hw as Hw'. destruct Hw' as [Hw1 Hw2].
      simpl in *. split; [|split].
      * eapply path_app; [exact H1|]. apply (path_cons adj v w w [w]); [exact Hw1 | apply path_one].
      * constructor; auto.
      * intros x [Hx|Hx]; apply in_or_app; [subst; now right | left; auto].
Qed.

Variable V : list nat.
Hypothesis adj_in_V : forall v w, In w (adj v) -> In w V.

Lemma bfs_complete (fuel : nat) : forall (seen : list nat) (queue : list (nat * list nat)),
  NoDup seen -> incl seen V -> incl (map fst queue) seen ->
  length queue + (length V - length seen) <= fuel ->
  let out := map fst (bfs adj fuel seen queue) in
  incl (map fst queue) out
  /\ forall x w, In x out -> In w (adj x) -> In w seen \/ In w out.
Proof.
  induction fuel as [|fuel IH]; intros seen queue Hnd Hin Hqs Hf.
  - destruct queue; simpl in *; [|lia]. split; [intros x []|intros x w []].
  - destruct queue as [|[v p] rest].
    + simpl. split; [intros x []|intros x w []].
    + set (fresh := new_nbrs seen (adj v)).
      assert (Hnd' : NoDup (seen ++ fresh)).
      { apply NoDup_app; [exact Hnd | apply new_nbrs_NoDup |].
        intros x Hx Hx'. unfold fresh in Hx'. apply new_nbrs_In in Hx'. tauto. }
      assert (Hin' : incl (seen ++ fresh) V).
      { intros x Hx. apply in_app_or in Hx. destruct Hx as [Hx|Hx]; auto.
        unfold fresh in Hx. apply new_nbrs_In in Hx. destruct Hx as [Hx _]. eauto. }
      pose proof (NoDup_incl_length Hnd' Hin') as Hlen.
      rewrite length_app in Hlen.
      destruct (IH (seen ++ fresh) (rest ++ map (fun w => (w, w :: p)) fresh))
        as [IH1 IH2]; auto.
      { rewrite map_app, map_map. simpl. rewrite map_id.
        intros x Hx. apply in_or_app. apply in_app_or in Hx.
        destruct Hx as [Hx|Hx]; auto. left. apply Hqs. now right. }
      { rewrite length_app, length_map, length_app. simpl in Hf. fold fresh. lia. }
      rewrite map_app, map_map in IH1. simpl in IH1. rewrite map_id in IH1.
      simpl. fold fresh. split.
      * intros x [Hx|Hx]; [now left|]. right. apply IH1. apply in_or_app. now left.
      * intros x w [Hx|Hx] Hw.
        -- subst x. destruct (new_nbrs_cover seen (adj v) w Hw) as [H|H]; auto.
           right. right. apply IH1. apply in_or_app. now right.
        -- destruct (IH2 x w Hx Hw) as [H|H]; [|right; now right].
           apply in_app_or in H. destruct H as [H|H]; auto.
           right. right. apply IH1. apply in_or_app. now right.
Qed.

End Bfs.

(** Every entry of the search from [src] carries a simple path from [src]. *)
Theorem bfs_from_sound (adj : nat -> list nat) (universe : list nat) (src v : nat)
  (p : list nat) :
  In (v, p) (bfs_from adj universe src) -> simple_path adj src v (rev p).
Proof.
  intros H. unfold bfs_from in H.
  apply (bfs_sound adj src) in H.
  - destruct H as [H1 H2]. split; auto. apply NoDup_rev. exact H2.
  - intros e [He|[]]. subst e. split; [|split]; simpl.
    + apply path_one.
    + constructor; [intros []|constructor].
    + intros x Hx. exact Hx.
Qed.

(** The search from [src] finds every node that can be reached from it. *)
Theorem bfs_from_complete (adj : nat -> list nat) (universe : list nat) (src y : nat) :
  (forall v w, In w (adj v) -> In w universe) ->
  reach adj src y -> In y (map fst (bfs_from adj universe src)).
Proof.
  intros HV Hr. unfold bfs_from.
  destruct (bfs_complete adj (src :: universe)) with
    (fuel := S (S (length universe))) (seen := [src]) (queue := [(src, [src])])
    as [H1 H2].
  - intros v w Hw. right. eauto.
  - constructor; [intros []|constructor].
  - intros x [Hx|[]]. now left.
  - intros x Hx. exact Hx.
  - simpl. lia.
  - induction Hr.
    + apply H1. now left.
    + destruct (H2 y z IHHr H) as [[Hz|[]]|Hz]; auto.
      subst. apply H1. now left.
Qed.

Lemma bfs_from_reach (adj : nat -> list nat) (universe : list nat) (src y : nat) :
  In y (map fst (bfs_from adj universe src)) -> reach adj src y.
Proof.
  intros H. apply in_map_iff in H. destruct H as [[v p] [E H]]. simpl in E. subst v.
  apply bfs_from_sound in H. destruct H as [H _]. eapply path_reach; eauto.
Qed.


(** ** Simple paths in a forest *)

Lemma chain_gt_last (l : list nat) : forall x d,
  chain gt (x :: l) -> l <> [] -> last (x :: l) d < x.
Proof.
  induction l as [|y l IH]; intros x d H Hne; [congruence|].
  destruct H as [Hxy H]. rewrite last_cons_cons.
  destruct l as [|z l].
  - simpl. exact Hxy.
  - specialize (IH y d H). unfold gt in Hxy.
    assert (last (y :: z :: l) d < y) by (apply IH; discriminate). lia.
Qed.

Lemma chain_lt_last (l : list nat) : forall x d,
  chain lt (x :: l) -> l <> [] -> x < last (x :: l) d.
Proof.
  induction l as [|y l IH]; intros x d H Hne; [congruence|].
  destruct H as [Hxy H]. rewrite last_cons_cons.
  destruct l as [|z l].
  - simpl. exact Hxy.
  - assert (y < last (y :: z :: l) d) by (apply IH; [exact H | discriminate]). lia.
Qed.

Lemma path_tail_cons (adj : nat -> list nat) (c b : nat) (p : list nat) :
  path adj c b p -> exists p', p = c :: p'.
Proof.
  intros [H _]. destruct p as [|x p]; [discriminate|]. inversion H. eauto.
Qed.

Section Forest.

Variable adj : nat -> list nat.
Hypothesis F : forest adj.

(** Going to the smaller neighbour is deterministic. *)
Lemma desc_unique (p : list nat) : forall (q : list nat) (b a : nat),
  path adj b a p -> chain gt p -> path adj b a q -> chain gt q -> p = q.
Proof.
  induction p as [|x p IH]; intros q b a Hp Dp Hq Dq.
  - destruct Hp as [Hp _]. discriminate.
  - destruct (path_inv _ _ _ _ Hp) as [[E1 E2] | [c [p' [E [Hc Hp']]]]];
    destruct (path_inv _ _ _ _ Hq) as [[E3 E4] | [c' [q' [E' [Hc' Hq']]]]].
    + congruence.
    + exfalso. subst. destruct (path_tail_cons _ _ _ _ Hq') as [q'' ->].
      destruct Hq as [_ [Hl _]].
      pose proof (chain_gt_last (c' :: q'') a a Dq) as H.
      rewrite Hl in H. assert (a < a) by (apply H; discriminate). lia.
    + exfalso. subst. destruct (path_tail_cons _ _ _ _ Hp') as [p'' ->].
      inversion E; subst. destruct Hp as [_ [Hl _]].
      pose proof (chain_gt_last (c :: p'') a a Dp) as H.
      rewrite Hl in H. assert (a < a) by (apply H; discriminate). lia.
    + inversion E; subst. 
      destruct (path_tail_cons _ _ _ _ Hp') as [p'' ->].
      destruct (path_tail_cons _ _ _ _ Hq') as [q'' ->].
      destruct Dp as [Dp1 Dp2]. destruct Dq as [Dq1 Dq2].
      assert (c = c') by (eapply (forest_parent adj F b); eauto).
      subst c'. f_equal. eapply IH; eauto.
Qed.

Lemma asc_unique (p q : list nat) (a b : nat) :
  path adj a b p -> chain lt p -> path adj a b q -> chain lt q -> p = q.
Proof.
  intros Hp Ap Hq Aq.
  apply (path_rev adj _ _ _ (forest_sym adj F)) in Hp, Hq.
  apply chain_rev in Ap, Aq.
  pose proof (desc_unique _ _ _ _ Hp Ap Hq Aq) as E.
  apply (f_equal (@rev nat)) in E. now rewrite !rev_involutive in E.
Qed.

(** After a step to a larger neighbour, a simple path only goes to larger
    neighbours. *)
Lemma asc_after_down (rest : list nat) : forall x y,
  chain (fun x y => In y (adj x)) (x :: y :: rest) ->
  NoDup (x :: y :: rest) -> x < y -> chain lt (x :: y :: rest).
Proof.
  induction rest as [|z rest IH]; intros x y Hc Hnd Hxy.
  - simpl. auto.
  - destruct Hc as [Hxy' Hc]. split; [exact Hxy|].
    apply IH; auto.
    + inversion Hnd; auto.
    + destruct Hc as [Hyz _].
      destruct (Nat.lt_trichotomy y z) as [H|[H|H]]; auto.
      * subst z. exfalso. eapply (forest_irrefl adj F); eauto.
      * exfalso. assert (x = z).
        { apply (forest_parent adj F y); auto. apply (forest_sym adj F); auto. }
        subst z. inversion Hnd as [|? ? Hx _]; subst. apply Hx. right. now left.
Qed.

(** A simple path that starts towards the smaller neighbour does not lead
    where an ascending path leads. *)
Lemma no_up_then_asc (p : list nat) : forall (a a1 b : nat) (q : list nat),
  simple_path adj a b (a :: a1 :: p) -> a1 < a ->
  path adj a b q -> chain lt q -> False.
Proof.
  induction p as [|a2 p IH]; intros a a1 b q [Hp Hnd] Hup Hq Aq.
  - destruct (path_tail_cons _ _ _ _ Hq) as [q' ->].
    destruct Hp as [_ [Hl [Ha1 _]]]. simpl in Hl. subst b.
    assert (Hq' : path adj a1 a1 (a1 :: a :: q')).
    { eapply path_cons; [|exact Hq]. apply (forest_sym adj F); auto. }
    assert (Aq' : chain lt (a1 :: a :: q')) by (split; auto).
    destruct Hq' as [_ [Hl _]].
    pose proof (chain_lt_last (a :: q') a1 a1 Aq') as H.
    rewrite Hl in H. assert (a1 < a1) by (apply H; discriminate). lia.
  - destruct (path_tail_cons _ _ _ _ Hq) as [q' ->].
    assert (Hp1 : path adj a1 b (a1 :: a2 :: p)).
    { destruct (path_inv _ _ _ _ Hp) as [[E _] | [c [p' [E [Hc Hp']]]]]; [discriminate|].
      inversion E; subst.
      destruct (path_tail_cons _ _ _ _ Hp') as [p'' E']. inversion E'; subst. exact Hp'. }
    assert (Ha1 : In a1 (adj a)) by (destruct Hp as [_ [_ [H _]]]; exact H).
    assert (Hq' : path adj a1 b (a1 :: a :: q')).
    { eapply path_cons; [|exact Hq]. apply (forest_sym adj F); auto. }
    assert (Aq' : chain lt (a1 :: a :: q')) by (split; auto).
    assert (Hnd1 : NoDup (a1 :: a2 :: p)) by (inversion Hnd; auto).
    assert (Ha2 : In a2 (adj a1)) by (destruct Hp1 as [_ [_ [H _]]]; exact H).
    destruct (Nat.lt_trichotomy a2 a1) as [H|[H|H]].
    + eapply (IH a1 a2 b (a1 :: a :: q')); eauto. split; auto.
    + subst a2. eapply (forest_irrefl adj F); eauto.
    + assert (Ap1 : chain lt (a1 :: a2 :: p)).
      { apply asc_after_down; auto. destruct Hp1 as [_ [_ Hc]]. exact Hc. }
      pose proof (asc_unique _ _ _ _ Hp1 Ap1 Hq' Aq') as E.
      inversion E; subst. inversion Hnd as [|? ? Hx _]; subst.
      apply Hx. right. now left.
Qed.

(** Between two nodes of a forest there is at most one simple path. *)
Theorem simple_path_unique (p : list nat) : forall (a b : nat) (q : list nat),
  simple_path adj a b p -> simple_path adj a b q -> p = q.
Proof.
  induction p as [|x p IH]; intros a b q [Hp Np] [Hq Nq].
  - destruct Hp as [Hp _]. discriminate.
  - destruct (path_inv _ _ _ _ Hp) as [[E1 E2] | [c [p' [E [Hc Hp']]]]];
    destruct (path_inv _ _ _ _ Hq) as [[E3 E4] | [c' [q' [E' [Hc' Hq']]]]].
    + congruence.
    + exfalso. subst. apply path_last_In in Hq'. inversion Nq; auto.
    + exfalso. subst. inversion E; subst. apply path_last_In in Hp'. inversion Np; auto.
    + inversion E; subst.
      destruct (path_tail_cons _ _ _ _ Hp') as [p'' ->].
      destruct (path_tail_cons _ _ _ _ Hq') as [q'' ->].
      assert (Cp : chain (fun x y => In y (adj x)) (a :: c :: p''))
        by (destruct Hp as [_ [_ H]]; exact H).
      assert (Cq : chain (fun x y => In y (adj x)) (a :: c' :: q''))
        by (destruct Hq as [_ [_ H]]; exact H).
      destruct (Nat.lt_trichotomy c a) as [H|[H|H]];
        [| subst c; exfalso; eapply (forest_irrefl adj F); eauto |];
        (destruct (Nat.lt_trichotomy c' a) as [H'|[H'|H']];
         [| subst c'; exfalso; eapply (forest_irrefl adj F); eauto |]).
      * assert (c = c') by (eapply (forest_parent adj F a); eauto). subst c'.
        f_equal. eapply IH; split; eauto; inversion Np; inversion Nq; auto.
      * exfalso. eapply (no_up_then_asc p'' a c b (a :: c' :: q'')); eauto.
        -- split; auto.
        -- apply asc_after_down; auto.
      * exfalso. eapply (no_up_then_asc q'' a c' b (a :: c :: p'')); eauto.
        -- split; auto.
        -- apply asc_after_down; auto.
      * eapply asc_unique; eauto; apply asc_after_down; auto.
Qed.

End Forest.


(** ** Sorting by key *)

Lemma insert_by_key_perm {A : Type} (x : A * Z) (l : list (A * Z)) :
  Permutation (insert_by_key x l) (x :: l).
Proof.
  induction l as [|y l IH]; simpl; auto.
  destruct (snd x <=? snd y)%Z; auto.
  rewrite IH. apply perm_swap.
Qed.

Lemma stable_sort_perm {A : Type} (l : list (A * Z)) : Permutation (stable_sort l) l.
Proof.
  induction l as [|x l IH]; simpl; auto.
  rewrite insert_by_key_perm. now constructor.
Qed.

Lemma insert_by_key_sorted {A : Type} (x : A * Z) (l : list (A * Z)) :
  StronglySorted key_le l -> StronglySorted key_le (insert_by_key x l).
Proof.
  induction l as [|y l IH]; intros H; simpl.
  - repeat constructor.
  - inversion H as [|? ? Hs Hf]; subst.
    destruct (snd x <=? snd y)%Z eqn:E.
    + apply Z.leb_le in E. constructor; auto. constructor; auto.
      eapply Forall_impl; [|exact Hf]. unfold key_le. intros; lia.
    + apply Z.leb_gt in E. constructor; auto.
      apply Forall_forall. intros z Hz.
      apply (Permutation_in _ (insert_by_key_perm x l)) in Hz.
      destruct Hz as [Hz|Hz]; [subst; unfold key_le; lia|].
      rewrite Forall_forall in Hf. auto.
Qed.

Lemma stable_sort_sorted {A : Type} (l : list (A * Z)) :
  StronglySorted key_le (stable_sort l).
Proof.
  induction l as [|x l IH]; simpl; [constructor|].
  now apply insert_by_key_sorted.
Qed.

(** ** Attribute lookups *)

Lemma attrs_of_full (G : DiGraph) (n : nat) :
  attrs_ok G -> is_node G n ->
  dg_attrs G n = Ret (attrs_of G n) /\ full_attrs (attrs_of G n) = true.
Proof.
  intros Hok Hn. unfold dg_attrs, attrs_of.
  destruct (lookup_some n (dg_node G) Hn) as [a Ha]. rewrite Ha.
  split; auto. apply lookup_In in Ha. apply (Hok _ Ha).
Qed.

Lemma node_is_terminal_ret (G : DiGraph) (n : nat) :
  attrs_ok G -> is_node G n -> node_is_terminal G n = Ret (terminal G n).
Proof.
  intros Hok Hn. destruct (attrs_of_full G n Hok Hn) as [H1 H2].
  unfold node_is_terminal, terminal. rewrite H1. simpl.
  unfold full_attrs in H2.
  destruct (type (attrs_of G n)), (is_terminal (attrs_of G n)); try discriminate.
  reflexivity.
Qed.

Lemma node_start_ret (G : DiGraph) (n : nat) :
  attrs_ok G -> is_node G n -> node_start G n = Ret (start_of G n).
Proof.
  intros Hok Hn. destruct (attrs_of_full G n Hok Hn) as [H1 H2].
  unfold node_start, start_of. rewrite H1. simpl.
  unfold full_attrs in H2.
  destruct (type (attrs_of G n)), (is_terminal (attrs_of G n)),
    (start (attrs_of G n)); try discriminate.
  reflexivity.
Qed.

Lemma node_type_ret (G : DiGraph) (n : nat) :
  attrs_ok G -> is_node G n -> node_type G n = Ret (type_of G n).
Proof.
  intros Hok Hn. destruct (attrs_of_full G n Hok Hn) as [H1 H2].
  unfold node_type, type_of. rewrite H1. simpl.
  unfold full_attrs in H2.
  destruct (type (attrs_of G n)); try discriminate.
  reflexivity.
Qed.

Lemma dg_has_node_true (G : DiGraph) (n : nat) : dg_has_node G n = true <-> is_node G n.
Proof. unfold dg_has_node, is_node. apply mem_In. Qed.

(** ** Sorting nodes by start *)

Lemma combine_map_fst {A B : Type} (f : A -> B) (l : list A) :
  map fst (combine l (map f l)) = l.
Proof. induction l; simpl; congruence. Qed.

Lemma combine_map_In {A B : Type} (f : A -> B) (l : list A) (x : A * B) :
  In x (combine l (map f l)) -> snd x = f (fst x) /\ In (fst x) l.
Proof.
  induction l as [|y l IH]; simpl; intros H; [contradiction|].
  destruct H as [H|H]; [subst; simpl; auto | destruct (IH H); auto].
Qed.

Lemma sort_by_key_ret (G : DiGraph) (l : list nat) :
  attrs_ok G -> (forall n, In n l -> is_node G n) ->
  sort_by_key (node_start G) l = Ret (sorted_by_start G l).
Proof.
  intros Hok Hl. unfold sort_by_key.
  rewrite (mapM_ret _ (start_of G)); [reflexivity|].
  intros n Hn. apply node_start_ret; auto.
Qed.

Lemma sorted_by_start_perm (G : DiGraph) (l : list nat) :
  Permutation (sorted_by_start G l) l.
Proof.
  unfold sorted_by_start.
  etransitivity; [apply Permutation_map, stable_sort_perm|].
  now rewrite combine_map_fst.
Qed.

Lemma sorted_by_start_hd (G : DiGraph) (l : list nat) (x : nat) (r : list nat) :
  sorted_by_start G l = x :: r ->
  In x l /\ forall y, In y l -> (start_of G x <= start_of G y)%Z.
Proof.
  intros E. split.
  - apply (Permutation_in x (sorted_by_start_perm G l)). rewrite E. now left.
  - intros y Hy. unfold sorted_by_start in E.
    pose proof (stable_sort_sorted (combine l (map (start_of G) l))) as Hs.
    pose proof (stable_sort_perm (combine l (map (start_of G) l))) as Hp.
    assert (Hy' : In (y, start_of G y) (stable_sort (combine l (map (start_of G) l)))).
    { apply (Permutation_in _ (Permutation_sym Hp)).
      clear -Hy. induction l as [|z l IH]; simpl in *; [contradiction|].
      destruct Hy as [->|Hy]; auto. }
    destruct (stable_sort (combine l (map (start_of G) l))) as [|[x' k] s] eqn:Es;
      [discriminate|].
    simpl in E. inversion E; subst x' r.
    assert (Hk : k = start_of G x).
    { assert (Hin : In (x, k) (combine l (map (start_of G) l))).
      { apply (Permutation_in _ Hp). now left. }
      apply combine_map_In in Hin. simpl in Hin. tauto. }
    subst k. inversion Hs as [|? ? _ Hf]; subst.
    destruct Hy' as [Hy'|Hy'].
    + inversion Hy'. lia.
    + rewrite Forall_forall in Hf. apply (Hf _ Hy').
Qed.

Lemma py_index_0 {A : Type} (l : list A) :
  py_index l 0 = match l with [] => Raise IndexError | x :: _ => Ret x end.
Proof.
  unfold py_index. destruct l as [|x l]; [reflexivity|].
  cbn [length]. rewrite Nat2Z.inj_succ.
  change (0 <? 0)%Z with false. cbv iota.
  change (0 <=? 0)%Z with true.
  destruct (0 <? Z.succ (Z.of_nat (length l)))%Z eqn:E; [reflexivity|].
  apply Z.ltb_ge in E. lia.
Qed.

(** ** The root of the dependency tree *)

Lemma getRoot_ret (G : DiGraph) :
  attrs_ok G ->
  getRoot G = match sorted_by_start G (terminals G) with
              | [] => Raise IndexError
              | r :: _ => Ret r
              end.
Proof.
  intros Hok. unfold getRoot.
  rewrite (filterM_ret _ (terminal G)) by (intros; now apply node_is_terminal_ret).
  simpl. fold (terminals G).
  rewrite sort_by_key_ret; auto.
  - simpl. apply py_index_0.
  - intros n Hn. apply filter_In in Hn. tauto.
Qed.

Lemma getRoot_spec (G : DiGraph) (r : nat) :
  attrs_ok G -> getRoot G = Ret r ->
  In r (terminals G) /\ forall t, In t (terminals G) -> (start_of G r <= start_of G t)%Z.
Proof.
  intros Hok H. rewrite getRoot_ret in H by assumption.
  destruct (sorted_by_start G (terminals G)) as [|x s] eqn:E; [discriminate|].
  inversion H; subst x. eapply sorted_by_start_hd; eauto.
Qed.

Lemma getRoot_exists (G : DiGraph) :
  attrs_ok G -> terminals G <> [] -> exists r, getRoot G = Ret r.
Proof.
  intros Hok Hne. rewrite getRoot_ret by assumption.
  destruct (sorted_by_start G (terminals G)) as [|x s] eqn:E; [|eauto].
  exfalso. pose proof (sorted_by_start_perm G (terminals G)) as Hp.
  rewrite E in Hp. apply Permutation_nil in Hp. auto.
Qed.

(** ** Edges, successors and parents *)

Lemma successors_In (G : DiGraph) (u v : nat) :
  In v (successors G u) <-> exists d, In (u, v, d) (dg_edge G).
Proof.
  unfold successors. rewrite in_map_iff. split.
  - intros [[[u' v'] d] [E H]]. apply filter_In in H. destruct H as [H1 H2].
    simpl in *. apply Nat.eqb_eq in H2. subst. eauto.
  - intros [d H]. exists (u, v, d). split; auto. apply filter_In. split; auto.
    simpl. apply Nat.eqb_refl.
Qed.

Lemma successors_target (G : DiGraph) (u v : nat) :
  In v (successors G u) -> In v (map (fun e => snd (fst e)) (dg_edge G)).
Proof.
  intros H. apply successors_In in H. destruct H as [d H].
  apply in_map_iff. exists (u, v, d). auto.
Qed.

Lemma reach_is_node (G : DiGraph) (x y : nat) :
  edges_ok G -> is_node G x -> reach (successors G) x y -> is_node G y.
Proof.
  intros He Hx Hr. induction Hr; auto.
  apply successors_In in H. destruct H as [d H]. apply He in H. tauto.
Qed.

Lemma parent_successor (G : DiGraph) (n p : nat) :
  parent G n = Some p -> In n (successors G p).
Proof.
  unfold parent. intros H.
  destruct (filter (fun e => snd (fst e) =? n) (dg_edge G)) as [|e l] eqn:E;
    [discriminate|].
  inversion H; subst p.
  assert (Hin : In e (filter (fun e => snd (fst e) =? n) (dg_edge G)))
    by (rewrite E; now left).
  apply filter_In in Hin. destruct Hin as [H1 H2].
  apply Nat.eqb_eq in H2. apply successors_In. exists (snd e).
  destruct e as [[u v] d]. simpl in *. subst. exact H1.
Qed.

Lemma parent_none (G : DiGraph) (n : nat) :
  ~ In n (map edge_target (dg_edge G)) -> parent G n = None.
Proof.
  intros H. unfold parent.
  destruct (filter (fun e => snd (fst e) =? n) (dg_edge G)) as [|e l] eqn:E; auto.
  exfalso. apply H.
  assert (Hin : In e (filter (fun e => snd (fst e) =? n) (dg_edge G)))
    by (rewrite E; now left).
  apply filter_In in Hin. destruct Hin as [H1 H2]. apply Nat.eqb_eq in H2.
  apply in_map_iff. exists e. auto.
Qed.

Lemma parent_some (G : DiGraph) (n : nat) :
  In n (map edge_target (dg_edge G)) -> exists p, parent G n = Some p.
Proof.
  intros H. unfold parent.
  destruct (filter (fun e => snd (fst e) =? n) (dg_edge G)) as [|e l] eqn:E; eauto.
  exfalso. apply in_map_iff in H. destruct H as [e [E1 E2]].
  assert (Hin : In e (filter (fun e => snd (fst e) =? n) (dg_edge G))).
  { apply filter_In. split; auto. apply Nat.eqb_eq. exact E1. }
  rewrite E in Hin. contradiction.
Qed.

Lemma parent_app (G G' : DiGraph) (deps : list (nat * nat * EdgeData)) (n p : nat) :
  dg_edge G' = dg_edge G ++ deps -> parent G n = Some p -> parent G' n = Some p.
Proof.
  intros E H. unfold parent in *. rewrite E, filter_app.
  destruct (filter (fun e => snd (fst e) =? n) (dg_edge G)); [discriminate|].
  exact H.
Qed.

Lemma first_in_edge_parent (G : DiGraph) (n : nat) :
  first_in_edge G n
  = if dg_has_node G n
    then match parent G n with Some p => Ret p | None => Raise IndexError end
    else Raise NetworkXError.
Proof.
  unfold first_in_edge, in_edges, parent.
  destruct (dg_has_node G n); [|reflexivity]. simpl.
  rewrite py_index_0.
  destruct (filter (fun e => snd (fst e) =? n) (dg_edge G)); reflexivity.
Qed.

Lemma NoDup_map_inj {A B : Type} (f : A -> B) (l : list A) (x y : A) :
  NoDup (map f l) -> In x l -> In y l -> f x = f y -> x = y.
Proof.
  induction l as [|z l IH]; simpl; intros Hnd Hx Hy E; [contradiction|].
  inversion Hnd as [|? ? Hz Hnd']; subst.
  destruct Hx as [Hx|Hx], Hy as [Hy|Hy]; subst; auto.
  - exfalso. apply Hz. rewrite E. now apply in_map.
  - exfalso. apply Hz. rewrite <- E. now apply in_map.
Qed.

(** ** Facts on constituency trees *)

Section AstTree.

Variable G : DiGraph.
Hypothesis W : ast_tree G.

Lemma ast_attrs_ok : attrs_ok G.
Proof. exact (at_attrs G W). Qed.

Lemma ast_edges_ok : edges_ok G.
Proof. intros e He. destruct (at_edge G W e He) as [H1 [H2 _]]. auto. Qed.

Lemma ast_edge_lt (u v : nat) : In v (successors G u) -> u < v.
Proof.
  intros H. apply successors_In in H. destruct H as [d H].
  destruct (at_edge G W _ H) as [_ [_ [H3 _]]]. exact H3.
Qed.

Lemma ast_edge_parent (u v : nat) : In v (successors G u) -> parent G v = Some u.
Proof.
  intros H. apply successors_In in H. destruct H as [d H].
  assert (Hv : In v (map edge_target (dg_edge G))).
  { apply in_map_iff. exists (u, v, d). auto. }
  destruct (parent_some G v Hv) as [p Hp]. rewrite Hp. f_equal.
  apply parent_successor in Hp. apply successors_In in Hp. destruct Hp as [d' Hp].
  pose proof (NoDup_map_inj edge_target (dg_edge G) _ _
                (at_one_parent G W) Hp H eq_refl) as E.
  now inversion E.
Qed.

Lemma ast_parent_root : parent G 0 = None.
Proof.
  apply parent_none. intros H. apply in_map_iff in H. destruct H as [e [E He]].
  destruct (at_edge G W e He) as [_ [_ [H3 _]]]. rewrite E in H3. lia.
Qed.

Lemma ast_parent (n : nat) :
  is_node G n -> n <> 0 ->
  exists p, parent G n = Some p /\ p < n /\ is_node G p /\ terminal G p = false.
Proof.
  intros Hn Hn0. destruct (parent_some G n (at_has_parent G W n Hn Hn0)) as [p Hp].
  exists p. split; auto. apply parent_successor in Hp.
  assert (Hlt := ast_edge_lt _ _ Hp).
  apply successors_In in Hp as Hp'. destruct Hp' as [d Hd].
  destruct (at_edge G W _ Hd) as [H1 _]. simpl in H1.
  repeat split; auto.
  rewrite (at_leaf G W p H1).
  destruct (successors G p); [contradiction|]. simpl. apply andb_false_r.
Qed.

Lemma ast_terminal_leaf (n : nat) :
  is_node G n -> terminal G n = true -> successors G n = [] /\ n <> 0.
Proof.
  intros Hn Ht. rewrite (at_leaf G W n Hn) in Ht.
  apply andb_true_iff in Ht. destruct Ht as [H1 H2].
  split.
  - apply Nat.eqb_eq in H2. now apply length_zero_iff_nil.
  - intros ->. discriminate.
Qed.

Lemma ast_reach_root (n : nat) : is_node G n -> reach (successors G) 0 n.
Proof.
  induction n as [n IH] using lt_wf_ind. intros Hn.
  destruct (Nat.eq_dec n 0) as [->|Hn0]; [constructor|].
  destruct (ast_parent n Hn Hn0) as [p [Hp [Hlt [Hpn _]]]].
  eapply reach_step; [apply IH; eauto|]. now apply parent_successor.
Qed.

Lemma ast_reach_le (x y : nat) : reach (successors G) x y -> x <= y.
Proof.
  intros H. induction H; auto. apply ast_edge_lt in H0. lia.
Qed.

End AstTree.


(** ** Candidates *)

Lemma keys_reach (G : DiGraph) (level y : nat) :
  In y (map fst (bfs_from (successors G) (map (fun e => snd (fst e)) (dg_edge G)) level))
  <-> reach (successors G) level y.
Proof.
  split.
  - apply bfs_from_reach.
  - apply bfs_from_complete. intros v w. apply successors_target.
Qed.

(** [getCandidate] returns, and returns the candidate when there is one. *)
Lemma getCandidate_spec (G : DiGraph) (level : nat) (s : Z) :
  attrs_ok G -> edges_ok G -> is_node G level ->
  exists r, getCandidate G level s = Ret r
            /\ match r with
               | Some c => candidate_at G level s c
               | None => no_candidate_at G level s
               end.
Proof.
  intros Hok He Hl. unfold getCandidate, single_source_shortest_path_length_keys.
  rewrite (proj2 (dg_has_node_true G level) Hl). cbn [bind].
  set (keys := map fst (bfs_from (successors G)
                          (map (fun e => snd (fst e)) (dg_edge G)) level)).
  assert (Hk : forall y, In y keys -> is_node G y).
  { intros y Hy. apply keys_reach in Hy. eapply reach_is_node; eauto. }
  rewrite (filterM_ret _ (terminal G) keys)
    by (intros y Hy; apply node_is_terminal_ret; [exact Hok | exact (Hk y Hy)]).
  cbn [bind].
  rewrite (filterM_ret _ (fun n => (start_of G n <? s)%Z)).
  2:{ intros y Hy. apply filter_In in Hy. destruct Hy as [Hy _].
      rewrite node_start_ret by auto. reflexivity. }
  cbn [bind].
  set (l := filter (fun n => (start_of G n <? s)%Z) (filter (terminal G) keys)).
  assert (Hl_in : forall y, In y l <->
            reach (successors G) level y /\ terminal G y = true
            /\ (start_of G y < s)%Z).
  { intros y. unfold l. rewrite !filter_In. unfold keys. rewrite keys_reach.
    rewrite Z.ltb_lt. tauto. }
  destruct l as [|x l'] eqn:El.
  - exists None. split; [reflexivity|].
    intros y Hr Ht Hs. apply (proj2 (Hl_in y)); auto.
  - cbn [length Nat.eqb].
    rewrite sort_by_key_ret; auto.
    2:{ intros y Hy. apply Hl_in in Hy. destruct Hy as [Hy _].
        eapply reach_is_node; eauto. }
    cbn [bind]. rewrite py_index_0.
    destruct (sorted_by_start G (x :: l')) as [|c r] eqn:Es.
    + pose proof (sorted_by_start_perm G (x :: l')) as Hp. rewrite Es in Hp.
      apply Permutation_nil in Hp. discriminate.
    + exists (Some c). split; [reflexivity|].
      destruct (sorted_by_start_hd G _ _ _ Es) as [Hc Hmin].
      apply Hl_in in Hc. destruct Hc as [H1 [H2 H3]].
      repeat split; auto. intros y Hr Ht Hs. apply Hmin. apply Hl_in. auto.
Qed.

(** ** Trees with dependency edges *)

Section Enriched.

Variable G : DiGraph.
Hypothesis W : ast_tree G.
Variable deps : list (nat * nat * EdgeData).
Variable G' : DiGraph.
Hypothesis E : enriched_by G deps G'.

Lemma en_is_node (n : nat) : is_node G' n <-> is_node G n.
Proof. destruct E as [E1 _]. unfold is_node. now rewrite E1. Qed.

Lemma en_attrs_of (n : nat) : attrs_of G' n = attrs_of G n.
Proof. destruct E as [E1 _]. unfold attrs_of. now rewrite E1. Qed.

Lemma en_terminal (n : nat) : terminal G' n = terminal G n.
Proof. unfold terminal. now rewrite en_attrs_of. Qed.

Lemma en_start_of (n : nat) : start_of G' n = start_of G n.
Proof. unfold start_of. now rewrite en_attrs_of. Qed.

Lemma en_attrs_ok : attrs_ok G'.
Proof. destruct E as [E1 _]. unfold attrs_ok. rewrite E1. apply (at_attrs G W). Qed.

Lemma en_edges_ok : edges_ok G'.
Proof.
  destruct E as [E1 [E2 E3]]. intros e He. rewrite E2 in He.
  unfold is_node. rewrite E1. apply in_app_or in He. destruct He as [He|He].
  - apply (ast_edges_ok G W e He).
  - rewrite Forall_forall in E3. destruct (E3 e He) as [H1 [H2 _]]. auto.
Qed.

Lemma en_successors (u v : nat) :
  In v (successors G' u) <->
  In v (successors G u) \/ exists d, In (u, v, d) deps.
Proof.
  destruct E as [_ [E2 _]]. rewrite !successors_In. rewrite E2. split.
  - intros [d H]. apply in_app_or in H. destruct H; eauto.
  - intros [[d H]|[d H]]; exists d; apply in_or_app; auto.
Qed.

Lemma en_parent (n p : nat) : parent G n = Some p -> parent G' n = Some p.
Proof. destruct E as [_ [E2 _]]. eapply parent_app; eauto. Qed.

Lemma en_parent_root : parent G' 0 = None.
Proof.
  destruct E as [_ [E2 E3]]. apply parent_none. rewrite E2, map_app.
  intros H. apply in_app_or in H. destruct H as [H|H].
  - apply in_map_iff in H. destruct H as [e [E0 He]].
    destruct (at_edge G W e He) as [_ [_ [H3 _]]]. rewrite E0 in H3. lia.
  - apply in_map_iff in H. destruct H as [e [E0 He]].
    rewrite Forall_forall in E3. destruct (E3 e He) as [_ [H2 [_ [H4 _]]]].
    rewrite E0 in *. destruct (ast_terminal_leaf G W 0 H2 H4). auto.
Qed.

Lemma en_reach_mono (x y : nat) :
  reach (successors G) x y -> reach (successors G') x y.
Proof.
  intros H. induction H; [constructor|].
  eapply reach_step; eauto. apply en_successors. now left.
Qed.

(** What is reached over dependency edges starts after a terminal of the
    tree that is reached without them. *)
Lemma en_reach (x y : nat) :
  is_node G x ->
  reach (successors G') x y ->
  reach (successors G) x y
  \/ exists t, reach (successors G) x t /\ terminal G t = true
               /\ terminal G y = true /\ (start_of G t < start_of G y)%Z.
Proof.
  intros Hx H. induction H as [|y z Hr IH Hz]; [left; constructor|].
  apply en_successors in Hz. destruct Hz as [Hz|[d Hz]].
  - left. destruct IH as [IH|[t [_ [_ [Ht _]]]]].
    + eapply reach_step; eauto.
    + exfalso.
      assert (Hy : is_node G y).
      { apply successors_In in Hz. destruct Hz as [d' Hz].
        apply (ast_edges_ok G W) in Hz. tauto. }
      destruct (ast_terminal_leaf G W y Hy Ht) as [H0 _].
      rewrite H0 in Hz. contradiction.
  - right. destruct E as [_ [_ E3]]. rewrite Forall_forall in E3.
    destruct (E3 _ Hz) as [H1 [H2 [H3 [H4 [H5 _]]]]].
    unfold edge_source, edge_target in *. simpl in *.
    destruct IH as [IH|[t [Ht1 [Ht2 [Ht3 Ht4]]]]].
    + exists y. auto.
    + exists t. repeat split; auto. lia.
Qed.

Lemma en_no_candidate (level : nat) (s : Z) :
  no_candidate_at G' level s -> no_candidate_at G level s.
Proof.
  intros H y Hr Ht Hs. apply (H y).
  - now apply en_reach_mono.
  - now rewrite en_terminal.
  - now rewrite en_start_of.
Qed.

Lemma en_candidate (level : nat) (s : Z) (c : nat) :
  is_node G level ->
  candidate_at G' level s c -> candidate_at G level s c.
Proof.
  intros Hl [H1 [H2 [H3 H4]]].
  rewrite en_terminal in H2. rewrite en_start_of in H3.
  assert (Hmin : forall y, reach (successors G) level y -> terminal G y = true ->
                   (start_of G y < s)%Z -> (start_of G c <= start_of G y)%Z).
  { intros y Hr Ht Hs. rewrite <- !en_start_of. apply H4.
    - now apply en_reach_mono.
    - now rewrite en_terminal.
    - now rewrite en_start_of. }
  repeat split; auto.
  destruct (en_reach level c Hl H1) as [H|[t [Ht1 [Ht2 [Ht3 Ht4]]]]]; auto.
  exfalso. assert (start_of G c <= start_of G t)%Z by (apply Hmin; auto; lia). lia.
Qed.

(** The loop of [selectHead] on the tree with dependency edges. *)
Lemma selectHead_loop_enriched (n r : nat) :
  is_node G n ->
  is_node G r -> terminal G r = true -> (start_of G r < start_of G n)%Z ->
  forall f, is_node G f ->
  forall anc, ancestors_from G n (anc ++ [f]) ->
  (forall x, In x anc -> no_candidate_at G x (start_of G n)) ->
  exists h, head_of G n h
            /\ forall fuel, f < fuel -> selectHead_loop fuel G' n f = Ret h.
Proof.
  intros Hn Hr Hrt Hrs f. induction f as [f IH] using lt_wf_ind.
  intros Hf anc Hanc Hnone.
  destruct (getCandidate_spec G' f (start_of G n) en_attrs_ok en_edges_ok)
    as [res [Hres Hspec]]; [now apply en_is_node|].
  assert (Hstart : node_start G' n = Ret (start_of G n)).
  { rewrite node_start_ret; [now rewrite en_start_of | apply en_attrs_ok
                             | now apply en_is_node]. }
  destruct res as [c|].
  - exists c. split.
    + exists anc, f.
      split; [exact Hanc | split; [apply en_candidate; auto | exact Hnone]].
    + intros fuel Hfuel. destruct fuel as [|fuel]; [lia|].
      simpl. rewrite Hstart. simpl. rewrite Hres. reflexivity.
  - apply en_no_candidate in Hspec.
    assert (Hf0 : f <> 0).
    { intros ->. apply (Hspec r); auto. now apply ast_reach_root. }
    destruct (ast_parent G W f Hf Hf0) as [p [Hp [Hlt [Hpn _]]]].
    destruct (IH p Hlt Hpn (anc ++ [f])) as [h [Hh Hrun]].
    + unfold ancestors_from in *. rewrite <- app_assoc.
      apply (chain_snoc _ (n :: anc) f p); auto.
    + intros x Hx. apply in_app_or in Hx. destruct Hx as [Hx|[<-|[]]]; auto.
    + exists h. split; auto.
      intros fuel Hfuel. destruct fuel as [|fuel]; [lia|].
      simpl. rewrite Hstart. simpl. rewrite Hres.
      rewrite first_in_edge_parent.
      rewrite (proj2 (dg_has_node_true G' f)) by (now apply en_is_node).
      rewrite (en_parent _ _ Hp). simpl. apply Hrun. lia.
Qed.

(** [selectHead] on the tree with dependency edges returns the head. *)
Lemma selectHead_enriched (n r : nat) :
  is_node G n -> n <> 0 ->
  is_node G r -> terminal G r = true -> (start_of G r < start_of G n)%Z ->
  exists h, head_of G n h
            /\ forall fuel, n <= fuel -> selectHead fuel G' n = Ret h.
Proof.
  intros Hn Hn0 Hr Hrt Hrs.
  destruct (ast_parent G W n Hn Hn0) as [p [Hp [Hlt [Hpn _]]]].
  destruct (selectHead_loop_enriched n r Hn Hr Hrt Hrs p Hpn [])
    as [h [Hh Hrun]].
  - split; [exact Hp | exact I].
  - intros x [].
  - exists h. split; auto. intros fuel Hfuel. unfold selectHead.
    rewrite first_in_edge_parent.
    rewrite (proj2 (dg_has_node_true G' n)) by (now apply en_is_node).
    rewrite (en_parent _ _ Hp). simpl. apply Hrun. lia.
Qed.

End Enriched.

Lemma enriched_by_nil (G : DiGraph) : enriched_by G [] G.
Proof. repeat split; auto. now rewrite app_nil_r. Qed.


(** ** Checking a tree *)

Lemma nodupb_sound (l : list nat) : nodupb l = true -> NoDup l.
Proof.
  induction l as [|x l IH]; simpl; intros H; [constructor|].
  apply andb_true_iff in H. destruct H as [H1 H2].
  constructor; auto. apply negb_true_iff in H1. now apply mem_not_In.
Qed.

Lemma nodupZb_sound (l : list Z) : nodupZb l = true -> NoDup l.
Proof.
  induction l as [|x l IH]; simpl; intros H; [constructor|].
  apply andb_true_iff in H. destruct H as [H1 H2].
  constructor; auto. apply negb_true_iff in H1.
  intros Hin. assert (existsb (Z.eqb x) l = true); [|congruence].
  apply existsb_exists. exists x. split; auto. apply Z.eqb_refl.
Qed.

Lemma empty_data_sound (d : EdgeData) : empty_data d = true -> d = no_data.
Proof.
  destruct d as [[l|] [c|] [s|]]; simpl; intros H; try discriminate. reflexivity.
Qed.

(** A graph that passes the check is a constituency tree. *)
Lemma ast_treeb_sound (G : DiGraph) : ast_treeb G = true -> ast_tree G.
Proof.
  unfold ast_treeb. intros H.
  repeat (apply andb_true_iff in H; let H' := fresh "C" in destruct H as [H H']).
  constructor.
  - now apply nodupb_sound.
  - now apply mem_In.
  - intros e He. rewrite forallb_forall in C3. specialize (C3 e He).
    repeat (apply andb_true_iff in C3; let H' := fresh "D" in destruct C3 as [C3 H']).
    repeat split.
    + now apply mem_In.
    + now apply mem_In.
    + now apply Nat.ltb_lt.
    + now apply empty_data_sound.
  - now apply nodupb_sound.
  - intros n Hn Hn0. rewrite forallb_forall in C1. specialize (C1 n Hn).
    apply orb_true_iff in C1. destruct C1 as [C1|C1].
    + apply Nat.eqb_eq in C1. contradiction.
    + now apply mem_In.
  - intros na Hna. rewrite forallb_forall in C0. auto.
  - intros n Hn. rewrite forallb_forall in C. specialize (C n Hn).
    now apply Bool.eqb_prop.
Qed.

Lemma distinct_startsb_sound (G : DiGraph) : distinct_startsb G = true -> distinct_starts G.
Proof. apply nodupZb_sound. Qed.

Lemma example_graph_tree : ast_tree example_graph.
Proof. apply ast_treeb_sound. vm_compute. reflexivity. Qed.

Lemma example_graph_distinct : distinct_starts example_graph.
Proof. apply distinct_startsb_sound. vm_compute. reflexivity. Qed.

(** ** The root and the other terminals *)

Lemma terminals_In (G : DiGraph) (n : nat) :
  In n (terminals G) <-> is_node G n /\ terminal G n = true.
Proof. unfold terminals. apply filter_In. Qed.

Lemma root_starts_first (G : DiGraph) (root n : nat) :
  attrs_ok G -> distinct_starts G -> getRoot G = Ret root ->
  In n (terminals G) -> n <> root ->
  (start_of G root < start_of G n)%Z.
Proof.
  intros Hok Hd Hr Hn Hne.
  destruct (getRoot_spec G root Hok Hr) as [H1 H2].
  specialize (H2 n Hn).
  assert (start_of G root <> start_of G n); [|lia].
  intros E. apply Hne. symmetry.
  eapply (NoDup_map_inj (start_of G) (terminals G)); eauto.
Qed.

Lemma non_root_terminals_ret (G : DiGraph) (root : nat) :
  attrs_ok G ->
  non_root_terminals G root
  = Ret (filter (fun n => negb (Nat.eqb root n) && terminal G n) (node_ids (dg_node G))).
Proof.
  intros Hok. unfold non_root_terminals. apply filterM_ret.
  intros n Hn. destruct (Nat.eqb root n); simpl; auto.
  now apply node_is_terminal_ret.
Qed.

(** ** Head selection *)

(** C3. For a terminal [n] of a constituency tree other than the leftmost
    one, [selectHead] returns, with any budget of at least [n] iterations the
    same node [h]: a terminal that starts strictly before [n] and that is,
    at the nearest ancestor of [n] from which a terminal starting before [n]
    can be reached, the one of these with the smallest start. *)
Theorem C3_selectHead_head (G : DiGraph) (root n : nat) :
  ast_tree G -> distinct_starts G -> getRoot G = Ret root ->
  In n (terminals G) -> n <> root ->
  exists h,
    (forall fuel, n <= fuel -> selectHead fuel G n = Ret h)
    /\ terminal G h = true
    /\ (start_of G h < start_of G n)%Z
    /\ head_of G n h.
Proof.
  intros W Hd Hr Hn Hne.
  pose proof (ast_attrs_ok G W) as Hok.
  pose proof (root_starts_first G root n Hok Hd Hr Hn Hne) as Hlt.
  destruct (getRoot_spec G root Hok Hr) as [Hroot _].
  apply terminals_In in Hroot, Hn. destruct Hroot as [R1 R2], Hn as [N1 N2].
  destruct (ast_terminal_leaf G W n N1 N2) as [_ Hn0].
  destruct (selectHead_enriched G W [] G (enriched_by_nil G) n root N1 Hn0 R1 R2 Hlt)
    as [h [Hh Hrun]].
  exists h. split; [exact Hrun|].
  destruct Hh as [anc [P [H1 [[H2 [H3 [H4 H5]]] H6]]]].
  repeat split; auto.
  exists anc, P. repeat split; auto.
Qed.

Lemma C3_witness :
  exists h,
    (forall fuel, 6 <= fuel -> selectHead fuel example_graph 6 = Ret h)
    /\ terminal example_graph h = true
    /\ (start_of example_graph h < start_of example_graph 6)%Z
    /\ head_of example_graph 6 h.
Proof.
  apply (C3_selectHead_head example_graph 2 6).
  - exact example_graph_tree.
  - exact example_graph_distinct.
  - reflexivity.
  - vm_compute. tauto.
  - lia.
Defined.

(** The loop of [selectHead] for the leftmost terminal: it finds no
    candidate at any ancestor and fails at the root, unless the budget ends
    before. *)
Lemma selectHead_loop_root (G : DiGraph) (root : nat) :
  ast_tree G -> getRoot G = Ret root ->
  forall f, is_node G f ->
  forall fuel,
    selectHead_loop fuel G root f = Raise IndexError
    \/ (selectHead_loop fuel G root f = OutOfFuel /\ fuel <= f).
Proof.
  intros W Hr.
  pose proof (ast_attrs_ok G W) as Hok.
  destruct (getRoot_spec G root Hok Hr) as [Hroot Hmin].
  apply terminals_In in Hroot. destruct Hroot as [R1 R2].
  intros f. induction f as [f IH] using lt_wf_ind. intros Hf fuel.
  destruct fuel as [|fuel]; [right; split; [reflexivity | lia]|].
  simpl. rewrite (node_start_ret G root Hok R1). cbn [bind].
  destruct (getCandidate_spec G f (start_of G root) Hok (ast_edges_ok G W) Hf)
    as [res [Hres Hspec]].
  rewrite Hres. cbn [bind]. destruct res as [c|].
  - exfalso. destruct Hspec as [H1 [H2 [H3 _]]].
    assert (In c (terminals G)).
    { apply terminals_In. split; auto.
      eapply reach_is_node; eauto. apply (ast_edges_ok G W). }
    specialize (Hmin c H). lia.
  - rewrite first_in_edge_parent, (proj2 (dg_has_node_true G f) Hf).
    destruct (Nat.eq_dec f 0) as [->|Hf0].
    + rewrite (ast_parent_root G W). left. reflexivity.
    + destruct (ast_parent G W f Hf Hf0) as [p [Hp [Hlt [Hpn _]]]].
      rewrite Hp. cbn [bind].
      destruct (IH p Hlt Hpn fuel) as [H|[H1 H2]]; [left; exact H|].
      right. split; [exact H1 | lia].
Qed.

(** C9. On the leftmost terminal of a constituency tree [selectHead] returns
    no head, whatever the budget: the walk up the ancestors finds no
    candidate and fails on the incoming edge the root does not have.
    [enrichAstWithDeps] makes no such call: the leftmost terminal is not
    among the nodes it loops over. *)
Theorem C9_selectHead_leftmost (G : DiGraph) (root : nat) :
  ast_tree G -> getRoot G = Ret root ->
  (forall fuel h, selectHead fuel G root <> Ret h)
  /\ (forall fuel, root <= fuel -> selectHead fuel G root = Raise IndexError)
  /\ (exists nodes, non_root_terminals G root = Ret nodes /\ ~ In root nodes).
Proof.
  intros W Hr.
  pose proof (ast_attrs_ok G W) as Hok.
  destruct (getRoot_spec G root Hok Hr) as [Hroot Hmin].
  apply terminals_In in Hroot. destruct Hroot as [R1 R2].
  destruct (ast_terminal_leaf G W root R1 R2) as [_ Hr0].
  destruct (ast_parent G W root R1 Hr0) as [p [Hp [Hlt [Hpn _]]]].
  assert (Hsel : forall fuel, selectHead fuel G root = selectHead_loop fuel G root p).
  { intros fuel. unfold selectHead.
    rewrite first_in_edge_parent, (proj2 (dg_has_node_true G root) R1), Hp.
    reflexivity. }
  repeat split.
  - intros fuel h. rewrite Hsel.
    destruct (selectHead_loop_root G root W Hr p Hpn fuel) as [H|[H _]];
      rewrite H; discriminate.
  - intros fuel Hfuel. rewrite Hsel.
    destruct (selectHead_loop_root G root W Hr p Hpn fuel) as [H|[_ H]];
      [exact H | lia].
  - rewrite non_root_terminals_ret by assumption. eexists. split; [reflexivity|].
    intros H. apply filter_In in H. destruct H as [_ H].
    rewrite Nat.eqb_refl in H. discriminate.
Qed.

Lemma C9_witness :
  (forall fuel h, selectHead fuel example_graph 2 <> Ret h)
  /\ (forall fuel, 2 <= fuel -> selectHead fuel example_graph 2 = Raise IndexError)
  /\ (exists nodes, non_root_terminals example_graph 2 = Ret nodes /\ ~ In 2 nodes).
Proof.
  apply (C9_selectHead_leftmost example_graph 2).
  - exact example_graph_tree.
  - reflexivity.
Defined.


(** ** Grouping edges by source *)

Lemma filter_disjoint_perm {A : Type} (p q : A -> bool) (l : list A) :
  (forall x, In x l -> p x = true -> q x = false) ->
  Permutation (filter p l ++ filter q l) (filter (fun x => p x || q x) l).
Proof.
  induction l as [|x l IH]; intros H; simpl; auto.
  assert (IH' := IH (fun y Hy => H y (or_intror Hy))).
  destruct (p x) eqn:Ep; simpl.
  - rewrite (H x (or_introl eq_refl) Ep). now constructor.
  - destruct (q x); auto.
    etransitivity; [symmetry; apply Permutation_middle|]. now constructor.
Qed.

Lemma flat_map_group {A : Type} (key : A -> nat) (l : list A) (keys : list nat) :
  NoDup keys ->
  Permutation (flat_map (fun u => filter (fun e => key e =? u) l) keys)
              (filter (fun e => mem (key e) keys) l).
Proof.
  induction keys as [|k ks IH]; intros Hnd; simpl.
  - rewrite filter_none; auto.
  - inversion Hnd as [|? ? Hk Hnd']; subst.
    etransitivity; [apply Permutation_app_head, IH, Hnd'|].
    etransitivity; [apply filter_disjoint_perm|].
    + intros x _ Hx. apply Nat.eqb_eq in Hx. subst k. now apply mem_not_In.
    + apply Permutation_refl.
Qed.

Lemma filter_comm {A : Type} (p q : A -> bool) (l : list A) :
  filter p (filter q l) = filter q (filter p l).
Proof.
  induction l as [|x l IH]; simpl; auto.
  destruct (p x) eqn:Ep, (q x) eqn:Eq; simpl; rewrite ?Ep, ?Eq, IH; auto.
Qed.

Lemma dg_edges_perm (T : DiGraph) :
  NoDup (node_ids (dg_node T)) -> edges_ok T ->
  Permutation (dg_edges T) (dg_edge T).
Proof.
  intros Hnd Hok. unfold dg_edges, out_edges.
  etransitivity; [apply (flat_map_group (fun e => fst (fst e))), Hnd|].
  rewrite filter_all; auto.
  intros e He. apply mem_In. apply (Hok e He).
Qed.

(** ** Adding a dependency edge *)

Lemma update_attrs_none (b : NodeAttrs) : update_attrs b no_attrs = b.
Proof. destruct b. reflexivity. Qed.

Lemma update_node_present (n : nat) (l : list (nat * NodeAttrs)) :
  In n (node_ids l) -> update_node n no_attrs l = l.
Proof.
  induction l as [|[m b] l IH]; simpl; intros H; [contradiction|].
  destruct (Nat.eqb_spec n m).
  - now rewrite update_attrs_none.
  - destruct H as [H|H]; [congruence|]. now rewrite IH.
Qed.

Lemma update_edge_absent (u v : nat) (d : EdgeData) (l : list (nat * nat * EdgeData)) :
  (forall d', ~ In (u, v, d') l) -> update_edge u v d l = l ++ [(u, v, d)].
Proof.
  induction l as [|[[u' v'] d'] l IH]; simpl; intros H; auto.
  destruct (Nat.eqb_spec u u'); destruct (Nat.eqb_spec v v'); simpl;
    try (rewrite IH; [reflexivity | intros d0 H0; apply (H d0); now right]).
  subst. exfalso. apply (H d'). now left.
Qed.

Lemma head_of_facts (G : DiGraph) (n h : nat) :
  ast_tree G -> head_of G n h ->
  is_node G h /\ terminal G h = true /\ (start_of G h < start_of G n)%Z.
Proof.
  intros W [anc [P [H1 [[H2 [H3 [H4 _]]] _]]]]. repeat split; auto.
  assert (HP : is_node G P).
  { unfold ancestors_from in H1.
    change (n :: anc ++ [P]) with ((n :: anc) ++ [P]) in H1.
    destruct (rev (n :: anc)) as [|x r] eqn:Er.
    - apply (f_equal (@length nat)) in Er. rewrite length_rev in Er. discriminate.
    - assert (Ex : n :: anc = rev r ++ [x]).
      { rewrite <- (rev_involutive (n :: anc)), Er. reflexivity. }
      rewrite Ex, <- app_assoc in H1. apply chain_app_inv in H1.
      destruct H1 as [_ [H1 _]]. apply parent_successor in H1.
      apply successors_In in H1. destruct H1 as [d H1].
      apply (ast_edges_ok G W) in H1. tauto. }
  eapply reach_is_node; eauto. apply (ast_edges_ok G W).
Qed.

Lemma enriched_add (G : DiGraph) (deps : list (nat * nat * EdgeData)) (G' : DiGraph)
  (h n : nat) :
  ast_tree G -> enriched_by G deps G' ->
  is_node G n -> terminal G n = true -> ~ In n (map edge_target deps) ->
  head_of G n h ->
  enriched_by G (deps ++ [(h, n, dependency)]) (dg_add_edge G' h n dependency).
Proof.
  intros W [E1 [E2 E3]] Hn Ht Hnew Hh.
  destruct (head_of_facts G n h W Hh) as [Hh1 [Hh2 Hh3]].
  unfold dg_add_edge. split; [|split]; simpl.
  - rewrite E1. rewrite (update_node_present h) by exact Hh1.
    now rewrite update_node_present.
  - rewrite update_edge_absent; [rewrite E2; now rewrite app_assoc|].
    intros d' Hd. rewrite E2 in Hd. apply in_app_or in Hd. destruct Hd as [Hd|Hd].
    + assert (Hs : In n (successors G h)) by (apply successors_In; eauto).
      destruct (ast_terminal_leaf G W h Hh1 Hh2) as [H0 _]. rewrite H0 in Hs.
      contradiction.
    + apply Hnew. apply in_map_iff. exists (h, n, d'). auto.
  - apply Forall_app. split; auto. constructor; [|constructor].
    repeat split; auto.
Qed.

(** ** The loop of [enrichAstWithDeps] *)

Lemma max_id_le (G : DiGraph) (n : nat) : is_node G n -> n <= max_id G.
Proof.
  unfold is_node, max_id. induction (node_ids (dg_node G)) as [|x l IH]; simpl.
  - contradiction.
  - intros [->|H]; [lia|]. specialize (IH H). lia.
Qed.

Lemma dependents_In (G : DiGraph) (root n : nat) :
  In n (dependents G root) <-> is_node G n /\ n <> root /\ terminal G n = true.
Proof.
  unfold dependents. rewrite filter_In, andb_true_iff, negb_true_iff, Nat.eqb_neq.
  unfold is_node. intuition congruence.
Qed.

Lemma enrich_loop (G : DiGraph) (root : nat) :
  ast_tree G -> distinct_starts G -> getRoot G = Ret root ->
  forall todo done deps G',
    dependents G root = done ++ todo ->
    enriched_by G deps G' -> map edge_target deps = done -> Forall (head_edge G) deps ->
    exists E deps',
      (forall fuel, max_id G <= fuel ->
         foldM (fun G n => h <- selectHead fuel G n ;; Ret (dg_add_edge G h n dependency))
               todo G' = Ret E)
      /\ enriched_by G deps' E
      /\ map edge_target deps' = dependents G root
      /\ Forall (head_edge G) deps'.
Proof.
  intros W Hd Hr.
  pose proof (ast_attrs_ok G W) as Hok.
  destruct (getRoot_spec G root Hok Hr) as [Hroot _].
  apply terminals_In in Hroot. destruct Hroot as [R1 R2].
  assert (Hnd : NoDup (dependents G root)).
  { apply NoDup_filter. apply (at_nodup G W). }
  induction todo as [|n todo IH]; intros done deps G' Hsplit E Htg Hheads.
  - exists G', deps. rewrite app_nil_r in Hsplit. simpl.
    split; [reflexivity|]. split; [exact E|]. split; [congruence | exact Hheads].
  - assert (Hn : In n (dependents G root)) by (rewrite Hsplit; apply in_elt).
    apply dependents_In in Hn. destruct Hn as [N1 [N2 N3]].
    assert (Hlt : (start_of G root < start_of G n)%Z).
    { apply root_starts_first; auto. now apply terminals_In. }
    destruct (ast_terminal_leaf G W n N1 N3) as [_ Hn0].
    destruct (selectHead_enriched G W deps G' E n root N1 Hn0 R1 R2 Hlt)
      as [h [Hh Hrun]].
    destruct (IH (done ++ [n]) (deps ++ [(h, n, dependency)])
                 (dg_add_edge G' h n dependency))
      as [E' [deps' [H1 [H2 [H3 H4]]]]].
    + now rewrite <- app_assoc.
    + apply enriched_add; auto. rewrite Htg. rewrite Hsplit in Hnd.
      apply NoDup_remove_2 in Hnd. intros H. apply Hnd. apply in_or_app. now left.
    + rewrite map_app, Htg. reflexivity.
    + apply Forall_app. split; auto.
    + exists E', deps'. split; [|auto].
      intros fuel Hfuel. simpl.
      rewrite Hrun by (pose proof (max_id_le G n N1); lia). cbn [bind].
      now apply H1.
Qed.

(** [enrichAstWithDeps] returns the tree with one dependency edge into every
    terminal but the root, from its head. *)
Lemma enrichAstWithDeps_spec (G : DiGraph) (root : nat) :
  ast_tree G -> distinct_starts G -> getRoot G = Ret root ->
  exists E deps,
    (forall fuel, max_id G <= fuel -> enrichAstWithDeps fuel G = Ret E)
    /\ enriched_by G deps E
    /\ map edge_target deps = dependents G root
    /\ Forall (head_edge G) deps.
Proof.
  intros W Hd Hr.
  pose proof (ast_attrs_ok G W) as Hok.
  destruct (enrich_loop G root W Hd Hr
              (dependents G root) [] [] G eq_refl (enriched_by_nil G) eq_refl
              (Forall_nil _)) as [E [deps [H1 [H2 [H3 H4]]]]].
  exists E, deps. split; [|auto].
  intros fuel Hfuel. unfold enrichAstWithDeps. rewrite Hr. cbn [bind].
  rewrite non_root_terminals_ret by assumption. cbn [bind].
  now apply H1.
Qed.

(** ** The dependency tree *)

Lemma lookup_filter {A : Type} (p : nat -> bool) (n : nat) (l : list (nat * A)) :
  lookup n (filter (fun na => p (fst na)) l) = if p n then lookup n l else None.
Proof.
  induction l as [|[m a] l IH]; simpl.
  - now destruct (p n).
  - destruct (p m) eqn:Em; simpl.
    + destruct (Nat.eqb_spec n m); [subst; now rewrite Em | exact IH].
    + destruct (Nat.eqb_spec n m); [subst; now rewrite Em in * | exact IH].
Qed.

Lemma node_ids_filter {A : Type} (p : nat -> bool) (l : list (nat * A)) :
  node_ids (filter (fun na => p (fst na)) l) = filter p (node_ids l).
Proof.
  unfold node_ids. induction l as [|[m a] l IH]; simpl; auto.
  destruct (p m); simpl; now rewrite IH.
Qed.

Lemma getDependencyTree_spec (G : DiGraph) (deps : list (nat * nat * EdgeData))
  (E : DiGraph) :
  ast_tree G -> enriched_by G deps E ->
  exists T, getDependencyTree E = Ret T /\ dep_tree_of G deps T.
Proof.
  intros W En. pose proof En as [E1 [E2 E3]].
  unfold getDependencyTree, copy_of_view.
  rewrite (filterM_ret _ (terminal G)).
  2:{ intros n Hn. rewrite node_is_terminal_ret.
      - now rewrite (en_terminal G deps E En).
      - apply (en_attrs_ok G W deps E En).
      - exact Hn. }
  cbn [bind from_graph_data]. eexists. split; [reflexivity|].
  rewrite E1. fold (terminals G).
  assert (Hmem : forall n, is_node G n -> mem n (terminals G) = terminal G n).
  { intros n Hn. destruct (terminal G n) eqn:Et.
    - apply mem_In. apply terminals_In. auto.
    - apply mem_not_In. rewrite terminals_In. intros [_ H]. congruence. }
  constructor; simpl.
  - apply filter_ext_in. intros [n a] Hna. simpl. apply Hmem.
    apply in_map_iff. exists (n, a). auto.
  - set (q := fun e : nat * nat * EdgeData =>
                mem (snd (fst e)) (terminals G) && filter_edge (snd e)).
    etransitivity.
    { erewrite flat_map_ext.
      - apply (flat_map_group (fun e => fst (fst e)) (filter q (dg_edge E))).
        apply NoDup_filter. apply (at_nodup G W).
      - intros u. unfold out_edges. apply filter_comm. }
    rewrite E2, !filter_app.
    rewrite (filter_none (fun e => mem (fst (fst e)) (terminals G))
               (filter q (dg_edge G))).
    2:{ intros e He. apply filter_In in He. destruct He as [He _].
        destruct (at_edge G W e He) as [H1 _].
        assert (Hs : In (edge_target e) (successors G (edge_source e))).
        { apply successors_In. exists (snd e). destruct e as [[u v] d]. exact He. }
        unfold edge_source, edge_target in *.
        rewrite (Hmem _ H1). rewrite (at_leaf G W _ H1).
        destruct (successors G (fst (fst e))); [contradiction|].
        simpl. apply andb_false_r. }
    simpl. rewrite (filter_all q deps).
    2:{ intros e He. rewrite Forall_forall in E3.
        destruct (E3 e He) as [_ [H2 [_ [H4 [_ H6]]]]].
        unfold q. unfold edge_target in *. rewrite (Hmem _ H2), H4, H6.
        reflexivity. }
    rewrite filter_all; auto.
    intros e He.
    rewrite Forall_forall in E3. destruct (E3 e He) as [H1 [_ [H3 _]]].
    unfold edge_source in *. now rewrite (Hmem _ H1).
Qed.

Section DepTree.

Variable G : DiGraph.
Hypothesis W : ast_tree G.
Hypothesis D : distinct_starts G.
Variable root : nat.
Hypothesis R : getRoot G = Ret root.
Variable deps : list (nat * nat * EdgeData).
Hypothesis deps_ok : Forall (dep_ok G) deps.
Hypothesis deps_targets : map edge_target deps = dependents G root.
Variable T : DiGraph.
Hypothesis dt : dep_tree_of G deps T.

Lemma dt_is_node (n : nat) : is_node T n <-> In n (terminals G).
Proof.
  unfold is_node. rewrite (dt_nodes G deps T dt), node_ids_filter. reflexivity.
Qed.

Lemma dt_attrs_of (n : nat) : In n (terminals G) -> attrs_of T n = attrs_of G n.
Proof.
  intros H. apply terminals_In in H. destruct H as [_ H].
  unfold attrs_of. rewrite (dt_nodes G deps T dt), lookup_filter, H. reflexivity.
Qed.

Lemma dt_nodup : NoDup (node_ids (dg_node T)).
Proof.
  rewrite (dt_nodes G deps T dt), node_ids_filter. apply NoDup_filter, (at_nodup G W).
Qed.

Lemma dt_edge_In (e : nat * nat * EdgeData) : In e (dg_edge T) <-> In e deps.
Proof.
  pose proof (dt_edges G deps T dt) as P. split; intros H.
  - eapply Permutation_in; eauto.
  - eapply Permutation_in; [symmetry|]; eauto.
Qed.

Lemma dt_edges_ok : edges_ok T.
Proof.
  intros e He. apply dt_edge_In in He. rewrite Forall_forall in deps_ok.
  destruct (deps_ok e He) as [H1 [H2 [H3 [H4 _]]]].
  split; apply dt_is_node, terminals_In; auto.
Qed.

Lemma dt_targets_nodup : NoDup (map edge_target (dg_edge T)).
Proof.
  apply (Permutation_NoDup (l := map edge_target deps)).
  - apply Permutation_map. symmetry. apply (dt_edges G deps T dt).
  - rewrite deps_targets. apply NoDup_filter, (at_nodup G W).
Qed.

Lemma dt_parent (h n : nat) (d : EdgeData) :
  In (h, n, d) deps -> parent T n = Some h.
Proof.
  intros H. apply dt_edge_In in H.
  assert (Hn : In n (map edge_target (dg_edge T))).
  { apply in_map_iff. exists (h, n, d). auto. }
  destruct (parent_some T n Hn) as [p Hp]. rewrite Hp. f_equal.
  apply parent_successor in Hp. apply successors_In in Hp. destruct Hp as [d' Hp].
  pose proof (NoDup_map_inj edge_target (dg_edge T) _ _ dt_targets_nodup Hp H eq_refl)
    as E.
  now inversion E.
Qed.

Lemma dt_parent_root : parent T root = None.
Proof.
  apply parent_none. intros H.
  assert (H' : In root (map edge_target deps)).
  { eapply Permutation_in; [|exact H]. apply Permutation_map, (dt_edges G deps T dt). }
  rewrite deps_targets in H'. apply dependents_In in H'. tauto.
Qed.

Lemma dt_head_exists (n : nat) :
  In n (terminals G) -> n <> root ->
  exists h d, In (h, n, d) deps.
Proof.
  intros Hn Hne.
  assert (H : In n (map edge_target deps)).
  { rewrite deps_targets. apply dependents_In. apply terminals_In in Hn. tauto. }
  apply in_map_iff in H. destruct H as [[[h n'] d] [E H]].
  unfold edge_target in E. simpl in E. subst n'. eauto.
Qed.

Lemma dt_head_root : getHeadDepTree T root = Raise IndexError.
Proof.
  unfold getHeadDepTree. rewrite first_in_edge_parent, dt_parent_root.
  destruct (getRoot_spec G root (ast_attrs_ok G W) R) as [H _].
  apply dt_is_node in H. apply dg_has_node_true in H. now rewrite H.
Qed.

Lemma dt_head (h n : nat) (d : EdgeData) :
  In (h, n, d) deps -> getHeadDepTree T n = Ret h.
Proof.
  intros H. unfold getHeadDepTree.
  rewrite first_in_edge_parent, (dt_parent h n d H).
  rewrite Forall_forall in deps_ok. destruct (deps_ok _ H) as [_ [H2 [_ [H4 _]]]].
  assert (Hn : is_node T n) by (apply dt_is_node, terminals_In; auto).
  apply dg_has_node_true in Hn. now rewrite Hn.
Qed.

(** Following head edges leads to the root, through terminals that start
    earlier and earlier. *)
Lemma follow_heads_root (m : nat) : forall n fuel,
  In n (terminals G) ->
  Z.to_nat (start_of G n - start_of G root) <= m ->
  forall l, NoDup l -> incl l (terminals G) ->
    (forall x, In x l -> (start_of G n < start_of G x)%Z) ->
    length (terminals G) <= length l + 1 + fuel ->
    let walk := follow_heads fuel T n in
    last walk n = root /\ NoDup (l ++ walk) /\ incl walk (terminals G).
Proof.
  pose proof (ast_attrs_ok G W) as Hok.
  destruct (getRoot_spec G root Hok R) as [Hroot Hmin].
  induction m as [m IH] using lt_wf_ind.
  intros n fuel Hn Hm l Hl Hincl Hbig Hfuel.
  assert (Hn_l : ~ In n l) by (intros H; specialize (Hbig n H); lia).
  destruct (Nat.eq_dec n root) as [->|Hne].
  - assert (Ew : follow_heads fuel T root = [root]).
    { destruct fuel; simpl; [reflexivity|]. now rewrite dt_head_root. }
    simpl. rewrite Ew. simpl. repeat split.
    + apply NoDup_app; auto; [repeat constructor; intros []|].
      intros a Ha [<-|[]]. auto.
    + intros x [<-|[]]. auto.
  - destruct (dt_head_exists n Hn Hne) as [h [d Hd]].
    pose proof (dt_head h n d Hd) as Hh.
    rewrite Forall_forall in deps_ok.
    destruct (deps_ok _ Hd) as [H1 [_ [H3 [_ [H5 _]]]]].
    unfold edge_source, edge_target in *. simpl in *.
    assert (Hh_t : In h (terminals G)) by (apply terminals_In; auto).
    pose proof (Hmin h Hh_t) as Hge.
    destruct fuel as [|fuel].
    + exfalso.
      assert (Hlen : length (n :: l) <= length (terminals G)).
      { apply NoDup_incl_length; [constructor; auto|].
        intros x [<-|Hx]; auto. }
      assert (Hlen2 : length (h :: n :: l) <= length (terminals G)).
      { apply NoDup_incl_length.
        - constructor; [|constructor; auto].
          intros [->|Hx]; [lia|]. specialize (Hbig h Hx). lia.
        - intros x [<-|[<-|Hx]]; auto. }
      simpl in *. lia.
    + simpl. rewrite Hh.
      destruct (IH (Z.to_nat (start_of G h - start_of G root))) with
        (n := h) (fuel := fuel) (l := l ++ [n]) as [I1 [I2 I3]]; auto.
      * lia.
      * apply NoDup_app; auto; [repeat constructor; intros []|].
        intros a Ha [<-|[]]. auto.
      * intros x Hx. apply in_app_or in Hx. destruct Hx as [Hx|[<-|[]]]; auto.
      * intros x Hx. apply in_app_or in Hx. destruct Hx as [Hx|[<-|[]]]; auto.
        specialize (Hbig x Hx). lia.
      * rewrite length_app. simpl. lia.
      * repeat split.
        -- destruct (follow_heads fuel T h) eqn:Ef.
           ++ destruct fuel; simpl in Ef; [discriminate|].
              destruct (getHeadDepTree T h); discriminate.
           ++ rewrite last_cons_cons. rewrite <- I1. apply last_nonempty. discriminate.
        -- rewrite <- app_assoc in I2. exact I2.
        -- intros x [<-|Hx]; auto.
Qed.

End DepTree.

Lemma filter_remove_one (p : nat -> bool) (r : nat) (l : list nat) :
  NoDup l -> In r (filter p l) ->
  length (filter (fun n => negb (Nat.eqb r n) && p n) l) + 1 = length (filter p l).
Proof.
  induction l as [|x l IH]; simpl; intros Hnd Hr; [contradiction|].
  inversion Hnd as [|? ? Hx Hnd']; subst.
  destruct (Nat.eqb_spec r x) as [->|Hne]; simpl.
  - destruct (p x) eqn:Ep.
    + simpl. rewrite (filter_ext_in (fun n => negb (x =? n) && p n) p).
      * lia.
      * intros a Ha. destruct (Nat.eqb_spec x a); [subst; contradiction | reflexivity].
    + exfalso. apply filter_In in Hr. destruct Hr as [_ H]. congruence.
  - destruct (p x) eqn:Ep; simpl.
    + destruct Hr as [Hr|Hr]; [congruence|]. rewrite <- IH; auto.
    + apply IH; auto.
Qed.

(** ** The dependency projector *)

(** C2. For a constituency tree with [N >= 1] terminals, [enrichAstWithDeps]
    followed by [getDependencyTree] returns a graph whose nodes are the [N]
    terminals with their attributes and which has [N - 1] edges; following
    head edges from any of its nodes visits no node twice and, within
    [N - 1] steps, ends at the leftmost terminal. *)
Theorem C2_dependency_tree (G : DiGraph) (N : nat) :
  ast_tree G -> distinct_starts G -> length (terminals G) = N -> 1 <= N ->
  exists root E T,
    getRoot G = Ret root
    /\ (forall fuel, max_id G <= fuel -> enrichAstWithDeps fuel G = Ret E)
    /\ getDependencyTree E = Ret T
    /\ dg_node T = filter (fun na => terminal G (fst na)) (dg_node G)
    /\ length (dg_node T) = N
    /\ length (dg_edges T) = N - 1
    /\ forall n, is_node T n ->
         let walk := follow_heads (N - 1) T n in
         last walk n = root /\ NoDup walk.
Proof.
  intros W D HN Hpos.
  pose proof (ast_attrs_ok G W) as Hok.
  assert (Hne : terminals G <> []).
  { intros E. rewrite E in HN. simpl in HN. lia. }
  destruct (getRoot_exists G Hok Hne) as [root R].
  destruct (enrichAstWithDeps_spec G root W D R) as [E [deps [H1 [H2 [H3 H4]]]]].
  destruct (getDependencyTree_spec G deps E W H2) as [T [HT dt]].
  assert (Hdeps : Forall (dep_ok G) deps) by apply H2.
  exists root, E, T. repeat split; auto.
  - apply (dt_nodes G deps T dt).
  - rewrite <- HN, (dt_nodes G deps T dt).
    rewrite <- (length_map fst). fold (node_ids (filter (fun na => terminal G (fst na)) (dg_node G))).
    now rewrite node_ids_filter.
  - rewrite (Permutation_length (dg_edges_perm T (dt_nodup G W deps T dt)
                                   (dt_edges_ok G deps Hdeps T dt))).
    rewrite (Permutation_length (dt_edges G deps T dt)).
    rewrite <- (length_map edge_target), H3.
    pose proof (filter_remove_one (terminal G) root (node_ids (dg_node G))
                  (at_nodup G W) (proj1 (getRoot_spec G root Hok R))) as Hlen.
    unfold dependents. fold (terminals G) in Hlen. lia.
  - destruct (follow_heads_root G W root R deps Hdeps H3 T dt
                (Z.to_nat (start_of G n - start_of G root)) n (N - 1))
      with (l := @nil nat) as [F1 _]; auto.
    + now apply (dt_is_node G deps T dt).
    + constructor.
    + intros x [].
    + intros x [].
    + simpl. lia.
  - destruct (follow_heads_root G W root R deps Hdeps H3 T dt
                (Z.to_nat (start_of G n - start_of G root)) n (N - 1))
      with (l := @nil nat) as [_ [F2 _]]; auto.
    + now apply (dt_is_node G deps T dt).
    + constructor.
    + intros x [].
    + intros x [].
    + simpl. lia.
Qed.

Lemma C2_witness :
  exists root E T,
    getRoot example_graph = Ret root
    /\ (forall fuel, max_id example_graph <= fuel ->
          enrichAstWithDeps fuel example_graph = Ret E)
    /\ getDependencyTree E = Ret T
    /\ dg_node T = filter (fun na => terminal example_graph (fst na)) (dg_node example_graph)
    /\ length (dg_node T) = 10
    /\ length (dg_edges T) = 10 - 1
    /\ forall n, is_node T n ->
         let walk := follow_heads (10 - 1) T n in
         last walk n = root /\ NoDup walk.
Proof.
  apply (C2_dependency_tree example_graph 10).
  - exact example_graph_tree.
  - exact example_graph_distinct.
  - reflexivity.
  - lia.
Defined.

(** ** Corresponding nodes *)

(** Once the attributes of [n] are known, the loop of [get_correspondence]
    is a search for the first node with these attributes. *)
Lemma get_correspondence_attrs (T_ast : Graph NodeAttrs) (T : DiGraph) (n : nat)
  (a : NodeAttrs) :
  dg_attrs T n = Ret a ->
  get_correspondence T_ast T n
  = Ret (option_map fst (find (fun mb => attrs_eqb (snd mb) a) (g_node T_ast))).
Proof.
  intros H. unfold get_correspondence.
  induction (g_node T_ast) as [|[m b] l IH]; cbn [get_correspondence_loop find];
    [reflexivity|].
  rewrite H. cbn [bind snd]. destruct (attrs_eqb b a); [reflexivity | exact IH].
Qed.


(** ** Undirected graphs *)

Lemma neighbors_In {A : Type} (U : Graph A) (v w : nat) :
  In w (neighbors U v) <-> uedge U v w.
Proof.
  unfold neighbors, uedge. rewrite in_flat_map. split.
  - intros [[a b] [He Hw]]. simpl in Hw.
    destruct (Nat.eqb_spec a v) as [->|Hav].
    + destruct Hw as [<-|[]]. now left.
    + destruct (Nat.eqb_spec b v) as [->|Hbv]; [|contradiction].
      destruct Hw as [<-|[]]. now right.
  - intros [H|H].
    + exists (v, w). split; auto. simpl. rewrite Nat.eqb_refl. now left.
    + exists (w, v). split; auto. simpl.
      destruct (Nat.eqb_spec w v) as [->|Hwv]; [now left|].
      rewrite Nat.eqb_refl. now left.
Qed.

Lemma uedge_sym {A : Type} (U : Graph A) (a b : nat) : uedge U a b -> uedge U b a.
Proof. unfold uedge. tauto. Qed.

Lemma existsb_edge_eqb (u v : nat) (l : list (nat * nat)) :
  existsb (edge_eqb u v) l = true <-> In (u, v) l \/ In (v, u) l.
Proof.
  rewrite existsb_exists. unfold edge_eqb. split.
  - intros [[a b] [He H]]. simpl in H.
    apply orb_true_iff in H. destruct H as [H|H];
      apply andb_true_iff in H; destruct H as [H1 H2];
      apply Nat.eqb_eq in H1, H2; subst; auto.
  - intros [H|H]; eexists; (split; [exact H|]); simpl;
      rewrite !Nat.eqb_refl; simpl; auto using orb_true_r.
Qed.

Lemma g_add_edge_uedge (U : Graph NodeAttrs) (u v a b : nat) :
  uedge (g_add_edge U u v) a b <->
  uedge U a b \/ (a = u /\ b = v) \/ (a = v /\ b = u).
Proof.
  unfold g_add_edge, uedge. simpl.
  destruct (existsb (edge_eqb u v) (g_edge U)) eqn:E.
  - apply existsb_edge_eqb in E. split; [tauto|].
    intros [H|[[-> ->]|[-> ->]]]; tauto.
  - rewrite !in_app_iff. simpl. split.
    + intros [[H|[H|[]]]|[H|[H|[]]]]; try (inversion H; subst); tauto.
    + intros [[H|H]|[[-> ->]|[-> ->]]]; tauto.
Qed.

Lemma update_gnode_present {A : Type} (n : nat) (a : A) (l : list (nat * A)) :
  In n (node_ids l) -> update_gnode (fun b => b) n a l = l.
Proof.
  induction l as [|[m b] l IH]; simpl; intros H; [contradiction|].
  destruct (Nat.eqb_spec n m); auto.
  destruct H as [H|H]; [congruence|]. now rewrite IH.
Qed.

Lemma g_add_edge_nodes (U : Graph NodeAttrs) (u v : nat) :
  In u (node_ids (g_node U)) -> In v (node_ids (g_node U)) ->
  g_node (g_add_edge U u v) = g_node U.
Proof.
  intros Hu Hv. unfold g_add_edge. simpl.
  rewrite (update_gnode_present u) by exact Hu. now apply update_gnode_present.
Qed.

Lemma to_undirected_fold (es : list (nat * nat * EdgeData)) : forall U : Graph NodeAttrs,
  (forall e, In e es -> In (edge_source e) (node_ids (g_node U))
                        /\ In (edge_target e) (node_ids (g_node U))) ->
  let U' := fold_left (fun U e => g_add_edge U (fst (fst e)) (snd (fst e))) es U in
  g_node U' = g_node U
  /\ forall a b, uedge U' a b <->
                 uedge U a b \/ exists d, In (a, b, d) es \/ In (b, a, d) es.
Proof.
  induction es as [|[[u v] d] es IH]; intros U Hes; simpl.
  - split; auto. intros a b. split; [tauto|]. intros [H|[d [[]|[]]]]. exact H.
  - destruct (Hes (u, v, d) (or_introl eq_refl)) as [Hu Hv].
    unfold edge_source, edge_target in Hu, Hv. simpl in Hu, Hv.
    destruct (IH (g_add_edge U u v)) as [IH1 IH2].
    { intros e He. rewrite g_add_edge_nodes by assumption. apply Hes. now right. }
    split.
    + rewrite IH1. now apply g_add_edge_nodes.
    + intros a b. rewrite IH2, g_add_edge_uedge. split.
      * intros [[H|[[-> ->]|[-> ->]]]|[d' [H|H]]]; eauto 6.
      * intros [H|[d' [[H|H]|[H|H]]]]; eauto 6;
          inversion H; subst; tauto.
Qed.

Lemma dg_edges_In (G : DiGraph) (e : nat * nat * EdgeData) :
  In e (dg_edges G) <-> In e (dg_edge G) /\ is_node G (edge_source e).
Proof.
  unfold dg_edges, out_edges. rewrite in_flat_map. split.
  - intros [u [Hu He]]. apply filter_In in He. destruct He as [He Hs].
    apply Nat.eqb_eq in Hs. split; auto. unfold edge_source, is_node. now rewrite Hs.
  - intros [He Hs]. exists (edge_source e). split; auto.
    apply filter_In. split; auto. apply Nat.eqb_refl.
Qed.

Lemma to_undirected_spec (G : DiGraph) :
  edges_ok G ->
  g_node (to_undirected G) = dg_node G
  /\ forall a b, uedge (to_undirected G) a b <->
                 In b (successors G a) \/ In a (successors G b).
Proof.
  intros Hok. unfold to_undirected.
  destruct (to_undirected_fold (dg_edges G) (mkGraph (dg_node G) [])) as [H1 H2].
  { intros e He. apply dg_edges_In in He. destruct He as [He _].
    apply (Hok e He). }
  split; [exact H1|].
  intros a b. rewrite H2, !successors_In. unfold uedge. simpl. split.
  - intros [[[]|[]]|[d [H|H]]]; apply dg_edges_In in H; destruct H; eauto.
  - intros [[d H]|[d H]]; right; exists d; [left|right]; apply dg_edges_In;
      split; auto; apply (Hok _ H).
Qed.

Lemma tree_adj_In (G : DiGraph) (a b : nat) :
  edges_ok G ->
  In b (tree_adj G a) <-> In b (successors G a) \/ In a (successors G b).
Proof.
  intros Hok. unfold tree_adj. rewrite neighbors_In.
  apply (proj2 (to_undirected_spec G Hok)).
Qed.

(** The undirected view of a constituency tree is a forest. *)
Lemma ast_forest (G : DiGraph) : ast_tree G -> forest (tree_adj G).
Proof.
  intros W. pose proof (ast_edges_ok G W) as Hok. constructor.
  - intros a b. rewrite !tree_adj_In by assumption. tauto.
  - intros a. rewrite tree_adj_In by assumption.
    intros [H|H]; apply (ast_edge_lt G W) in H; lia.
  - intros c x y. rewrite !tree_adj_In by assumption.
    intros [Hx|Hx] [Hy|Hy] Hxc Hyc;
      try (apply (ast_edge_lt G W) in Hx; lia);
      try (apply (ast_edge_lt G W) in Hy; lia).
    apply (ast_edge_parent G W) in Hx, Hy. congruence.
Qed.

(** ** Shortest paths *)

Lemma g_has_node_true {A : Type} (U : Graph A) (n : nat) :
  g_has_node U n = true <-> In n (node_ids (g_node U)).
Proof. unfold g_has_node. apply mem_In. Qed.

Lemma neighbors_universe {A : Type} (U : Graph A) (v w : nat) :
  In w (neighbors U v) -> In w (map fst (g_edge U) ++ map snd (g_edge U)).
Proof.
  intros H. apply neighbors_In in H. apply in_or_app. destruct H as [H|H].
  - right. apply in_map_iff. exists (v, w). auto.
  - left. apply in_map_iff. exists (w, v). auto.
Qed.

(** [nx.shortest_path] returns a simple path when the target can be reached. *)
Lemma shortest_path_ret {A : Type} (U : Graph A) (a b : nat) :
  In a (node_ids (g_node U)) -> In b (node_ids (g_node U)) ->
  reach (neighbors U) a b ->
  exists p, shortest_path U a b = Ret p /\ simple_path (neighbors U) a b p.
Proof.
  intros Ha Hb Hr. unfold shortest_path.
  rewrite (proj2 (g_has_node_true U a) Ha), (proj2 (g_has_node_true U b) Hb).
  cbn [andb].
  pose proof (bfs_from_complete (neighbors U)
                (map fst (g_edge U) ++ map snd (g_edge U)) a b
                (neighbors_universe U) Hr) as Hin.
  destruct (lookup_some b _ Hin) as [p Hp]. rewrite Hp.
  exists (rev p). split; auto.
  apply lookup_In in Hp. now apply bfs_from_sound in Hp.
Qed.

Lemma shortest_path_sound {A : Type} (U : Graph A) (a b : nat) (p : list nat) :
  shortest_path U a b = Ret p -> simple_path (neighbors U) a b p.
Proof.
  unfold shortest_path. intros H.
  destruct (g_has_node U a && g_has_node U b); [|discriminate].
  destruct (lookup b _) as [q|] eqn:E; [|discriminate].
  inversion H; subst. apply lookup_In in E. now apply bfs_from_sound in E.
Qed.

Lemma reach_sym (adj : nat -> list nat) (x y : nat) :
  (forall a b, In b (adj a) -> In a (adj b)) ->
  reach adj x y -> reach adj y x.
Proof.
  intros Hsym H. induction H; [constructor|].
  eapply reach_trans; [|exact IHreach].
  eapply reach_step; [constructor|]. now apply Hsym.
Qed.

Lemma reach_impl (adj adj' : nat -> list nat) (x y : nat) :
  (forall a b, In b (adj a) -> In b (adj' a)) ->
  reach adj x y -> reach adj' x y.
Proof.
  intros Himp H. induction H; [constructor|]. eapply reach_step; eauto.
Qed.

(** Any two nodes of a constituency tree are joined by a simple path, and
    [nx.shortest_path] returns it. *)
Lemma ast_shortest_path (G : DiGraph) (a b : nat) :
  ast_tree G -> is_node G a -> is_node G b ->
  exists p, shortest_path (to_undirected G) a b = Ret p
            /\ simple_path (tree_adj G) a b p.
Proof.
  intros W Ha Hb. pose proof (ast_edges_ok G W) as Hok.
  destruct (to_undirected_spec G Hok) as [Hn _].
  apply shortest_path_ret; try (rewrite Hn; assumption).
  assert (Hdown : forall x, is_node G x -> reach (tree_adj G) 0 x).
  { intros x Hx. apply (reach_impl (successors G)).
    - intros u v Huv. apply tree_adj_In; auto.
    - now apply ast_reach_root. }
  eapply reach_trans; [|apply Hdown; exact Hb].
  apply reach_sym; [apply (forest_sym _ (ast_forest G W))|]. now apply Hdown.
Qed.


(** ** Updating the data of an edge *)

Lemma first_in_edge_shape (T T' : DiGraph) (n : nat) :
  node_ids (dg_node T') = node_ids (dg_node T) ->
  map fst (dg_edge T') = map fst (dg_edge T) ->
  first_in_edge T' n = first_in_edge T n.
Proof.
  intros Hn He. unfold first_in_edge, in_edges, dg_has_node. rewrite Hn.
  destruct (mem n (node_ids (dg_node T))); [|reflexivity].
  assert (E : forall l : list (nat * nat * EdgeData),
            map fst (filter (fun e => snd (fst e) =? n) l)
            = filter (fun x => snd x =? n) (map fst l)).
  { induction l as [|e l IH]; simpl; auto.
    destruct (snd (fst e) =? n); simpl; now rewrite IH. }
  now rewrite !E, He.
Qed.

Lemma update_edge_spec (h n : nat) (d d0 : EdgeData) (l : list (nat * nat * EdgeData)) :
  NoDup (map edge_target l) -> In (h, n, d0) l ->
  map fst (update_edge h n d l) = map fst l
  /\ forall e, In e (update_edge h n d l) <->
               (In e l /\ edge_target e <> n) \/ e = (h, n, update_data d0 d).
Proof.
  induction l as [|[[u v] d'] l IH]; simpl; intros Hnd Hin; [contradiction|].
  inversion Hnd as [|? ? Hv Hnd']; subst. unfold edge_target in Hv. simpl in Hv.
  destruct Hin as [Hin|Hin].
  - inversion Hin; subst. rewrite !Nat.eqb_refl. simpl. split; auto.
    intros e. split.
    + intros [<-|He]; [now right|]. left. split; [now right|].
      intros E. apply Hv. rewrite <- E. now apply in_map.
    + intros [[[<-|He] Hne]| -> ]; [exfalso; now apply Hne | now right | now left].
  - assert (Hvn : v <> n).
    { intros ->. apply Hv. apply in_map_iff. exists (h, n, d0). auto. }
    destruct (Nat.eqb_spec n v); [congruence|]. rewrite andb_false_r.
    destruct (IH Hnd' Hin) as [IH1 IH2]. simpl. split; [now rewrite IH1|].
    intros e. rewrite IH2. split.
    + intros [<-|[[He Hne]| -> ]]; auto.
    + intros [[[<-|He] Hne]| -> ]; auto.
Qed.

Lemma edge_data_In (T : DiGraph) (h n : nat) (d : EdgeData) :
  In (h, n, d) (dg_edge T) -> exists d', edge_data T h n = Ret d'.
Proof.
  intros H. unfold edge_data.
  destruct (find _ (dg_edge T)) as [e|] eqn:E; [eauto|].
  exfalso. apply (find_none _ _ E) in H. simpl in H. now rewrite !Nat.eqb_refl in H.
Qed.

Lemma edge_data_unique (T : DiGraph) (h n : nat) (d : EdgeData) :
  NoDup (map edge_target (dg_edge T)) ->
  In (h, n, d) (dg_edge T) -> edge_data T h n = Ret d.
Proof.
  intros Hnd H. unfold edge_data.
  destruct (find _ (dg_edge T)) as [e|] eqn:E.
  - apply find_some in E. destruct E as [E1 E2].
    apply andb_true_iff in E2. destruct E2 as [E2 E3].
    apply Nat.eqb_eq in E2, E3.
    assert (Ee : e = (h, n, d)).
    { apply (NoDup_map_inj edge_target (dg_edge T)); auto. }
    rewrite Ee. reflexivity.
  - exfalso. apply (find_none _ _ E) in H. simpl in H. now rewrite !Nat.eqb_refl in H.
Qed.

(** ** Paths of the constituency tree *)

Lemma chain_In_adj (adj : nat -> list nat) (p : list nat) (x : nat) :
  chain (fun x y => In y (adj x)) p -> In x p -> 2 <= length p ->
  exists y, In y (adj x) \/ In x (adj y).
Proof.
  induction p as [|a p IH]; intros Hc Hx Hlen; [contradiction|].
  destruct p as [|b p]; [simpl in Hlen; lia|].
  destruct Hc as [Hab Hc]. destruct Hx as [ -> |Hx]; [eauto|].
  destruct p as [|c p].
  - destruct Hx as [ -> |[]]. eauto.
  - apply IH; auto. simpl. lia.
Qed.

Lemma tree_path_nodes (G : DiGraph) (a b : nat) (p : list nat) :
  ast_tree G -> is_node G a -> path (tree_adj G) a b p ->
  forall x, In x p -> is_node G x.
Proof.
  intros W Ha Hp x Hx. pose proof (ast_edges_ok G W) as Hok.
  destruct p as [|a' [|b' p]].
  - contradiction.
  - destruct Hp as [Hh _]. inversion Hh; subst. destruct Hx as [ -> |[]]. exact Ha.
  - destruct Hp as [_ [_ Hc]].
    destruct (chain_In_adj _ _ x Hc Hx) as [y Hy]; [simpl; lia|].
    rewrite !tree_adj_In in Hy by assumption.
    destruct Hy as [[Hy|Hy]|[Hy|Hy]]; apply successors_In in Hy;
      destruct Hy as [d Hy]; apply Hok in Hy; tauto.
Qed.

Lemma py_interior_spec {A : Type} (a b : A) (mid : list A) :
  py_interior (a :: mid ++ [b]) = mid.
Proof. unfold py_interior. simpl. apply removelast_last. Qed.

Lemma path_split (adj : nat -> list nat) (a b : nat) (p : list nat) :
  path adj a b p -> a <> b -> exists mid, p = a :: mid ++ [b].
Proof.
  intros [Hh [Hl _]] Hne. destruct p as [|x p]; [discriminate|].
  inversion Hh; subst x.
  destruct (exists_last (l := a :: p)) as [q [y E]]; [discriminate|].
  rewrite E in Hl. rewrite last_last in Hl. subst y.
  destruct q as [|z q].
  - inversion E; subst. congruence.
  - inversion E; subst. eauto.
Qed.

Lemma py_interior_incl {A : Type} (l : list A) : incl (py_interior l) l.
Proof.
  unfold py_interior. intros x Hx. destruct l as [|a l]; [contradiction|].
  simpl in Hx. right.
  destruct l as [|b l] using rev_ind; [contradiction|].
  rewrite removelast_last in Hx. apply in_or_app. now left.
Qed.

Section Spines.

Variable G : DiGraph.
Hypothesis W : ast_tree G.

Lemma spine_path (a b : nat) :
  is_node G a -> is_node G b ->
  exists p, shortest_path (to_undirected G) a b = Ret p
            /\ simple_path (tree_adj G) a b p
            /\ spine G a b = py_interior p.
Proof.
  intros Ha Hb. destruct (ast_shortest_path G a b W Ha Hb) as [p [H1 H2]].
  exists p. repeat split; try apply H2; auto. unfold spine. now rewrite H1.
Qed.

Lemma spine_nodes (a b x : nat) :
  is_node G a -> is_node G b -> In x (spine G a b) -> is_node G x.
Proof.
  intros Ha Hb Hx. destruct (spine_path a b Ha Hb) as [p [_ [[H2 _] H3]]].
  rewrite H3 in Hx. apply py_interior_incl in Hx.
  exact (tree_path_nodes G a b p W Ha H2 x Hx).
Qed.

Lemma getDepth_ret (m root : nat) :
  is_node G m -> is_node G root -> getDepth G m root = Ret (depth_of G root m).
Proof.
  intros Hm Hr. destruct (spine_path m root Hm Hr) as [p [H1 [_ H3]]].
  unfold getDepth, depth_of. rewrite H1, H3. reflexivity.
Qed.

(** The computation of a label, its lookups and searches having succeeded. *)
Lemma edge_label_ret (T : DiGraph) (root h h_head n : nat) :
  is_node G root -> is_node G h -> is_node G n ->
  getHeadDepTree T n = Ret h ->
  (h <> root -> getHeadDepTree T h = Ret h_head /\ is_node G h_head) ->
  edge_label G T root n = Ret (h, label_of G root h h_head n).
Proof.
  intros Hr Hh Hn Hhead Hhh. pose proof (ast_attrs_ok G W) as Hok.
  unfold edge_label, label_of. rewrite Hhead. cbn [bind].
  destruct (spine_path h n Hh Hn) as [p [P1 [_ P3]]].
  assert (Htypes : mapM (node_type G) (spine G h n) = Ret (map (type_of G) (spine G h n))).
  { apply mapM_ret. intros x Hx.
    apply node_type_ret; [exact Hok | exact (spine_nodes h n x Hh Hn Hx)]. }
  assert (Hdepths : mapM (fun m => getDepth G m root) (spine G h n)
                    = Ret (map (depth_of G root) (spine G h n))).
  { apply mapM_ret. intros x Hx.
    apply getDepth_ret; [exact (spine_nodes h n x Hh Hn Hx) | exact Hr]. }
  destruct (Nat.eqb_spec h root) as [E|E].
  - rewrite P1. cbn [bind]. rewrite <- P3, Htypes. cbn [bind].
    rewrite Hdepths. reflexivity.
  - destruct (Hhh E) as [H1 H2]. rewrite H1. cbn [bind].
    destruct (spine_path h h_head Hh H2) as [q [Q1 [_ Q3]]].
    rewrite Q1. cbn [bind]. rewrite P1. cbn [bind]. rewrite <- P3, <- Q3, Htypes.
    cbn [bind]. rewrite Hdepths. reflexivity.
Qed.

End Spines.

(** ** The loop of [labelDepTree] *)

Section Labelling.

Variable G : DiGraph.
Hypothesis W : ast_tree G.
Hypothesis D : distinct_starts G.
Variable root : nat.
Hypothesis R : getRoot G = Ret root.
Variable deps : list (nat * nat * EdgeData).
Hypothesis deps_ok : Forall (dep_ok G) deps.
Hypothesis deps_targets : map edge_target deps = dependents G root.
Variable T : DiGraph.
Hypothesis dt : dep_tree_of G deps T.

Lemma map_edge_target (l : list (nat * nat * EdgeData)) :
  map edge_target l = map snd (map fst l).
Proof. rewrite map_map. reflexivity. Qed.

Lemma dep_In_facts (h n : nat) (d : EdgeData) :
  In (h, n, d) deps ->
  is_node G h /\ is_node G n /\ In h (terminals G) /\ In n (terminals G)
  /\ (start_of G h < start_of G n)%Z.
Proof.
  intros H. rewrite Forall_forall in deps_ok.
  destruct (deps_ok _ H) as [H1 [H2 [H3 [H4 [H5 _]]]]].
  unfold edge_source, edge_target in *. simpl in *.
  repeat split; auto; apply terminals_In; auto.
Qed.

(** The head of a dependent in any tree of the same shape as [T], and the
    head of that head. *)
Lemma heads_in_shape (Tk : DiGraph) (h n : nat) (d : EdgeData) :
  dg_node Tk = dg_node T -> map fst (dg_edge Tk) = map fst (dg_edge T) ->
  In (h, n, d) deps ->
  getHeadDepTree Tk n = Ret h
  /\ exists h_head,
       (h <> root -> getHeadDepTree Tk h = Ret h_head /\ is_node G h_head)
       /\ (h <> root -> exists d', In (h_head, h, d') deps).
Proof.
  intros Hn He Hd.
  assert (Hshape : forall x, getHeadDepTree Tk x = getHeadDepTree T x).
  { intros x. apply first_in_edge_shape; [now rewrite Hn | exact He]. }
  split.
  - rewrite Hshape. eapply (dt_head G W root deps deps_ok deps_targets T dt); eauto.
  - destruct (dep_In_facts h n d Hd) as [_ [_ [Hh _]]].
    destruct (Nat.eq_dec h root) as [E|E].
    + exists 0. split; intros; contradiction.
    + destruct (dt_head_exists G root deps deps_targets h Hh E) as [hh [d' Hd']].
      exists hh. split; intros _; [|eauto].
      split.
      * rewrite Hshape. eapply (dt_head G W root deps deps_ok deps_targets T dt); eauto.
      * apply (dep_In_facts hh h d' Hd').
Qed.

Lemma label_loop : forall todo done Tk,
  dependents G root = done ++ todo ->
  dg_node Tk = dg_node T -> map fst (dg_edge Tk) = map fst (dg_edge T) ->
  (forall e, In e (dg_edge Tk) -> In (edge_target e) done -> labelled G root deps e) ->
  exists L,
    foldM (fun T n => hc <- edge_label G T root n ;;
                      set_complex_edge T (fst hc) n (snd hc)) todo Tk = Ret L
    /\ dg_node L = dg_node T /\ map fst (dg_edge L) = map fst (dg_edge T)
    /\ forall e, In e (dg_edge L) -> In (edge_target e) (dependents G root) ->
                 labelled G root deps e.
Proof.
  pose proof (ast_attrs_ok G W) as Hok.
  destruct (getRoot_spec G root Hok R) as [Hroot _].
  apply terminals_In in Hroot. destruct Hroot as [R1 R2].
  induction todo as [|n todo IH]; intros done Tk Hsplit Hn He Hlab.
  - exists Tk. rewrite app_nil_r in Hsplit. simpl. rewrite Hsplit. auto.
  - assert (Hin : In n (dependents G root)) by (rewrite Hsplit; apply in_elt).
    assert (Hn' : In n (terminals G) /\ n <> root).
    { apply dependents_In in Hin. rewrite terminals_In. tauto. }
    destruct Hn' as [N1 N2].
    destruct (dt_head_exists G root deps deps_targets n N1 N2) as [h [d Hd]].
    destruct (heads_in_shape Tk h n d Hn He Hd) as [Hh [hh [Hhh1 Hhh2]]].
    destruct (dep_In_facts h n d Hd) as [F1 [F2 _]].
    simpl.
    rewrite (edge_label_ret G W Tk root h hh n R1 F1 F2 Hh Hhh1). cbn [bind fst snd].
    assert (Hd0 : exists d0, In (h, n, d0) (dg_edge Tk)).
    { assert (H : In (h, n) (map fst (dg_edge Tk))).
      { rewrite He. apply in_map_iff. exists (h, n, d). split; auto.
        now apply (dt_edge_In G deps T dt). }
      apply in_map_iff in H. destruct H as [[[h' n'] d0] [E H]].
      simpl in E. inversion E; subst. eauto. }
    destruct Hd0 as [d0 Hd0].
    assert (Hnd : NoDup (map edge_target (dg_edge Tk))).
    { rewrite map_edge_target, He, <- map_edge_target.
      apply (dt_targets_nodup G W root deps deps_targets T dt). }
    unfold set_complex_edge. rewrite (edge_data_unique Tk h n d0 Hnd Hd0). cbn [bind].
    set (c := label_of G root h hh n).
    destruct (update_edge_spec h n (mkEdge None (Some c) (Some (label_str c))) d0
                (dg_edge Tk) Hnd Hd0) as [U1 U2].
    apply (IH (done ++ [n])); simpl.
    + now rewrite <- app_assoc.
    + exact Hn.
    + now rewrite U1.
    + intros e He' Hdone. apply U2 in He'. destruct He' as [[He' Hne]| ->].
      * apply Hlab; auto. apply in_app_or in Hdone.
        destruct Hdone as [Hdone|[Hdone|[]]]; [exact Hdone | congruence].
      * exists hh. split; [reflexivity | exact Hhh2].
Qed.

(** [labelDepTree] returns the dependency tree with, on every edge, the
    label of [label_of]. *)
Lemma labelDepTree_spec :
  exists L,
    labelDepTree G T = Ret L
    /\ dg_node L = dg_node T /\ map fst (dg_edge L) = map fst (dg_edge T)
    /\ forall e, In e (dg_edge L) -> labelled G root deps e.
Proof.
  pose proof (ast_attrs_ok G W) as Hok.
  destruct (label_loop (dependents G root) [] T eq_refl eq_refl eq_refl)
    as [L [L1 [L2 [L3 L4]]]].
  { intros e _ []. }
  exists L. unfold labelDepTree. rewrite R. cbn [bind].
  rewrite non_root_terminals_ret by assumption. cbn [bind].
  repeat split; auto.
  intros e He. apply L4; auto.
  rewrite <- deps_targets.
  apply (Permutation_in (l := map edge_target (dg_edge T))).
  - apply Permutation_map, (dt_edges G deps T dt).
  - rewrite map_edge_target, <- L3, <- map_edge_target. now apply in_map.
Qed.

End Labelling.


(** ** The special index *)

Lemma py_list_index_In (m : nat) (l : list nat) :
  In m l -> exists i, py_list_index m l = Some i.
Proof.
  induction l as [|x l IH]; simpl; intros H; [contradiction|].
  destruct (Nat.eqb_spec m x); [eauto|].
  destruct H as [H|H]; [congruence|]. destruct (IH H) as [i Hi].
  rewrite Hi. simpl. eauto.
Qed.

Lemma py_list_index_split (m : nat) (l : list nat) (i : nat) :
  py_list_index m l = Some i ->
  exists pre post, l = pre ++ m :: post /\ length pre = i.
Proof.
  revert i. induction l as [|x l IH]; simpl; intros i H; [discriminate|].
  destruct (Nat.eqb_spec m x) as [->|Hne].
  - inversion H; subst. exists [], l. auto.
  - destruct (py_list_index m l) as [j|]; [|discriminate].
    simpl in H. inversion H; subst.
    destruct (IH j eq_refl) as [pre [post [E1 E2]]].
    exists (x :: pre), post. subst. auto.
Qed.

Lemma last_shared_index_snoc (l spine_head : list nat) (m : nat) :
  last_shared_index (l ++ [m]) spine_head
  = if mem m spine_head then py_list_index m spine_head
    else last_shared_index l spine_head.
Proof. unfold last_shared_index. now rewrite fold_left_app. Qed.

Lemma last_shared_index_spec (spine_n spine_head : list nat) :
  match last_shared_index spine_n spine_head with
  | Some i =>
      exists pre m post,
        spine_n = pre ++ m :: post /\ In m spine_head
        /\ (forall x, In x post -> ~ In x spine_head)
        /\ py_list_index m spine_head = Some i
  | None => forall x, In x spine_n -> ~ In x spine_head
  end.
Proof.
  induction spine_n as [|m l IH] using rev_ind.
  - simpl. intros x [].
  - rewrite last_shared_index_snoc. destruct (mem m spine_head) eqn:E.
    + apply mem_In in E. destruct (py_list_index_In m spine_head E) as [i Hi].
      rewrite Hi. exists l, m, []. repeat split; auto.
    + apply mem_not_In in E.
      destruct (last_shared_index l spine_head) as [i|].
      * destruct IH as [pre [m' [post [H1 [H2 [H3 H4]]]]]].
        exists pre, m', (post ++ [m]). repeat split; auto.
        -- rewrite H1, <- app_assoc. reflexivity.
        -- intros x Hx. apply in_app_or in Hx. destruct Hx as [Hx|[<-|[]]]; auto.
      * intros x Hx. apply in_app_or in Hx. destruct Hx as [Hx|[<-|[]]]; auto.
Qed.

(** The index the code computes is the one the specification words. *)
Lemma special_index_refines (spine_n spine_head : list nat) :
  special_index_spec spine_n spine_head
    (match last_shared_index spine_n spine_head with
     | Some i => Z.of_nat i
     | None => (Z.of_nat (length spine_n) - 1)%Z
     end).
Proof.
  pose proof (last_shared_index_spec spine_n spine_head) as H.
  destruct (last_shared_index spine_n spine_head) as [i|].
  - left. destruct H as [pre [m [post [H1 [H2 [H3 H4]]]]]].
    exists pre, m, post. rewrite Nat2Z.id. repeat split; auto. lia.
  - right. auto.
Qed.

(** ** Spines *)

Lemma path_prefix (adj : nat -> list nat) (a b m : nat) (pre rest : list nat) :
  simple_path adj a b (a :: pre ++ m :: rest) ->
  simple_path adj a m (a :: pre ++ [m]).
Proof.
  intros [[_ [_ Hc]] Hnd].
  assert (E : a :: pre ++ m :: rest = (a :: pre ++ [m]) ++ rest).
  { simpl. rewrite <- app_assoc. reflexivity. }
  rewrite E in Hc, Hnd. split; [split; [|split]|].
  - reflexivity.
  - rewrite app_comm_cons. apply last_last.
  - apply chain_app_inv in Hc. tauto.
  - apply NoDup_app_remove_r in Hnd. exact Hnd.
Qed.

Section SpineFacts.

Variable G : DiGraph.
Hypothesis W : ast_tree G.

Lemma spine_simple (a b : nat) :
  is_node G a -> is_node G b -> a <> b ->
  simple_path (tree_adj G) a b (a :: spine G a b ++ [b]).
Proof.
  intros Ha Hb Hne. destruct (spine_path G W a b Ha Hb) as [p [_ [H2 H3]]].
  destruct (path_split _ _ _ _ (proj1 H2) Hne) as [mid E].
  rewrite H3, E, py_interior_spec. now rewrite <- E.
Qed.

Lemma terminals_not_adjacent (a b : nat) :
  is_node G a -> terminal G a = true -> is_node G b -> terminal G b = true ->
  ~ In b (tree_adj G a).
Proof.
  intros Ha Ta Hb Tb H. apply tree_adj_In in H; [|apply (ast_edges_ok G W)].
  destruct (ast_terminal_leaf G W a Ha Ta) as [Ea _].
  destruct (ast_terminal_leaf G W b Hb Tb) as [Eb _].
  rewrite Ea, Eb in H. destruct H as [[]|[]].
Qed.

(** Between two terminals the spine is not empty and starts at the parent
    of the first. *)
Lemma spine_starts_at_parent (a b : nat) :
  is_node G a -> terminal G a = true -> is_node G b -> terminal G b = true -> a <> b ->
  exists x rest, spine G a b = x :: rest /\ parent G a = Some x.
Proof.
  intros Ha Ta Hb Tb Hne.
  destruct (spine_simple a b Ha Hb Hne) as [[_ [_ Hc]] _].
  destruct (spine G a b) as [|x rest].
  - exfalso. simpl in Hc. destruct Hc as [Hc _].
    exact (terminals_not_adjacent a b Ha Ta Hb Tb Hc).
  - exists x, rest. split; auto. simpl in Hc. destruct Hc as [Hc _].
    apply tree_adj_In in Hc; [|apply (ast_edges_ok G W)].
    destruct (ast_terminal_leaf G W a Ha Ta) as [Ea _]. rewrite Ea in Hc.
    destruct Hc as [[]|Hc]. now apply (ast_edge_parent G W).
Qed.

(** Between terminals, with a third terminal for the head of the first, the
    special index lies within the spine. *)
Lemma special_index_in_range (h hh n : nat) :
  is_node G h -> terminal G h = true ->
  is_node G hh -> terminal G hh = true ->
  is_node G n -> terminal G n = true ->
  h <> hh -> h <> n ->
  exists i, last_shared_index (spine G h n) (spine G h hh) = Some i
            /\ i < length (spine G h n).
Proof.
  intros Hh Th Hhh Thh Hn Tn Hne1 Hne2.
  destruct (spine_starts_at_parent h n Hh Th Hn Tn Hne2) as [x [r [E1 P1]]].
  destruct (spine_starts_at_parent h hh Hh Th Hhh Thh Hne1) as [x' [r' [E2 P2]]].
  assert (x' = x) by congruence. subst x'.
  pose proof (last_shared_index_spec (spine G h n) (spine G h hh)) as Hs.
  destruct (last_shared_index (spine G h n) (spine G h hh)) as [i|].
  - exists i. split; auto.
    destruct Hs as [pre [m [post [S1 [S2 [S3 S4]]]]]].
    destruct (py_list_index_split _ _ _ S4) as [pre' [post' [S5 S6]]].
    pose proof (spine_simple h n Hh Hn Hne2) as Pn.
    pose proof (spine_simple h hh Hh Hhh Hne1) as Ph.
    rewrite S1, <- app_assoc in Pn. simpl in Pn. apply path_prefix in Pn.
    rewrite S5, <- app_assoc in Ph. simpl in Ph. apply path_prefix in Ph.
    pose proof (simple_path_unique _ (ast_forest G W) _ _ _ _ Pn Ph) as E.
    inversion E as [E']. apply app_inv_tail in E'. subst pre'.
    rewrite S1, length_app. simpl. lia.
  - exfalso. apply (Hs x).
    + rewrite E1. now left.
    + rewrite E2. now left.
Qed.

End SpineFacts.

(** ** The pipeline *)

Lemma pipeline_deps (G : DiGraph) (root : nat) :
  ast_tree G -> distinct_starts G -> getRoot G = Ret root ->
  exists E T deps,
    (forall fuel, max_id G <= fuel -> enrichAstWithDeps fuel G = Ret E)
    /\ getDependencyTree E = Ret T
    /\ Forall (dep_ok G) deps /\ map edge_target deps = dependents G root
    /\ Forall (head_edge G) deps /\ dep_tree_of G deps T.
Proof.
  intros W D R.
  destruct (enrichAstWithDeps_spec G root W D R) as [E [deps [H1 [H2 [H3 H4]]]]].
  destruct (getDependencyTree_spec G deps E W H2) as [T [HT dt]].
  exists E, T, deps.
  split; [exact H1 | split; [exact HT | split; [apply H2 | auto]]].
Qed.

(** The labelled edges of the pipeline and what is known of each. *)
Lemma labelled_edges (G : DiGraph) (root : nat) :
  ast_tree G -> distinct_starts G -> getRoot G = Ret root ->
  exists E T L,
    (forall fuel, max_id G <= fuel -> enrichAstWithDeps fuel G = Ret E)
    /\ getDependencyTree E = Ret T
    /\ labelDepTree G T = Ret L
    /\ map fst (dg_edge L) = map fst (dg_edge T)
    /\ Permutation (map edge_target (dg_edge L)) (dependents G root)
    /\ forall h n d, In (h, n, d) (dg_edge L) ->
         In h (terminals G) /\ In n (terminals G) /\ h <> n
         /\ exists h_head,
              complex_edge d = Some (label_of G root h h_head n)
              /\ (h <> root ->
                  getHeadDepTree T h = Ret h_head
                  /\ In h_head (terminals G) /\ h <> h_head).
Proof.
  intros W D R.
  destruct (pipeline_deps G root W D R) as [E [T [deps [HE [HT [H1 [H2 [H3 dt]]]]]]]].
  destruct (labelDepTree_spec G W root R deps H1 H2 T dt) as [L [L1 [L2 [L3 L4]]]].
  exists E, T, L. split; [exact HE | split; [exact HT | split; [exact L1|]]].
  split; [exact L3|]. split.
  { assert (Et : forall G0 : DiGraph,
               map edge_target (dg_edge G0) = map snd (map fst (dg_edge G0)))
      by (intros G0; rewrite map_map; reflexivity).
    rewrite Et, L3, <- Et, <- H2.
    apply Permutation_map, (dt_edges G deps T dt). }
  intros h n d Hd.
  assert (Hin : exists d0, In (h, n, d0) deps).
  { assert (H : In (h, n) (map fst (dg_edge T))).
    { rewrite <- L3. apply in_map_iff. exists (h, n, d). auto. }
    apply in_map_iff in H. destruct H as [[[h' n'] d0] [E0 H]].
    simpl in E0. inversion E0; subst. exists d0. now apply (dt_edge_In G deps T dt). }
  destruct Hin as [d0 Hd0].
  destruct (dep_In_facts G deps H1 h n d0 Hd0) as [F1 [F2 [F3 [F4 F5]]]].
  repeat split; auto.
  - intros ->. lia.
  - destruct (L4 _ Hd) as [hh [C1 C2]]. exists hh. split; [exact C1|].
    unfold edge_source in C2. simpl in C2. intros Hne.
    destruct (C2 Hne) as [d' Hd'].
    destruct (dep_In_facts G deps H1 hh h d' Hd') as [G1 [G2 [G3 [G4 G5]]]].
    repeat split; auto.
    + eapply (dt_head G W root deps H1 H2 T dt); eauto.
    + intros ->. lia.
Qed.

(** ** The edge encoder *)

(** Whatever the graphs, the label computed for an edge whose head is not
    the root has the special index the specification words, the fallback
    included. *)
Lemma edge_label_index (G T : DiGraph) (root n h : nat) (c : ComplexEdgeLabels) :
  edge_label G T root n = Ret (h, c) -> h <> root ->
  exists h_head p_head p_n,
    getHeadDepTree T n = Ret h
    /\ getHeadDepTree T h = Ret h_head
    /\ shortest_path (to_undirected G) h h_head = Ret p_head
    /\ shortest_path (to_undirected G) h n = Ret p_n
    /\ special_index_spec (py_interior p_n) (py_interior p_head) (special_index c).
Proof.
  unfold edge_label. intros H Hne.
  destruct (getHeadDepTree T n) as [h0| |] eqn:E1; try discriminate. cbn [bind] in H.
  destruct (Nat.eqb_spec h0 root) as [E0|E0].
  - exfalso.
    destruct (shortest_path (to_undirected G) h0 n) as [p| |]; try discriminate.
    cbn [bind] in H.
    destruct (mapM (node_type G) (py_interior p)) as [ts| |]; try discriminate.
    cbn [bind] in H.
    destruct (mapM (fun m => getDepth G m root) (py_interior p)) as [ds| |];
      try discriminate.
    cbn [bind] in H. inversion H; subst. congruence.
  - destruct (getHeadDepTree T h0) as [hh| |] eqn:E2; try discriminate.
    cbn [bind] in H.
    destruct (shortest_path (to_undirected G) h0 hh) as [ph| |] eqn:E3;
      try discriminate.
    cbn [bind] in H.
    destruct (shortest_path (to_undirected G) h0 n) as [pn| |] eqn:E4;
      try discriminate.
    cbn [bind] in H.
    destruct (mapM (node_type G) (py_interior pn)) as [ts| |]; try discriminate.
    cbn [bind] in H.
    destruct (mapM (fun m => getDepth G m root) (py_interior pn)) as [ds| |];
      try discriminate.
    cbn [bind] in H. inversion H; subst h c.
    exists hh, ph, pn.
    split; [reflexivity|]. split; [exact E2|]. split; [exact E3|]. split; [exact E4|].
    cbn [special_index]. apply special_index_refines.
Qed.

(** C4. In the pipeline on a constituency tree, [labelDepTree] returns and
    keeps the edges of the dependency tree, one into every terminal but the
    root, and the label of every dependency edge from [h] to [n] has for
    [non_terminals] the types along the one simple path from [h] to [n] in
    the constituency tree, end points excluded.  When [h] is the root of the
    dependency tree, [special_index] is 0; otherwise, with [spine_head] the
    path from [h] to the head of [h], end points excluded, it is the position
    in [spine_head] of the last node of the path from [h] to [n] found
    there, and the last position of that path should they share no node.
    On a constituency tree the two paths always share a node; the second
    part states the index for any graphs, where they need not. *)
Theorem C4_edge_labels :
  (forall (G : DiGraph) (root : nat),
     ast_tree G -> distinct_starts G -> getRoot G = Ret root ->
     exists E T L,
       (forall fuel, max_id G <= fuel -> enrichAstWithDeps fuel G = Ret E)
       /\ getDependencyTree E = Ret T
       /\ labelDepTree G T = Ret L
       /\ map fst (dg_edge L) = map fst (dg_edge T)
       /\ Permutation (map edge_target (dg_edge L)) (dependents G root)
       /\ forall h n d, In (h, n, d) (dg_edge L) ->
          exists c spine_n,
            complex_edge d = Some c
            /\ simple_path (tree_adj G) h n (h :: spine_n ++ [n])
            /\ (forall q, simple_path (tree_adj G) h n q -> q = h :: spine_n ++ [n])
            /\ non_terminals c = map (type_of G) spine_n
            /\ (h = root -> special_index c = 0%Z)
            /\ (h <> root ->
                exists h_head spine_head,
                  getHeadDepTree T h = Ret h_head
                  /\ simple_path (tree_adj G) h h_head (h :: spine_head ++ [h_head])
                  /\ special_index_spec spine_n spine_head (special_index c)
                  /\ exists m, In m spine_n /\ In m spine_head))
  /\ (forall (G T : DiGraph) (root n h : nat) (c : ComplexEdgeLabels),
        edge_label G T root n = Ret (h, c) -> h <> root ->
        exists h_head p_head p_n,
          getHeadDepTree T n = Ret h
          /\ getHeadDepTree T h = Ret h_head
          /\ shortest_path (to_undirected G) h h_head = Ret p_head
          /\ shortest_path (to_undirected G) h n = Ret p_n
          /\ special_index_spec (py_interior p_n) (py_interior p_head)
                                (special_index c)).
Proof.
  split; [|exact edge_label_index].
  intros G root W D R.
  destruct (labelled_edges G root W D R)
    as [E [T [L [HE [HT [HL [Hsame [Hcover Hedges]]]]]]]].
  exists E, T, L. split; [exact HE | split; [exact HT | split; [exact HL|]]].
  split; [exact Hsame|]. split; [exact Hcover|].
  intros h n d Hd.
  destruct (Hedges h n d Hd) as [Hh [Hn [Hne [hh [Hc Hhh]]]]].
  apply terminals_In in Hh, Hn. destruct Hh as [Hh Th], Hn as [Hn Tn].
  pose proof (spine_simple G W h n Hh Hn Hne) as Pn.
  exists (label_of G root h hh n), (spine G h n).
  split; [exact Hc|]. split; [exact Pn|]. split; [|split; [reflexivity|split]].
  - intros q Hq. symmetry.
    exact (simple_path_unique _ (ast_forest G W) _ _ _ _ Pn Hq).
  - intros ->. unfold label_of. simpl. now rewrite Nat.eqb_refl.
  - intros Hroot. destruct (Hhh Hroot) as [H1 [H2 H3]].
    apply terminals_In in H2. destruct H2 as [H2 T2].
    exists hh, (spine G h hh). split; [exact H1|]. split; [now apply spine_simple|].
    split.
    + unfold label_of. simpl. apply Nat.eqb_neq in Hroot. rewrite Hroot.
      apply special_index_refines.
    + destruct (spine_starts_at_parent G W h n Hh Th Hn Tn Hne) as [x [r [E1 P1]]].
      destruct (spine_starts_at_parent G W h hh Hh Th H2 T2 H3) as [x' [r' [E2 P2]]].
      exists x. split; [rewrite E1; now left|].
      rewrite E2. left. congruence.
Qed.

Lemma C4_witness :
  (exists E T L,
     (forall fuel, max_id example_graph <= fuel ->
        enrichAstWithDeps fuel example_graph = Ret E)
     /\ getDependencyTree E = Ret T
     /\ labelDepTree example_graph T = Ret L
     /\ map fst (dg_edge L) = map fst (dg_edge T)
     /\ Permutation (map edge_target (dg_edge L)) (dependents example_graph 2)
     /\ forall h n d, In (h, n, d) (dg_edge L) ->
        exists c spine_n,
          complex_edge d = Some c
          /\ simple_path (tree_adj example_graph) h n (h :: spine_n ++ [n])
          /\ (forall q, simple_path (tree_adj example_graph) h n q
                        -> q = h :: spine_n ++ [n])
          /\ non_terminals c = map (type_of example_graph) spine_n
          /\ (h = 2 -> special_index c = 0%Z)
          /\ (h <> 2 ->
              exists h_head spine_head,
                getHeadDepTree T h = Ret h_head
                /\ simple_path (tree_adj example_graph) h h_head
                               (h :: spine_head ++ [h_head])
                /\ special_index_spec spine_n spine_head (special_index c)
                /\ exists m, In m spine_n /\ In m spine_head))
  /\ (exists h_head p_head p_n,
        getHeadDepTree forked_deps 4 = Ret 1
        /\ getHeadDepTree forked_deps 1 = Ret h_head
        /\ shortest_path (to_undirected forked_graph) 1 h_head = Ret p_head
        /\ shortest_path (to_undirected forked_graph) 1 4 = Ret p_n
        /\ special_index_spec (py_interior p_n) (py_interior p_head) 0%Z).
Proof.
  split.
  - apply (proj1 C4_edge_labels example_graph 2).
    + exact example_graph_tree.
    + exact example_graph_distinct.
    + reflexivity.
  - apply (proj2 C4_edge_labels forked_graph forked_deps 0 4 1
                 (mkLabel ["b"] [2] 0%Z)).
    + vm_compute. reflexivity.
    + lia.
Defined.

(** C5. In the pipeline on a constituency tree, every label has as many
    depths as nonterminals, and its special index is a position of its
    nonterminals; no label has an empty sequence of nonterminals, so the
    exception made for that case is never needed. *)
Theorem C5_label_invariant (G : DiGraph) (root : nat) :
  ast_tree G -> distinct_starts G -> getRoot G = Ret root ->
  exists E T L,
    (forall fuel, max_id G <= fuel -> enrichAstWithDeps fuel G = Ret E)
    /\ getDependencyTree E = Ret T
    /\ labelDepTree G T = Ret L
    /\ forall h n d, In (h, n, d) (dg_edge L) ->
       exists c,
         complex_edge d = Some c
         /\ length (non_terminals c) = length (depths c)
         /\ (0 <= special_index c < Z.of_nat (length (non_terminals c)))%Z.
Proof.
  intros W D R.
  destruct (labelled_edges G root W D R) as [E [T [L [HE [HT [HL [_ [_ Hedges]]]]]]]].
  exists E, T, L. split; [exact HE | split; [exact HT | split; [exact HL|]]].
  intros h n d Hd.
  destruct (Hedges h n d Hd) as [Hh [Hn [Hne [hh [Hc Hhh]]]]].
  apply terminals_In in Hh, Hn. destruct Hh as [Hh Th], Hn as [Hn Tn].
  exists (label_of G root h hh n). split; [exact Hc|].
  unfold label_of. simpl. rewrite !length_map. split; [reflexivity|].
  destruct (Nat.eqb_spec h root) as [Hroot|Hroot].
  - destruct (spine_starts_at_parent G W h n Hh Th Hn Tn Hne) as [x [r [Ex _]]].
    rewrite Ex. simpl. lia.
  - destruct (Hhh Hroot) as [H1 [H2 H3]].
    apply terminals_In in H2. destruct H2 as [H2 T2].
    destruct (special_index_in_range G W h hh n Hh Th H2 T2 Hn Tn H3 Hne) as [i [Ei Hi]].
    rewrite Ei. lia.
Qed.

Lemma C5_witness :
  exists E T L,
    (forall fuel, max_id example_graph <= fuel ->
       enrichAstWithDeps fuel example_graph = Ret E)
    /\ getDependencyTree E = Ret T
    /\ labelDepTree example_graph T = Ret L
    /\ forall h n d, In (h, n, d) (dg_edge L) ->
       exists c,
         complex_edge d = Some c
         /\ length (non_terminals c) = length (depths c)
         /\ (0 <= special_index c < Z.of_nat (length (non_terminals c)))%Z.
Proof.
  apply (C5_label_invariant example_graph 2).
  - exact example_graph_tree.
  - exact example_graph_distinct.
  - reflexivity.
Defined.

(** C6, as stated, fails on the example: on the edge from [def] (node 2) to
    the identifier after it (node 3) the spine is the function definition
    (node 1), one edge away from node 0, and its depth in the label is 0. *)
Lemma C6_counterexample : ~ depths_to_node0 14 example_graph.
Proof.
  intros H.
  assert (E : labelled_tree 14 example_graph = Ret example_labelled)
    by (vm_compute; reflexivity).
  specialize (H example_labelled 2 3
                (mkEdge (Some "dependency")
                        (Some (mkLabel ["function_definition"] [0] 0%Z)) (Some "0-"))
                (mkLabel ["function_definition"] [0] 0%Z) 0 1 0 E).
  assert (D : depth_to_node0 example_graph 1 = Ret 0).
  { apply H.
    - vm_compute. left. reflexivity.
    - reflexivity.
    - vm_compute. reflexivity.
    - reflexivity. }
  vm_compute in D. discriminate D.
Qed.

(** C6 (amended). In the pipeline on a constituency tree, [labelDepTree]
    returns and keeps the edges of the dependency tree, one into every
    terminal but the root; the depths of a label are as many as the nodes of
    its path, and every entry is the number of nodes strictly between its
    nonterminal and the root of the dependency tree (the leftmost terminal)
    on the simple path that joins them in the constituency tree. *)
Theorem C6_depths (G : DiGraph) (root : nat) :
  ast_tree G -> distinct_starts G -> getRoot G = Ret root ->
  exists E T L,
    (forall fuel, max_id G <= fuel -> enrichAstWithDeps fuel G = Ret E)
    /\ getDependencyTree E = Ret T
    /\ labelDepTree G T = Ret L
    /\ map fst (dg_edge L) = map fst (dg_edge T)
    /\ Permutation (map edge_target (dg_edge L)) (dependents G root)
    /\ forall h n d, In (h, n, d) (dg_edge L) ->
       exists c spine_n,
         complex_edge d = Some c
         /\ simple_path (tree_adj G) h n (h :: spine_n ++ [n])
         /\ length (depths c) = length spine_n
         /\ forall i m, nth_error spine_n i = Some m ->
              exists q, simple_path (tree_adj G) m root q
                        /\ nth_error (depths c) i = Some (length (py_interior q)).
Proof.
  intros W D R.
  destruct (labelled_edges G root W D R)
    as [E [T [L [HE [HT [HL [Hsame [Hcover Hedges]]]]]]]].
  exists E, T, L. split; [exact HE | split; [exact HT | split; [exact HL|]]].
  split; [exact Hsame|]. split; [exact Hcover|].
  intros h n d Hd.
  destruct (Hedges h n d Hd) as [Hh [Hn [Hne [hh [Hc Hhh]]]]].
  apply terminals_In in Hh, Hn. destruct Hh as [Hh Th], Hn as [Hn Tn].
  destruct (getRoot_spec G root (ast_attrs_ok G W) R) as [Hroot _].
  apply terminals_In in Hroot. destruct Hroot as [R1 _].
  exists (label_of G root h hh n), (spine G h n).
  split; [exact Hc|]. split; [now apply spine_simple|].
  split; [unfold label_of; cbn [depths]; apply length_map|].
  intros i m Hm.
  assert (Hmn : is_node G m).
  { apply (spine_nodes G W h n m Hh Hn). eapply nth_error_In; eauto. }
  destruct (spine_path G W m root Hmn R1) as [q [_ [Q2 Q3]]].
  exists q. split; [exact Q2|].
  unfold label_of. simpl. rewrite <- Q3.
  change (length (spine G m root)) with (depth_of G root m).
  now apply map_nth_error.
Qed.

Lemma C6_witness :
  exists E T L,
    (forall fuel, max_id example_graph <= fuel ->
       enrichAstWithDeps fuel example_graph = Ret E)
    /\ getDependencyTree E = Ret T
    /\ labelDepTree example_graph T = Ret L
    /\ map fst (dg_edge L) = map fst (dg_edge T)
    /\ Permutation (map edge_target (dg_edge L)) (dependents example_graph 2)
    /\ forall h n d, In (h, n, d) (dg_edge L) ->
       exists c spine_n,
         complex_edge d = Some c
         /\ simple_path (tree_adj example_graph) h n (h :: spine_n ++ [n])
         /\ length (depths c) = length spine_n
         /\ forall i m, nth_error spine_n i = Some m ->
              exists q, simple_path (tree_adj example_graph) m 2 q
                        /\ nth_error (depths c) i = Some (length (py_interior q)).
Proof.
  apply (C6_depths example_graph 2).
  - exact example_graph_tree.
  - exact example_graph_distinct.
  - reflexivity.
Defined.


(** ** Chains of ancestors *)

Section Ancestors.

Variable G : DiGraph.
Hypothesis W : ast_tree G.

Lemma ancestors_from_snoc (n : nat) (l : list nat) (x y : nat) :
  ancestors_from G n (l ++ [x]) -> parent G x = Some y ->
  ancestors_from G n ((l ++ [x]) ++ [y]).
Proof.
  unfold ancestors_from. intros H Hp. rewrite <- app_assoc.
  apply (chain_snoc _ (n :: l) x y); auto.
Qed.

(** What can be reached from [P] along the edges of the tree has [P] among
    its ancestors. *)
Lemma reach_ancestors (P h : nat) :
  reach (successors G) P h -> h = P \/ exists up, ancestors_from G h (up ++ [P]).
Proof.
  intros H. induction H as [|y z Hr IH Hz]; [now left|].
  right. apply (ast_edge_parent G W) in Hz.
  destruct IH as [ -> |[up Hup]].
  - exists []. split; [exact Hz | exact I].
  - exists (y :: up). split; [exact Hz | exact Hup].
Qed.

Lemma ancestors_reach (n : nat) (l : list nat) (x : nat) :
  ancestors_from G n l -> In x l -> reach (successors G) x n /\ x <> n.
Proof.
  revert n. induction l as [|a l IH]; intros n H Hx; [contradiction|].
  destruct H as [Hp H]. pose proof (parent_successor G n a Hp) as Hs.
  pose proof (ast_edge_lt G W _ _ Hs) as Hlt.
  destruct Hx as [->|Hx].
  - split; [|lia]. eapply reach_step; [constructor | exact Hs].
  - destruct (IH a H Hx) as [H1 H2]. split.
    + eapply reach_step; eauto.
    + apply (ast_reach_le G W) in H1. lia.
Qed.

Lemma ancestors_desc (n : nat) (l : list nat) :
  ancestors_from G n l -> chain gt (n :: l).
Proof.
  revert n. induction l as [|a l IH]; intros n H; [exact I|].
  destruct H as [Hp H]. split; [|apply IH; exact H].
  apply parent_successor in Hp. apply (ast_edge_lt G W) in Hp. lia.
Qed.

Lemma chain_gt_all (l : list nat) : forall x,
  chain gt (x :: l) -> forall y, In y l -> y < x.
Proof.
  induction l as [|a l IH]; intros x H y Hy; [contradiction|].
  destruct H as [Hxa H]. unfold gt in Hxa. destruct Hy as [->|Hy]; [exact Hxa|].
  specialize (IH a H y Hy). lia.
Qed.

Lemma chain_gt_NoDup (l : list nat) : chain gt l -> NoDup l.
Proof.
  induction l as [|x l IH]; intros H; [constructor|].
  constructor; [|apply IH; eapply chain_cons_inv; eauto].
  intros Hx. pose proof (chain_gt_all l x H x Hx). lia.
Qed.

Lemma ancestors_NoDup (n : nat) (l : list nat) :
  ancestors_from G n l -> NoDup (n :: l).
Proof. intros H. apply chain_gt_NoDup. now apply ancestors_desc. Qed.

(** Two chains of ancestors of the same node: one continues the other. *)
Lemma ancestors_prefix (l1 : list nat) : forall n l2,
  ancestors_from G n l1 -> ancestors_from G n l2 -> length l1 <= length l2 ->
  exists l3, l2 = l1 ++ l3.
Proof.
  induction l1 as [|a l1 IH]; intros n l2 H1 H2 Hlen; [exists l2; reflexivity|].
  destruct l2 as [|b l2]; [simpl in Hlen; lia|].
  destruct H1 as [Ha H1]. destruct H2 as [Hb H2].
  assert (a = b) by congruence. subst b.
  destruct (IH a l2 H1 H2) as [l3 ->]; [simpl in Hlen; lia|].
  exists l3. reflexivity.
Qed.

Lemma ancestors_app (n : nat) (l1 l2 : list nat) (x : nat) :
  ancestors_from G n (l1 ++ x :: l2) ->
  ancestors_from G n (l1 ++ [x]) /\ ancestors_from G x l2.
Proof.
  unfold ancestors_from. intros H.
  change (n :: l1 ++ x :: l2) with ((n :: l1) ++ x :: l2) in H. split.
  - replace ((n :: l1) ++ x :: l2) with ((n :: l1 ++ [x]) ++ l2) in H
      by (simpl; now rewrite <- app_assoc).
    apply chain_app_inv in H. tauto.
  - apply chain_app_inv in H. tauto.
Qed.

Lemma ancestors_nonterminal (n : nat) (l : list nat) (x : nat) :
  ancestors_from G n l -> In x l -> is_node G x /\ terminal G x = false.
Proof.
  revert n. induction l as [|a l IH]; intros n H Hx; [contradiction|].
  destruct H as [Hp H]. destruct Hx as [->|Hx]; [|eapply IH; eauto].
  apply parent_successor in Hp. apply successors_In in Hp as Hp'.
  destruct Hp' as [d Hd]. destruct (at_edge G W _ Hd) as [H1 _].
  unfold edge_source in H1. simpl in H1. split; auto.
  rewrite (at_leaf G W x H1). destruct (successors G x); [contradiction|].
  simpl. apply andb_false_r.
Qed.

(** The path of the tree from [h] up to the common ancestor [P] and down to
    [n]. *)
Lemma tree_path (h n P : nat) (up anc : list nat) :
  ancestors_from G h (up ++ [P]) -> ancestors_from G n (anc ++ [P]) ->
  (forall x, In x (h :: up) -> ~ In x (n :: anc)) ->
  simple_path (tree_adj G) h n (h :: (up ++ [P] ++ rev anc) ++ [n]).
Proof.
  intros Hh Hn Hdis. pose proof (ast_edges_ok G W) as Hok.
  assert (Hadj : forall x y, parent G x = Some y -> In y (tree_adj G x)).
  { intros x y Hp. apply tree_adj_In; auto. right. now apply parent_successor. }
  assert (Hadj' : forall x y, parent G y = Some x -> In y (tree_adj G x)).
  { intros x y Hp. apply tree_adj_In; auto. left. now apply parent_successor. }
  assert (E : h :: (up ++ [P] ++ rev anc) ++ [n] = (h :: up ++ [P]) ++ rev (n :: anc)).
  { simpl. rewrite <- !app_assoc. reflexivity. }
  rewrite E. split; [split; [|split]|].
  - reflexivity.
  - change (rev (n :: anc)) with (rev anc ++ [n]).
    rewrite app_assoc. apply last_last.
  - apply (chain_app _ _ _ 0).
    + eapply chain_impl; [|exact Hh]. exact Hadj.
    + unfold ancestors_from in Hn.
      change (n :: anc ++ [P]) with ((n :: anc) ++ [P]) in Hn.
      apply chain_app_inv in Hn. destruct Hn as [Hn _].
      apply chain_rev in Hn. eapply chain_impl; [|exact Hn]. exact Hadj'.
    + intros _ _. rewrite app_comm_cons, last_last. rewrite hd_rev.
      apply Hadj'.
      unfold ancestors_from in Hn.
      destruct (exists_last (l := n :: anc)) as [l' [y Ey]]; [discriminate|].
      rewrite Ey, last_last.
      change (n :: anc ++ [P]) with ((n :: anc) ++ [P]) in Hn.
      rewrite Ey, <- app_assoc in Hn. apply chain_app_inv in Hn.
      destruct Hn as [_ [Hn _]]. exact Hn.
  - apply NoDup_app.
    + now apply ancestors_NoDup.
    + apply NoDup_rev.
      apply ancestors_NoDup in Hn.
      change (n :: anc ++ [P]) with ((n :: anc) ++ [P]) in Hn.
      now apply NoDup_app_remove_r in Hn.
    + intros x Hx Hx'. apply in_rev in Hx'.
      rewrite app_comm_cons in Hx. apply in_app_or in Hx.
      destruct Hx as [Hx|[<-|[]]]; [now apply (Hdis x)|].
      apply ancestors_NoDup in Hn.
      change (n :: anc ++ [P]) with ((n :: anc) ++ [P]) in Hn.
      apply NoDup_remove_2 in Hn. rewrite app_nil_r in Hn. auto.
Qed.

End Ancestors.

(** ** Spines through the common ancestor *)

Lemma py_slice_from_nat {A : Type} (l : list A) (k : nat) :
  py_slice_from l (Z.of_nat k) = skipn k l.
Proof.
  unfold py_slice_from. destruct (Z.of_nat k <? 0)%Z eqn:E.
  - apply Z.ltb_lt in E. lia.
  - now rewrite Nat2Z.id.
Qed.

Lemma py_slice_from_map {A B : Type} (f : A -> B) (l : list A) (i : Z) :
  py_slice_from (map f l) i = map f (py_slice_from l i).
Proof. unfold py_slice_from. rewrite length_map. apply skipn_map. Qed.

Lemma skipn_app_exact {A : Type} (l1 l2 : list A) : skipn (length l1) (l1 ++ l2) = l2.
Proof. induction l1; simpl; auto. Qed.

(** Where a list leaves a set for good is determined. *)
Lemma split_unique (S : nat -> Prop) (l1 : list nat) : forall l2 pre m post,
  l1 ++ l2 = pre ++ m :: post ->
  (forall x, In x l1 -> S x) -> (forall x, In x l2 -> ~ S x) ->
  S m -> (forall x, In x post -> ~ S x) -> l1 <> [] ->
  l1 = pre ++ [m] /\ l2 = post.
Proof.
  induction l1 as [|a l1 IH]; intros l2 pre m post E H1 H2 Hm Hpost Hne; [congruence|].
  destruct pre as [|b pre].
  - simpl in E. injection E as Eam Etl. subst a.
    destruct l1 as [|c l1]; [auto|].
    exfalso. simpl in Etl. subst post.
    apply (Hpost c); [now left | apply H1; right; now left].
  - simpl in E. injection E as Eab Etl. subst b.
    destruct l1 as [|c l1].
    + simpl in Etl. exfalso. apply (H2 m); auto. rewrite Etl. apply in_elt.
    + destruct (IH l2 pre m post Etl) as [E1 E2]; auto.
      * intros x Hx. apply H1. now right.
      * discriminate.
      * split; auto. simpl. now rewrite E1.
Qed.

Section Segments.

Variable G : DiGraph.
Hypothesis W : ast_tree G.

Lemma spine_rev (a b : nat) :
  is_node G a -> is_node G b -> a <> b -> spine G a b = rev (spine G b a).
Proof.
  intros Ha Hb Hne.
  pose proof (spine_simple G W a b Ha Hb Hne) as P1.
  pose proof (spine_simple G W b a Hb Ha (not_eq_sym Hne)) as [P2 N2].
  apply (path_rev _ _ _ _ (forest_sym _ (ast_forest G W))) in P2.
  apply NoDup_rev in N2.
  pose proof (simple_path_unique _ (ast_forest G W) _ _ _ _ P1 (conj P2 N2)) as E.
  simpl in E. rewrite rev_app_distr in E. simpl in E.
  inversion E as [E']. now apply app_inv_tail in E'.
Qed.

Lemma candidate_min (P : nat) (s : Z) (h y : nat) :
  candidate_at G P s h -> reach (successors G) P y -> terminal G y = true ->
  (start_of G h <= start_of G y)%Z.
Proof.
  intros [_ [_ [H3 H4]]] Hr Ht.
  destruct (Z.lt_ge_cases (start_of G y) s) as [Hlt|Hge]; [now apply H4 | lia].
Qed.

(** The spine from the head of [n] to [n]: up to the nearest ancestor of
    [n] with a candidate, then down the ancestors of [n] without one. *)
Lemma head_spine (n h P : nat) (anc : list nat) :
  is_node G n -> terminal G n = true ->
  ancestors_from G n (anc ++ [P]) ->
  candidate_at G P (start_of G n) h ->
  (forall f, In f anc -> no_candidate_at G f (start_of G n)) ->
  is_node G h /\ h <> n
  /\ exists up,
       ancestors_from G h (up ++ [P])
       /\ spine G h n = up ++ [P] ++ rev anc
       /\ (forall x, In x (h :: up) -> ~ In x (n :: anc)).
Proof.
  intros Hn Tn Hanc Hcand Hnone.
  pose proof Hcand as [C1 [C2 [C3 C4]]].
  destruct (ancestors_nonterminal G W n (anc ++ [P]) P Hanc) as [HP TP];
    [apply in_or_app; right; now left|].
  assert (Hh : is_node G h).
  { eapply reach_is_node; eauto. apply (ast_edges_ok G W). }
  assert (Hhn : h <> n) by (intros ->; lia).
  split; [exact Hh|]. split; [exact Hhn|].
  destruct (reach_ancestors G W P h C1) as [ -> |[up Hup]]; [congruence|].
  exists up. split; [exact Hup|].
  assert (Hdis : forall x, In x (h :: up) -> ~ In x (n :: anc)).
  { intros x Hx [<-|Hx'].
    - destruct Hx as [Hx|Hx]; [congruence|].
      destruct (ancestors_nonterminal G W h (up ++ [P]) n Hup) as [_ T];
        [apply in_or_app; now left | congruence].
    - destruct (ancestors_nonterminal G W n (anc ++ [P]) x Hanc) as [_ T];
        [apply in_or_app; now left|].
      destruct Hx as [<-|Hx]; [congruence|].
      destruct (ancestors_reach G W h (up ++ [P]) x Hup) as [Hr _];
        [apply in_or_app; now left|].
      apply (Hnone x Hx' h Hr C2 C3). }
  split; [|exact Hdis].
  pose proof (tree_path G W h n P up anc Hup Hanc Hdis) as P1.
  pose proof (spine_simple G W h n Hh Hn Hhn) as P2.
  pose proof (simple_path_unique _ (ast_forest G W) _ _ _ _ P2 P1) as E.
  inversion E as [E']. now apply app_inv_tail in E'.
Qed.

(** With the head of the head: where the spine to [n] leaves the spine to
    the head's head. *)
Lemma head_spines_shared (n h hh P P' : nat) (anc anc' up : list nat) :
  is_node G n -> terminal G n = true ->
  is_node G h -> terminal G h = true ->
  ancestors_from G n (anc ++ [P]) ->
  candidate_at G P (start_of G n) h ->
  (forall f, In f anc -> no_candidate_at G f (start_of G n)) ->
  ancestors_from G h (up ++ [P]) ->
  ancestors_from G h (anc' ++ [P']) ->
  candidate_at G P' (start_of G h) hh ->
  (forall f, In f anc' -> no_candidate_at G f (start_of G h)) ->
  (forall x, In x (up ++ [P]) -> In x (spine G h hh))
  /\ (forall x, In x (rev anc) -> ~ In x (spine G h hh)).
Proof.
  intros Hn Tn Hh Th Hanc Hcand Hnone Hup Hanc' Hcand' Hnone'.
  pose proof Hcand as [C1 [C2 [C3 C4]]].
  pose proof Hcand' as [C1' [C2' [C3' C4']]].
  destruct (head_spine h hh P' anc' Hh Th Hanc' Hcand' Hnone')
    as [Hhh [Hne [up' [Hup' [Es _]]]]].
  assert (Eh : spine G h hh = anc' ++ [P'] ++ rev up').
  { rewrite spine_rev by auto. rewrite Es, !rev_app_distr, rev_involutive.
    simpl. now rewrite <- app_assoc. }
  split.
  - intros x Hx. rewrite Eh, app_assoc. apply in_or_app. left.
    destruct (Nat.le_gt_cases (length (up ++ [P])) (length (anc' ++ [P']))) as [Hl|Hl].
    + destruct (ancestors_prefix G (up ++ [P]) h (anc' ++ [P']) Hup Hanc' Hl) as [l3 ->].
      apply in_or_app. now left.
    + exfalso.
      destruct (ancestors_prefix G (anc' ++ [P']) h (up ++ [P]) Hanc' Hup) as [l3 E3];
        [lia|].
      assert (Hl3 : l3 <> []).
      { intros ->. rewrite app_nil_r in E3. rewrite E3 in Hl. lia. }
      rewrite E3, <- app_assoc in Hup. simpl in Hup.
      apply (ancestors_app G) in Hup. destruct Hup as [_ Hup].
      assert (HP : In P l3).
      { destruct (exists_last Hl3) as [l4 [y E4]]. rewrite E4 in E3.
        rewrite app_assoc in E3. apply app_inj_tail in E3. destruct E3 as [_ ->].
        rewrite E4. apply in_or_app. right. now left. }
      destruct (ancestors_reach G W P' l3 P Hup HP) as [Hr _].
      pose proof (candidate_min P _ h hh Hcand (reach_trans _ _ _ _ Hr C1') C2'). lia.
  - intros x Hx Hin. apply in_rev in Hx. rewrite Eh in Hin.
    rewrite app_assoc in Hin. apply in_app_or in Hin. destruct Hin as [Hin|Hin].
    + destruct (ancestors_reach G W h (anc' ++ [P']) x Hanc' Hin) as [Hr _].
      apply (Hnone x Hx h Hr C2 C3).
    + apply in_rev in Hin.
      destruct (ancestors_reach G W hh (up' ++ [P']) x Hup') as [Hr _];
        [apply in_or_app; now left|].
      apply (Hnone x Hx hh Hr C2'). lia.
Qed.

End Segments.

Section NewNodes.

Variable G : DiGraph.
Hypothesis W : ast_tree G.
Hypothesis D : distinct_starts G.
Variable root : nat.
Hypothesis R : getRoot G = Ret root.
Variable fd : nat.
Hypothesis S : scaffold G root fd.

Lemma special_index_decomp (h hh n : nat) :
  is_node G h -> terminal G h = true ->
  is_node G hh -> terminal G hh = true ->
  is_node G n -> terminal G n = true ->
  h <> hh -> h <> n ->
  exists pre m post,
    spine G h n = pre ++ m :: post
    /\ In m (spine G h hh)
    /\ (forall x, In x post -> ~ In x (spine G h hh))
    /\ last_shared_index (spine G h n) (spine G h hh) = Some (length pre).
Proof.
  intros Hh Th Hhh Thh Hn Tn Hne1 Hne2.
  destruct (special_index_in_range G W h hh n Hh Th Hhh Thh Hn Tn Hne1 Hne2)
    as [i [Ei _]].
  pose proof (last_shared_index_spec (spine G h n) (spine G h hh)) as Hs.
  rewrite Ei in Hs. destruct Hs as [pre [m [post [S1 [S2 [S3 S4]]]]]].
  exists pre, m, post. repeat split; auto.
  destruct (py_list_index_split _ _ _ S4) as [pre' [post' [S5 S6]]].
  pose proof (spine_simple G W h n Hh Hn Hne2) as Pn.
  pose proof (spine_simple G W h hh Hh Hhh Hne1) as Ph.
  rewrite S1, <- app_assoc in Pn. simpl in Pn. apply path_prefix in Pn.
  rewrite S5, <- app_assoc in Ph. simpl in Ph. apply path_prefix in Ph.
  pose proof (simple_path_unique _ (ast_forest G W) _ _ _ _ Pn Ph) as E.
  inversion E as [E']. apply app_inv_tail in E'. subst pre'.
  rewrite Ei. now subst i.
Qed.

Lemma scaffold_parent_fd : parent G fd = Some 0.
Proof.
  destruct S as [S1 _]. apply (ast_edge_parent G W). rewrite S1. now left.
Qed.

(** The nodes appended for a dependent whose head is the root. *)
Lemma slice_root (n P : nat) (anc : list nat) :
  is_node G n -> terminal G n = true ->
  ancestors_from G n (anc ++ [P]) ->
  candidate_at G P (start_of G n) root ->
  (forall f, In f anc -> no_candidate_at G f (start_of G n)) ->
  py_slice_from (spine G root n) 1 = rev anc.
Proof.
  intros Hn Tn Hanc Hcand Hnone.
  destruct (head_spine G W n root P anc Hn Tn Hanc Hcand Hnone)
    as [Hr [Hne [up [Hup [Es Hdis]]]]].
  destruct S as [S1 [_ [_ S4]]].
  assert (Eup : up = []).
  { destruct up as [|a up]; [reflexivity|]. exfalso.
    destruct Hup as [Ha Hup]. assert (a = fd) by congruence. subst a.
    destruct up as [|b up].
    - (* P = 0 *)
      destruct Hup as [Hb _]. rewrite scaffold_parent_fd in Hb. inversion Hb; subst P.
      clear Hb.
      destruct (exists_last (l := n :: anc)) as [l' [y Ey]]; [discriminate|].
      unfold ancestors_from in Hanc.
      change (n :: anc ++ [0]) with ((n :: anc) ++ [0]) in Hanc.
      rewrite Ey, <- app_assoc in Hanc. apply chain_app_inv in Hanc.
      destruct Hanc as [_ [Hy _]]. apply parent_successor in Hy.
      rewrite S1 in Hy. destruct Hy as [<-|[]].
      apply (Hdis fd); [right; now left|]. rewrite Ey. apply in_or_app. right. now left.
    - destruct Hup as [Hb Hup]. rewrite scaffold_parent_fd in Hb. inversion Hb; subst b.
      destruct up as [|c up]; simpl in Hup.
      + destruct Hup as [Hc _]. rewrite (ast_parent_root G W) in Hc. discriminate.
      + destruct Hup as [Hc _]. rewrite (ast_parent_root G W) in Hc. discriminate. }
  subst up. rewrite Es. reflexivity.
Qed.

(** The nodes appended for a dependent whose head is not the root. *)
Lemma slice_nonroot (n h hh P P' : nat) (anc anc' : list nat) :
  is_node G n -> terminal G n = true ->
  is_node G h -> terminal G h = true -> h <> root ->
  ancestors_from G n (anc ++ [P]) ->
  candidate_at G P (start_of G n) h ->
  (forall f, In f anc -> no_candidate_at G f (start_of G n)) ->
  ancestors_from G h (anc' ++ [P']) ->
  candidate_at G P' (start_of G h) hh ->
  (forall f, In f anc' -> no_candidate_at G f (start_of G h)) ->
  py_slice_from (spine G h n) (special_index (label_of G root h hh n) + 1) = rev anc.
Proof.
  intros Hn Tn Hh Th Hroot Hanc Hcand Hnone Hanc' Hcand' Hnone'.
  destruct (head_spine G W n h P anc Hn Tn Hanc Hcand Hnone)
    as [_ [Hne [up [Hup [Es Hdis]]]]].
  destruct (head_spine G W h hh P' anc' Hh Th Hanc' Hcand' Hnone')
    as [Hhh [Hne' _]].
  assert (Thh : terminal G hh = true) by apply Hcand'.
  destruct (head_spines_shared G W n h hh P P' anc anc' up Hn Tn Hh Th
              Hanc Hcand Hnone Hup Hanc' Hcand' Hnone') as [Sh1 Sh2].
  destruct (special_index_decomp h hh n Hh Th Hhh Thh Hn Tn (not_eq_sym Hne') Hne)
    as [pre [m [post [E1 [E2 [E3 E4]]]]]].
  rewrite Es, app_assoc in E1.
  destruct (split_unique (fun x => In x (spine G h hh)) (up ++ [P]) (rev anc)
              pre m post E1 Sh1 Sh2 E2 E3) as [U1 U2].
  { destruct up; discriminate. }
  unfold label_of. simpl. apply Nat.eqb_neq in Hroot. rewrite Hroot, E4.
  replace (Z.of_nat (length pre) + 1)%Z with (Z.of_nat (length (up ++ [P]))).
  2:{ rewrite U1, length_app. simpl. lia. }
  rewrite py_slice_from_nat, Es, app_assoc. apply skipn_app_exact.
Qed.

End NewNodes.

(** ** The appended nodes are the nonterminals, each once *)

Lemma NoDup_flat_map {A : Type} (f : A -> list nat) (l : list A) :
  NoDup l -> (forall x, In x l -> NoDup (f x)) ->
  (forall x y z, In x l -> In y l -> In z (f x) -> In z (f y) -> x = y) ->
  NoDup (flat_map f l).
Proof.
  induction l as [|a l IH]; intros Hnd Hf Hdis; simpl; [constructor|].
  inversion Hnd as [|? ? Ha Hnd']; subst.
  apply NoDup_app.
  - apply Hf. now left.
  - apply IH; auto.
    + intros x Hx. apply Hf. now right.
    + intros x y z Hx Hy. apply Hdis; now right.
  - intros z Hz Hz'. apply in_flat_map in Hz'. destruct Hz' as [y [Hy Hzy]].
    assert (a = y) by (apply (Hdis a y z); auto; [now left | now right]).
    subst y. contradiction.
Qed.

Section Coverage.

Variable G : DiGraph.
Hypothesis W : ast_tree G.
Hypothesis D : distinct_starts G.
Variable root : nat.
Hypothesis R : getRoot G = Ret root.
Variable fd : nat.
Hypothesis S : scaffold G root fd.
Variable deps : list (nat * nat * EdgeData).
Hypothesis deps_ok : Forall (dep_ok G) deps.
Hypothesis deps_targets : map edge_target deps = dependents G root.
Hypothesis deps_heads : Forall (head_edge G) deps.

Lemma deps_targets_nodup : NoDup (map edge_target deps).
Proof. rewrite deps_targets. apply NoDup_filter, (at_nodup G W). Qed.

Lemma head_in_spec (h n : nat) (d : EdgeData) : In (h, n, d) deps -> head_in deps n = h.
Proof.
  intros H. unfold head_in.
  destruct (find (fun e => edge_target e =? n) deps) as [e|] eqn:E.
  - apply find_some in E. destruct E as [E1 E2]. apply Nat.eqb_eq in E2.
    assert (e = (h, n, d)).
    { apply (NoDup_map_inj edge_target deps); auto. apply deps_targets_nodup. }
    now subst e.
  - exfalso. apply (find_none _ _ E) in H. unfold edge_target in H. simpl in H.
    now rewrite Nat.eqb_refl in H.
Qed.

Lemma dep_exists (n : nat) : In n (dependents G root) -> exists h d, In (h, n, d) deps.
Proof.
  intros H. rewrite <- deps_targets in H. apply in_map_iff in H.
  destruct H as [[[h n'] d] [E H]]. unfold edge_target in E. simpl in E. subst n'. eauto.
Qed.

Lemma dep_head_of (h n : nat) (d : EdgeData) : In (h, n, d) deps -> head_of G n h.
Proof.
  intros H. rewrite Forall_forall in deps_heads. apply (deps_heads _ H).
Qed.

(** The nodes appended for a dependent are its ancestors below the nearest
    one with a candidate, from the top. *)
Lemma new_nodes_spec (h n : nat) (d : EdgeData) :
  In (h, n, d) deps ->
  exists anc P,
    ancestors_from G n (anc ++ [P])
    /\ candidate_at G P (start_of G n) h
    /\ (forall f, In f anc -> no_candidate_at G f (start_of G n))
    /\ new_nodes G root deps n = rev anc.
Proof.
  intros Hd. destruct (dep_head_of h n d Hd) as [anc [P [H1 [H2 H3]]]].
  exists anc, P. split; [exact H1|]. split; [exact H2|]. split; [exact H3|].
  destruct (dep_In_facts G deps deps_ok h n d Hd) as [F1 [F2 [F3 [F4 F5]]]].
  apply terminals_In in F3, F4. destruct F3 as [_ Th], F4 as [_ Tn].
  unfold new_nodes. rewrite (head_in_spec h n d Hd).
  destruct (Nat.eq_dec h root) as [->|Hroot].
  - unfold label_of. simpl. rewrite Nat.eqb_refl. simpl.
    eapply (slice_root G W root fd S); eauto.
  - assert (Hdep : In h (dependents G root)) by (apply dependents_In; auto).
    destruct (dep_exists h Hdep) as [hh [d' Hd']].
    rewrite (head_in_spec hh h d' Hd').
    destruct (dep_head_of hh h d' Hd') as [anc' [P' [H1' [H2' H3']]]].
    eapply (slice_nonroot G W root); eauto.
Qed.

Lemma new_nodes_In (n x : nat) :
  In n (dependents G root) -> In x (new_nodes G root deps n) ->
  is_node G x /\ terminal G x = false
  /\ reach (successors G) x n
  /\ no_candidate_at G x (start_of G n).
Proof.
  intros Hn Hx. destruct (dep_exists n Hn) as [h [d Hd]].
  destruct (new_nodes_spec h n d Hd) as [anc [P [H1 [H2 [H3 H4]]]]].
  rewrite H4 in Hx. apply in_rev in Hx.
  assert (Hx' : In x (anc ++ [P])) by (apply in_or_app; now left).
  destruct (ancestors_nonterminal G W n _ x H1 Hx') as [A1 A2].
  destruct (ancestors_reach G W n _ x H1 Hx') as [A3 _].
  auto.
Qed.

Lemma new_nodes_NoDup (n : nat) :
  In n (dependents G root) -> NoDup (new_nodes G root deps n).
Proof.
  intros Hn. destruct (dep_exists n Hn) as [h [d Hd]].
  destruct (new_nodes_spec h n d Hd) as [anc [P [H1 [_ [_ H4]]]]].
  rewrite H4. apply NoDup_rev. apply (ancestors_NoDup G W) in H1.
  apply NoDup_cons_iff in H1. destruct H1 as [_ H1].
  now apply NoDup_app_remove_r in H1.
Qed.

Lemma root_facts :
  is_node G root /\ terminal G root = true
  /\ forall t, In t (terminals G) -> (start_of G root <= start_of G t)%Z.
Proof.
  destruct (getRoot_spec G root (ast_attrs_ok G W) R) as [H1 H2].
  apply terminals_In in H1. tauto.
Qed.

Lemma root_ancestors (x : nat) :
  reach (successors G) x root -> x = root \/ x = fd \/ x = 0.
Proof.
  intros H. destruct (reach_ancestors G W x root H) as [ -> |[up Hup]]; [now left|].
  right. destruct S as [_ [_ [_ S4]]].
  destruct up as [|a up].
  - destruct Hup as [Ha _]. left. congruence.
  - destruct Hup as [Ha Hup]. assert (a = fd) by congruence. subst a.
    destruct up as [|b up].
    + destruct Hup as [Hb _]. rewrite (scaffold_parent_fd G W root fd S) in Hb.
      right. congruence.
    + destruct Hup as [Hb Hup].
      rewrite (scaffold_parent_fd G W root fd S) in Hb. inversion Hb; subst b.
      exfalso. destruct up; destruct Hup as [Hc _];
        rewrite (ast_parent_root G W) in Hc; discriminate.
Qed.

(** Below every nonterminal but the root there is a terminal. *)
Lemma terminal_below (k : nat) : forall x,
  max_id G - x <= k -> is_node G x -> x <> 0 ->
  exists t, reach (successors G) x t /\ terminal G t = true.
Proof.
  induction k as [k IH] using lt_wf_ind. intros x Hk Hx Hx0.
  destruct (terminal G x) eqn:Tx.
  - exists x. split; [constructor | exact Tx].
  - rewrite (at_leaf G W x Hx) in Tx.
    apply Nat.eqb_neq in Hx0. rewrite Hx0 in Tx. simpl in Tx.
    destruct (successors G x) as [|c l] eqn:Es; [discriminate|].
    assert (Hc : In c (successors G x)) by (rewrite Es; now left).
    pose proof (ast_edge_lt G W _ _ Hc) as Hlt.
    assert (Hcn : is_node G c).
    { apply successors_In in Hc. destruct Hc as [d Hd].
      apply (ast_edges_ok G W) in Hd. tauto. }
    pose proof (max_id_le G c Hcn) as Hmax.
    destruct (IH (max_id G - c)) with (x := c) as [t [Ht1 Ht2]]; auto; try lia.
    exists t. split; auto.
    eapply reach_trans; [|exact Ht1]. eapply reach_step; [constructor | exact Hc].
Qed.

(** Below every nonterminal but the root there is a terminal that starts
    first. *)
Lemma first_terminal_below (x : nat) :
  is_node G x -> x <> 0 ->
  exists t, reach (successors G) x t /\ terminal G t = true
            /\ forall y, reach (successors G) x y -> terminal G y = true ->
                         (start_of G t <= start_of G y)%Z.
Proof.
  intros Hx Hx0.
  destruct (terminal_below (max_id G - x) x (Nat.le_refl _) Hx Hx0) as [t0 [H1 H2]].
  destruct (getCandidate_spec G x (start_of G t0 + 1) (ast_attrs_ok G W)
              (ast_edges_ok G W) Hx) as [[c|] [_ Hc]].
  - exists c. pose proof Hc as [C1 [C2 _]]. repeat split; auto.
    intros y Hy Ty. eapply candidate_min; eauto.
  - exfalso. apply (Hc t0 H1 H2). lia.
Qed.

Lemma new_nodes_cover (x : nat) :
  is_node G x -> terminal G x = false -> x <> 0 -> x <> fd ->
  exists n, In n (dependents G root) /\ In x (new_nodes G root deps n).
Proof.
  intros Hx Tx Hx0 Hxfd.
  destruct (first_terminal_below x Hx Hx0) as [t [H1 [H2 H3]]].
  assert (Ht : is_node G t).
  { eapply reach_is_node; eauto. apply (ast_edges_ok G W). }
  assert (Htr : t <> root).
  { intros ->. destruct (root_ancestors x H1) as [ -> | [ -> | -> ]]; congruence. }
  assert (Hdep : In t (dependents G root)) by (apply dependents_In; auto).
  exists t. split; [exact Hdep|].
  destruct (dep_exists t Hdep) as [h [d Hd]].
  destruct (new_nodes_spec h t d Hd) as [anc [P [A1 [A2 [A3 A4]]]]].
  rewrite A4. apply in_rev. rewrite rev_involutive.
  pose proof A2 as [C1 [C2 [C3 _]]].
  assert (Hcontra : reach (successors G) x h -> False).
  { intros Hr. specialize (H3 h Hr C2). lia. }
  destruct (reach_ancestors G W x t H1) as [ -> |[ups Hups]]; [congruence|].
  destruct (Nat.le_gt_cases (length (ups ++ [x])) (length (anc ++ [P]))) as [Hl|Hl].
  - destruct (ancestors_prefix G (ups ++ [x]) t (anc ++ [P]) Hups A1 Hl) as [l3 E3].
    destruct l3 as [|y l3] using rev_ind.
    + rewrite app_nil_r in E3. apply app_inj_tail in E3. destruct E3 as [_ ->].
      exfalso. now apply Hcontra.
    + rewrite app_assoc in E3. apply app_inj_tail in E3. destruct E3 as [-> _].
      apply in_or_app. left. apply in_or_app. right. now left.
  - exfalso.
    destruct (ancestors_prefix G (anc ++ [P]) t (ups ++ [x]) A1 Hups) as [l3 E3]; [lia|].
    assert (Hl3 : l3 <> []).
    { intros ->. rewrite app_nil_r in E3. rewrite E3 in Hl. lia. }
    rewrite E3, <- app_assoc in Hups. simpl in Hups.
    apply (ancestors_app G) in Hups. destruct Hups as [_ Hups].
    assert (HxP : In x l3).
    { destruct (exists_last Hl3) as [l4 [y E4]]. rewrite E4 in E3.
      rewrite app_assoc in E3. apply app_inj_tail in E3. destruct E3 as [_ ->].
      rewrite E4. apply in_or_app. right. now left. }
    destruct (ancestors_reach G W P l3 x Hups HxP) as [Hr _].
    apply Hcontra. eapply reach_trans; eauto.
Qed.

(** The scaffold and the appended nodes make up the nonterminals of the
    tree, each once. *)
Lemma new_nodes_perm :
  Permutation (0 :: fd :: flat_map (new_nodes G root deps) (dependents G root))
              (nonterminals G).
Proof.
  destruct root_facts as [R1 [R2 R3]].
  pose proof S as [S1 [S2 [S3 S4]]].
  assert (Hfd : In fd (successors G 0)) by (rewrite S1; now left).
  assert (Hfd_node : is_node G fd).
  { apply successors_In in Hfd. destruct Hfd as [d Hd].
    apply (ast_edges_ok G W) in Hd. tauto. }
  assert (Hfd_root : reach (successors G) fd root).
  { eapply reach_step; [constructor | now apply parent_successor]. }
  assert (Hstart : forall n, In n (dependents G root) ->
                     (start_of G root < start_of G n)%Z).
  { intros n Hn. apply dependents_In in Hn.
    apply (root_starts_first G root n (ast_attrs_ok G W) D R);
      [apply terminals_In; tauto | tauto]. }
  assert (Hnot : forall x, reach (successors G) x root ->
                   ~ In x (flat_map (new_nodes G root deps) (dependents G root))).
  { intros x Hr Hin. apply in_flat_map in Hin. destruct Hin as [n [Hn Hx]].
    destruct (new_nodes_In n x Hn Hx) as [_ [_ [_ Hno]]].
    apply (Hno root Hr R2). now apply Hstart. }
  apply NoDup_Permutation.
  - constructor; [|constructor].
    + intros [E|Hin].
      * apply (ast_edge_lt G W) in Hfd. lia.
      * apply (Hnot 0); auto. now apply ast_reach_root.
    + now apply Hnot.
    + apply NoDup_flat_map.
      * apply NoDup_filter, (at_nodup G W).
      * apply new_nodes_NoDup.
      * intros n n' z Hn Hn' Hz Hz'.
        destruct (new_nodes_In n z Hn Hz) as [_ [_ [Z1 Z2]]].
        destruct (new_nodes_In n' z Hn' Hz') as [_ [_ [Z1' Z2']]].
        apply dependents_In in Hn, Hn'.
        destruct Hn as [N1 [_ N3]], Hn' as [N1' [_ N3']].
        specialize (Z2 n' Z1' N3'). specialize (Z2' n Z1 N3).
        apply (NoDup_map_inj (start_of G) (terminals G)); auto;
          try (apply terminals_In; auto). lia.
  - apply NoDup_filter, (at_nodup G W).
  - intros x. unfold nonterminals. rewrite filter_In, negb_true_iff. split.
    + intros [<-|[<-|Hin]].
      * split; [apply (at_root G W)|]. rewrite (at_leaf G W 0 (at_root G W)). reflexivity.
      * split; [exact Hfd_node|]. rewrite (at_leaf G W fd Hfd_node).
        apply parent_successor in S4. destruct (successors G fd); [contradiction|].
        simpl. apply andb_false_r.
      * apply in_flat_map in Hin. destruct Hin as [n [Hn Hx]].
        destruct (new_nodes_In n x Hn Hx) as [X1 [X2 _]]. auto.
    + intros [Hx Tx].
      destruct (Nat.eq_dec x 0) as [->|Hx0]; [now left|].
      destruct (Nat.eq_dec x fd) as [->|Hxfd]; [right; now left|].
      right. right. apply in_flat_map.
      destruct (new_nodes_cover x Hx Tx Hx0 Hxfd) as [n [Hn Hin]]. eauto.
Qed.

End Coverage.


(** ** Equality of attribute dictionaries *)

Lemma option_eqb_eq {A : Type} (eqb : A -> A -> bool) (x y : option A) :
  (forall a b, eqb a b = true <-> a = b) ->
  option_eqb eqb x y = true <-> x = y.
Proof.
  intros H. destruct x as [a|], y as [b|]; simpl.
  - rewrite H. split; congruence.
  - split; discriminate.
  - split; discriminate.
  - tauto.
Qed.

Lemma attrs_eqb_eq (a b : NodeAttrs) : attrs_eqb a b = true <-> a = b.
Proof.
  unfold attrs_eqb. rewrite !andb_true_iff.
  rewrite (option_eqb_eq String.eqb _ _ String.eqb_eq).
  rewrite (option_eqb_eq Bool.eqb _ _ Bool.eqb_true_iff).
  rewrite !(option_eqb_eq Z.eqb _ _ Z.eqb_eq).
  destruct a, b; simpl. split.
  - intros [[[-> ->] ->] ->]. reflexivity.
  - intros E. inversion E. auto.
Qed.

Lemma find_app {A : Type} (f : A -> bool) (l1 l2 : list A) :
  find f (l1 ++ l2) = match find f l1 with Some x => Some x | None => find f l2 end.
Proof.
  induction l1 as [|x l1 IH]; simpl; auto. destruct (f x); auto.
Qed.

Lemma corr_found (R : Graph NodeAttrs) (a : NodeAttrs) (c : nat) :
  corr R a = Some c -> In (c, a) (g_node R).
Proof.
  unfold corr. destruct (find _ (g_node R)) as [[m b]|] eqn:E; [|discriminate].
  simpl. intros H. inversion H; subst. apply find_some in E.
  destruct E as [E1 E2]. simpl in E2. apply attrs_eqb_eq in E2. now subst.
Qed.

Lemma corr_app (nodes extra : list (nat * NodeAttrs)) (edges edges' : list (nat * nat))
  (a : NodeAttrs) (c : nat) :
  corr (mkGraph nodes edges) a = Some c ->
  corr (mkGraph (nodes ++ extra) edges') a = Some c.
Proof.
  unfold corr. simpl. rewrite find_app.
  destruct (find _ nodes); [auto | discriminate].
Qed.

Lemma corr_new (nodes extra : list (nat * NodeAttrs)) (edges : list (nat * nat))
  (a : NodeAttrs) (c : nat) :
  ~ In a (map snd nodes) -> ~ In a (map snd extra) ->
  corr (mkGraph (nodes ++ extra ++ [(c, a)]) edges) a = Some c.
Proof.
  intros H1 H2. unfold corr. simpl. rewrite !find_app.
  assert (E : forall l, ~ In a (map snd l) ->
                find (fun mb : nat * NodeAttrs => attrs_eqb (snd mb) a) l = None).
  { intros l Hl. destruct (find _ l) as [[m b]|] eqn:E; auto.
    exfalso. apply find_some in E. destruct E as [E1 E2]. simpl in E2.
    apply attrs_eqb_eq in E2. subst. apply Hl. apply in_map_iff. exists (m, a). auto. }
  rewrite (E nodes H1), (E extra H2). simpl.
  rewrite (proj2 (attrs_eqb_eq a a) eq_refl). reflexivity.
Qed.

(** ** Hanging new nodes *)

Lemma getId_fresh {A : Type} (nodes : list (nat * A)) (n : nat) :
  In n (node_ids nodes) -> n < getId nodes.
Proof.
  unfold getId. destruct nodes as [|x nodes]; [contradiction|].
  cbn [length Nat.eqb]. intros H.
  assert (n <= fold_right Nat.max 0 (node_ids (x :: nodes))); [|lia].
  induction (node_ids (x :: nodes)) as [|y l IH]; [contradiction|].
  simpl. destruct H as [->|H]; [lia|]. specialize (IH H). lia.
Qed.

Lemma update_gnode_absent {A : Type} (upd : A -> A) (n : nat) (a : A) (l : list (nat * A)) :
  ~ In n (node_ids l) -> update_gnode upd n a l = l ++ [(n, a)].
Proof.
  induction l as [|[m b] l IH]; simpl; intros H; auto.
  destruct (Nat.eqb_spec n m); [subst; tauto|]. rewrite IH; tauto.
Qed.

(** Hanging one fresh node [m] under [x]. *)
Lemma attach_one (R : Graph NodeAttrs) (m x : nat) (a : NodeAttrs) :
  grown R -> In x (node_ids (g_node R)) ->
  (forall v, In v (node_ids (g_node R)) -> v < m) ->
  let R' := g_add_edge (g_add_node R m a) m x in
  g_node R' = g_node R ++ [(m, a)]
  /\ g_edge R' = g_edge R ++ [(m, x)]
  /\ grown R'
  /\ (forall v w, In w (neighbors R v) -> In w (neighbors R' v))
  /\ In m (neighbors R' x).
Proof.
  intros [G1 G2 G3] Hx Hm.
  assert (Hm' : ~ In m (node_ids (g_node R))).
  { intros H. specialize (Hm m H). lia. }
  assert (Hnodes : g_node (g_add_edge (g_add_node R m a) m x) = g_node R ++ [(m, a)]).
  { unfold g_add_edge, g_add_node. simpl.
    rewrite (update_gnode_absent _ m a _ Hm').
    rewrite (update_gnode_present m); [|unfold node_ids; rewrite map_app;
                                        apply in_or_app; right; now left].
    apply update_gnode_present. unfold node_ids. rewrite map_app.
    apply in_or_app. now left. }
  assert (Hedges : g_edge (g_add_edge (g_add_node R m a) m x) = g_edge R ++ [(m, x)]).
  { unfold g_add_edge, g_add_node. simpl.
    destruct (existsb (edge_eqb m x) (g_edge R)) eqn:E; [|reflexivity].
    exfalso. apply existsb_edge_eqb in E.
    destruct E as [E|E]; apply G2 in E; tauto. }
  assert (Hadj : forall v w, In w (neighbors (g_add_edge (g_add_node R m a) m x) v) <->
                   In w (neighbors R v) \/ (v = m /\ w = x) \/ (v = x /\ w = m)).
  { intros v w. rewrite !neighbors_In. unfold uedge. rewrite Hedges, !in_app_iff.
    simpl. split.
    - intros [[H|[H|[]]]|[H|[H|[]]]]; try (inversion H; subst); tauto.
    - intros [[H|H]|[[-> ->]|[-> ->]]]; tauto. }
  assert (Hold : forall v w, In w (neighbors R v) ->
                   In v (node_ids (g_node R)) /\ In w (node_ids (g_node R))).
  { intros v w H. apply neighbors_In in H. destruct H as [H|H]; apply G2 in H; tauto. }
  cbv zeta. split; [exact Hnodes|]. split; [exact Hedges|]. split; [|split].
  - constructor.
    + rewrite Hnodes. unfold node_ids. rewrite map_app. apply NoDup_app; auto.
      * repeat constructor. intros [].
      * intros v Hv [<-|[]]. auto.
    + intros u v. rewrite Hedges, Hnodes. unfold node_ids. rewrite map_app, !in_app_iff.
      simpl. intros [H|[H|[]]].
      * apply G2 in H. tauto.
      * inversion H; subst. tauto.
    + constructor.
      * intros u v. rewrite !Hadj. intros [H|[[-> ->]|[-> ->]]]; auto.
        left. now apply (forest_sym _ G3).
      * intros u. rewrite Hadj. intros [H|[[-> ->]|[-> ->]]]; auto.
        now apply (forest_irrefl _ G3) in H.
      * intros c u v. rewrite !Hadj. pose proof (Hm x Hx) as Hxm.
        intros [Hu|[[Ec Eu]|[Ec Eu]]] [Hv|[[Ec' Ev]|[Ec' Ev]]] Huc Hvc; subst;
          try lia; try reflexivity.
        -- now apply (forest_parent _ G3 c).
        -- exfalso. apply Hold in Hu. tauto.
        -- exfalso. apply Hold in Hv. tauto.
  - intros v w H. apply Hadj. now left.
  - apply Hadj. right. right. auto.
Qed.

(** Hanging a chain of fresh nodes under [x]. *)
Lemma attach_chain_spec (l : list NodeAttrs) : forall (R : Graph NodeAttrs) (x : nat),
  grown R -> In x (node_ids (g_node R)) ->
  exists news,
    length news = length l
    /\ g_node (fst (attach_chain R x l)) = g_node R ++ combine news l
    /\ grown (fst (attach_chain R x l))
    /\ (forall v w, In w (neighbors R v) -> In w (neighbors (fst (attach_chain R x l)) v))
    /\ (forall m, In m news -> ~ In m (node_ids (g_node R)))
    /\ NoDup news
    /\ snd (attach_chain R x l) = last (x :: news) x
    /\ chain (fun a b => In b (neighbors (fst (attach_chain R x l)) a)) (x :: news).
Proof.
  induction l as [|a l IH]; intros R x HR Hx.
  - exists []. simpl. rewrite app_nil_r.
    split; [reflexivity|]. split; [reflexivity|]. split; [exact HR|].
    split; [auto|]. split; [intros m []|]. split; [constructor|].
    split; [reflexivity | exact I].
  - simpl attach_chain. set (m := getId (g_node R)).
    destruct (attach_one R m x a HR Hx (getId_fresh (g_node R)))
      as [A1 [A2 [A3 [A4 A5]]]].
    set (R1 := g_add_edge (g_add_node R m a) m x) in *.
    assert (Hm1 : In m (node_ids (g_node R1))).
    { rewrite A1. unfold node_ids. rewrite map_app. apply in_or_app. right. now left. }
    destruct (IH R1 m A3 Hm1) as [news [I1 [I2 [I3 [I4 [I5 [I6 [I7 I8]]]]]]]].
    assert (Hsub : forall v, In v (node_ids (g_node R)) -> In v (node_ids (g_node R1))).
    { intros v Hv. rewrite A1. unfold node_ids. rewrite map_app. apply in_or_app. now left. }
    exists (m :: news). split; [simpl; now rewrite I1|]. split; [|split; [exact I3|split]].
    + rewrite I2, A1, <- app_assoc. reflexivity.
    + intros v w H. apply I4. now apply A4.
    + split; [|split; [|split]].
      * intros k [<-|Hk] Hin.
        -- pose proof (getId_fresh (g_node R) m Hin). lia.
        -- apply (I5 k Hk). now apply Hsub.
      * constructor; auto. intros Hin. now apply (I5 m Hin).
      * rewrite I7. rewrite last_cons_cons. apply last_nonempty. discriminate.
      * split; [apply I4; exact A5 | exact I8].
Qed.

Lemma append_chain_attach (tys : list string) : forall (R : Graph NodeAttrs) (x : nat),
  append_chain R x tys = attach_chain R x (map nonterm_attrs tys).
Proof.
  induction tys as [|ty tys IH]; intros R x; simpl; auto.
Qed.

Lemma attach_chain_app (l1 : list NodeAttrs) : forall (R : Graph NodeAttrs) (x : nat) l2,
  attach_chain R x (l1 ++ l2)
  = attach_chain (fst (attach_chain R x l1)) (snd (attach_chain R x l1)) l2.
Proof.
  induction l1 as [|a l1 IH]; intros R x l2; simpl; auto.
Qed.

Lemma simple_path_mono (adj adj' : nat -> list nat) (a b : nat) (p : list nat) :
  (forall v w, In w (adj v) -> In w (adj' v)) ->
  simple_path adj a b p -> simple_path adj' a b p.
Proof.
  intros Hm [[H1 [H2 H3]] H4]. split; [split; [|split]|]; auto.
  eapply chain_impl; [|exact H3]. auto.
Qed.

Lemma length_py_interior {A : Type} (l : list A) : length (py_interior l) = length l - 2.
Proof.
  unfold py_interior. destruct l as [|a l]; [reflexivity|]. simpl.
  destruct l as [|b l] using rev_ind; [reflexivity|].
  rewrite removelast_last, length_app. simpl. lia.
Qed.

Lemma last_app_r {A : Type} (l1 l2 : list A) (d : A) :
  l2 <> [] -> last (l1 ++ l2) d = last l2 d.
Proof.
  intros H. induction l1 as [|a l1 IH]; simpl; auto.
  destruct (l1 ++ l2) eqn:E; [|exact IH].
  apply app_eq_nil in E. tauto.
Qed.

Lemma map_snd_combine {A B : Type} (l1 : list A) (l2 : list B) :
  length l1 = length l2 -> map snd (combine l1 l2) = l2.
Proof.
  revert l2. induction l1 as [|a l1 IH]; intros [|b l2] H; simpl in *; try congruence.
  f_equal. apply IH. lia.
Qed.

Lemma grown_path_nodes (R : Graph NodeAttrs) (a b : nat) (p : list nat) :
  grown R -> simple_path (neighbors R) a b p -> 2 <= length p ->
  forall x, In x p -> In x (node_ids (g_node R)).
Proof.
  intros HR [[_ [_ Hc]] _] Hlen x Hx.
  destruct (chain_In_adj _ _ x Hc Hx Hlen) as [y Hy].
  destruct Hy as [Hy|Hy]; apply neighbors_In in Hy;
    destruct Hy as [Hy|Hy]; apply (gr_edges R HR) in Hy; tauto.
Qed.

(** Hanging a chain under a node [x] of a path that starts at [ch]: the new
    end of the chain is joined to [ch] by a simple path through [x]. *)
Lemma grow_step (R : Graph NodeAttrs) (ch x : nat) (pre : list nat) (l : list NodeAttrs) :
  grown R -> simple_path (neighbors R) ch x (ch :: pre ++ [x]) -> l <> [] ->
  exists news q,
    length news = length l
    /\ g_node (fst (attach_chain R x l)) = g_node R ++ combine news l
    /\ grown (fst (attach_chain R x l))
    /\ (forall v w, In w (neighbors R v) -> In w (neighbors (fst (attach_chain R x l)) v))
    /\ simple_path (neighbors (fst (attach_chain R x l))) (last news 0) ch q
    /\ length (py_interior q) = length pre + length l.
Proof.
  intros HR Hp Hl.
  assert (Hnodes : forall v, In v (ch :: pre ++ [x]) -> In v (node_ids (g_node R))).
  { apply (grown_path_nodes R ch x _ HR Hp). simpl. rewrite length_app. simpl. lia. }
  assert (Hx : In x (node_ids (g_node R))).
  { apply Hnodes. right. apply in_or_app. right. now left. }
  destruct (attach_chain_spec l R x HR Hx) as [news [I1 [I2 [I3 [I4 [I5 [I6 [I7 I8]]]]]]]].
  set (R' := fst (attach_chain R x l)) in *.
  assert (Hnews : news <> []).
  { intros ->. destruct l; [congruence | discriminate]. }
  exists news, (rev ((ch :: pre ++ [x]) ++ news)).
  split; [exact I1|]. split; [exact I2|]. split; [exact I3|]. split; [exact I4|].
  split.
  - assert (F : simple_path (neighbors R') ch (last news 0) ((ch :: pre ++ [x]) ++ news)).
    { destruct Hp as [[P1 [P2 P3]] P4]. split; [split; [|split]|].
      - reflexivity.
      - rewrite last_app_r by exact Hnews. apply last_nonempty. exact Hnews.
      - apply (chain_app _ _ _ 0).
        + eapply chain_impl; [|exact P3]. exact I4.
        + eapply chain_cons_inv; eauto.
        + intros _ _. rewrite app_comm_cons, last_last.
          destruct news as [|m news]; [congruence|]. simpl. apply I8.
      - apply NoDup_app; auto. intros v Hv Hv'. apply (I5 v Hv'). now apply Hnodes. }
    destruct F as [F1 F2]. split.
    + apply path_rev; [apply (forest_sym _ (gr_forest _ I3)) | exact F1].
    + now apply NoDup_rev.
  - rewrite length_py_interior, length_rev, !length_app. simpl.
    rewrite length_app. simpl. lia.
Qed.


(** ** Sorting by start, once more *)

Lemma combine_key_In (G : DiGraph) (l : list nat) (x : nat) (k : Z) :
  In (x, k) (combine l (map (start_of G) l)) -> In x l /\ k = start_of G x.
Proof.
  induction l as [|y l IH]; simpl; [tauto|].
  intros [E|H].
  - inversion E; subst. auto.
  - destruct (IH H). auto.
Qed.

Lemma sorted_by_start_sorted (G : DiGraph) (l : list nat) :
  StronglySorted (fun a b => (start_of G a <= start_of G b)%Z) (sorted_by_start G l).
Proof.
  unfold sorted_by_start.
  pose proof (stable_sort_sorted (combine l (map (start_of G) l))) as Hs.
  assert (Hk : forall xk, In xk (stable_sort (combine l (map (start_of G) l))) ->
                          snd xk = start_of G (fst xk)).
  { intros [x k] H. apply (Permutation_in _ (stable_sort_perm _)) in H.
    apply combine_key_In in H. simpl. tauto. }
  remember (stable_sort (combine l (map (start_of G) l))) as s eqn:Es. clear Es.
  induction Hs as [|xk s Hs IH Hf]; simpl; constructor.
  - apply IH. intros yk Hy. apply Hk. now right.
  - apply Forall_forall. intros y Hy. apply in_map_iff in Hy.
    destruct Hy as [yk [<- Hy]]. rewrite Forall_forall in Hf.
    specialize (Hf yk Hy). unfold key_le in Hf.
    rewrite <- (Hk xk), <- (Hk yk); [exact Hf | now right | now left].
Qed.

Lemma StronglySorted_app_r {A : Type} (R : A -> A -> Prop) (l1 l2 : list A) :
  StronglySorted R (l1 ++ l2) -> StronglySorted R l2.
Proof.
  induction l1 as [|x l1 IH]; simpl; intros H; [exact H|].
  apply IH. now inversion H.
Qed.

(** Two sorted arrangements of the same entries, the keys being distinct,
    are the same list. *)
Lemma sorted_unique {A : Type} (l1 : list (A * Z)) : forall l2,
  StronglySorted key_le l1 -> StronglySorted key_le l2 ->
  Permutation l1 l2 -> NoDup (map snd l1) -> l1 = l2.
Proof.
  induction l1 as [|x l1 IH]; intros l2 S1 S2 P N.
  - apply Permutation_nil in P. now subst.
  - destruct l2 as [|y l2]; [apply Permutation_sym, Permutation_nil in P; discriminate|].
    inversion S1 as [|? ? S1' F1]; subst. inversion S2 as [|? ? S2' F2]; subst.
    assert (E : x = y).
    { assert (Hy : In y (x :: l1))
        by (apply (Permutation_in _ (Permutation_sym P)); now left).
      assert (Hx : In x (y :: l2)) by (apply (Permutation_in _ P); now left).
      destruct Hy as [Hy|Hy]; auto. destruct Hx as [Hx|Hx]; auto.
      rewrite Forall_forall in F1, F2.
      pose proof (F1 y Hy) as K1. pose proof (F2 x Hx) as K2. unfold key_le in K1, K2.
      apply (NoDup_map_inj snd (x :: l1)); simpl; auto. lia. }
    subst y. f_equal. apply IH; auto.
    + eapply Permutation_cons_inv; eauto.
    + simpl in N. now inversion N.
Qed.

Lemma stable_sort_perm_eq {A : Type} (l1 l2 : list (A * Z)) :
  Permutation l1 l2 -> NoDup (map snd l1) -> stable_sort l1 = stable_sort l2.
Proof.
  intros P N. apply sorted_unique.
  - apply stable_sort_sorted.
  - apply stable_sort_sorted.
  - rewrite !stable_sort_perm. exact P.
  - apply (Permutation_NoDup (l := map snd l1)); [|exact N].
    apply Permutation_map, Permutation_sym, stable_sort_perm.
Qed.

Lemma perm_remove (r : nat) (l : list nat) :
  NoDup l -> In r l -> Permutation (r :: filter (fun n => negb (Nat.eqb n r)) l) l.
Proof.
  induction l as [|a l IH]; simpl; intros N H; [contradiction|].
  inversion N as [|? ? Ha N']; subst.
  destruct (Nat.eqb_spec a r) as [->|Hne]; simpl.
  - rewrite filter_all; [reflexivity|].
    intros x Hx. apply negb_true_iff, Nat.eqb_neq. intros ->. contradiction.
  - destruct H as [H|H]; [contradiction|].
    etransitivity; [apply perm_swap|]. constructor. now apply IH.
Qed.

Lemma filter_filter_and {A : Type} (p q : A -> bool) (l : list A) :
  filter p (filter q l) = filter (fun x => p x && q x) l.
Proof.
  induction l as [|x l IH]; simpl; auto.
  destruct (q x); simpl.
  - rewrite andb_true_r. destruct (p x); now rewrite IH.
  - now rewrite andb_false_r.
Qed.

(** The attributes listed with the nodes are those [attrs_of] reads. *)
Lemma attrs_of_In (G : DiGraph) (n : nat) (a : NodeAttrs) :
  NoDup (node_ids (dg_node G)) -> In (n, a) (dg_node G) -> attrs_of G n = a.
Proof.
  intros N H. unfold attrs_of. now rewrite (lookup_NoDup n (dg_node G) a N H).
Qed.

Lemma filter_attrs (G : DiGraph) (p : NodeAttrs -> bool) (l : list (nat * NodeAttrs)) :
  (forall n a, In (n, a) l -> attrs_of G n = a) ->
  filter p (map snd l) = map (attrs_of G) (filter (fun n => p (attrs_of G n)) (node_ids l)).
Proof.
  induction l as [|[n a] l IH]; intros H; simpl; auto.
  rewrite (H n a (or_introl eq_refl)).
  rewrite IH by (intros; apply H; now right).
  destruct (p a); simpl; [|reflexivity].
  now rewrite (H n a (or_introl eq_refl)).
Qed.


(** ** The reconstruction *)

Lemma py_index_nat {A : Type} (l : list A) (i : nat) (x : A) :
  nth_error l i = Some x -> py_index l (Z.of_nat i) = Ret x.
Proof.
  intros H. unfold py_index.
  assert (Hi : i < length l) by (apply nth_error_Some; congruence).
  destruct (Z.of_nat i <? 0)%Z eqn:E; [apply Z.ltb_lt in E; lia|].
  destruct (0 <=? Z.of_nat i)%Z eqn:E1; [|apply Z.leb_gt in E1; lia].
  destruct (Z.of_nat i <? Z.of_nat (length l))%Z eqn:E2; [|apply Z.ltb_ge in E2; lia].
  simpl. now rewrite Nat2Z.id, H.
Qed.

Lemma corr_grow (R R' : Graph NodeAttrs) (extra : list (nat * NodeAttrs))
  (a : NodeAttrs) (c : nat) :
  g_node R' = g_node R ++ extra -> corr R a = Some c -> corr R' a = Some c.
Proof.
  intros E H. unfold corr in *. rewrite E, find_app.
  destruct (find _ (g_node R)); [auto | discriminate].
Qed.

Lemma combine_snoc {A B : Type} (l1 : list A) : forall (l2 : list B) (a : A) (b : B),
  length l1 = length l2 ->
  combine (l1 ++ [a]) (l2 ++ [b]) = combine l1 l2 ++ [(a, b)].
Proof.
  induction l1 as [|x l1 IH]; intros [|y l2] a b H; simpl in *; try congruence.
  f_equal. apply IH. lia.
Qed.

Lemma corr_last (R R' : Graph NodeAttrs) (news : list nat) (l : list NodeAttrs)
  (a : NodeAttrs) :
  g_node R' = g_node R ++ combine news (l ++ [a]) ->
  length news = length (l ++ [a]) ->
  ~ In a (map snd (g_node R)) -> ~ In a l ->
  corr R' a = Some (last news 0).
Proof.
  intros E Hlen H1 H2.
  destruct news as [|m news] using rev_ind.
  - rewrite length_app in Hlen. simpl in Hlen. lia.
  - clear IHnews. rewrite !length_app in Hlen. simpl in Hlen.
    assert (Hl : length news = length l) by lia.
    rewrite last_last.
    rewrite combine_snoc in E by exact Hl.
    unfold corr. rewrite E, !find_app.
    assert (N : forall nodes : list (nat * NodeAttrs), ~ In a (map snd nodes) ->
                  find (fun mb => attrs_eqb (snd mb) a) nodes = None).
    { intros nodes Hn. destruct (find _ nodes) as [[k b]|] eqn:Ef; auto.
      exfalso. apply find_some in Ef. destruct Ef as [E1 E2]. simpl in E2.
      apply attrs_eqb_eq in E2. subst. apply Hn. apply in_map_iff. exists (k, a). auto. }
    rewrite (N _ H1), N.
    + simpl. now rewrite (proj2 (attrs_eqb_eq a a) eq_refl).
    + now rewrite map_snd_combine.
Qed.

Section Recon.

Variable G : DiGraph.
Hypothesis W : ast_tree G.
Hypothesis D : distinct_starts G.
Variable root : nat.
Hypothesis R0 : getRoot G = Ret root.
Variable fd : nat.
Hypothesis S : scaffold G root fd.
Variable deps : list (nat * nat * EdgeData).
Hypothesis deps_ok : Forall (dep_ok G) deps.
Hypothesis deps_targets : map edge_target deps = dependents G root.
Hypothesis deps_heads : Forall (head_edge G) deps.
Variable T : DiGraph.
Hypothesis dt : dep_tree_of G deps T.
Variable L : DiGraph.
Hypothesis L_nodes : dg_node L = dg_node T.
Hypothesis L_edges : map fst (dg_edge L) = map fst (dg_edge T).
Hypothesis L_labels : forall e, In e (dg_edge L) -> labelled G root deps e.

(** *** The attributes of the terminals *)

Lemma terminal_attrs (t : nat) :
  In t (terminals G) ->
  is_terminal (attrs_of G t) = Some true
  /\ start (attrs_of G t) = Some (start_of G t).
Proof.
  intros Ht. apply terminals_In in Ht. destruct Ht as [Hn Tt].
  destruct (attrs_of_full G t (ast_attrs_ok G W) Hn) as [_ Hf].
  unfold terminal in Tt. unfold start_of. unfold full_attrs in Hf.
  destruct (type (attrs_of G t)), (is_terminal (attrs_of G t)) as [[|]|],
    (start (attrs_of G t)); try discriminate. auto.
Qed.

Lemma terminal_attrs_inj (t n : nat) :
  In t (terminals G) -> In n (terminals G) -> attrs_of G t = attrs_of G n -> t = n.
Proof.
  intros Ht Hn E. apply (NoDup_map_inj (start_of G) (terminals G)); auto.
  unfold start_of. now rewrite E.
Qed.

Lemma terminal_attrs_nonterm (t : nat) (ty : string) :
  In t (terminals G) -> attrs_of G t <> nonterm_attrs ty.
Proof.
  intros Ht E. destruct (terminal_attrs t Ht) as [H _]. rewrite E in H. discriminate.
Qed.

Lemma L_attrs (t : nat) : In t (terminals G) -> dg_attrs L t = Ret (attrs_of G t).
Proof.
  intros Ht. unfold dg_attrs. rewrite L_nodes, (dt_nodes G deps T dt), lookup_filter.
  apply terminals_In in Ht. destruct Ht as [Hn Tt]. rewrite Tt.
  unfold attrs_of. destruct (lookup_some t (dg_node G) Hn) as [a Ha]. now rewrite Ha.
Qed.

Lemma L_head (h n : nat) (d : EdgeData) : In (h, n, d) deps -> getHeadDepTree L n = Ret h.
Proof.
  intros Hd.
  apply (heads_in_shape G W root deps deps_ok deps_targets T dt L h n d L_nodes L_edges Hd).
Qed.

Lemma L_targets_nodup : NoDup (map edge_target (dg_edge L)).
Proof.
  rewrite map_edge_target, L_edges, <- map_edge_target.
  apply (dt_targets_nodup G W root deps deps_targets T dt).
Qed.

Lemma label_of_root (hh hh' n : nat) :
  label_of G root root hh n = label_of G root root hh' n.
Proof. unfold label_of. now rewrite Nat.eqb_refl. Qed.

Lemma L_data (h n : nat) (d : EdgeData) :
  In (h, n, d) deps ->
  exists d', edge_data L h n = Ret d'
             /\ complex_edge d' = Some (label_of G root h (head_in deps h) n).
Proof.
  intros Hd.
  assert (H : In (h, n) (map fst (dg_edge L))).
  { rewrite L_edges. apply in_map_iff. exists (h, n, d). split; auto.
    now apply (dt_edge_In G deps T dt). }
  apply in_map_iff in H. destruct H as [[[h' n'] d'] [E H]].
  simpl in E. inversion E; subst h' n'.
  exists d'. split; [now apply edge_data_unique; [apply L_targets_nodup|]|].
  destruct (L_labels _ H) as [hh [C1 C2]].
  unfold edge_source, edge_target in *. simpl in *. rewrite C1. f_equal.
  destruct (Nat.eq_dec h root) as [->|Hroot]; [apply label_of_root|].
  destruct (C2 Hroot) as [d0 Hd0].
  now rewrite (head_in_spec G W root deps deps_targets hh h d0 Hd0).
Qed.

(** *** The special index within the two spines *)

Lemma special_index_bounds (h n : nat) (d : EdgeData) :
  In (h, n, d) deps ->
  exists i,
    special_index (label_of G root h (head_in deps h) n) = Z.of_nat i
    /\ i < length (spine G h n)
    /\ (h <> root -> i < length (spine G h (head_in deps h))).
Proof.
  intros Hd.
  destruct (dep_In_facts G deps deps_ok h n d Hd) as [F1 [F2 [F3 [F4 F5]]]].
  apply terminals_In in F3, F4. destruct F3 as [_ Th], F4 as [_ Tn].
  assert (Hne : h <> n) by (intros ->; lia).
  unfold label_of. simpl.
  destruct (Nat.eqb_spec h root) as [Hroot|Hroot].
  - exists 0. split; [reflexivity|]. split; [|congruence].
    destruct (spine_starts_at_parent G W h n F1 Th F2 Tn Hne) as [x [r [E _]]].
    rewrite E. simpl. lia.
  - assert (Hdep : In h (dependents G root)) by (apply dependents_In; auto).
    destruct (dep_exists G root deps deps_targets h Hdep) as [hh [d' Hd']].
    rewrite (head_in_spec G W root deps deps_targets hh h d' Hd').
    destruct (dep_In_facts G deps deps_ok hh h d' Hd') as [G1 [_ [G3 [_ G5]]]].
    apply terminals_In in G3. destruct G3 as [_ Thh].
    assert (Hne' : h <> hh) by (intros ->; lia).
    destruct (special_index_in_range G W h hh n F1 Th G1 Thh F2 Tn Hne' Hne)
      as [i [Ei Hi]].
    exists i. rewrite Ei. split; [reflexivity|]. split; [exact Hi|]. intros _.
    pose proof (last_shared_index_spec (spine G h n) (spine G h hh)) as Hs.
    rewrite Ei in Hs. destruct Hs as [pre [m [post [_ [_ [_ S4]]]]]].
    destruct (py_list_index_split _ _ _ S4) as [pre' [post' [S5 S6]]].
    rewrite S5, length_app. simpl. lia.
Qed.

(** *** One step of the outer loop *)

(** The path computed for the dependent [n] of head [h], and the node of
    the rebuilt tree that stands for [h]. *)
Lemma recon_path (R : Graph NodeAttrs) (done : list nat) (h n : nat) (d : EdgeData) :
  recon_inv G root deps R done ->
  In (h, n, d) deps -> h = root \/ In h done ->
  exists I ch,
    (if Nat.eqb h root then
       p <- shortest_path R 2 0 ;; Ret (py_interior p)
     else
       h_head <- getHeadDepTree L h ;;
       h_correspondence <- get_correspondence R L h ;;
       h_head_correspondence <- get_correspondence R L h_head ;;
       p <- shortest_path_opt R h_correspondence h_head_correspondence ;;
       Ret (py_interior p)) = Ret I
    /\ corr R (attrs_of G h) = Some ch
    /\ (h = root -> 0 < length I)
    /\ (h <> root -> length I = length (spine G h (head_in deps h)))
    /\ forall i x, nth_error I i = Some x ->
         exists pre, simple_path (neighbors R) ch x (ch :: pre ++ [x]) /\ length pre = i.
Proof.
  intros Inv Hd Hh.
  pose proof (ri_grown _ _ _ _ _ Inv) as HR.
  pose proof (gr_forest R HR) as HF.
  destruct (Nat.eqb_spec h root) as [Hroot|Hroot].
  - subst h. pose proof (ri_scaffold _ _ _ _ _ Inv) as Ps.
    assert (Hn : forall v, In v [2; 1; 0] -> In v (node_ids (g_node R))).
    { apply (grown_path_nodes R 2 0 _ HR Ps). simpl. lia. }
    destruct (shortest_path_ret R 2 0) as [p [P1 P2]].
    + apply Hn. simpl. auto.
    + apply Hn. simpl. auto.
    + eapply path_reach. apply Ps.
    + pose proof (simple_path_unique _ HF _ _ _ _ P2 Ps) as E. subst p.
      exists [1], 2. rewrite P1. cbn [bind].
      split; [reflexivity|]. split; [apply (ri_root _ _ _ _ _ Inv)|].
      split; [simpl; lia|]. split; [congruence|].
      intros i x Hx. destruct i as [|i]; [|destruct i; discriminate].
      inversion Hx; subst x. exists []. split; [|reflexivity].
      apply (path_prefix _ 2 0 1 [] [0]). exact Ps.
  - destruct Hh as [Hh|Hh]; [congruence|].
    destruct (dep_In_facts G deps deps_ok h n d Hd) as [F1 [_ [F3 _]]].
    assert (Hdep : In h (dependents G root)).
    { apply dependents_In. apply terminals_In in F3. tauto. }
    destruct (dep_exists G root deps deps_targets h Hdep) as [hh [d' Hd']].
    pose proof (head_in_spec G W root deps deps_targets hh h d' Hd') as Ehh.
    destruct (dep_In_facts G deps deps_ok hh h d' Hd') as [G1 [_ [G3 [_ G5]]]].
    destruct (ri_paths _ _ _ _ _ Inv h Hh) as [ch [chh [p [C1 [C2 [C3 C4]]]]]].
    rewrite Ehh in *.
    rewrite (L_head hh h d' Hd'). cbn [bind].
    rewrite (get_correspondence_attrs R L h _ (L_attrs h F3)),
      (get_correspondence_attrs R L hh _ (L_attrs hh G3)). cbn [bind].
    fold (corr R (attrs_of G h)). fold (corr R (attrs_of G hh)).
    rewrite C1, C2. cbn [shortest_path_opt].
    destruct (shortest_path_ret R ch chh) as [p' [P1 P2]].
    + apply corr_found in C1. apply in_map_iff. exists (ch, attrs_of G h). auto.
    + apply corr_found in C2. apply in_map_iff. exists (chh, attrs_of G hh). auto.
    + eapply path_reach. apply C3.
    + pose proof (simple_path_unique _ HF _ _ _ _ P2 C3) as E. subst p'.
      rewrite P1. cbn [bind].
      assert (Hne : hh <> h) by (intros ->; lia).
      apply terminals_In in F3, G3. destruct F3 as [_ Th], G3 as [_ Thh].
      destruct (spine_starts_at_parent G W hh h G1 Thh F1 Th Hne) as [y [r [Es _]]].
      assert (Hcc : ch <> chh).
      { intros ->.
        pose proof (simple_path_unique _ HF _ _ _ _ C3
                      (conj (path_one _ chh) (NoDup_cons chh (@in_nil _ chh) (NoDup_nil _))))
          as E.
        rewrite E, Es in C4. simpl in C4. discriminate. }
      destruct (path_split _ _ _ _ (proj1 C3) Hcc) as [mid Emid].
      exists mid, ch. rewrite Emid, py_interior_spec.
      split; [reflexivity|]. split; [reflexivity|]. split; [congruence|]. split.
      * intros _. rewrite Emid, py_interior_spec in C4. rewrite C4.
        rewrite (spine_rev G W h hh F1 G1 (not_eq_sym Hne)). now rewrite length_rev.
      * intros i x Hx. apply nth_error_split in Hx.
        destruct Hx as [l1 [l2 [E1 E2]]]. exists l1. split; [|exact E2].
        rewrite Emid, E1, <- app_assoc in C3. simpl in C3.
        now apply path_prefix in C3.
Qed.

Lemma new_nodes_length (h n : nat) (d : EdgeData) (i : nat) :
  In (h, n, d) deps ->
  special_index (label_of G root h (head_in deps h) n) = Z.of_nat i ->
  new_nodes G root deps n = skipn (Datatypes.S i) (spine G h n).
Proof.
  intros Hd Ei. unfold new_nodes.
  rewrite (head_in_spec G W root deps deps_targets h n d Hd), Ei.
  replace (Z.of_nat i + 1)%Z with (Z.of_nat (Datatypes.S i)) by lia.
  apply py_slice_from_nat.
Qed.

Lemma fresh_attrs (R : Graph NodeAttrs) (done : list nat) (n : nat) :
  recon_inv G root deps R done ->
  (forall t, In t done -> In t (dependents G root)) ->
  In n (dependents G root) -> ~ In n done ->
  ~ In (attrs_of G n) (map snd (g_node R)).
Proof.
  intros Inv Hdone Hn Hnew. rewrite (ri_attrs _ _ _ _ _ Inv).
  assert (Tn : In n (terminals G)).
  { apply dependents_In in Hn. apply terminals_In. tauto. }
  destruct (getRoot_spec G root (ast_attrs_ok G W) R0) as [Troot _].
  intros [E|[E|[E|E]]].
  - symmetry in E. now apply terminal_attrs_nonterm in E.
  - symmetry in E. now apply terminal_attrs_nonterm in E.
  - apply terminal_attrs_inj in E; auto. apply dependents_In in Hn. intuition.
  - apply in_flat_map in E. destruct E as [t [Ht E]].
    unfold added_attrs in E. apply in_app_or in E. destruct E as [E|[E|[]]].
    + apply in_map_iff in E. destruct E as [ty [E _]].
      symmetry in E. now apply terminal_attrs_nonterm in E.
    + apply terminal_attrs_inj in E; auto.
      * subst t. contradiction.
      * specialize (Hdone t Ht). apply dependents_In in Hdone. apply terminals_In. tauto.
Qed.

(** The step for the dependent [n] returns, and keeps the invariant. *)
Lemma recon_step (R : Graph NodeAttrs) (done : list nat) (h n : nat) (d : EdgeData) :
  recon_inv G root deps R done ->
  (forall t, In t done -> In t (dependents G root)) ->
  In (h, n, d) deps -> h = root \/ In h done -> ~ In n done ->
  exists R', reconstruct_step L root R n = Ret R'
             /\ recon_inv G root deps R' (done ++ [n]).
Proof.
  intros Inv Hdone Hd Hh Hnew.
  destruct (dep_In_facts G deps deps_ok h n d Hd) as [F1 [F2 [F3 [F4 F5]]]].
  assert (Hdep : In n (dependents G root)).
  { rewrite <- deps_targets. apply in_map_iff. exists (h, n, d). auto. }
  unfold reconstruct_step. rewrite (L_head h n d Hd). cbn [bind].
  destruct (recon_path R done h n d Inv Hd Hh) as [I [ch [HI [Hch [HI0 [HIlen Hpre]]]]]].
  rewrite HI. cbn [bind].
  destruct (L_data h n d Hd) as [d' [Hd1 Hd2]]. rewrite Hd1. cbn [bind].
  rewrite Hd2. cbn [get_key bind].
  destruct (special_index_bounds h n d Hd) as [i [Ei [Hi1 Hi2]]].
  assert (Hi : i < length I).
  { destruct (Nat.eq_dec h root) as [E|E].
    - specialize (HI0 E). unfold label_of in Ei. simpl in Ei.
      apply Nat.eqb_eq in E. rewrite E in Ei. lia.
    - rewrite (HIlen E). now apply Hi2. }
  destruct (nth_error I i) as [x|] eqn:Ex; [|apply nth_error_None in Ex; lia].
  unfold get_node_to_append. rewrite Ei, (py_index_nat I i x Ex). cbn [bind fst snd].
  destruct (Hpre i x Ex) as [pre [Ppre Lpre]].
  assert (Eapp : py_slice_from (non_terminals (label_of G root h (head_in deps h) n))
                               (Z.of_nat i + 1)
                 = map (type_of G) (new_nodes G root deps n)).
  { rewrite (new_nodes_length h n d i Hd Ei).
    replace (Z.of_nat i + 1)%Z with (Z.of_nat (Datatypes.S i)) by lia.
    rewrite py_slice_from_nat. unfold label_of. cbn [non_terminals]. apply skipn_map. }
  rewrite Eapp, append_chain_attach.
  set (nts := map nonterm_attrs (map (type_of G) (new_nodes G root deps n))).
  destruct (attach_chain R x nts) as [T1 y] eqn:Eatt.
  rewrite (L_attrs n F4). cbn [bind].
  eexists. split; [reflexivity|].
  assert (ER : g_add_edge (g_add_node T1 (getId (g_node T1)) (attrs_of G n))
                          (getId (g_node T1)) y
               = fst (attach_chain R x (added_attrs G root deps n))).
  { unfold added_attrs. fold nts. rewrite attach_chain_app, Eatt. reflexivity. }
  rewrite ER. clear ER Eatt T1 y.
  destruct (grow_step R ch x pre (added_attrs G root deps n)
              (ri_grown _ _ _ _ _ Inv) Ppre)
    as [news [q [I1 [I2 [I3 [I4 [I5 I6]]]]]]].
  { unfold added_attrs. intros E. apply app_eq_nil in E. destruct E; discriminate. }
  set (R' := fst (attach_chain R x (added_attrs G root deps n))) in *.
  constructor.
  - exact I3.
  - rewrite I2, map_app, map_snd_combine by exact I1.
    rewrite (ri_attrs _ _ _ _ _ Inv), flat_map_app. simpl.
    now rewrite app_nil_r.
  - eapply simple_path_mono; [exact I4 | apply (ri_scaffold _ _ _ _ _ Inv)].
  - eapply corr_grow; [exact I2 | apply (ri_root _ _ _ _ _ Inv)].
  - intros t Ht. apply in_app_or in Ht. destruct Ht as [Ht|[<-|[]]].
    + destruct (ri_paths _ _ _ _ _ Inv t Ht) as [ct [cht [p [C1 [C2 [C3 C4]]]]]].
      exists ct, cht, p. split; [eapply corr_grow; eauto|].
      split; [eapply corr_grow; eauto|]. split; [|exact C4].
      eapply simple_path_mono; eauto.
    + rewrite (head_in_spec G W root deps deps_targets h n d Hd).
      exists (last news 0), ch, q.
      split; [|split; [eapply corr_grow; eauto | split; [exact I5|]]].
      * unfold added_attrs in I1, I2.
        apply (corr_last R R' news _ (attrs_of G n) I2 I1).
        -- eapply fresh_attrs; eauto.
        -- intros Hin. apply in_map_iff in Hin. destruct Hin as [ty [E _]].
           symmetry in E. now apply (terminal_attrs_nonterm n ty F4).
      * rewrite I6, Lpre. unfold added_attrs.
        rewrite length_app, !length_map. simpl.
        rewrite (new_nodes_length h n d i Hd Ei), length_skipn. lia.
Qed.

(** *** The loop *)

Lemma L_node_ids : node_ids (dg_node L) = terminals G.
Proof. now rewrite L_nodes, (dt_nodes G deps T dt), node_ids_filter. Qed.

Lemma recon_order :
  sort_by_key (node_start L)
    (filter (fun n => negb (Nat.eqb n root)) (node_ids (dg_node L)))
  = Ret (sorted_by_start G (dependents G root)).
Proof.
  rewrite L_node_ids. unfold terminals. rewrite filter_filter_and.
  assert (E : filter (fun x => negb (Nat.eqb x root) && terminal G x) (node_ids (dg_node G))
              = dependents G root).
  { unfold dependents. apply filter_ext. intros x. now rewrite Nat.eqb_sym. }
  rewrite E. unfold sort_by_key.
  rewrite (mapM_ret _ (start_of G)); [reflexivity|].
  intros n Hn. apply dependents_In in Hn.
  assert (Tn : In n (terminals G)) by (apply terminals_In; tauto).
  unfold node_start. rewrite (L_attrs n Tn). cbn [bind].
  destruct (terminal_attrs n Tn) as [_ ->]. reflexivity.
Qed.

Lemma dependents_NoDup : NoDup (dependents G root).
Proof. unfold dependents. apply NoDup_filter, (at_nodup G W). Qed.

Lemma recon_loop : forall todo done R,
  sorted_by_start G (dependents G root) = done ++ todo ->
  recon_inv G root deps R done ->
  exists R', foldM (reconstruct_step L root) todo R = Ret R'
             /\ recon_inv G root deps R' (sorted_by_start G (dependents G root)).
Proof.
  induction todo as [|n todo IH]; intros done R E Inv.
  - exists R. split; [reflexivity|]. now rewrite E, app_nil_r.
  - pose proof (sorted_by_start_perm G (dependents G root)) as P.
    assert (Hin : forall t, In t (done ++ n :: todo) -> In t (dependents G root)).
    { intros t Ht. apply (Permutation_in _ P). now rewrite E. }
    assert (Hnd : NoDup (done ++ n :: todo)).
    { rewrite <- E. apply (Permutation_NoDup (Permutation_sym P)), dependents_NoDup. }
    assert (Hn : In n (dependents G root)) by (apply Hin, in_or_app; right; now left).
    destruct (dep_exists G root deps deps_targets n Hn) as [h [d Hd]].
    destruct (recon_step R done h n d Inv) as [R1 [H1 Inv1]].
    + intros t Ht. apply Hin, in_or_app. now left.
    + exact Hd.
    + destruct (Nat.eq_dec h root) as [?|Hne]; [now left | right].
      destruct (dep_In_facts G deps deps_ok h n d Hd) as [F1 [F2 [F3 [F4 F5]]]].
      assert (Hh : In h (done ++ n :: todo)).
      { rewrite <- E. apply (Permutation_in _ (Permutation_sym P)).
        apply dependents_In. apply terminals_In in F3. tauto. }
      apply in_app_or in Hh. destruct Hh as [Hh|Hh]; [exact Hh | exfalso].
      pose proof (sorted_by_start_sorted G (dependents G root)) as Hs.
      rewrite E in Hs. apply StronglySorted_app_r in Hs.
      inversion Hs as [|? ? _ Hf]; subst. rewrite Forall_forall in Hf.
      destruct Hh as [Hh|Hh]; [subst h; lia|].
      specialize (Hf h Hh). simpl in Hf. lia.
    + apply NoDup_remove_2 in Hnd. intros Hc. apply Hnd, in_or_app. now left.
    + destruct (IH (done ++ [n]) R1) as [R' [H2 Inv2]].
      * rewrite <- app_assoc. exact E.
      * exact Inv1.
      * exists R'. split; [|exact Inv2]. simpl. rewrite H1. exact H2.
Qed.

(** *** The scaffold the reconstruction starts from *)

Lemma recon_init :
  recon_inv G root deps
    (mkGraph [(0, nonterm_attrs "module"); (1, nonterm_attrs "function_definition");
              (2, attrs_of G root)]
             [(0, 1); (1, 2)]) [].
Proof.
  destruct (getRoot_spec G root (ast_attrs_ok G W) R0) as [Troot _].
  constructor.
  - constructor.
    + simpl. repeat constructor; simpl; intuition discriminate.
    + simpl. intros a b [E|[E|[]]]; inversion E; subst; tauto.
    + constructor.
      * intros a b H. apply neighbors_In. apply neighbors_In in H.
        unfold uedge in *. tauto.
      * intros a H. apply neighbors_In in H. unfold uedge in H. simpl in H.
        destruct H as [[E|[E|[]]]|[E|[E|[]]]]; inversion E; lia.
      * intros c x y Hx Hy Lx Ly. apply neighbors_In in Hx, Hy.
        unfold uedge in Hx, Hy. simpl in Hx, Hy.
        destruct Hx as [[Ex|[Ex|[]]]|[Ex|[Ex|[]]]]; inversion Ex; subst; try lia;
          destruct Hy as [[Ey|[Ey|[]]]|[Ey|[Ey|[]]]]; inversion Ey; subst; lia.
  - reflexivity.
  - split; [|repeat constructor; simpl; intuition discriminate].
    split; [reflexivity | split; [reflexivity|]]. simpl. auto.
  - unfold corr. simpl.
    destruct (attrs_eqb (nonterm_attrs "module") (attrs_of G root)) eqn:E1.
    { apply attrs_eqb_eq in E1. symmetry in E1. now apply terminal_attrs_nonterm in E1. }
    destruct (attrs_eqb (nonterm_attrs "function_definition") (attrs_of G root)) eqn:E2.
    { apply attrs_eqb_eq in E2. symmetry in E2. now apply terminal_attrs_nonterm in E2. }
    assert (E3 : attrs_eqb (attrs_of G root) (attrs_of G root) = true)
      by now apply attrs_eqb_eq.
    rewrite E3. reflexivity.
  - intros n [].
Qed.

(** [from_label_dep_tree_to_ast] returns, and what it returns is the state
    after all the dependents. *)
Lemma from_label_dep_tree_to_ast_ret :
  exists R, from_label_dep_tree_to_ast L "python" = Ret R
            /\ recon_inv G root deps R (sorted_by_start G (dependents G root)).
Proof.
  destruct (getRoot_spec G root (ast_attrs_ok G W) R0) as [Troot Hmin].
  assert (RL : getRoot L = Ret root).
  { unfold getRoot.
    rewrite (filterM_ret _ (fun _ => true)).
    2:{ intros n Hn. rewrite L_node_ids in Hn. unfold node_is_terminal.
        rewrite (L_attrs n Hn). cbn [bind].
        destruct (terminal_attrs n Hn) as [-> _]. reflexivity. }
    cbn [bind]. rewrite filter_all by reflexivity. rewrite L_node_ids.
    unfold sort_by_key. rewrite (mapM_ret _ (start_of G)).
    2:{ intros n Hn. unfold node_start. rewrite (L_attrs n Hn). cbn [bind].
        destruct (terminal_attrs n Hn) as [_ ->]. reflexivity. }
    cbn [bind]. fold (sorted_by_start G (terminals G)).
    pose proof R0 as R0'. rewrite (getRoot_ret G (ast_attrs_ok G W)) in R0'.
    rewrite py_index_0. exact R0'. }
  destruct (recon_loop (sorted_by_start G (dependents G root)) [] _ eq_refl recon_init)
    as [R [H Inv]].
  exists R. split; [|exact Inv].
  unfold from_label_dep_tree_to_ast. rewrite RL. cbn [bind]. simpl String.eqb. cbv iota.
  rewrite (L_attrs root Troot). cbn [bind].
  rewrite recon_order. cbn [bind]. exact H.
Qed.

(** *** What the rebuilt tree holds *)

Lemma added_terminals (l : list nat) :
  (forall n, In n l -> In n (terminals G)) ->
  filter (fun a => match is_terminal a with Some b => b | None => false end)
         (flat_map (added_attrs G root deps) l)
  = map (attrs_of G) l.
Proof.
  induction l as [|n l IH]; intros Hl; simpl; [reflexivity|].
  rewrite filter_app, IH by (intros; apply Hl; now right).
  unfold added_attrs. rewrite filter_app, filter_none.
  - simpl. destruct (terminal_attrs n (Hl n (or_introl eq_refl))) as [-> _]. reflexivity.
  - intros a Ha. apply in_map_iff in Ha. destruct Ha as [ty [<- _]]. reflexivity.
Qed.

Lemma added_nonterminals (l : list nat) :
  (forall n, In n l -> In n (terminals G)) ->
  map type (filter (fun a => match is_terminal a with Some b => negb b | None => true end)
                   (flat_map (added_attrs G root deps) l))
  = map (fun x => Some (type_of G x)) (flat_map (new_nodes G root deps) l).
Proof.
  induction l as [|n l IH]; intros Hl; simpl; [reflexivity|].
  rewrite filter_app, !map_app, IH by (intros; apply Hl; now right).
  f_equal. unfold added_attrs. rewrite filter_app, filter_all.
  - simpl. destruct (terminal_attrs n (Hl n (or_introl eq_refl))) as [-> _]. simpl.
    rewrite app_nil_r, !map_map. reflexivity.
  - intros a Ha. apply in_map_iff in Ha. destruct Ha as [ty [<- _]]. reflexivity.
Qed.

Lemma order_terminals (n : nat) :
  In n (sorted_by_start G (dependents G root)) -> In n (terminals G).
Proof.
  intros Hn. apply (Permutation_in _ (sorted_by_start_perm G _)) in Hn.
  apply dependents_In in Hn. apply terminals_In. tauto.
Qed.

Lemma order_perm : Permutation (root :: sorted_by_start G (dependents G root)) (terminals G).
Proof.
  destruct (getRoot_spec G root (ast_attrs_ok G W) R0) as [Troot _].
  etransitivity; [constructor; apply sorted_by_start_perm|].
  assert (E : dependents G root = filter (fun n => negb (Nat.eqb n root)) (terminals G)).
  { unfold terminals. rewrite filter_filter_and. unfold dependents.
    apply filter_ext. intros x. now rewrite Nat.eqb_sym. }
  rewrite E. apply perm_remove; [|exact Troot].
  unfold terminals. apply NoDup_filter, (at_nodup G W).
Qed.

(** The terminals of the rebuilt tree, by start, are those of [G]. *)
Lemma recon_terminals (R : Graph NodeAttrs) :
  recon_inv G root deps R (sorted_by_start G (dependents G root)) ->
  terminals_by_start (g_node R) = terminals_by_start (dg_node G).
Proof.
  intros Inv.
  destruct (getRoot_spec G root (ast_attrs_ok G W) R0) as [Troot _].
  assert (EG : filter (fun a => match is_terminal a with Some b => b | None => false end)
                      (map snd (dg_node G))
               = map (attrs_of G) (terminals G)).
  { rewrite (filter_attrs G _ (dg_node G)); [reflexivity|].
    intros n a H. apply attrs_of_In; [apply (at_nodup G W) | exact H]. }
  unfold terminals_by_start. rewrite (ri_attrs _ _ _ _ _ Inv), EG. f_equal.
  symmetry. apply stable_sort_perm_eq.
  - apply Permutation_map. simpl.
    destruct (terminal_attrs root Troot) as [-> _].
    rewrite added_terminals by apply order_terminals.
    change (Permutation (map (attrs_of G) (terminals G))
              (map (attrs_of G) (root :: sorted_by_start G (dependents G root)))).
    apply Permutation_map, Permutation_sym, order_perm.
  - rewrite !map_map. exact D.
Qed.

(** The types of the nonterminals of the rebuilt tree are those of [G],
    up to their order. *)
Lemma recon_nonterminals (R : Graph NodeAttrs) :
  recon_inv G root deps R (sorted_by_start G (dependents G root)) ->
  Permutation (nonterminal_types (g_node R)) (nonterminal_types (dg_node G)).
Proof.
  intros Inv.
  destruct (getRoot_spec G root (ast_attrs_ok G W) R0) as [Troot _].
  destruct S as [_ [S0 [S1 _]]].
  assert (EG : nonterminal_types (dg_node G)
               = map (fun x => Some (type_of G x)) (nonterminals G)).
  { unfold nonterminal_types. rewrite (filter_attrs G _ (dg_node G)).
    2:{ intros n a H. apply attrs_of_In; [apply (at_nodup G W) | exact H]. }
    rewrite map_map.
    assert (E : filter (fun n => match is_terminal (attrs_of G n) with
                                 | Some b => negb b
                                 | None => true
                                 end) (node_ids (dg_node G))
                = nonterminals G).
    { unfold nonterminals. apply filter_ext_in. intros n Hn.
      destruct (attrs_of_full G n (ast_attrs_ok G W) Hn) as [_ Hf].
      unfold terminal. unfold full_attrs in Hf.
      destruct (type (attrs_of G n)), (is_terminal (attrs_of G n)); try discriminate.
      reflexivity. }
    rewrite E. apply map_ext_in. intros n Hn.
    apply filter_In in Hn. destruct Hn as [Hn _].
    destruct (attrs_of_full G n (ast_attrs_ok G W) Hn) as [_ Hf].
    unfold type_of. unfold full_attrs in Hf.
    destruct (type (attrs_of G n)); [reflexivity | discriminate]. }
  assert (ER : nonterminal_types (g_node R)
               = map (fun x => Some (type_of G x))
                     (0 :: fd :: flat_map (new_nodes G root deps)
                                          (sorted_by_start G (dependents G root)))).
  { unfold nonterminal_types. rewrite (ri_attrs _ _ _ _ _ Inv). simpl.
    destruct (terminal_attrs root Troot) as [-> _]. simpl.
    rewrite added_nonterminals by apply order_terminals.
    now rewrite S0, S1. }
  rewrite EG, ER. apply Permutation_map.
  etransitivity;
    [|apply (new_nodes_perm G W D root R0 fd S deps deps_ok deps_targets deps_heads)].
  do 2 constructor. apply Permutation_flat_map, sorted_by_start_perm.
Qed.

End Recon.


(** ** The round trip *)

Lemma small_graph_tree : ast_tree small_graph.
Proof. apply ast_treeb_sound. vm_compute. reflexivity. Qed.

Lemma small_graph_distinct : distinct_starts small_graph.
Proof. apply distinct_startsb_sound. vm_compute. reflexivity. Qed.

Lemma nested_graph_tree : ast_tree nested_graph.
Proof. apply ast_treeb_sound. vm_compute. reflexivity. Qed.

Lemma nested_graph_distinct : distinct_starts nested_graph.
Proof. apply distinct_startsb_sound. vm_compute. reflexivity. Qed.

(** C1, as stated, fails on a tree whose leftmost terminal lies deeper than
    the function definition: [nested_graph] is a well-formed tree of three
    terminals whose root is a [module] with the one child
    [function_definition], and the round trip returns a tree that has three
    [function_definition] nodes and no [modifiers] node. *)
Lemma C1_counterexample :
  ast_tree nested_graph /\ distinct_starts nested_graph
  /\ successors nested_graph 0 = [1]
  /\ type_of nested_graph 0 = "module"
  /\ type_of nested_graph 1 = "function_definition"
  /\ length (terminals nested_graph) = 3
  /\ exists R,
       round_trip 5 nested_graph = Ret R
       /\ nonterminal_types (g_node R)
          = [Some "module"; Some "function_definition"; Some "function_definition";
             Some "function_definition"]
       /\ nonterminal_types (dg_node nested_graph)
          = [Some "module"; Some "function_definition"; Some "modifiers"]
       /\ ~ Permutation (nonterminal_types (g_node R))
                        (nonterminal_types (dg_node nested_graph)).
Proof.
  split; [exact nested_graph_tree|]. split; [exact nested_graph_distinct|].
  do 4 (split; [reflexivity|]).
  eexists. split; [vm_compute; reflexivity|].
  split; [reflexivity|]. split; [reflexivity|].
  intros P. apply Permutation_length in P. vm_compute in P. discriminate.
Qed.

(** C1 (amended). Round trip: for every well-formed constituency tree with
    pairwise distinct terminal starts that holds the scaffold of the
    reconstruction, that is, whose root is a [module] node with the one child
    [function_definition] and whose leftmost terminal is a child of that
    function definition, the pipeline returns: [from_label_dep_tree_to_ast],
    applied to the output of [labelDepTree] on the dependency tree of the
    constituency tree, yields a tree whose terminals, ordered by [start],
    are the terminals of the original tree in that order, and whose
    nonterminal type names are, as a multiset, those of the original tree.
    This holds for any number of terminals. *)
Theorem C1_round_trip (G : DiGraph) (root fd : nat) :
  ast_tree G -> distinct_starts G -> getRoot G = Ret root -> scaffold G root fd ->
  exists R,
    (forall fuel, max_id G <= fuel -> round_trip fuel G = Ret R)
    /\ terminals_by_start (g_node R) = terminals_by_start (dg_node G)
    /\ Permutation (nonterminal_types (g_node R)) (nonterminal_types (dg_node G)).
Proof.
  intros W D R0 S.
  destruct (pipeline_deps G root W D R0) as [E [T [deps [HE [HT [H1 [H2 [H3 dt]]]]]]]].
  destruct (labelDepTree_spec G W root R0 deps H1 H2 T dt) as [L [L1 [L2 [L3 L4]]]].
  destruct (from_label_dep_tree_to_ast_ret G W D root R0 deps H1 H2 T dt L L2 L3 L4)
    as [R [HR Inv]].
  exists R. split; [|split].
  - intros fuel Hf. unfold round_trip, labelled_tree.
    rewrite (HE fuel Hf). cbn [bind]. rewrite HT. cbn [bind]. rewrite L1. cbn [bind].
    exact HR.
  - exact (recon_terminals G W D root R0 deps R Inv).
  - exact (recon_nonterminals G W D root R0 fd S deps H1 H2 H3 R Inv).
Qed.

Lemma C1_witness :
  exists R,
    (forall fuel, max_id small_graph <= fuel -> round_trip fuel small_graph = Ret R)
    /\ terminals_by_start (g_node R) = terminals_by_start (dg_node small_graph)
    /\ Permutation (nonterminal_types (g_node R))
                   (nonterminal_types (dg_node small_graph)).
Proof.
  apply (C1_round_trip small_graph 2 1).
  - exact small_graph_tree.
  - exact small_graph_distinct.
  - reflexivity.
  - unfold scaffold. vm_compute. repeat split; reflexivity.
Defined.


(** ** The tree builder *)

(** Induction on a parser tree, the children being covered. *)
Lemma TSNode_forall_ind (P : TSNode -> Prop) :
  (forall ty s e cs, Forall P cs -> P (TS ty s e cs)) -> forall t, P t.
Proof.
  intros H. fix IH 1. intros [ty s e cs]. apply H.
  induction cs as [|c cs IHcs]; constructor; [apply IH | exact IHcs].
Qed.

Lemma getGraphFromTree_nil (ty : string) (s e : Z) (G : DiGraph) (f : nat) :
  getGraphFromTree (TS ty s e []) G f = G.
Proof. reflexivity. Qed.

Lemma getGraphFromTree_cons (ty : string) (s e : Z) (c : TSNode) (cs : list TSNode)
  (G : DiGraph) (f : nat) :
  getGraphFromTree (TS ty s e (c :: cs)) G f
  = getGraphFromTree (TS ty s e cs)
      (getGraphFromTree c
         (dg_add_edge (dg_add_node G (getId (dg_node G)) (child_attrs c))
                      f (getId (dg_node G)) no_data)
         (getId (dg_node G)))
      f.
Proof. reflexivity. Qed.

Lemma fold_max_seq (k : nat) : fold_right Nat.max 0 (seq 0 (S k)) = k.
Proof.
  assert (H : forall n a, fold_right Nat.max 0 (seq a (S n)) = a + n).
  { induction n as [|n IH]; intros a.
    - simpl. lia.
    - change (seq a (S (S n))) with (a :: seq (S a) (S n)).
      cbn [fold_right]. rewrite IH. lia. }
  apply (H k 0).
Qed.

Lemma getId_seq {A : Type} (l : list (nat * A)) (k : nat) :
  0 < k -> node_ids l = seq 0 k -> getId l = k.
Proof.
  intros Hk H. unfold getId.
  assert (Hl : length l = k).
  { rewrite <- (length_map fst). fold (node_ids l). now rewrite H, length_seq. }
  rewrite Hl. destruct k as [|k]; [lia|].
  cbn [Nat.eqb]. rewrite H, fold_max_seq. lia.
Qed.

Lemma update_node_fresh (n : nat) (a : NodeAttrs) (l : list (nat * NodeAttrs)) :
  ~ In n (node_ids l) -> update_node n a l = l ++ [(n, a)].
Proof.
  induction l as [|[m b] l IH]; simpl; intros H; [reflexivity|].
  destruct (Nat.eqb_spec n m) as [->|Hne]; [tauto|].
  rewrite IH by tauto. reflexivity.
Qed.

Lemma node_ids_app {A : Type} (l1 l2 : list (nat * A)) :
  node_ids (l1 ++ l2) = node_ids l1 ++ node_ids l2.
Proof. apply map_app. Qed.

Lemma node_ids_combine {A : Type} (ids : list nat) (l : list A) :
  length ids = length l -> node_ids (combine ids l) = ids.
Proof.
  revert l. induction ids as [|i ids IH]; intros [|a l] H; simpl in *; try lia; auto.
  f_equal. apply IH. lia.
Qed.

Lemma combine_app_eq {A B : Type} (l1 l1' : list A) (l2 l2' : list B) :
  length l1 = length l2 -> combine (l1 ++ l1') (l2 ++ l2') = combine l1 l2 ++ combine l1' l2'.
Proof.
  revert l2. induction l1 as [|a l1 IH]; intros [|b l2] H; simpl in *; try lia; auto.
  f_equal. apply IH. lia.
Qed.

Lemma existsb_false_iff {A : Type} (f : A -> bool) (l : list A) :
  existsb f l = false <-> forall x, In x l -> f x = false.
Proof.
  split.
  - intros H x Hx. destruct (f x) eqn:E; auto.
    assert (existsb f l = true) by (apply existsb_exists; eauto). congruence.
  - intros H. destruct (existsb f l) eqn:E; auto.
    apply existsb_exists in E. destruct E as [x [Hx Fx]]. rewrite (H x Hx) in Fx.
    discriminate.
Qed.

(** The graph after one child: its node is new, and so is its edge. *)
Lemma add_child (G : DiGraph) (k f : nat) (a : NodeAttrs) :
  0 < k -> node_ids (dg_node G) = seq 0 k -> f < k ->
  (forall e, In e (dg_edge G) -> edge_target e < k) ->
  getId (dg_node G) = k
  /\ dg_add_edge (dg_add_node G k a) f k no_data
     = mkDiGraph (dg_node G ++ [(k, a)]) (dg_edge G ++ [(f, k, no_data)]).
Proof.
  intros Hk Hids Hf Het. split; [now apply getId_seq|].
  assert (Hfresh : ~ In k (node_ids (dg_node G))).
  { rewrite Hids, in_seq. lia. }
  unfold dg_add_edge, dg_add_node. cbn [dg_node dg_edge].
  rewrite (update_node_fresh k a _ Hfresh).
  assert (Hfin : In f (node_ids (dg_node G ++ [(k, a)]))).
  { rewrite node_ids_app. apply in_or_app. left. rewrite Hids, in_seq. lia. }
  assert (Hkin : In k (node_ids (dg_node G ++ [(k, a)]))).
  { rewrite node_ids_app. apply in_or_app. right. now left. }
  rewrite (update_node_present f _ Hfin), (update_node_present k _ Hkin).
  rewrite update_edge_absent; [reflexivity|].
  intros d' Hin. specialize (Het _ Hin). unfold edge_target in Het. simpl in Het. lia.
Qed.

Lemma preorder_eq (c : TSNode) : preorder c = c :: flat_map preorder (children c).
Proof. destruct c. reflexivity. Qed.

Lemma built_below_nil (G : DiGraph) (k f : nat) : built_below G k f [] G.
Proof.
  unfold built_below. simpl. split; [now rewrite app_nil_r|].
  exists []. rewrite app_nil_r.
  split; [reflexivity | split; [reflexivity | split; [intros e0 [] | split]]].
  - intros Hne. now destruct Hne.
  - intros [|i] c Hi; discriminate.
Qed.

(** The nodes and edges of a child and of its subtree, then those of its
    younger siblings. *)
Lemma built_below_cons (G : DiGraph) (k f : nat) (c : TSNode) (cs : list TSNode)
  (G3 G' : DiGraph) :
  f < k ->
  built_below (mkDiGraph (dg_node G ++ [(k, child_attrs c)])
                         (dg_edge G ++ [(f, k, no_data)]))
              (S k) k (children c) G3 ->
  built_below G3 (S k + length (flat_map preorder (children c))) f cs G' ->
  built_below G k f (c :: cs) G'.
Proof.
  intros Hf [N1 [es1 [E1 [T1 [S1 [F1 L1]]]]]] [N2 [es2 [E2 [T2 [S2 [F2 L2]]]]]].
  cbn [dg_node dg_edge] in N1, E1.
  set (new1 := flat_map preorder (children c)) in *.
  set (new2 := flat_map preorder cs) in *.
  assert (Hnew : flat_map preorder (c :: cs) = c :: new1 ++ new2).
  { cbn [flat_map]. now rewrite preorder_eq. }
  unfold built_below. rewrite Hnew. cbn [length map]. rewrite length_app, map_app.
  assert (Hsrc1 : forall e, In e es1 -> k <= edge_source e < S k + length new1).
  { intros e He. destruct (S1 e He) as [A [B _]].
    assert (In (edge_target e) (seq (S k) (length new1)))
      by (rewrite <- T1; now apply in_map).
    apply in_seq in H. lia. }
  assert (Hsrc2 : forall e, In e es2 ->
                            edge_source e = f \/ S k + length new1 <= edge_source e).
  { intros e He. apply (S2 e He). }
  split.
  - rewrite N2, N1, <- !app_assoc. f_equal.
    cbn [seq combine app]. f_equal.
    rewrite seq_app, combine_app_eq by now rewrite length_seq, length_map.
    reflexivity.
  - exists ((f, k, no_data) :: es1 ++ es2).
    split; [rewrite E2, E1, <- !app_assoc; reflexivity|].
    split.
    { cbn [map seq]. unfold edge_target at 1. cbn [fst snd].
      rewrite map_app, T1, T2, seq_app. reflexivity. }
    split.
    { intros e [<-|He].
      - unfold edge_source, edge_target. cbn [fst snd]. auto.
      - apply in_app_or in He. destruct He as [He|He].
        + destruct (S1 e He) as [_ [B C]]. specialize (Hsrc1 e He).
          split; [right; lia | auto].
        + destruct (S2 e He) as [A [B C]].
          split; [destruct A; [now left | right; lia] | auto]. }
    split.
    { intros _. exists (f, k, no_data). split; [now left | reflexivity]. }
    intros i c' Hi.
    assert (Hhead : forall j, (f =? k + j) = false)
      by (intros j; apply Nat.eqb_neq; lia).
    cbn [existsb]. unfold edge_source at 1. cbn [fst]. rewrite Hhead, orb_false_l.
    rewrite existsb_app.
    destruct i as [|j].
    + cbn [nth_error] in Hi. inversion Hi; subst c'.
      rewrite Nat.add_0_r.
      rewrite (proj2 (existsb_false_iff _ es2)), orb_false_r.
      2:{ intros e He. apply Nat.eqb_neq. destruct (Hsrc2 e He); lia. }
      destruct (children c) as [|c0 cs0] eqn:Ec.
      * unfold new1 in T1. simpl in T1. apply map_eq_nil in T1. subst es1. reflexivity.
      * destruct F1 as [e [He Hs]]; [discriminate|].
        assert (Hex : existsb (fun e0 => edge_source e0 =? k) es1 = true).
        { apply existsb_exists. exists e. split; [exact He|]. now apply Nat.eqb_eq. }
        rewrite Hex. reflexivity.
    + cbn [nth_error] in Hi.
      destruct (Nat.lt_ge_cases j (length new1)) as [Hj|Hj].
      * rewrite nth_error_app1 in Hi by exact Hj.
        rewrite (L1 j c' Hi).
        rewrite (proj2 (existsb_false_iff _ es2)), orb_false_r.
        2:{ intros e He. apply Nat.eqb_neq. destruct (Hsrc2 e He); lia. }
        replace (k + S j) with (S k + j) by lia. reflexivity.
      * rewrite nth_error_app2 in Hi by exact Hj.
        rewrite (L2 (j - length new1) c' Hi).
        rewrite (proj2 (existsb_false_iff _ es1)), orb_false_l.
        2:{ intros e He. apply Nat.eqb_neq. specialize (Hsrc1 e He). lia. }
        replace (S k + length new1 + (j - length new1)) with (k + S j) by lia.
        reflexivity.
Qed.

Lemma built_below_ids (G : DiGraph) (k f : nat) (cs : list TSNode) (G' : DiGraph) :
  node_ids (dg_node G) = seq 0 k ->
  (forall e, In e (dg_edge G) -> edge_target e < k) ->
  built_below G k f cs G' ->
  node_ids (dg_node G') = seq 0 (k + length (flat_map preorder cs))
  /\ forall e, In e (dg_edge G') -> edge_target e < k + length (flat_map preorder cs).
Proof.
  intros Hids Het [N [es [E [T [S _]]]]]. split.
  - rewrite N, node_ids_app, Hids, node_ids_combine by now rewrite length_seq, length_map.
    now rewrite seq_app.
  - intros e He. rewrite E in He. apply in_app_or in He. destruct He as [He|He].
    + specialize (Het e He). lia.
    + assert (In (edge_target e) (seq k (length (flat_map preorder cs))))
        by (rewrite <- T; now apply in_map).
      apply in_seq in H. lia.
Qed.

(** [getGraphFromTree] numbers the nodes below [father] in preorder. *)
Lemma getGraphFromTree_built (t : TSNode) : forall G k f,
  0 < k -> node_ids (dg_node G) = seq 0 k -> f < k ->
  (forall e, In e (dg_edge G) -> edge_target e < k) ->
  built_below G k f (children t) (getGraphFromTree t G f).
Proof.
  induction t as [ty s e cs IH] using TSNode_forall_ind.
  cbn [children]. induction IH as [|c cs Hc _ IHcs]; intros G k f Hk Hids Hf Het.
  - rewrite getGraphFromTree_nil. apply built_below_nil.
  - rewrite getGraphFromTree_cons.
    destruct (add_child G k f (child_attrs c) Hk Hids Hf Het) as [Hid Hadd].
    rewrite Hid, Hadd.
    set (G2 := mkDiGraph (dg_node G ++ [(k, child_attrs c)])
                         (dg_edge G ++ [(f, k, no_data)])).
    assert (Hids2 : node_ids (dg_node G2) = seq 0 (S k)).
    { unfold G2. cbn [dg_node]. rewrite node_ids_app, Hids, seq_S. reflexivity. }
    assert (Het2 : forall e0, In e0 (dg_edge G2) -> edge_target e0 < S k).
    { unfold G2. cbn [dg_edge]. intros e0 He. apply in_app_or in He.
      destruct He as [He|[<-|[]]]; [specialize (Het e0 He); lia|].
      unfold edge_target. simpl. lia. }
    pose proof (Hc G2 (S k) k (Nat.lt_0_succ k) Hids2 (Nat.lt_succ_diag_r k) Het2) as B1.
    destruct (built_below_ids G2 (S k) k (children c) _ Hids2 Het2 B1) as [Hids3 Het3].
    eapply built_below_cons; [exact Hf | exact B1 |].
    apply IHcs; [lia | exact Hids3 | lia | exact Het3].
Qed.

Lemma ast_graph_built (t : TSNode) :
  built_below (mkDiGraph [(0, root_attrs t)] []) 1 0 (children t) (ast_graph t).
Proof.
  apply (getGraphFromTree_built t (mkDiGraph [(0, root_attrs t)] []) 1 0).
  - lia.
  - reflexivity.
  - lia.
  - intros e [].
Qed.

Lemma lookup_combine_seq {A : Type} (l : list A) : forall k i x,
  nth_error l i = Some x -> lookup (k + i) (combine (seq k (length l)) l) = Some x.
Proof.
  induction l as [|a l IH]; intros k [|i] x H; try discriminate.
  - simpl in *. rewrite Nat.add_0_r, Nat.eqb_refl. exact H.
  - cbn [length seq combine lookup nth_error] in *.
    destruct (Nat.eqb_spec (k + S i) k); [lia|].
    replace (k + S i) with (S k + i) by lia. now apply IH.
Qed.

Lemma no_successors (G : DiGraph) (u : nat) :
  (length (successors G u) =? 0)
  = negb (existsb (fun e => Nat.eqb (edge_source e) u) (dg_edge G)).
Proof.
  unfold successors. rewrite length_map. unfold edge_source.
  induction (dg_edge G) as [|e l IH]; simpl; [reflexivity|].
  destruct (fst (fst e) =? u); simpl; [reflexivity | exact IH].
Qed.

Lemma preorder_length (t : TSNode) :
  length (preorder t) = S (length (flat_map preorder (children t))).
Proof. now rewrite preorder_eq. Qed.

(** The invariant of the builder, put together for the whole graph. *)
Lemma built_graph_is_tree (t : TSNode) : ast_tree (ast_graph t).
Proof.
  destruct (ast_graph_built t) as [N [es [E [T [Src [F L]]]]]].
  cbn [dg_node dg_edge app] in N, E.
  set (new := flat_map preorder (children t)) in *.
  assert (Hids : node_ids (dg_node (ast_graph t)) = seq 0 (S (length new))).
  { rewrite N. cbn [node_ids map fst seq]. f_equal.
    apply node_ids_combine. now rewrite length_seq, length_map. }
  assert (Htgt : forall e, In e es -> 1 <= edge_target e < S (length new)).
  { intros e He. assert (H : In (edge_target e) (seq 1 (length new)))
      by (rewrite <- T; now apply in_map).
    apply in_seq in H. lia. }
  constructor.
  - rewrite Hids. apply seq_NoDup.
  - unfold is_node. rewrite Hids. apply in_seq. lia.
  - intros e He. rewrite E in He. destruct (Src e He) as [A [B C]].
    specialize (Htgt e He). unfold is_node. rewrite Hids, !in_seq.
    repeat split; try lia. exact C.
  - rewrite E, T. apply seq_NoDup.
  - intros n Hn Hn0. unfold is_node in Hn. rewrite Hids in Hn. apply in_seq in Hn.
    rewrite E, T. apply in_seq. lia.
  - intros [n a] Hin. rewrite N in Hin. destruct Hin as [Hin|Hin].
    + inversion Hin. reflexivity.
    + apply in_combine_r in Hin. apply in_map_iff in Hin.
      destruct Hin as [c [<- _]]. reflexivity.
  - intros n Hn. unfold is_node in Hn. rewrite Hids in Hn. apply in_seq in Hn.
    rewrite no_successors, E. unfold terminal, attrs_of. rewrite N.
    destruct n as [|i].
    + reflexivity.
    + cbn [lookup Nat.eqb negb andb].
      destruct (nth_error new i) as [c|] eqn:Ec.
      2:{ apply nth_error_None in Ec. lia. }
      assert (Hl : nth_error (map child_attrs new) i = Some (child_attrs c))
        by now rewrite nth_error_map, Ec.
      apply (lookup_combine_seq _ 1) in Hl. rewrite length_map in Hl.
      change (1 + i) with (S i) in Hl. rewrite Hl.
      cbn [child_attrs is_terminal]. apply (L i c Ec).
Qed.


(** ** What the tree builder guarantees *)

(** X1. The graph [code2ast] builds from any parser tree is a constituency tree
    in the sense of [ast_tree]: unique ids, root 0, one parent of smaller id
    for every other node, all four attributes on every node, and
    [is_terminal] exactly on the childless nodes below the root. *)
Theorem ast_graph_tree (t : TSNode) : ast_tree (ast_graph t).
Proof. exact (built_graph_is_tree t). Qed.

(** X2. The ids of the graph are 0, 1, ... in preorder of the parser tree, the
    node [i] carrying the attributes of the [i]-th node of the tree; every
    node but the root is the target of exactly one edge, the edges being in
    the order of their targets. *)
Theorem ast_graph_preorder (t : TSNode) :
  dg_node (ast_graph t)
  = combine (seq 0 (length (preorder t)))
            (root_attrs t :: map child_attrs (flat_map preorder (children t)))
  /\ map edge_target (dg_edge (ast_graph t)) = seq 1 (length (preorder t) - 1).
Proof.
  destruct (ast_graph_built t) as [N [es [E [T _]]]].
  cbn [dg_node dg_edge app] in N, E.
  rewrite preorder_length. split.
  - rewrite N. reflexivity.
  - rewrite E, T. f_equal. lia.
Qed.

(** X3. Whenever [code2ast] returns a graph, the language is python or
    javascript, the code it returns is the text the comment stripper of that
    language made, the graph is that of the tree the parser made of this
    text, and it is a constituency tree in the sense of [ast_tree]. *)
Theorem code2ast_returns_tree
  (remove_py remove_js : string -> outcome string)
  (code : string) (parse : string -> outcome TSNode) (lang : string)
  (G : DiGraph) (code' : string) :
  code2ast remove_py remove_js code parse lang = Ret (Some (G, code')) ->
  ast_tree G
  /\ (exists tree, parse code' = Ret tree /\ G = ast_graph tree)
  /\ ((lang = "python" /\ remove_py code = Ret code')
      \/ (lang = "javascript" /\ remove_js code = Ret code')).
Proof.
  unfold code2ast. intros H.
  destruct (String.eqb_spec lang "python") as [Hp|Hp].
  - destruct (remove_py code) as [c| |] eqn:Ec; try discriminate.
    cbn [bind] in H. destruct (parse c) as [tree| |] eqn:Et; try discriminate.
    cbn [bind] in H. inversion H; subst.
    split; [apply built_graph_is_tree|]. split; [exists tree; auto | left; auto].
  - destruct (String.eqb_spec lang "javascript") as [Hj|Hj]; [|discriminate].
    destruct (remove_js code) as [c| |] eqn:Ec; try discriminate.
    cbn [bind] in H. destruct (parse c) as [tree| |] eqn:Et; try discriminate.
    cbn [bind] in H. inversion H; subst.
    split; [apply built_graph_is_tree|]. split; [exists tree; auto | right; auto].
Qed.

Lemma code2ast_returns_tree_witness :
  ast_tree small_graph
  /\ (exists tree, Ret small_tree = Ret tree /\ small_graph = ast_graph tree)
  /\ (("javascript" = "python" /\ Raise KeyError = Ret "def f(): pass")
      \/ ("javascript" = "javascript" /\ Ret "def f(): pass" = Ret "def f(): pass")).
Proof.
  apply (code2ast_returns_tree (fun _ => Raise KeyError) (fun s => Ret s)
           "def f(): pass" (fun _ => Ret small_tree) "javascript"
           small_graph "def f(): pass").
  reflexivity.
Defined.


(** ** Ids, roots and candidates *)

(** X4. [getId] is 0 on the empty graph and exceeds every id otherwise: the id
    it returns is never one of the graph. *)
Theorem getId_unused {A : Type} (nodes : list (nat * A)) :
  getId (@nil (nat * A)) = 0
  /\ Forall (fun n => n < getId nodes) (node_ids nodes)
  /\ ~ In (getId nodes) (node_ids nodes).
Proof.
  split; [reflexivity|].
  assert (H : forall n, In n (node_ids nodes) -> n < getId nodes)
    by (intros n; apply getId_fresh).
  split; [now apply Forall_forall|].
  intros Hin. specialize (H _ Hin). lia.
Qed.

(** The first entry of a stable sort: the first of the entries of least
    key. *)
Lemma stable_sort_hd {A : Type} (l : list (A * Z)) : forall y s,
  stable_sort l = y :: s ->
  exists l1 l2, l = l1 ++ y :: l2
                /\ (forall z, In z l1 -> (snd y < snd z)%Z)
                /\ (forall z, In z l2 -> (snd y <= snd z)%Z).
Proof.
  induction l as [|x l IH]; intros y s E; [discriminate|].
  cbn [stable_sort fold_right] in E. fold (stable_sort l) in E.
  destruct (stable_sort l) as [|y' s'] eqn:Es.
  - assert (l = []).
    { pose proof (stable_sort_perm l) as P. rewrite Es in P.
      now apply Permutation_nil in P. }
    subst l. simpl in E. inversion E; subst.
    exists [], []. split; [reflexivity|]. split; intros z [].
  - destruct (IH y' s' eq_refl) as [l1 [l2 [El [H1 H2]]]].
    cbn [insert_by_key] in E.
    destruct (snd x <=? snd y')%Z eqn:Ec.
    + apply Z.leb_le in Ec. inversion E; subst y s.
      exists [], l. split; [reflexivity|]. split; [intros z []|].
      intros z Hz. rewrite El in Hz. apply in_app_or in Hz.
      destruct Hz as [Hz|[<-|Hz]]; [specialize (H1 z Hz); lia | lia |].
      specialize (H2 z Hz). lia.
    + apply Z.leb_gt in Ec. inversion E; subst y s.
      exists (x :: l1), l2. split; [now rewrite El|]. split; [|exact H2].
      intros z [<-|Hz]; [lia | now apply H1].
Qed.

Lemma combine_split_map {A B : Type} (f : A -> B) (l : list A) : forall c1 x k c2,
  combine l (map f l) = c1 ++ (x, k) :: c2 ->
  l = map fst c1 ++ x :: map fst c2
  /\ k = f x
  /\ (forall z, In z c1 -> snd z = f (fst z))
  /\ (forall z, In z c2 -> snd z = f (fst z)).
Proof.
  intros c1 x k c2 E.
  assert (Hall : forall z, In z (combine l (map f l)) -> snd z = f (fst z)).
  { clear. induction l as [|a l IH]; simpl; [intros z []|].
    intros z [<-|Hz]; [reflexivity | now apply IH]. }
  split; [|split; [|split]].
  - rewrite <- (combine_map_fst f l) at 1. rewrite E, map_app. reflexivity.
  - apply (Hall (x, k)). rewrite E. apply in_elt.
  - intros z Hz. apply Hall. rewrite E. apply in_or_app. now left.
  - intros z Hz. apply Hall. rewrite E. apply in_or_app. right. now right.
Qed.

(** X5. [getRoot] raises [IndexError] on a graph without terminals; otherwise
    it returns the terminal of least start, the first of them in node order
    when several start there. *)
Theorem getRoot_leftmost (G : DiGraph) :
  attrs_ok G ->
  (terminals G = [] /\ getRoot G = Raise IndexError)
  \/ exists r before after,
       getRoot G = Ret r
       /\ terminals G = before ++ r :: after
       /\ (forall t, In t before -> (start_of G r < start_of G t)%Z)
       /\ (forall t, In t after -> (start_of G r <= start_of G t)%Z).
Proof.
  intros Hok. rewrite (getRoot_ret G Hok). unfold sorted_by_start.
  destruct (stable_sort (combine (terminals G) (map (start_of G) (terminals G))))
    as [|[r k] s] eqn:Es.
  - left. split; [|reflexivity].
    pose proof (stable_sort_perm (combine (terminals G) (map (start_of G) (terminals G))))
      as P.
    rewrite Es in P. apply Permutation_nil in P.
    apply (f_equal (map fst)) in P. now rewrite combine_map_fst in P.
  - right. destruct (stable_sort_hd _ _ _ Es) as [c1 [c2 [Ec [H1 H2]]]].
    destruct (combine_split_map _ _ _ _ _ _ Ec) as [El [Ek [K1 K2]]].
    exists r, (map fst c1), (map fst c2). cbn [map fst].
    split; [reflexivity|]. split; [exact El|]. simpl in H1, H2. subst k.
    split; intros t Ht; apply in_map_iff in Ht; destruct Ht as [z [<- Hz]].
    + rewrite <- (K1 z Hz). now apply H1.
    + rewrite <- (K2 z Hz). now apply H2.
Qed.

Lemma getRoot_leftmost_witness :
  (terminals example_graph = [] /\ getRoot example_graph = Raise IndexError)
  \/ exists r before after,
       getRoot example_graph = Ret r
       /\ terminals example_graph = before ++ r :: after
       /\ (forall t, In t before -> (start_of example_graph r < start_of example_graph t)%Z)
       /\ (forall t, In t after -> (start_of example_graph r <= start_of example_graph t)%Z).
Proof.
  apply (getRoot_leftmost example_graph).
  intros na Hna. vm_compute in Hna.
  repeat (destruct Hna as [<-|Hna]; [reflexivity|]). contradiction.
Defined.

(** X6. [getCandidate] on a node [level] of the graph returns the terminal of
    least start among the terminals that can be reached from [level] and
    start before [s], and [None] when there is none; when [level] is not a
    node it raises [NodeNotFound]. *)
Theorem getCandidate_least (G : DiGraph) (level : nat) (s : Z) :
  attrs_ok G -> edges_ok G ->
  (is_node G level ->
   (exists c, getCandidate G level s = Ret (Some c) /\ candidate_at G level s c)
   \/ (getCandidate G level s = Ret None /\ no_candidate_at G level s))
  /\ (~ is_node G level -> getCandidate G level s = Raise NodeNotFound).
Proof.
  intros Hok He. split.
  - intros Hl. destruct (getCandidate_spec G level s Hok He Hl) as [[c|] [H1 H2]].
    + left. exists c. auto.
    + right. auto.
  - intros Hl. unfold getCandidate, single_source_shortest_path_length_keys.
    destruct (dg_has_node G level) eqn:E; [|reflexivity].
    apply dg_has_node_true in E. contradiction.
Qed.

Lemma getCandidate_least_witness :
  (is_node example_graph 4 ->
   (exists c, getCandidate example_graph 4 9 = Ret (Some c)
              /\ candidate_at example_graph 4 9 c)
   \/ (getCandidate example_graph 4 9 = Ret None /\ no_candidate_at example_graph 4 9))
  /\ (~ is_node example_graph 4 -> getCandidate example_graph 4 9 = Raise NodeNotFound).
Proof.
  apply (getCandidate_least example_graph 4 9).
  - apply ast_attrs_ok, example_graph_tree.
  - apply ast_edges_ok, example_graph_tree.
Defined.

(** ** Heads are unique, and survive the dependency edges *)

Section HeadUnique.

Variable G : DiGraph.
Hypothesis W : ast_tree G.
Hypothesis D : distinct_starts G.

Lemma head_of_nearer (n h1 h2 : nat) (anc1 anc2 : list nat) (P1 P2 : nat) :
  ancestors_from G n (anc1 ++ [P1]) -> candidate_at G P1 (start_of G n) h1 ->
  ancestors_from G n (anc2 ++ [P2]) -> candidate_at G P2 (start_of G n) h2 ->
  (forall f, In f anc2 -> no_candidate_at G f (start_of G n)) ->
  length anc1 <= length anc2 ->
  anc1 = anc2 /\ P1 = P2.
Proof.
  intros A1 C1 A2 C2 N2 Hlen.
  destruct (ancestors_prefix G (anc1 ++ [P1]) n (anc2 ++ [P2]) A1 A2) as [l3 E].
  { rewrite !length_app. simpl. lia. }
  destruct l3 as [|x l3] using rev_ind.
  - rewrite app_nil_r in E. apply app_inj_tail in E. destruct E. auto.
  - exfalso. rewrite app_assoc in E. apply app_inj_tail in E. destruct E as [E _].
    destruct C1 as [R1 [T1 [S1 _]]].
    assert (Hin : In P1 anc2).
    { rewrite E. apply in_or_app. left. apply in_or_app. right. now left. }
    exact (N2 P1 Hin h1 R1 T1 S1).
Qed.

Lemma head_of_unique (n h1 h2 : nat) : head_of G n h1 -> head_of G n h2 -> h1 = h2.
Proof.
  intros H1 H2.
  destruct (head_of_facts G n h1 W H1) as [I1 [T1 _]].
  destruct (head_of_facts G n h2 W H2) as [I2 [T2 _]].
  destruct H1 as [anc1 [P1 [A1 [C1 N1]]]]. destruct H2 as [anc2 [P2 [A2 [C2 N2]]]].
  assert (EP : P1 = P2).
  { destruct (Nat.le_ge_cases (length anc1) (length anc2)) as [Hle|Hle].
    - now destruct (head_of_nearer n h1 h2 anc1 anc2 P1 P2 A1 C1 A2 C2 N2 Hle).
    - now destruct (head_of_nearer n h2 h1 anc2 anc1 P2 P1 A2 C2 A1 C1 N1 Hle). }
  subst P2.
  destruct C1 as [R1 [_ [S1 M1]]]. destruct C2 as [R2 [_ [S2 M2]]].
  pose proof (M1 h2 R2 T2 S2). pose proof (M2 h1 R1 T1 S1).
  apply (NoDup_map_inj (start_of G) (terminals G)); auto.
  - apply terminals_In. auto.
  - apply terminals_In. auto.
  - lia.
Qed.

End HeadUnique.

(** X7. The dependency edges [enrichAstWithDeps] has already added do not change
    the head [selectHead] returns: on the tree with any dependency edges
    added, each from a terminal to a terminal that starts later, the head
    of a terminal is the one selected on the tree without them. *)
Theorem selectHead_after_enrichment (G : DiGraph) (deps : list (nat * nat * EdgeData))
  (G' : DiGraph) (root n : nat) :
  ast_tree G -> distinct_starts G -> getRoot G = Ret root ->
  enriched_by G deps G' -> In n (terminals G) -> n <> root ->
  exists h,
    head_of G n h
    /\ forall fuel, n <= fuel ->
         selectHead fuel G' n = Ret h /\ selectHead fuel G n = Ret h.
Proof.
  intros W D R E Hn Hne.
  pose proof (ast_attrs_ok G W) as Hok.
  destruct (getRoot_spec G root Hok R) as [Hroot _].
  pose proof (root_starts_first G root n Hok D R Hn Hne) as Hlt.
  apply terminals_In in Hroot, Hn. destruct Hroot as [R1 R2], Hn as [N1 N2].
  destruct (ast_terminal_leaf G W n N1 N2) as [_ Hn0].
  destruct (selectHead_enriched G W deps G' E n root N1 Hn0 R1 R2 Hlt) as [h [Hh Hrun]].
  destruct (selectHead_enriched G W [] G (enriched_by_nil G) n root N1 Hn0 R1 R2 Hlt)
    as [h0 [Hh0 Hrun0]].
  assert (h0 = h) by (eapply head_of_unique; eauto). subst h0.
  exists h. split; [exact Hh|]. intros fuel Hf. split; auto.
Qed.

Lemma selectHead_after_enrichment_witness :
  exists h,
    head_of example_graph 5 h
    /\ forall fuel, 5 <= fuel ->
         selectHead fuel
           (mkDiGraph (dg_node example_graph)
                      (dg_edge example_graph ++ [(2, 3, dependency)])) 5 = Ret h
         /\ selectHead fuel example_graph 5 = Ret h.
Proof.
  apply (selectHead_after_enrichment example_graph [(2, 3, dependency)] _ 2 5).
  - exact example_graph_tree.
  - exact example_graph_distinct.
  - reflexivity.
  - split; [reflexivity | split; [reflexivity|]].
    constructor; [|constructor]. vm_compute. repeat split; auto 20.
  - vm_compute. auto 20.
  - lia.
Defined.


(** ** The dependency projector, once more *)

(** On the plain tree, [selectHead] returns the head. *)
Lemma selectHead_plain (G : DiGraph) (root n h : nat) :
  ast_tree G -> distinct_starts G -> getRoot G = Ret root ->
  In n (terminals G) -> n <> root -> head_of G n h ->
  forall fuel, n <= fuel -> selectHead fuel G n = Ret h.
Proof.
  intros W D R Hn Hne Hh.
  pose proof (ast_attrs_ok G W) as Hok.
  destruct (getRoot_spec G root Hok R) as [Hroot _].
  pose proof (root_starts_first G root n Hok D R Hn Hne) as Hlt.
  apply terminals_In in Hroot, Hn. destruct Hroot as [R1 R2], Hn as [N1 N2].
  destruct (ast_terminal_leaf G W n N1 N2) as [_ Hn0].
  destruct (selectHead_enriched G W [] G (enriched_by_nil G) n root N1 Hn0 R1 R2 Hlt)
    as [h0 [Hh0 Hrun0]].
  assert (h0 = h) by (eapply head_of_unique; eauto). now subst h0.
Qed.

(** X8. [enrichAstWithDeps] leaves the nodes and the edges of the tree as they
    are and appends, for every terminal but the root and in node order, one
    edge labelled ['dependency'] into it, from the head [selectHead] returns
    on the tree as it was before the first edge was added. *)
Theorem enrichAstWithDeps_adds_heads (G : DiGraph) (root : nat) :
  ast_tree G -> distinct_starts G -> getRoot G = Ret root ->
  exists E deps,
    (forall fuel, max_id G <= fuel -> enrichAstWithDeps fuel G = Ret E)
    /\ dg_node E = dg_node G
    /\ dg_edge E = dg_edge G ++ deps
    /\ map edge_target deps = dependents G root
    /\ forall h n d, In (h, n, d) deps ->
         d = dependency /\ head_of G n h
         /\ forall fuel, n <= fuel -> selectHead fuel G n = Ret h.
Proof.
  intros W D R.
  destruct (enrichAstWithDeps_spec G root W D R) as [E [deps [H1 [[N [Ed Hok]] [H3 H4]]]]].
  exists E, deps. split; [exact H1|]. split; [exact N|]. split; [exact Ed|].
  split; [exact H3|]. intros h n d Hd.
  rewrite Forall_forall in Hok, H4.
  destruct (Hok _ Hd) as [_ [_ [_ [_ [_ Hlab]]]]]. specialize (H4 _ Hd).
  unfold head_edge, edge_source, edge_target in H4. simpl in Hlab, H4.
  split; [exact Hlab|]. split; [exact H4|].
  assert (Hn : In n (dependents G root)).
  { rewrite <- H3. apply in_map_iff. exists (h, n, d). auto. }
  apply dependents_In in Hn. destruct Hn as [N1 [N2 N3]].
  apply (selectHead_plain G root n h W D R); auto. apply terminals_In. auto.
Qed.

Lemma enrichAstWithDeps_adds_heads_witness :
  exists E deps,
    (forall fuel, max_id small_graph <= fuel -> enrichAstWithDeps fuel small_graph = Ret E)
    /\ dg_node E = dg_node small_graph
    /\ dg_edge E = dg_edge small_graph ++ deps
    /\ map edge_target deps = dependents small_graph 2
    /\ forall h n d, In (h, n, d) deps ->
         d = dependency /\ head_of small_graph n h
         /\ forall fuel, n <= fuel -> selectHead fuel small_graph n = Ret h.
Proof.
  apply (enrichAstWithDeps_adds_heads small_graph 2).
  - apply ast_treeb_sound. vm_compute. reflexivity.
  - apply distinct_startsb_sound. vm_compute. reflexivity.
  - reflexivity.
Defined.

(** *** The projection of any graph *)

Lemma node_is_terminal_some (G : DiGraph) (n : nat) :
  Forall (fun na => is_terminal (snd na) <> None) (dg_node G) ->
  is_node G n -> node_is_terminal G n = Ret (terminal G n).
Proof.
  intros Hall Hn. destruct (lookup_some n (dg_node G) Hn) as [a Ha].
  pose proof (lookup_In n (dg_node G) a Ha) as Hin.
  rewrite Forall_forall in Hall. specialize (Hall _ Hin). simpl in Hall.
  unfold node_is_terminal, dg_attrs, terminal, attrs_of. rewrite Ha. cbn [bind].
  destruct (is_terminal a); [reflexivity | contradiction].
Qed.

Lemma filterM_raise {A : Type} (f : A -> outcome bool) (e : exn) (l : list A) :
  (forall x, In x l -> (exists b, f x = Ret b) \/ f x = Raise e) ->
  (exists x, In x l /\ f x = Raise e) ->
  filterM f l = Raise e.
Proof.
  induction l as [|x l IH]; intros Hall [y [Hy Fy]]; [contradiction|].
  cbn [filterM]. destruct (Hall x (or_introl eq_refl)) as [[b Hb]|Hb].
  - rewrite Hb. cbn [bind]. rewrite IH; [reflexivity | |].
    + intros z Hz. apply Hall. now right.
    + destruct Hy as [->|Hy]; [congruence|]. exists y. auto.
  - rewrite Hb. reflexivity.
Qed.

Lemma mem_terminals (G : DiGraph) (n : nat) :
  mem n (terminals G) = true <-> is_node G n /\ terminal G n = true.
Proof.
  rewrite <- terminals_In. split; intros H.
  - destruct (mem n (terminals G)) eqn:E; [|discriminate].
    destruct (in_dec Nat.eq_dec n (terminals G)) as [Hin|Hin]; [exact Hin|].
    apply mem_not_In in Hin. congruence.
  - now apply mem_In.
Qed.

(** X9. [getDependencyTree] on any graph whose nodes all have [is_terminal]:
    it keeps the terminals, in order and with their attributes, and the
    edges between two terminals whose label is missing or is not the empty
    string.  When a node has no [is_terminal], the [KeyError] of the filter
    is raised anew by the constructor of the copy, as [NetworkXError]. *)
Theorem getDependencyTree_terminals (G : DiGraph) :
  NoDup (node_ids (dg_node G)) -> edges_ok G ->
  (Forall (fun na => is_terminal (snd na) <> None) (dg_node G) ->
   exists T,
     getDependencyTree G = Ret T
     /\ dg_node T = filter (fun na => terminal G (fst na)) (dg_node G)
     /\ forall e, In e (dg_edge T) <->
          In e (dg_edge G) /\ terminal G (edge_source e) = true
          /\ terminal G (edge_target e) = true /\ filter_edge (snd e) = true)
  /\ (Exists (fun na => is_terminal (snd na) = None) (dg_node G) ->
      getDependencyTree G = Raise NetworkXError).
Proof.
  intros Hnd He. split.
  - intros Hall. unfold getDependencyTree, copy_of_view.
    rewrite (filterM_ret _ (terminal G))
      by (intros n Hn; now apply node_is_terminal_some).
    cbn [bind from_graph_data]. fold (terminals G). eexists. split; [reflexivity|].
    cbn [dg_node dg_edge]. split.
    + apply filter_ext_in. intros [n a] Hna. cbn [fst].
      assert (Hn : is_node G n) by (apply in_map_iff; exists (n, a); auto).
      destruct (terminal G n) eqn:Et.
      * apply mem_terminals. auto.
      * destruct (mem n (terminals G)) eqn:Em; [|reflexivity].
        apply mem_terminals in Em. destruct Em. congruence.
    + intros e. rewrite in_flat_map. unfold out_edges. split.
      * intros [u [Hu Hin]]. apply filter_In in Hin. destruct Hin as [Hin Hq].
        apply filter_In in Hin. destruct Hin as [Hin Hs].
        apply Nat.eqb_eq in Hs. apply andb_true_iff in Hq. destruct Hq as [Hm Hf].
        apply mem_terminals in Hm. apply terminals_In in Hu.
        unfold edge_source, edge_target. rewrite Hs. tauto.
      * intros [Hin [Hs [Ht Hf]]]. destruct (He e Hin) as [N1 N2].
        exists (edge_source e). split; [apply terminals_In; auto|].
        apply filter_In. split.
        -- apply filter_In. split; [exact Hin | apply Nat.eqb_refl].
        -- apply andb_true_iff. split; [apply mem_terminals; auto | exact Hf].
  - intros Hex. unfold getDependencyTree, copy_of_view.
    rewrite (filterM_raise _ KeyError); [reflexivity | |].
    + intros n Hn. destruct (lookup_some n (dg_node G) Hn) as [a Ha].
      unfold node_is_terminal, dg_attrs. rewrite Ha. cbn [bind].
      destruct (is_terminal a) as [b|]; [left; exists b; reflexivity | right; reflexivity].
    + apply Exists_exists in Hex. destruct Hex as [[n a] [Hin Hnone]].
      exists n. split; [apply in_map_iff; exists (n, a); auto|].
      unfold node_is_terminal, dg_attrs.
      rewrite (lookup_NoDup n (dg_node G) a Hnd Hin). cbn [bind].
      simpl in Hnone. rewrite Hnone. reflexivity.
Qed.

Lemma getDependencyTree_terminals_witness :
  (exists T,
     getDependencyTree small_graph = Ret T
     /\ dg_node T = filter (fun na => terminal small_graph (fst na)) (dg_node small_graph)
     /\ forall e, In e (dg_edge T) <->
          In e (dg_edge small_graph) /\ terminal small_graph (edge_source e) = true
          /\ terminal small_graph (edge_target e) = true /\ filter_edge (snd e) = true)
  /\ getDependencyTree unmarked_graph = Raise NetworkXError.
Proof.
  split.
  - apply (getDependencyTree_terminals small_graph).
    + apply nodupb_sound. vm_compute. reflexivity.
    + apply ast_edges_ok. apply ast_treeb_sound. vm_compute. reflexivity.
    + vm_compute. repeat constructor; discriminate.
  - apply (getDependencyTree_terminals unmarked_graph).
    + vm_compute. repeat constructor. intros [].
    + intros e [].
    + vm_compute. left. reflexivity.
Defined.

(** X10. Projecting before enriching: on the plain tree [getDependencyTree]
    returns the terminals and no edge, so that [getHeadDepTree] finds no
    head for any terminal and raises [IndexError]. *)
Theorem getDependencyTree_plain (G : DiGraph) :
  ast_tree G ->
  exists T,
    getDependencyTree G = Ret T
    /\ node_ids (dg_node T) = terminals G
    /\ dg_edge T = []
    /\ forall n, In n (terminals G) -> getHeadDepTree T n = Raise IndexError.
Proof.
  intros W.
  destruct (getDependencyTree_spec G [] G W (enriched_by_nil G)) as [T [HT dt]].
  assert (Hids : node_ids (dg_node T) = terminals G).
  { rewrite (dt_nodes G [] T dt). apply node_ids_filter. }
  assert (He : dg_edge T = []).
  { apply Permutation_nil. apply Permutation_sym. apply (dt_edges G [] T dt). }
  exists T. split; [exact HT|]. split; [exact Hids|]. split; [exact He|].
  intros n Hn. unfold getHeadDepTree. rewrite first_in_edge_parent.
  assert (Hnode : dg_has_node T n = true).
  { apply dg_has_node_true. unfold is_node. now rewrite Hids. }
  rewrite Hnode. unfold parent. rewrite He. reflexivity.
Qed.

Lemma getDependencyTree_plain_witness :
  exists T,
    getDependencyTree small_graph = Ret T
    /\ node_ids (dg_node T) = terminals small_graph
    /\ dg_edge T = []
    /\ forall n, In n (terminals small_graph) -> getHeadDepTree T n = Raise IndexError.
Proof.
  apply (getDependencyTree_plain small_graph).
  apply ast_treeb_sound. vm_compute. reflexivity.
Defined.

(** X11. In the dependency tree of the pipeline, [getHeadDepTree] returns for
    every terminal but the root the head [selectHead] returns on the
    constituency tree, a terminal that starts earlier; for the root it
    raises [IndexError], and for a nonterminal, which the dependency tree
    does not have, [NetworkXError]. *)
Theorem getHeadDepTree_selectHead (G : DiGraph) (root : nat) :
  ast_tree G -> distinct_starts G -> getRoot G = Ret root ->
  exists E T,
    (forall fuel, max_id G <= fuel -> enrichAstWithDeps fuel G = Ret E)
    /\ getDependencyTree E = Ret T
    /\ getHeadDepTree T root = Raise IndexError
    /\ (forall n, In n (terminals G) -> n <> root ->
          exists h, getHeadDepTree T n = Ret h
                    /\ (forall fuel, n <= fuel -> selectHead fuel G n = Ret h)
                    /\ In h (terminals G)
                    /\ (start_of G h < start_of G n)%Z)
    /\ (forall n, ~ In n (terminals G) -> getHeadDepTree T n = Raise NetworkXError).
Proof.
  intros W D R.
  destruct (pipeline_deps G root W D R) as [E [T [deps [HE [HT [H1 [H2 [H3 dt]]]]]]]].
  exists E, T. split; [exact HE|]. split; [exact HT|].
  split; [apply (dt_head_root G W root R deps H2 T dt)|]. split.
  - intros n Hn Hne.
    destruct (dt_head_exists G root deps H2 n Hn Hne) as [h [d Hd]].
    exists h. split; [apply (dt_head G W root deps H1 H2 T dt h n d Hd)|].
    destruct (dep_In_facts G deps H1 h n d Hd) as [_ [_ [F3 [_ F5]]]].
    split; [|auto].
    rewrite Forall_forall in H3. specialize (H3 _ Hd).
    apply (selectHead_plain G root n h W D R Hn Hne H3).
  - intros n Hn. unfold getHeadDepTree. rewrite first_in_edge_parent.
    destruct (dg_has_node T n) eqn:En; [|reflexivity].
    apply dg_has_node_true in En. unfold is_node in En.
    rewrite (dt_nodes G deps T dt), node_ids_filter in En. contradiction.
Qed.

Lemma getHeadDepTree_selectHead_witness :
  exists E T,
    (forall fuel, max_id small_graph <= fuel -> enrichAstWithDeps fuel small_graph = Ret E)
    /\ getDependencyTree E = Ret T
    /\ getHeadDepTree T 2 = Raise IndexError
    /\ (forall n, In n (terminals small_graph) -> n <> 2 ->
          exists h, getHeadDepTree T n = Ret h
                    /\ (forall fuel, n <= fuel -> selectHead fuel small_graph n = Ret h)
                    /\ In h (terminals small_graph)
                    /\ (start_of small_graph h < start_of small_graph n)%Z)
    /\ (forall n, ~ In n (terminals small_graph) ->
          getHeadDepTree T n = Raise NetworkXError).
Proof.
  apply (getHeadDepTree_selectHead small_graph 2).
  - apply ast_treeb_sound. vm_compute. reflexivity.
  - apply distinct_startsb_sound. vm_compute. reflexivity.
  - reflexivity.
Defined.


(** ** The edge encoder, once more *)

(** A property that every returning step keeps is kept by the loop. *)
Lemma foldM_inv {A S : Type} (f : S -> A -> outcome S) (P : S -> Prop) (l : list A) :
  (forall s x s', f s x = Ret s' -> P s -> P s') ->
  forall s s', foldM f l s = Ret s' -> P s -> P s'.
Proof.
  intros Hstep. induction l as [|x l IH]; intros s s' H Hs; simpl in H.
  - inversion H. now subst.
  - destruct (f s x) as [s1| |] eqn:E; try discriminate.
    cbn [bind] in H. apply (IH s1 s' H). eapply Hstep; eauto.
Qed.

Lemma update_edge_cases (u v : nat) (d : EdgeData) (l : list (nat * nat * EdgeData))
  (e : nat * nat * EdgeData) :
  In e (update_edge u v d l) ->
  In e l
  \/ (exists d', In (u, v, d') l /\ e = (u, v, update_data d' d))
  \/ (e = (u, v, d) /\ forall d', ~ In (u, v, d') l).
Proof.
  induction l as [|[[u' v'] d'] l IH]; simpl; intros H.
  - destruct H as [<-|[]]. right. right. split; [reflexivity | intros d' []].
  - destruct (Nat.eqb_spec u u') as [->|Hu]; simpl in H.
    + destruct (Nat.eqb_spec v v') as [->|Hv]; simpl in H.
      * destruct H as [<-|H]; [|left; now right].
        right. left. exists d'. split; [now left | reflexivity].
      * destruct H as [<-|H]; [left; now left|].
        destruct (IH H) as [K|[[d0 [K1 K2]]|[K1 K2]]].
        -- left. now right.
        -- right. left. exists d0. split; [now right | exact K2].
        -- right. right. split; [exact K1|]. intros d0 [E|K]; [congruence|].
           now apply (K2 d0).
    + destruct H as [<-|H]; [left; now left|].
      destruct (IH H) as [K|[[d0 [K1 K2]]|[K1 K2]]].
      * left. now right.
      * right. left. exists d0. split; [now right | exact K2].
      * right. right. split; [exact K1|]. intros d0 [E|K]; [congruence|].
        now apply (K2 d0).
Qed.

(** [labelDepTree] only writes [complex_edge] and [complex_edge_str], and
    writes them together. *)
Lemma labelDepTree_strings (G T L : DiGraph) :
  labelDepTree G T = Ret L ->
  (forall e, In e (dg_edge T) -> snd e = dependency) ->
  forall e, In e (dg_edge L) ->
    label (snd e) = Some "dependency"
    /\ forall c, complex_edge (snd e) = Some c ->
                 complex_edge_str (snd e) = Some (label_str c).
Proof.
  intros HL HT.
  set (P := fun T' : DiGraph => forall e, In e (dg_edge T') ->
              label (snd e) = Some "dependency"
              /\ forall c, complex_edge (snd e) = Some c ->
                           complex_edge_str (snd e) = Some (label_str c)).
  change (P L). unfold labelDepTree in HL.
  destruct (getRoot G) as [root| |]; try discriminate. cbn [bind] in HL.
  destruct (non_root_terminals G root) as [nodes| |]; try discriminate.
  cbn [bind] in HL.
  refine (foldM_inv _ P nodes _ T L HL _).
  - intros Tk n Tk' Hstep HP.
    destruct (edge_label G Tk root n) as [[h c]| |]; try discriminate.
    cbn [bind fst snd] in Hstep. unfold set_complex_edge in Hstep.
    destruct (edge_data Tk h n) as [d0| |] eqn:Ed; try discriminate.
    cbn [bind] in Hstep. inversion Hstep; subst Tk'. clear Hstep.
    intros e He. cbn [dg_edge] in He. apply update_edge_cases in He.
    destruct He as [He|[[d' [Hd' ->]]|[_ Hno]]].
    + now apply HP.
    + destruct (HP _ Hd') as [K1 K2]. cbn [snd] in *.
      unfold update_data. cbn [label complex_edge complex_edge_str or_else].
      split; [exact K1|]. intros c0 Hc0. inversion Hc0. reflexivity.
    + exfalso. unfold edge_data in Ed.
      destruct (find _ (dg_edge Tk)) as [[[u v] d1]|] eqn:Ef; [|discriminate].
      apply find_some in Ef. destruct Ef as [Hin Hq]. cbn [fst snd] in Hq.
      apply andb_true_iff in Hq. destruct Hq as [Hu Hv].
      apply Nat.eqb_eq in Hu, Hv. subst u v. now apply (Hno d1).
  - intros e He. rewrite (HT e He). split; [reflexivity | intros c Hc; discriminate].
Qed.

(** X12. In the pipeline, [labelDepTree] keeps the nodes of the dependency tree
    and the end points of its edges, in their order; every edge keeps its
    label ['dependency'] and gets a [complex_edge] and, as
    [complex_edge_str], the string of that very label. *)
Theorem labelDepTree_keeps_tree (G : DiGraph) (root : nat) :
  ast_tree G -> distinct_starts G -> getRoot G = Ret root ->
  exists E T L,
    (forall fuel, max_id G <= fuel -> enrichAstWithDeps fuel G = Ret E)
    /\ getDependencyTree E = Ret T
    /\ labelDepTree G T = Ret L
    /\ dg_node L = dg_node T
    /\ map fst (dg_edge L) = map fst (dg_edge T)
    /\ forall h n d, In (h, n, d) (dg_edge L) ->
         label d = Some "dependency"
         /\ exists c, complex_edge d = Some c
                      /\ complex_edge_str d = Some (label_str c).
Proof.
  intros W D R.
  destruct (pipeline_deps G root W D R) as [E [T [deps [HE [HT [H1 [H2 [H3 dt]]]]]]]].
  destruct (labelDepTree_spec G W root R deps H1 H2 T dt) as [L [L1 [L2 [L3 L4]]]].
  exists E, T, L. split; [exact HE|]. split; [exact HT|]. split; [exact L1|].
  split; [exact L2|]. split; [exact L3|]. intros h n d Hd.
  assert (Hdep : forall e, In e (dg_edge T) -> snd e = dependency).
  { intros e He. apply (dt_edge_In G deps T dt) in He.
    rewrite Forall_forall in H1. apply (H1 e He). }
  destruct (labelDepTree_strings G T L L1 Hdep _ Hd) as [K1 K2]. cbn [snd] in K1, K2.
  split; [exact K1|].
  destruct (L4 _ Hd) as [hh [Hc _]]. cbn [snd] in Hc.
  eexists. split; [exact Hc | apply K2, Hc].
Qed.

Lemma labelDepTree_keeps_tree_witness :
  exists E T L,
    (forall fuel, max_id small_graph <= fuel -> enrichAstWithDeps fuel small_graph = Ret E)
    /\ getDependencyTree E = Ret T
    /\ labelDepTree small_graph T = Ret L
    /\ dg_node L = dg_node T
    /\ map fst (dg_edge L) = map fst (dg_edge T)
    /\ forall h n d, In (h, n, d) (dg_edge L) ->
         label d = Some "dependency"
         /\ exists c, complex_edge d = Some c
                      /\ complex_edge_str d = Some (label_str c).
Proof.
  apply (labelDepTree_keeps_tree small_graph 2).
  - apply ast_treeb_sound. vm_compute. reflexivity.
  - apply distinct_startsb_sound. vm_compute. reflexivity.
  - reflexivity.
Defined.


(** ** The reconstruction, once more *)

Section ReconMore.

Variable G : DiGraph.
Hypothesis W : ast_tree G.
Hypothesis D : distinct_starts G.
Variable root : nat.
Hypothesis R0 : getRoot G = Ret root.
Variable deps : list (nat * nat * EdgeData).
Hypothesis deps_ok : Forall (dep_ok G) deps.
Hypothesis deps_targets : map edge_target deps = dependents G root.
Variable T : DiGraph.
Hypothesis dt : dep_tree_of G deps T.
Variable L : DiGraph.
Hypothesis L_nodes : dg_node L = dg_node T.
Hypothesis L_edges : map fst (dg_edge L) = map fst (dg_edge T).
Hypothesis L_labels : forall e, In e (dg_edge L) -> labelled G root deps e.

(** The labelled dependency tree has the root of the constituency tree. *)
Lemma labelled_getRoot : getRoot L = Ret root.
Proof.
  pose proof (L_node_ids G deps T dt L L_nodes) as Hids.
  unfold getRoot.
  rewrite (filterM_ret _ (fun _ => true)).
  2:{ intros n Hn. rewrite Hids in Hn. unfold node_is_terminal.
      rewrite (L_attrs G deps T dt L L_nodes n Hn). cbn [bind].
      destruct (terminal_attrs G W n Hn) as [-> _]. reflexivity. }
  cbn [bind]. rewrite filter_all by reflexivity. rewrite Hids.
  unfold sort_by_key. rewrite (mapM_ret _ (start_of G)).
  2:{ intros n Hn. unfold node_start.
      rewrite (L_attrs G deps T dt L L_nodes n Hn). cbn [bind].
      destruct (terminal_attrs G W n Hn) as [_ ->]. reflexivity. }
  cbn [bind]. fold (sorted_by_start G (terminals G)).
  pose proof R0 as R0'. rewrite (getRoot_ret G (ast_attrs_ok G W)) in R0'.
  rewrite py_index_0. exact R0'.
Qed.

(** Between the copies of a terminal and of its head, the rebuilt tree has
    as long a path as the constituency tree has between the two. *)
Lemma recon_distances (R : Graph NodeAttrs) :
  recon_inv G root deps R (sorted_by_start G (dependents G root)) ->
  forall n, In n (terminals G) -> n <> root ->
    exists h cn ch p q,
      getHeadDepTree L n = Ret h
      /\ get_correspondence R L n = Ret (Some cn)
      /\ get_correspondence R L h = Ret (Some ch)
      /\ shortest_path R cn ch = Ret p
      /\ shortest_path (to_undirected G) h n = Ret q
      /\ length p = length q.
Proof.
  intros Inv n Hn Hne.
  pose proof (ri_grown _ _ _ _ _ Inv) as HR.
  pose proof (gr_forest R HR) as HF.
  assert (Hdep : In n (dependents G root)).
  { apply dependents_In. apply terminals_In in Hn. tauto. }
  destruct (dep_exists G root deps deps_targets n Hdep) as [h [d Hd]].
  destruct (dep_In_facts G deps deps_ok h n d Hd) as [F1 [F2 [F3 [F4 F5]]]].
  assert (Hord : In n (sorted_by_start G (dependents G root))).
  { apply (Permutation_in _ (Permutation_sym (sorted_by_start_perm G _))). exact Hdep. }
  destruct (ri_paths _ _ _ _ _ Inv n Hord) as [cn [ch [p [C1 [C2 [C3 C4]]]]]].
  rewrite (head_in_spec G W root deps deps_targets h n d Hd) in C2, C4.
  destruct (shortest_path_ret R cn ch) as [p' [P1 P2]].
  { apply corr_found in C1. apply in_map_iff. exists (cn, attrs_of G n). auto. }
  { apply corr_found in C2. apply in_map_iff. exists (ch, attrs_of G h). auto. }
  { eapply path_reach. apply C3. }
  pose proof (simple_path_unique _ HF _ _ _ _ P2 C3) as E. subst p'.
  destruct (spine_path G W h n F1 F2) as [q [Q1 [Q2 Q3]]].
  exists h, cn, ch, p, q.
  split; [apply (L_head G W root deps deps_ok deps_targets T dt L L_nodes L_edges h n d Hd)|].
  rewrite (get_correspondence_attrs R L n _ (L_attrs G deps T dt L L_nodes n F4)),
    (get_correspondence_attrs R L h _ (L_attrs G deps T dt L L_nodes h F3)).
  fold (corr R (attrs_of G n)). fold (corr R (attrs_of G h)).
  rewrite C1, C2. split; [reflexivity|]. split; [reflexivity|].
  split; [exact P1|]. split; [exact Q1|].
  assert (Hhn : h <> n) by (intros ->; lia).
  apply terminals_In in F3, F4. destruct F3 as [_ Th], F4 as [_ Tn].
  destruct (spine_starts_at_parent G W h n F1 Th F2 Tn Hhn) as [y [r [Es _]]].
  rewrite Q3 in C4, Es. rewrite !length_py_interior in C4.
  apply (f_equal (@length nat)) in Es. rewrite length_py_interior in Es.
  simpl in Es. lia.
Qed.

End ReconMore.

(** X13. For a language other than ['python'] the round trip gives the empty
    graph: on the labelled dependency tree of any constituency tree,
    [from_label_dep_tree_to_ast] finds the root and adds nothing. *)
Theorem reconstruction_other_language (G : DiGraph) (root : nat) (lang : string) :
  ast_tree G -> distinct_starts G -> getRoot G = Ret root -> lang <> "python" ->
  exists L,
    (forall fuel, max_id G <= fuel -> labelled_tree fuel G = Ret L)
    /\ from_label_dep_tree_to_ast L lang = Ret (mkGraph [] []).
Proof.
  intros W D R Hlang.
  destruct (pipeline_deps G root W D R) as [E [T [deps [HE [HT [H1 [H2 [H3 dt]]]]]]]].
  destruct (labelDepTree_spec G W root R deps H1 H2 T dt) as [L [L1 [L2 [L3 L4]]]].
  exists L. split.
  - intros fuel Hf. unfold labelled_tree. rewrite (HE fuel Hf). cbn [bind].
    rewrite HT. cbn [bind]. exact L1.
  - unfold from_label_dep_tree_to_ast.
    rewrite (labelled_getRoot G W root R deps T dt L L2). cbn [bind].
    apply String.eqb_neq in Hlang. rewrite Hlang. reflexivity.
Qed.

Lemma reconstruction_other_language_witness :
  exists L,
    (forall fuel, max_id small_graph <= fuel -> labelled_tree fuel small_graph = Ret L)
    /\ from_label_dep_tree_to_ast L "javascript" = Ret (mkGraph [] []).
Proof.
  apply (reconstruction_other_language small_graph 2 "javascript").
  - apply ast_treeb_sound. vm_compute. reflexivity.
  - apply distinct_startsb_sound. vm_compute. reflexivity.
  - reflexivity.
  - intros H. discriminate H.
Defined.

(** X14. Whatever the place of the leftmost terminal, the round trip returns,
    and the terminals of the rebuilt tree, ordered by [start], are the
    terminals of the constituency tree in that order. *)
Theorem round_trip_terminals (G : DiGraph) (root : nat) :
  ast_tree G -> distinct_starts G -> getRoot G = Ret root ->
  exists R,
    (forall fuel, max_id G <= fuel -> round_trip fuel G = Ret R)
    /\ terminals_by_start (g_node R) = terminals_by_start (dg_node G).
Proof.
  intros W D R0.
  destruct (pipeline_deps G root W D R0) as [E [T [deps [HE [HT [H1 [H2 [H3 dt]]]]]]]].
  destruct (labelDepTree_spec G W root R0 deps H1 H2 T dt) as [L [L1 [L2 [L3 L4]]]].
  destruct (from_label_dep_tree_to_ast_ret G W D root R0 deps H1 H2 T dt L L2 L3 L4)
    as [R [HR Inv]].
  exists R. split.
  - intros fuel Hf. unfold round_trip, labelled_tree.
    rewrite (HE fuel Hf). cbn [bind]. rewrite HT. cbn [bind]. rewrite L1. cbn [bind].
    exact HR.
  - exact (recon_terminals G W D root R0 deps R Inv).
Qed.

Lemma round_trip_terminals_witness :
  exists R,
    (forall fuel, max_id nested_graph <= fuel -> round_trip fuel nested_graph = Ret R)
    /\ terminals_by_start (g_node R) = terminals_by_start (dg_node nested_graph).
Proof.
  apply (round_trip_terminals nested_graph 3).
  - apply ast_treeb_sound. vm_compute. reflexivity.
  - apply distinct_startsb_sound. vm_compute. reflexivity.
  - reflexivity.
Defined.

(** X15. The round trip keeps the distance between every terminal and its head:
    in the rebuilt tree, the path [nx.shortest_path] finds between the nodes
    [get_correspondence] gives for a terminal and for its head has as many
    nodes as the path between the two in the constituency tree. *)
Theorem round_trip_head_distance (G : DiGraph) (root : nat) :
  ast_tree G -> distinct_starts G -> getRoot G = Ret root ->
  exists L R,
    (forall fuel, max_id G <= fuel -> labelled_tree fuel G = Ret L)
    /\ from_label_dep_tree_to_ast L "python" = Ret R
    /\ forall n, In n (terminals G) -> n <> root ->
         exists h cn ch p q,
           getHeadDepTree L n = Ret h
           /\ get_correspondence R L n = Ret (Some cn)
           /\ get_correspondence R L h = Ret (Some ch)
           /\ shortest_path R cn ch = Ret p
           /\ shortest_path (to_undirected G) h n = Ret q
           /\ length p = length q.
Proof.
  intros W D R0.
  destruct (pipeline_deps G root W D R0) as [E [T [deps [HE [HT [H1 [H2 [H3 dt]]]]]]]].
  destruct (labelDepTree_spec G W root R0 deps H1 H2 T dt) as [L [L1 [L2 [L3 L4]]]].
  destruct (from_label_dep_tree_to_ast_ret G W D root R0 deps H1 H2 T dt L L2 L3 L4)
    as [R [HR Inv]].
  exists L, R. split; [|split; [exact HR|]].
  - intros fuel Hf. unfold labelled_tree. rewrite (HE fuel Hf). cbn [bind].
    rewrite HT. cbn [bind]. exact L1.
  - apply (recon_distances G W root deps H1 H2 T dt L L2 L3 R Inv).
Qed.

Lemma round_trip_head_distance_witness :
  exists L R,
    (forall fuel, max_id small_graph <= fuel -> labelled_tree fuel small_graph = Ret L)
    /\ from_label_dep_tree_to_ast L "python" = Ret R
    /\ forall n, In n (terminals small_graph) -> n <> 2 ->
         exists h cn ch p q,
           getHeadDepTree L n = Ret h
           /\ get_correspondence R L n = Ret (Some cn)
           /\ get_correspondence R L h = Ret (Some ch)
           /\ shortest_path R cn ch = Ret p
           /\ shortest_path (to_undirected small_graph) h n = Ret q
           /\ length p = length q.
Proof.
  apply (round_trip_head_distance small_graph 2).
  - apply ast_treeb_sound. vm_compute. reflexivity.
  - apply distinct_startsb_sound. vm_compute. reflexivity.
  - reflexivity.
Defined.


(** ** The rebuilt graph is a tree *)

Lemma rooted_edge_lt (R : Graph NodeAttrs) (a b : nat) :
  rooted_shape R -> In (a, b) (g_edge R) ->
  a < length (g_node R) /\ b < length (g_node R).
Proof.
  intros [_ [Hm _]] Hin.
  assert (H : In (Nat.max a b) (seq 1 (length (g_node R) - 1))).
  { rewrite <- Hm. apply in_map_iff. exists (a, b). auto. }
  apply in_seq in H. lia.
Qed.

Lemma rooted_node (R : Graph NodeAttrs) (x : nat) :
  rooted_shape R -> (In x (node_ids (g_node R)) <-> x < length (g_node R)).
Proof. intros [Hids _]. rewrite Hids, in_seq. lia. Qed.

(** Hanging a new node under [x]. *)
Lemma attach_one_shape (R : Graph NodeAttrs) (x : nat) (a : NodeAttrs) :
  rooted_shape R -> x < length (g_node R) ->
  let m := getId (g_node R) in
  let R' := g_add_edge (g_add_node R m a) m x in
  rooted_shape R' /\ m < length (g_node R').
Proof.
  intros HR Hx. pose proof HR as [Hids [Hmax Hne]].
  set (N := length (g_node R)) in *.
  assert (Hm : getId (g_node R) = N) by (apply getId_seq; [lia | exact Hids]).
  cbv zeta. rewrite Hm.
  assert (Hfresh : ~ In N (node_ids (g_node R))).
  { rewrite (rooted_node R N HR). fold N. lia. }
  assert (Hnodes : g_node (g_add_edge (g_add_node R N a) N x) = g_node R ++ [(N, a)]).
  { unfold g_add_edge, g_add_node. cbn [g_node].
    rewrite (update_gnode_absent _ N a _ Hfresh).
    rewrite (update_gnode_present N).
    - apply update_gnode_present. rewrite node_ids_app. apply in_or_app. left.
      apply (rooted_node R x HR). exact Hx.
    - rewrite node_ids_app. apply in_or_app. right. now left. }
  assert (Hedges : g_edge (g_add_edge (g_add_node R N a) N x) = g_edge R ++ [(N, x)]).
  { unfold g_add_edge, g_add_node. cbn [g_edge g_node].
    destruct (existsb (edge_eqb N x) (g_edge R)) eqn:E; [|reflexivity].
    exfalso. apply existsb_edge_eqb in E.
    destruct E as [E|E]; apply (rooted_edge_lt R _ _ HR) in E; fold N in E; lia. }
  assert (Hlen : length (g_node (g_add_edge (g_add_node R N a) N x)) = S N).
  { rewrite Hnodes, length_app. simpl. fold N. lia. }
  split; [|rewrite Hlen; lia].
  split; [|split].
  - rewrite Hlen, Hnodes, node_ids_app, Hids, seq_S. reflexivity.
  - rewrite Hlen, Hedges, map_app, Hmax. cbn [map fst snd].
    replace (Nat.max N x) with N by lia.
    replace (S N - 1) with (S (N - 1)) by lia.
    rewrite seq_S. f_equal. f_equal. lia.
  - intros e He. rewrite Hedges in He. apply in_app_or in He.
    destruct He as [He|[<-|[]]]; [now apply Hne | simpl; lia].
Qed.

(** Hanging a chain of new nodes under [x]. *)
Lemma attach_chain_shape (l : list NodeAttrs) : forall (R : Graph NodeAttrs) (x : nat),
  rooted_shape R -> x < length (g_node R) ->
  rooted_shape (fst (attach_chain R x l))
  /\ 0 < length (g_node (fst (attach_chain R x l))).
Proof.
  induction l as [|a l IH]; intros R x HR Hx.
  - simpl. split; [exact HR | lia].
  - cbn [attach_chain].
    destruct (attach_one_shape R x a HR Hx) as [H1 H2]. cbv zeta in H1, H2.
    apply IH; assumption.
Qed.

Lemma py_index_In {A : Type} (l : list A) (i : Z) (x : A) :
  py_index l i = Ret x -> In x l.
Proof.
  unfold py_index.
  destruct ((0 <=? _) && _)%Z; [|discriminate].
  destruct (nth_error l _) as [y|] eqn:E; [|discriminate].
  intros H. inversion H; subst. eapply nth_error_In; eauto.
Qed.

(** The interior of a path [nx.shortest_path] returns lies in the graph. *)
Lemma interior_node (R : Graph NodeAttrs) (s t x : nat) (p : list nat) :
  rooted_shape R -> shortest_path R s t = Ret p -> In x (py_interior p) ->
  x < length (g_node R).
Proof.
  intros HR Hp Hx. apply shortest_path_sound in Hp. destruct Hp as [[_ [_ Hc]] _].
  assert (Hlen : 2 <= length p).
  { pose proof (length_py_interior p) as E.
    destruct (py_interior p); [contradiction | simpl in E; lia]. }
  destruct (chain_In_adj (neighbors R) p x Hc (py_interior_incl p x Hx) Hlen) as [y Hy].
  destruct Hy as [Hy|Hy]; apply neighbors_In in Hy; destruct Hy as [Hy|Hy];
    apply (rooted_edge_lt R _ _ HR) in Hy; lia.
Qed.

(** A step of the reconstruction keeps the shape. *)
Lemma reconstruct_step_shape (T : DiGraph) (root : nat) (R R' : Graph NodeAttrs) (n : nat) :
  reconstruct_step T root R n = Ret R' ->
  rooted_shape R /\ 0 < length (g_node R) ->
  rooted_shape R' /\ 0 < length (g_node R').
Proof.
  intros H [HR Hpos]. unfold reconstruct_step in H.
  destruct (getHeadDepTree T n) as [h| |]; try discriminate. cbn [bind] in H.
  match type of H with
  | bind ?c _ = _ => destruct c as [path| |] eqn:Ep; try discriminate
  end.
  cbn [bind] in H.
  destruct (edge_data T h n) as [d| |]; try discriminate. cbn [bind] in H.
  destruct (get_key (complex_edge d)) as [c| |]; try discriminate. cbn [bind] in H.
  unfold get_node_to_append in H.
  destruct (py_index path (special_index c)) as [x| |] eqn:Ex; try discriminate.
  cbn [bind fst snd] in H. rewrite append_chain_attach in H.
  assert (Hx : x < length (g_node R)).
  { apply py_index_In in Ex.
    destruct (h =? root).
    - destruct (shortest_path R 2 0) as [p| |] eqn:E; try discriminate.
      cbn [bind] in Ep. inversion Ep; subst path.
      eapply interior_node; eauto.
    - destruct (getHeadDepTree T h) as [hh| |]; try discriminate. cbn [bind] in Ep.
      destruct (get_correspondence R T h) as [c1| |]; try discriminate.
      cbn [bind] in Ep.
      destruct (get_correspondence R T hh) as [c2| |]; try discriminate.
      cbn [bind] in Ep.
      destruct c1 as [s|], c2 as [t|]; cbn [shortest_path_opt] in Ep;
        try (destruct (g_has_node R _); discriminate); try discriminate.
      destruct (shortest_path R s t) as [p| |] eqn:E; try discriminate.
      cbn [bind] in Ep. inversion Ep; subst path.
      eapply interior_node; eauto. }
  set (nts := map nonterm_attrs
                  (py_slice_from (non_terminals c) (special_index c + 1))) in *.
  destruct (attach_chain R x nts) as [T1 y] eqn:Ea.
  destruct (dg_attrs T n) as [a| |]; try discriminate. cbn [bind] in H.
  inversion H; subst R'. clear H.
  assert (E : g_add_edge (g_add_node T1 (getId (g_node T1)) a) (getId (g_node T1)) y
              = fst (attach_chain R x (nts ++ [a]))).
  { rewrite attach_chain_app, Ea. reflexivity. }
  rewrite E. now apply attach_chain_shape.
Qed.

(** X16. Whatever the labelled tree and the language, what
    [from_label_dep_tree_to_ast] returns is a tree on the ids 0, 1, ...:
    it has one edge fewer than nodes (none when it is empty), no edge joins
    a node to itself, and the larger end points of the edges are 1, 2, ...
    in edge order: every node but 0 hangs by one edge under a node of
    smaller id. *)
Theorem reconstruction_is_tree (T : DiGraph) (lang : string) (R : Graph NodeAttrs) :
  from_label_dep_tree_to_ast T lang = Ret R ->
  rooted_shape R /\ length (g_edge R) = length (g_node R) - 1.
Proof.
  intros H.
  assert (HR : rooted_shape R).
  { unfold from_label_dep_tree_to_ast in H.
    destruct (getRoot T) as [root| |]; try discriminate. cbn [bind] in H.
    destruct (lang =? "python")%string.
    - destruct (dg_attrs T root) as [a| |]; try discriminate. cbn [bind] in H.
      destruct (sort_by_key _ _) as [nodes| |]; try discriminate. cbn [bind] in H.
      refine (proj1 (foldM_inv _ (fun R => rooted_shape R /\ 0 < length (g_node R))
                       nodes _ _ R H _)).
      + intros s x s'. apply reconstruct_step_shape.
      + split; [|simpl; lia]. split; [reflexivity|]. split; [reflexivity|].
        intros e [<-|[<-|[]]]; simpl; lia.
    - inversion H. split; [reflexivity|]. split; [reflexivity | intros e []]. }
  split; [exact HR|]. destruct HR as [_ [Hm _]].
  apply (f_equal (@length nat)) in Hm. now rewrite length_map, length_seq in Hm.
Qed.

Lemma reconstruction_is_tree_witness :
  rooted_shape example_rebuilt
  /\ length (g_edge example_rebuilt) = length (g_node example_rebuilt) - 1.
Proof.
  apply (reconstruction_is_tree example_labelled "python" example_rebuilt).
  vm_compute. reflexivity.
Defined.


(** ** The attachment score, once more *)

Lemma getUAS_ret_counts {A B : Type} (T_true : Graph A) (T_pred : Graph B) (q : Q) :
  getUAS T_true T_pred = Ret q ->
  g_len T_true = g_len T_pred /\ g_edges_len T_true = g_edges_len T_pred.
Proof.
  unfold getUAS. intros H.
  destruct (Nat.eqb_spec (g_len T_true) (g_len T_pred)) as [Hn|Hn];
    [|cbn [negb] in H; discriminate].
  destruct (Nat.eqb_spec (g_edges_len T_true) (g_edges_len T_pred)) as [He|He];
    [|cbn [negb] in H; discriminate].
  now split.
Qed.

(** X17. Every way [getUAS] can end: with a score when the node counts and the
    edge counts agree and [T_pred] has an edge, with [AssertionError] when a
    count differs, and with [ZeroDivisionError] when the counts agree and
    [T_pred] has no edge. *)
Theorem getUAS_outcomes {A B : Type} (T_true : Graph A) (T_pred : Graph B) :
  match getUAS T_true T_pred with
  | Ret _ =>
      g_len T_true = g_len T_pred /\ g_edges_len T_true = g_edges_len T_pred
      /\ g_edges T_pred <> []
  | Raise e =>
      (e = AssertionError
       /\ (g_len T_true <> g_len T_pred \/ g_edges_len T_true <> g_edges_len T_pred))
      \/ (e = ZeroDivisionError
          /\ g_len T_true = g_len T_pred /\ g_edges_len T_true = g_edges_len T_pred
          /\ g_edges T_pred = [])
  | OutOfFuel => False
  end.
Proof.
  destruct (Nat.eq_dec (g_len T_true) (g_len T_pred)) as [Hn|Hn].
  - destruct (Nat.eq_dec (g_edges_len T_true) (g_edges_len T_pred)) as [He|He].
    + rewrite (getUAS_unfold T_true T_pred Hn He). cbv zeta.
      destruct (g_edges T_pred) as [|e es].
      * simpl. right. auto.
      * cbn [length Nat.eqb]. repeat split; auto. discriminate.
    + unfold getUAS. rewrite Hn, Nat.eqb_refl. cbn [negb].
      apply Nat.eqb_neq in He. rewrite He. cbn [negb]. left. split; [reflexivity|].
      right. now apply Nat.eqb_neq.
  - unfold getUAS. apply Nat.eqb_neq in Hn. rewrite Hn. cbn [negb].
    left. split; [reflexivity|]. left. now apply Nat.eqb_neq.
Qed.

Lemma filter_length_all {A : Type} (f : A -> bool) (l : list A) :
  length (filter f l) = length l <-> forall x, In x l -> f x = true.
Proof.
  induction l as [|x l IH]; simpl.
  - split; [intros _ y [] | reflexivity].
  - pose proof (filter_length_le f l) as Hle. destruct (f x) eqn:E; simpl.
    + split.
      * intros H y [<-|Hy]; [exact E|]. apply IH; [lia | exact Hy].
      * intros H. f_equal. apply IH. intros y Hy. apply H. now right.
    + split; [lia|]. intros H. specialize (H x (or_introl eq_refl)). congruence.
Qed.

Lemma filter_length_none {A : Type} (f : A -> bool) (l : list A) :
  length (filter f l) = 0 <-> forall x, In x l -> f x = false.
Proof.
  induction l as [|x l IH]; simpl.
  - split; [intros _ y [] | reflexivity].
  - destruct (f x) eqn:E; simpl.
    + split; [discriminate|]. intros H. specialize (H x (or_introl eq_refl)). congruence.
    + rewrite IH. split.
      * intros H y [<-|Hy]; auto.
      * intros H y Hy. apply H. now right.
Qed.

(** X18. A score [getUAS] returns lies between 0 and 1; it is 1 exactly when
    [T_true] has every edge of [T_pred], and 0 exactly when it has none. *)
Theorem getUAS_range {A B : Type} (T_true : Graph A) (T_pred : Graph B) (q : Q) :
  getUAS T_true T_pred = Ret q ->
  (0 <= q)%Q /\ (q <= 1)%Q
  /\ (Qeq q 1 <->
      forall e, In e (g_edges T_pred) -> has_edge T_true (fst e) (snd e) = true)
  /\ (Qeq q 0 <->
      forall e, In e (g_edges T_pred) -> has_edge T_true (fst e) (snd e) = false).
Proof.
  intros H. destruct (getUAS_ret_counts T_true T_pred q H) as [Hn He].
  rewrite (getUAS_unfold T_true T_pred Hn He) in H. cbv zeta in H.
  set (f := fun e : nat * nat => has_edge T_true (fst e) (snd e)) in *.
  pose proof (filter_length_le f (g_edges T_pred)) as Hle.
  pose proof (filter_length_all f (g_edges T_pred)) as Hall.
  pose proof (filter_length_none f (g_edges T_pred)) as Hnone.
  destruct (length (g_edges T_pred)) as [|i] eqn:Ei.
  { cbn [Nat.eqb] in H. discriminate. }
  cbn [Nat.eqb] in H. inversion H; subst q. clear H.
  assert (Hpos : Z.pos (Pos.of_nat (S i)) = Z.of_nat (S i)).
  { change (Z.of_nat (S i)) with (Z.pos (Pos.of_succ_nat i)).
    now rewrite Pos.of_nat_succ. }
  cbn [Pos.of_nat] in Hpos.
  split; [|split; [|split]].
  - unfold Qle. cbn [Qnum Qden]. lia.
  - unfold Qle. cbn [Qnum Qden]. rewrite Hpos. lia.
  - etransitivity; [|exact Hall]. unfold Qeq. cbn [Qnum Qden]. rewrite Hpos. lia.
  - etransitivity; [|exact Hnone]. unfold Qeq. cbn [Qnum Qden]. lia.
Qed.

Lemma getUAS_range_witness :
  (0 <= 2 # 2)%Q /\ (2 # 2 <= 1)%Q
  /\ (Qeq (2 # 2) 1 <->
      forall e, In e (g_edges path_012) -> has_edge path_012 (fst e) (snd e) = true)
  /\ (Qeq (2 # 2) 0 <->
      forall e, In e (g_edges path_012) -> has_edge path_012 (fst e) (snd e) = false).
Proof.
  apply (getUAS_range path_012 path_012 (2 # 2)).
  vm_compute. reflexivity.
Defined.


(** ** Corresponding nodes *)

Lemma find_first {A : Type} (f : A -> bool) (l : list A) (x : A) :
  find f l = Some x ->
  exists pre post, l = pre ++ x :: post /\ f x = true
                   /\ forall y, In y pre -> f y = false.
Proof.
  induction l as [|a l IH]; simpl; intros H; [discriminate|].
  destruct (f a) eqn:E.
  - inversion H; subst. exists [], l. split; [reflexivity|]. split; [exact E|].
    intros y [].
  - destruct (IH H) as [pre [post [El [Fx Hpre]]]].
    exists (a :: pre), post. split; [now rewrite El|]. split; [exact Fx|].
    intros y [<-|Hy]; auto.
Qed.

(** X19. For a node [n] of [T], [get_correspondence] returns the first node of
    [T_ast], in the order the nodes were added, whose attribute dictionary
    equals that of [n], and [None] when no node of [T_ast] has these
    attributes. *)
Theorem get_correspondence_first (T_ast : Graph NodeAttrs) (T : DiGraph) (n : nat) :
  is_node T n ->
  exists a,
    dg_attrs T n = Ret a
    /\ ((exists m pre post,
           get_correspondence T_ast T n = Ret (Some m)
           /\ g_node T_ast = pre ++ (m, a) :: post
           /\ forall mb, In mb pre -> snd mb <> a)
        \/ (get_correspondence T_ast T n = Ret None
            /\ forall mb, In mb (g_node T_ast) -> snd mb <> a)).
Proof.
  intros Hn. destruct (lookup_some n (dg_node T) Hn) as [a Ha].
  assert (Hattrs : dg_attrs T n = Ret a) by (unfold dg_attrs; now rewrite Ha).
  exists a. split; [exact Hattrs|].
  rewrite (get_correspondence_attrs T_ast T n a Hattrs).
  destruct (find (fun mb => attrs_eqb (snd mb) a) (g_node T_ast)) as [[m b]|] eqn:E.
  - left. destruct (find_first _ _ _ E) as [pre [post [El [Fx Hpre]]]].
    cbn [snd] in Fx. apply attrs_eqb_eq in Fx. subst b.
    exists m, pre, post. split; [reflexivity|]. split; [exact El|].
    intros mb Hmb Heq. specialize (Hpre mb Hmb). cbn in Hpre.
    apply attrs_eqb_eq in Heq. congruence.
  - right. split; [reflexivity|]. intros mb Hmb Heq.
    pose proof (find_none _ _ E mb Hmb) as Hf. cbn in Hf.
    apply attrs_eqb_eq in Heq. congruence.
Qed.

Lemma get_correspondence_first_witness :
  exists a,
    dg_attrs example_labelled 5 = Ret a
    /\ ((exists m pre post,
           get_correspondence example_rebuilt example_labelled 5 = Ret (Some m)
           /\ g_node example_rebuilt = pre ++ (m, a) :: post
           /\ forall mb, In mb pre -> snd mb <> a)
        \/ (get_correspondence example_rebuilt example_labelled 5 = Ret None
            /\ forall mb, In mb (g_node example_rebuilt) -> snd mb <> a)).
Proof.
  apply (get_correspondence_first example_rebuilt example_labelled 5).
  vm_compute. auto 20.
Defined.


(** ** The graph of all distances *)

Lemma foldM_app {A S : Type} (f : S -> A -> outcome S) (l1 l2 : list A) : forall s,
  foldM f (l1 ++ l2) s = (s1 <- foldM f l1 s ;; foldM f l2 s1).
Proof.
  induction l1 as [|x l1 IH]; intros s; simpl; [reflexivity|].
  destruct (f s x); simpl; auto.
Qed.

Lemma mem_seq (x n : nat) : mem x (seq 0 n) = (x <? n).
Proof.
  destruct (Nat.ltb_spec x n) as [H|H].
  - apply mem_In. apply in_seq. lia.
  - apply mem_not_In. rewrite in_seq. lia.
Qed.

Lemma edge_eqb_iff (u v x y : nat) :
  edge_eqb u v (x, y) = true <-> (u = x /\ v = y) \/ (u = y /\ v = x).
Proof.
  unfold edge_eqb. cbn [fst snd].
  rewrite orb_true_iff, !andb_true_iff, !Nat.eqb_eq. reflexivity.
Qed.

Lemma edge_eqb_niff (u v x y : nat) :
  edge_eqb u v (x, y) = false <-> ~ ((u = x /\ v = y) \/ (u = y /\ v = x)).
Proof. rewrite <- edge_eqb_iff. symmetry. apply not_true_iff_false. Qed.

(** The weight of an edge after [add_edge]. *)
Lemma wg_weight_add {W : Type} (G : WGraph W) (i j : nat) (w : W) (a b : nat) :
  wg_weight (wg_add_edge G i j w) a b
  = if edge_eqb a b (i, j) then Some w else wg_weight G a b.
Proof.
  unfold wg_weight, wg_add_edge. cbn [wg_edge].
  induction (wg_edge G) as [|[[x y] w0] l IH]; cbn [update_weight find fst snd].
  - destruct (edge_eqb a b (i, j)); reflexivity.
  - destruct (edge_eqb i j (x, y)) eqn:E1; cbn [find fst snd option_map].
    + destruct (edge_eqb a b (x, y)) eqn:E2; destruct (edge_eqb a b (i, j)) eqn:E3;
        try reflexivity; exfalso;
        repeat match goal with
               | H : edge_eqb _ _ (_, _) = true |- _ => apply edge_eqb_iff in H
               | H : edge_eqb _ _ (_, _) = false |- _ => apply edge_eqb_niff in H
               end; lia.
    + destruct (edge_eqb a b (x, y)) eqn:E2; [|exact IH].
      destruct (edge_eqb a b (i, j)) eqn:E3; [|reflexivity]. exfalso.
      repeat match goal with
             | H : edge_eqb _ _ (_, _) = true |- _ => apply edge_eqb_iff in H
             | H : edge_eqb _ _ (_, _) = false |- _ => apply edge_eqb_niff in H
             end; lia.
Qed.

(** The nodes [getTreeFromDistances] starts with: one per token. *)
Lemma add_tokens {W : Type} (tokens : list string) : forall (k : nat) (G : WGraph W),
  node_ids (wg_node G) = seq 0 k ->
  fold_left (fun G jt => wg_add_node G (fst jt) (token_attrs (snd jt)))
            (combine (seq k (length tokens)) tokens) G
  = mkWGraph (wg_node G ++ combine (seq k (length tokens)) (map token_attrs tokens))
             (wg_edge G).
Proof.
  induction tokens as [|t ts IH]; intros k G Hids.
  - simpl. rewrite app_nil_r. now destruct G.
  - cbn [length seq combine fold_left map fst snd].
    assert (Hfresh : ~ In k (node_ids (wg_node G))) by (rewrite Hids, in_seq; lia).
    rewrite IH.
    + unfold wg_add_node. cbn [wg_node wg_edge].
      rewrite (update_gnode_absent _ k _ _ Hfresh), <- app_assoc. reflexivity.
    + unfold wg_add_node. cbn [wg_node].
      rewrite (update_gnode_absent _ k _ _ Hfresh), node_ids_app, Hids, seq_S.
      reflexivity.
Qed.

Section Distances.

Variable W : Type.
Variable distances : list (list W).
Variable n : nat.
Variable d : nat -> nat -> W.
Hypothesis entries : forall i j, i < n -> j < n -> matrix_entry distances i j = Ret (d i j).

(** One row of the double loop. *)
Lemma distance_row (i : nat) (js : list nat) : forall G : WGraph W,
  i < n -> (forall j, In j js -> j < n) ->
  node_ids (wg_node G) = seq 0 n ->
  exists G',
    foldM (fun G j => w <- matrix_entry distances i j ;; Ret (wg_add_edge G i j w)) js G
    = Ret G'
    /\ wg_node G' = wg_node G
    /\ forall a b, wg_weight G' a b
                   = if (a =? i) && mem b js then Some (d i b)
                     else if (b =? i) && mem a js then Some (d i a)
                     else wg_weight G a b.
Proof.
  induction js as [|j js IH]; intros G Hi Hjs Hids.
  - exists G. split; [reflexivity|]. split; [reflexivity|]. intros a b.
    cbn [mem existsb]. now rewrite !andb_false_r.
  - cbn [foldM]. rewrite (entries i j Hi (Hjs j (or_introl eq_refl))). cbn [bind].
    assert (Hn1 : wg_node (wg_add_edge G i j (d i j)) = wg_node G).
    { unfold wg_add_edge. cbn [wg_node].
      rewrite (update_gnode_present i) by (rewrite Hids, in_seq; lia).
      apply update_gnode_present. rewrite Hids, in_seq.
      specialize (Hjs j (or_introl eq_refl)). lia. }
    destruct (IH (wg_add_edge G i j (d i j)) Hi) as [G' [H1 [H2 H3]]].
    + intros j' Hj'. apply Hjs. now right.
    + now rewrite Hn1.
    + exists G'. split; [exact H1|]. split; [now rewrite H2|].
      intros a b. rewrite H3, wg_weight_add. unfold edge_eqb, mem. cbn [fst snd existsb].
      fold (mem b js). fold (mem a js).
      destruct (Nat.eqb_spec a i), (Nat.eqb_spec b i), (Nat.eqb_spec a j),
        (Nat.eqb_spec b j), (mem a js) eqn:Ea, (mem b js) eqn:Eb;
        subst; cbn [andb orb]; try reflexivity; try congruence.
Qed.

(** The weight between [a] and [b] once the rows before [k] are done. *)
Lemma distance_rows (G0 : WGraph W) (k : nat) :
  k <= n -> node_ids (wg_node G0) = seq 0 n -> wg_edge G0 = [] ->
  exists G',
    foldM (fun G i =>
             foldM (fun G j => w <- matrix_entry distances i j ;;
                               Ret (wg_add_edge G i j w)) (seq 0 n) G)
          (seq 0 k) G0 = Ret G'
    /\ wg_node G' = wg_node G0
    /\ forall a b, wg_weight G' a b
                   = if (a <? n) && (b <? n)
                     then if Nat.max a b <? k then Some (d (Nat.max a b) (Nat.min a b))
                          else if Nat.min a b <? k
                               then Some (d (Nat.min a b) (Nat.max a b))
                               else None
                     else None.
Proof.
  intros Hk Hids He. induction k as [|k IH].
  - exists G0. split; [reflexivity|]. split; [reflexivity|]. intros a b.
    unfold wg_weight. rewrite He. cbn [find option_map].
    assert (H0 : forall x, (x <? 0) = false) by (intros x; apply Nat.ltb_ge; lia).
    rewrite !H0. destruct ((a <? n) && (b <? n)); reflexivity.
  - destruct IH as [G1 [H1 [H2 H3]]]; [lia|].
    rewrite seq_S, foldM_app, H1. cbn [bind foldM Nat.add].
    destruct (distance_row k (seq 0 n) G1) as [G2 [K1 [K2 K3]]].
    + lia.
    + intros j Hj. apply in_seq in Hj. lia.
    + now rewrite H2.
    + rewrite K1. cbn [bind]. exists G2. split; [reflexivity|].
      split; [now rewrite K2|]. intros a b. rewrite K3, H3, !mem_seq.
      destruct (Nat.eqb_spec a k), (Nat.eqb_spec b k), (Nat.ltb_spec a n),
        (Nat.ltb_spec b n), (Nat.ltb_spec (Nat.max a b) k),
        (Nat.ltb_spec (Nat.min a b) k), (Nat.ltb_spec (Nat.max a b) (S k)),
        (Nat.ltb_spec (Nat.min a b) (S k));
        cbn [andb]; try reflexivity; try lia; repeat f_equal; lia.
Qed.

End Distances.

Lemma py_index_outcome {A : Type} (l : list A) (i : Z) :
  (exists x, py_index l i = Ret x) \/ py_index l i = Raise IndexError.
Proof.
  unfold py_index. destruct ((0 <=? _) && _)%Z; [|now right].
  destruct (nth_error l _); [left; eauto | now right].
Qed.

Lemma matrix_entry_outcome {W : Type} (distances : list (list W)) (i j : nat) :
  (exists w, matrix_entry distances i j = Ret w)
  \/ matrix_entry distances i j = Raise IndexError.
Proof.
  unfold matrix_entry.
  destruct (py_index_outcome distances (Z.of_nat i)) as [[row ->]| ->]; [|now right].
  cbn [bind]. apply py_index_outcome.
Qed.

(** A loop one of whose steps raises, whatever the state, raises. *)
Lemma foldM_raises {A S : Type} (f : S -> A -> outcome S) (e : exn) (l : list A) :
  (forall s x, (exists s', f s x = Ret s') \/ f s x = Raise e) ->
  (exists x, In x l /\ forall s, f s x = Raise e) ->
  forall s, foldM f l s = Raise e.
Proof.
  intros Hall. induction l as [|y l IH]; intros [x [Hx Fx]] s; [contradiction|].
  cbn [foldM]. destruct (Hall s y) as [[s' Hs]|Hs]; rewrite Hs; [|reflexivity].
  cbn [bind]. apply IH. destruct Hx as [->|Hx]; [|eauto].
  rewrite Fx in Hs. discriminate.
Qed.

Lemma foldM_ret_or_raise {A S : Type} (f : S -> A -> outcome S) (e : exn) (l : list A) :
  (forall s x, (exists s', f s x = Ret s') \/ f s x = Raise e) ->
  forall s, (exists s', foldM f l s = Ret s') \/ foldM f l s = Raise e.
Proof.
  intros Hall. induction l as [|y l IH]; intros s; [left; eexists; reflexivity|].
  cbn [foldM]. destruct (Hall s y) as [[s' Hs]|Hs]; rewrite Hs; [|now right].
  cbn [bind]. apply IH.
Qed.

(** X20. [getTreeFromDistances] hands to [nx.minimum_spanning_tree] the graph
    with one node per token and, between any two positions (and from every
    position to itself), one edge, whose weight is the entry of the matrix in
    the row of the larger position and the column of the smaller one: the
    entries above the diagonal are overwritten.  When an entry of the matrix
    is missing for two positions of tokens, it raises [IndexError]. *)
Theorem getTreeFromDistances_lower_triangle (W : Type)
  (minimum_spanning_tree : WGraph W -> WGraph W)
  (distances : list (list W)) (tokens : list string) :
  (forall d : nat -> nat -> W,
     (forall i j, i < length tokens -> j < length tokens ->
                  matrix_entry distances i j = Ret (d i j)) ->
     exists G,
       getTreeFromDistances W minimum_spanning_tree distances tokens
       = Ret (minimum_spanning_tree G)
       /\ wg_node G = combine (seq 0 (length tokens)) (map token_attrs tokens)
       /\ forall a b,
            wg_weight G a b
            = if (a <? length tokens) && (b <? length tokens)
              then Some (d (Nat.max a b) (Nat.min a b))
              else None)
  /\ ((exists i j, i < length tokens /\ j < length tokens
                   /\ matrix_entry distances i j = Raise IndexError) ->
      getTreeFromDistances W minimum_spanning_tree distances tokens = Raise IndexError).
Proof.
  set (n := length tokens).
  assert (Hstart : fold_left (fun G jt => wg_add_node G (fst jt) (token_attrs (snd jt)))
                     (combine (seq 0 n) tokens) (@mkWGraph W [] [])
                   = mkWGraph (combine (seq 0 n) (map token_attrs tokens)) []).
  { unfold n. now rewrite (add_tokens tokens 0 (mkWGraph [] [])). }
  assert (Hids : node_ids (combine (seq 0 n) (map token_attrs tokens)) = seq 0 n).
  { apply node_ids_combine. unfold n. now rewrite length_seq, length_map. }
  split.
  - intros d Hd.
    destruct (distance_rows W distances n d Hd
                (mkWGraph (combine (seq 0 n) (map token_attrs tokens)) []) n)
      as [G [H1 [H2 H3]]]; [lia | exact Hids | reflexivity |].
    exists G. unfold getTreeFromDistances, distance_graph. fold n.
    rewrite Hstart, H1. cbn [bind]. split; [reflexivity|]. split; [exact H2|].
    intros a b. rewrite H3.
    destruct (Nat.ltb_spec a n), (Nat.ltb_spec b n); cbn [andb]; try reflexivity.
    destruct (Nat.ltb_spec (Nat.max a b) n); [reflexivity | lia].
  - intros [i [j [Hi [Hj Hij]]]].
    unfold getTreeFromDistances, distance_graph. fold n. rewrite Hstart.
    assert (Hstep : forall i' (G : WGraph W) j',
               (exists G', (w <- matrix_entry distances i' j' ;;
                            Ret (wg_add_edge G i' j' w)) = Ret G')
               \/ (w <- matrix_entry distances i' j' ;;
                   Ret (wg_add_edge G i' j' w)) = Raise IndexError).
    { intros i' G j'.
      destruct (matrix_entry_outcome distances i' j') as [[w ->]| ->];
        [left; eexists; reflexivity | now right]. }
    rewrite (foldM_raises _ IndexError (seq 0 n)); [reflexivity | |].
    + intros G i'. apply foldM_ret_or_raise. apply Hstep.
    + exists i. split; [apply in_seq; lia|]. intros G.
      apply foldM_raises; [apply Hstep|].
      exists j. split; [apply in_seq; lia|]. intros G'. now rewrite Hij.
Qed.

Lemma getTreeFromDistances_lower_triangle_witness :
  exists G,
    getTreeFromDistances Z (fun G => G) [[0; 5]; [7; 0]]%Z ["def"; "f"] = Ret G
    /\ wg_node G = combine (seq 0 2) (map token_attrs ["def"; "f"])
    /\ forall a b,
         wg_weight G a b
         = if (a <? 2) && (b <? 2)
           then Some (nth (Nat.min a b) (nth (Nat.max a b) [[0; 5]; [7; 0]] []) 0)%Z
           else None.
Proof.
  apply (proj1 (getTreeFromDistances_lower_triangle Z (fun G => G) [[0; 5]; [7; 0]]%Z
                  ["def"; "f"])
           (fun i j => nth j (nth i [[0; 5]; [7; 0]] []) 0)%Z).
  intros i j Hi Hj. simpl in Hi, Hj.
  destruct i as [|[|i]]; try lia; destruct j as [|[|j]]; try lia; reflexivity.
Defined.


(** ** Positions and tuples *)

Lemma rmapM_ok {A B : Type} (f : A -> result B) (g : A -> B) (l : list A) :
  (forall x, In x l -> f x = Ok (g x)) -> rmapM f l = Ok (map g l).
Proof.
  induction l as [|x l IH]; intros H; simpl; [reflexivity|].
  rewrite (H x (or_introl eq_refl)). cbn [rbind].
  rewrite IH by (intros; apply H; now right). reflexivity.
Qed.

Lemma py_list_index_nth (l : list nat) : NoDup l -> forall i x,
  nth_error l i = Some x -> py_list_index x l = Some i.
Proof.
  induction l as [|a l IH]; intros Hnd i x H; [destruct i; discriminate|].
  inversion Hnd as [|? ? Ha Hnd']; subst. destruct i as [|i]; simpl in *.
  - inversion H; subst. now rewrite Nat.eqb_refl.
  - destruct (Nat.eqb_spec x a) as [->|Hne].
    + exfalso. apply Ha. eapply nth_error_In; eauto.
    + now rewrite (IH Hnd' i x H).
Qed.

Lemma py_list_index_sound (l : list nat) (x i : nat) :
  py_list_index x l = Some i -> nth_error l i = Some x.
Proof.
  intros H. destruct (py_list_index_split x l i H) as [pre [post [-> <-]]].
  rewrite nth_error_app2 by lia. now rewrite Nat.sub_diag.
Qed.

Lemma map_positions {A : Type} (f : A -> nat) (l : list A) : forall k,
  (forall i x, nth_error l i = Some x -> f x = k + i) -> map f l = seq k (length l).
Proof.
  induction l as [|a l IH]; intros k H; [reflexivity|].
  cbn [map length seq]. f_equal.
  - rewrite (H 0 a eq_refl). lia.
  - apply IH. intros i x Hi. rewrite (H (S i) x Hi). lia.
Qed.

Lemma sorted_nth {A : Type} (R : A -> A -> Prop) (l : list A) :
  StronglySorted R l -> forall i j x y,
  i < j -> nth_error l i = Some x -> nth_error l j = Some y -> R x y.
Proof.
  induction 1 as [|a l Hs IH Hf]; intros i j x y Hij Hi Hj; [destruct i; discriminate|].
  destruct j as [|j]; [lia|]. cbn [nth_error] in Hj.
  destruct i as [|i]; cbn [nth_error] in Hi.
  - inversion Hi; subst. rewrite Forall_forall in Hf. apply Hf.
    eapply nth_error_In; eauto.
  - apply (IH i j); auto. lia.
Qed.

Section Tuples.

Variable G : DiGraph.
Hypothesis W : ast_tree G.
Hypothesis D : distinct_starts G.
Variable root : nat.
Hypothesis R0 : getRoot G = Ret root.
Variable deps : list (nat * nat * EdgeData).
Hypothesis deps_ok : Forall (dep_ok G) deps.
Hypothesis deps_targets : map edge_target deps = dependents G root.
Variable T : DiGraph.
Hypothesis dt : dep_tree_of G deps T.
Variable L : DiGraph.
Hypothesis L_nodes : dg_node L = dg_node T.
Hypothesis L_edges : map fst (dg_edge L) = map fst (dg_edge T).
Hypothesis L_strs : forall e, In e (dg_edge L) -> complex_edge_str (snd e) <> None.

Lemma node_key_start (n : nat) :
  In n (terminals G) -> node_key L start n = Ok (start_of G n).
Proof.
  intros Hn. pose proof (L_attrs G deps T dt L L_nodes n Hn) as H.
  unfold dg_attrs in H. unfold node_key.
  destruct (lookup n (dg_node L)) as [a|]; [|discriminate].
  inversion H; subst a. destruct (terminal_attrs G W n Hn) as [_ ->]. reflexivity.
Qed.

Lemma sorted_nodes_ret : sorted_nodes L = Ok (sorted_by_start G (terminals G)).
Proof.
  unfold sorted_nodes. rewrite (L_node_ids G deps T dt L L_nodes).
  rewrite (rmapM_ok _ (start_of G)) by (intros n Hn; now apply node_key_start).
  reflexivity.
Qed.

Lemma order_NoDup : NoDup (sorted_by_start G (terminals G)).
Proof.
  apply (Permutation_NoDup (Permutation_sym (sorted_by_start_perm G _))).
  unfold terminals. apply NoDup_filter, (at_nodup G W).
Qed.

Lemma order_In (n : nat) :
  In n (sorted_by_start G (terminals G)) <-> In n (terminals G).
Proof.
  split; apply Permutation_in;
    [|apply Permutation_sym]; apply sorted_by_start_perm.
Qed.

(** The positions follow the starts. *)
Lemma order_positions (h n : nat) :
  In h (terminals G) -> In n (terminals G) -> (start_of G h < start_of G n)%Z ->
  exists i j,
    py_list_index h (sorted_by_start G (terminals G)) = Some i
    /\ py_list_index n (sorted_by_start G (terminals G)) = Some j
    /\ i < j.
Proof.
  intros Hh Hn Hlt.
  destruct (py_list_index_In h _ (proj2 (order_In h) Hh)) as [i Hi].
  destruct (py_list_index_In n _ (proj2 (order_In n) Hn)) as [j Hj].
  exists i, j. split; [exact Hi|]. split; [exact Hj|].
  pose proof (py_list_index_sound _ _ _ Hi) as Ni.
  pose proof (py_list_index_sound _ _ _ Hj) as Nj.
  destruct (Nat.lt_trichotomy i j) as [Hij|[Hij|Hij]]; [exact Hij | | ].
  - subst j. rewrite Ni in Nj. inversion Nj. subst. lia.
  - pose proof (sorted_nth _ _ (sorted_by_start_sorted G (terminals G)) j i n h Hij Nj Ni)
      as Hle.
    simpl in Hle. lia.
Qed.

Lemma L_edge_dep (e : nat * nat * EdgeData) :
  In e (dg_edge L) -> exists d0, In (edge_source e, edge_target e, d0) deps.
Proof.
  intros He.
  assert (H : In (fst e) (map fst (dg_edge T))).
  { rewrite <- L_edges. now apply in_map. }
  apply in_map_iff in H. destruct H as [[[h' n'] d0] [E H]].
  exists d0. apply (dt_edge_In G deps T dt) in H.
  unfold edge_source, edge_target. simpl in E. rewrite <- E. exact H.
Qed.

Lemma L_edges_perm : Permutation (dg_edges L) (dg_edge L).
Proof.
  apply dg_edges_perm.
  - rewrite (L_node_ids G deps T dt L L_nodes). unfold terminals.
    apply NoDup_filter, (at_nodup G W).
  - intros e He. destruct (L_edge_dep e He) as [d0 Hd].
    destruct (dep_In_facts G deps deps_ok _ _ _ Hd) as [_ [_ [F3 [F4 _]]]].
    unfold is_node. rewrite (L_node_ids G deps T dt L L_nodes). auto.
Qed.

Lemma tuples_ret :
  rmapM (fun e =>
           l <~ edge_str (snd e) ;;
           i <~ list_index (fst (fst e)) (sorted_by_start G (terminals G)) ;;
           j <~ list_index (snd (fst e)) (sorted_by_start G (terminals G)) ;;
           Ok (i, j, l))
        (dg_edges L)
  = Ok (tuples_of (sorted_by_start G (terminals G)) L).
Proof.
  unfold tuples_of. apply rmapM_ok. intros e He.
  apply (Permutation_in _ L_edges_perm) in He.
  destruct (L_edge_dep e He) as [d0 Hd].
  destruct (dep_In_facts G deps deps_ok _ _ _ Hd) as [_ [_ [F3 [F4 F5]]]].
  destruct (order_positions _ _ F3 F4 F5) as [i [j [Hi [Hj _]]]].
  unfold edge_source, edge_target in Hi, Hj.
  unfold edge_str, list_index, position, edge_text. rewrite Hi, Hj.
  pose proof (L_strs e He) as Hs.
  destruct (complex_edge_str (snd e)); [reflexivity | contradiction].
Qed.

Lemma tuples_targets :
  Permutation (map (fun p : nat * nat * string => snd (fst p))
                   (tuples_of (sorted_by_start G (terminals G)) L))
              (seq 1 (length (terminals G) - 1)).
Proof.
  pose proof (ast_attrs_ok G W) as Hok.
  pose proof R0 as R0'. rewrite (getRoot_ret G Hok) in R0'.
  pose proof order_NoDup as Hnd.
  pose proof (sorted_by_start_perm G (terminals G)) as Hp.
  unfold tuples_of. rewrite map_map. cbn [fst snd].
  set (order := sorted_by_start G (terminals G)) in *.
  destruct order as [|r rest] eqn:Eo; [discriminate|].
  inversion R0'; subst r. clear R0'.
  assert (Hlen : length (terminals G) - 1 = length rest).
  { rewrite <- (Permutation_length Hp). simpl. lia. }
  assert (Hpos : map (position (root :: rest)) (root :: rest)
                 = seq 0 (length (root :: rest))).
  { apply map_positions. intros i x Hi. unfold position.
    now rewrite (py_list_index_nth _ Hnd i x Hi). }
  rewrite Hlen.
  change (length (root :: rest)) with (S (length rest)) in Hpos.
  change (seq 0 (S (length rest))) with (0 :: seq 1 (length rest)) in Hpos.
  change (map (position (root :: rest)) (root :: rest))
    with (position (root :: rest) root :: map (position (root :: rest)) rest) in Hpos.
  injection Hpos as _ Hrest. rewrite <- Hrest.
  rewrite <- (map_map (fun e : nat * nat * EdgeData => snd (fst e))
                      (position (root :: rest))).
  apply Permutation_map.
  assert (Htg : Permutation (map (fun e : nat * nat * EdgeData => snd (fst e)) (dg_edges L))
                            (dependents G root)).
  { rewrite L_edges_perm.
    rewrite <- (map_map fst snd), L_edges, (map_map fst snd).
    rewrite (dt_edges G deps T dt). rewrite <- deps_targets. reflexivity. }
  rewrite Htg.
  assert (Hdep : dependents G root = filter (fun n => negb (Nat.eqb n root)) (terminals G)).
  { unfold terminals. rewrite filter_filter_and. unfold dependents.
    apply filter_ext. intros x. now rewrite Nat.eqb_sym. }
  rewrite Hdep. apply (Permutation_cons_inv (a := root)).
  etransitivity; [apply perm_remove|].
  - unfold terminals. apply NoDup_filter, (at_nodup G W).
  - apply (Permutation_in _ Hp). now left.
  - now apply Permutation_sym.
Qed.

Lemma tuples_edges (i j : nat) (lab : string) :
  In (i, j, lab) (tuples_of (sorted_by_start G (terminals G)) L) ->
  i < j
  /\ exists h n d,
       nth_error (sorted_by_start G (terminals G)) i = Some h
       /\ nth_error (sorted_by_start G (terminals G)) j = Some n
       /\ In (h, n, d) (dg_edge L)
       /\ complex_edge_str d = Some lab.
Proof.
  intros Hin. unfold tuples_of in Hin.
  apply in_map_iff in Hin. destruct Hin as [[[h n] d] [E He]].
  cbn [fst snd] in E. apply (Permutation_in _ L_edges_perm) in He.
  destruct (L_edge_dep _ He) as [d0 Hd].
  destruct (dep_In_facts G deps deps_ok _ _ _ Hd) as [_ [_ [F3 [F4 F5]]]].
  unfold edge_source, edge_target in F3, F4, F5. cbn [fst snd] in F3, F4, F5.
  destruct (order_positions h n F3 F4 F5) as [i' [j' [Hi [Hj Hij]]]].
  unfold position, edge_text in E. rewrite Hi, Hj in E.
  pose proof (L_strs _ He) as Hs. cbn [snd] in Hs.
  destruct (complex_edge_str d) as [s|] eqn:Es; [|contradiction].
  inversion E; subst i' j' s. split; [exact Hij|].
  exists h, n, d. split; [now apply py_list_index_sound|].
  split; [now apply py_list_index_sound|]. auto.
Qed.

End Tuples.

(** X21. On the labelled dependency tree of the pipeline,
    [get_tuples_from_labeled_dep_tree] fails only as [getTokens] does, and
    returns with the tokens one tuple per edge: the position of the head,
    the position of the dependent, both among the terminals sorted by start,
    and the string of the label.  The head stands before the dependent, and
    every position but the first, which is the root's, is that of exactly
    one dependent. *)
Theorem get_tuples_positions (pystr : Type)
  (utf8_encode : pystr -> result (list Byte.byte))
  (utf8_decode : list Byte.byte -> result pystr)
  (G : DiGraph) (root : nat) (code : pystr) :
  ast_tree G -> distinct_starts G -> getRoot G = Ret root ->
  exists L pairs,
    (forall fuel, max_id G <= fuel -> labelled_tree fuel G = Ret L)
    /\ get_tuples_from_labeled_dep_tree pystr utf8_encode utf8_decode L code
       = (tokens <~ getTokens pystr utf8_encode utf8_decode L code ;; Ok (pairs, tokens))
    /\ Permutation (map (fun p : nat * nat * string => snd (fst p)) pairs)
                   (seq 1 (length (terminals G) - 1))
    /\ forall i j lab, In (i, j, lab) pairs ->
         i < j
         /\ exists h n d,
              nth_error (sorted_by_start G (terminals G)) i = Some h
              /\ nth_error (sorted_by_start G (terminals G)) j = Some n
              /\ In (h, n, d) (dg_edge L)
              /\ complex_edge_str d = Some lab.
Proof.
  intros W D R0.
  destruct (pipeline_deps G root W D R0) as [E [T [deps [HE [HT [H1 [H2 [H3 dt]]]]]]]].
  destruct (labelDepTree_spec G W root R0 deps H1 H2 T dt) as [L [L1 [L2 [L3 L4]]]].
  assert (Hdep : forall e, In e (dg_edge T) -> snd e = dependency).
  { intros e He. apply (dt_edge_In G deps T dt) in He.
    rewrite Forall_forall in H1. apply (H1 e He). }
  assert (Hstr : forall e, In e (dg_edge L) -> complex_edge_str (snd e) <> None).
  { intros e He. destruct (labelDepTree_strings G T L L1 Hdep e He) as [_ K].
    destruct (L4 e He) as [hh [Hc _]]. rewrite (K _ Hc). discriminate. }
  exists L, (tuples_of (sorted_by_start G (terminals G)) L).
  split; [|split; [|split]].
  - intros fuel Hf. unfold labelled_tree. rewrite (HE fuel Hf). cbn [bind].
    rewrite HT. cbn [bind]. exact L1.
  - unfold get_tuples_from_labeled_dep_tree.
    rewrite (sorted_nodes_ret G W deps T dt L L2). cbn [rbind].
    rewrite (tuples_ret G W deps H1 T dt L L2 L3 Hstr). reflexivity.
  - apply (tuples_targets G W root R0 deps H1 H2 T dt L L2 L3).
  - intros i j lab. apply (tuples_edges G W deps H1 T dt L L2 L3 Hstr).
Qed.

Lemma get_tuples_positions_witness :
  exists L pairs,
    (forall fuel, max_id small_graph <= fuel -> labelled_tree fuel small_graph = Ret L)
    /\ get_tuples_from_labeled_dep_tree string (fun _ => Ok []) (fun _ => Ok "") L "code"
       = (tokens <~ getTokens string (fun _ => Ok []) (fun _ => Ok "") L "code" ;;
          Ok (pairs, tokens))
    /\ Permutation (map (fun p : nat * nat * string => snd (fst p)) pairs)
                   (seq 1 (length (terminals small_graph) - 1))
    /\ forall i j lab, In (i, j, lab) pairs ->
         i < j
         /\ exists h n d,
              nth_error (sorted_by_start small_graph (terminals small_graph)) i = Some h
              /\ nth_error (sorted_by_start small_graph (terminals small_graph)) j = Some n
              /\ In (h, n, d) (dg_edge L)
              /\ complex_edge_str d = Some lab.
Proof.
  apply (get_tuples_positions string (fun _ => Ok []) (fun _ => Ok "") small_graph 2 "code").
  - apply ast_treeb_sound. vm_compute. reflexivity.
  - apply distinct_startsb_sound. vm_compute. reflexivity.
  - reflexivity.
Defined.

(** X22. [getTokens] on the dependency tree reads the terminals of the
    constituency tree, in the order of their starts: it is the list of
    [getToken] at the start and end of each, and fails as the first of these
    that fails does. *)
Theorem getTokens_terminals (pystr : Type)
  (utf8_encode : pystr -> result (list Byte.byte))
  (utf8_decode : list Byte.byte -> result pystr)
  (G : DiGraph) (root : nat) (code : pystr) :
  ast_tree G -> distinct_starts G -> getRoot G = Ret root ->
  exists E T,
    (forall fuel, max_id G <= fuel -> enrichAstWithDeps fuel G = Ret E)
    /\ getDependencyTree E = Ret T
    /\ getTokens pystr utf8_encode utf8_decode T code
       = rmapM (fun t => getToken pystr utf8_encode utf8_decode code
                           (start_of G t) (end_of G t))
               (sorted_by_start G (terminals G)).
Proof.
  intros W D R0.
  destruct (pipeline_deps G root W D R0) as [E [T [deps [HE [HT [H1 [H2 [H3 dt]]]]]]]].
  exists E, T. split; [exact HE|]. split; [exact HT|].
  unfold getTokens. rewrite (sorted_nodes_ret G W deps T dt T eq_refl). cbn [rbind].
  assert (Hstep : forall l, (forall t, In t l -> In t (terminals G)) ->
            rmapM (fun t => s <~ node_key T start t ;; e <~ node_key T end_ t ;;
                            getToken pystr utf8_encode utf8_decode code s e) l
            = rmapM (fun t => getToken pystr utf8_encode utf8_decode code
                                (start_of G t) (end_of G t)) l).
  { induction l as [|t l IH]; intros Hl; [reflexivity|].
    cbn [rmapM]. rewrite IH by (intros; apply Hl; now right).
    pose proof (Hl t (or_introl eq_refl)) as Ht.
    rewrite (node_key_start G W deps T dt T eq_refl t Ht). cbn [rbind].
    pose proof (L_attrs G deps T dt T eq_refl t Ht) as Ha.
    unfold dg_attrs in Ha. unfold node_key at 1.
    destruct (lookup t (dg_node T)) as [a|]; [|discriminate].
    inversion Ha; subst a.
    apply terminals_In in Ht. destruct Ht as [Hn _].
    destruct (attrs_of_full G t (ast_attrs_ok G W) Hn) as [_ Hf].
    unfold end_of. unfold full_attrs in Hf.
    destruct (type (attrs_of G t)), (is_terminal (attrs_of G t)),
      (start (attrs_of G t)), (end_ (attrs_of G t)); try discriminate.
    reflexivity. }
  apply Hstep. intros t Ht. now apply (order_In G t).
Qed.

Lemma getTokens_terminals_witness :
  exists E T,
    (forall fuel, max_id small_graph <= fuel -> enrichAstWithDeps fuel small_graph = Ret E)
    /\ getDependencyTree E = Ret T
    /\ getTokens string (fun _ => Ok []) (fun _ => Fail UnicodeDecodeError) T "code"
       = rmapM (fun t => getToken string (fun _ => Ok []) (fun _ => Fail UnicodeDecodeError)
                           "code" (start_of small_graph t) (end_of small_graph t))
               (sorted_by_start small_graph (terminals small_graph)).
Proof.
  apply (getTokens_terminals string (fun _ => Ok []) (fun _ => Fail UnicodeDecodeError)
           small_graph 2 "code").
  - apply ast_treeb_sound. vm_compute. reflexivity.
  - apply distinct_startsb_sound. vm_compute. reflexivity.
  - reflexivity.
Defined.


(** ** Enriching twice *)

(** Adding an edge that is there, with the data it has, changes nothing. *)
Lemma update_edge_same (u v : nat) (d : EdgeData) (l : list (nat * nat * EdgeData)) :
  (exists d', In (u, v, d') l) ->
  (forall d', In (u, v, d') l -> update_data d' d = d') ->
  update_edge u v d l = l.
Proof.
  induction l as [|[[u' v'] d0] l IH]; intros [d' Hin] Hall; [contradiction|].
  cbn [update_edge].
  destruct (Nat.eqb_spec u u') as [->|Hu]; cbn [andb].
  - destruct (Nat.eqb_spec v v') as [->|Hv].
    + rewrite (Hall d0 (or_introl eq_refl)). reflexivity.
    + f_equal. apply IH.
      * destruct Hin as [E|Hin]; [congruence | eauto].
      * intros d1 H1. apply Hall. now right.
  - f_equal. apply IH.
    + destruct Hin as [E|Hin]; [congruence | eauto].
    + intros d1 H1. apply Hall. now right.
Qed.

Lemma foldM_fixed {A S : Type} (f : S -> A -> outcome S) (l : list A) (s : S) :
  (forall x, In x l -> f s x = Ret s) -> foldM f l s = Ret s.
Proof.
  induction l as [|x l IH]; intros H; [reflexivity|].
  cbn [foldM]. rewrite (H x (or_introl eq_refl)). cbn [bind].
  apply IH. intros y Hy. apply H. now right.
Qed.

Lemma getRoot_nodes (G G' : DiGraph) : dg_node G' = dg_node G -> getRoot G' = getRoot G.
Proof.
  intros H. unfold getRoot, node_is_terminal, node_start, dg_attrs. now rewrite H.
Qed.

Lemma non_root_terminals_nodes (G G' : DiGraph) (root : nat) :
  dg_node G' = dg_node G -> non_root_terminals G' root = non_root_terminals G root.
Proof.
  intros H. unfold non_root_terminals, node_is_terminal, dg_attrs. now rewrite H.
Qed.

(** X23. [enrichAstWithDeps] is idempotent: run on the graph it has enriched, it
    selects the same heads again and leaves the graph as it is. *)
Theorem enrichAstWithDeps_idempotent (G : DiGraph) (root : nat) :
  ast_tree G -> distinct_starts G -> getRoot G = Ret root ->
  exists E,
    forall fuel, max_id G <= fuel ->
      enrichAstWithDeps fuel G = Ret E /\ enrichAstWithDeps fuel E = Ret E.
Proof.
  intros W D R.
  pose proof (ast_attrs_ok G W) as Hok.
  destruct (enrichAstWithDeps_spec G root W D R) as [E [deps [H1 [En [H3 H4]]]]].
  pose proof En as [N [Ed Hdeps]].
  exists E. intros fuel Hf. split; [now apply H1|].
  unfold enrichAstWithDeps.
  rewrite (getRoot_nodes G E N), R. cbn [bind].
  rewrite (non_root_terminals_nodes G E root N), (non_root_terminals_ret G root Hok).
  cbn [bind]. fold (dependents G root).
  apply foldM_fixed. intros n Hn.
  destruct (getRoot_spec G root Hok R) as [Hroot _].
  pose proof Hn as Hn'. apply dependents_In in Hn'. destruct Hn' as [N1 [N2 N3]].
  assert (Tn : In n (terminals G)) by (apply terminals_In; auto).
  pose proof (root_starts_first G root n Hok D R Tn N2) as Hlt.
  apply terminals_In in Hroot. destruct Hroot as [R1 R2].
  destruct (ast_terminal_leaf G W n N1 N3) as [_ Hn0].
  destruct (selectHead_enriched G W deps E En n root N1 Hn0 R1 R2 Hlt) as [h [Hh Hrun]].
  rewrite Hrun by (pose proof (max_id_le G n N1); lia). cbn [bind]. f_equal.
  assert (Hd : In (h, n, dependency) deps).
  { assert (Hin : In n (map edge_target deps)) by now rewrite H3.
    apply in_map_iff in Hin. destruct Hin as [[[h' n'] d] [Et Hin]].
    unfold edge_target in Et. simpl in Et. subst n'.
    rewrite Forall_forall in Hdeps, H4.
    destruct (Hdeps _ Hin) as [_ [_ [_ [_ [_ Hlab]]]]]. simpl in Hlab. subst d.
    specialize (H4 _ Hin). unfold head_edge, edge_source, edge_target in H4.
    simpl in H4. now rewrite (head_of_unique G W D n h h' Hh H4). }
  destruct (head_of_facts G n h W Hh) as [Ih [Th _]].
  assert (Eh : In h (node_ids (dg_node E))) by (rewrite N; exact Ih).
  assert (En' : In n (node_ids (dg_node E))) by (rewrite N; exact N1).
  unfold dg_add_edge.
  rewrite (update_node_present h (dg_node E) Eh).
  rewrite (update_node_present n (dg_node E) En').
  rewrite update_edge_same; [now destruct E | |].
  - exists dependency. rewrite Ed. apply in_or_app. now right.
  - intros d' Hd'. rewrite Ed in Hd'. apply in_app_or in Hd'.
    destruct Hd' as [Hd'|Hd'].
    + exfalso.
      assert (Hs : In n (successors G h)) by (apply successors_In; eauto).
      destruct (ast_terminal_leaf G W h Ih Th) as [Hnone _].
      rewrite Hnone in Hs. contradiction.
    + rewrite Forall_forall in Hdeps.
      destruct (Hdeps _ Hd') as [_ [_ [_ [_ [_ Hlab]]]]]. simpl in Hlab. subst d'.
      reflexivity.
Qed.

Lemma enrichAstWithDeps_idempotent_witness :
  exists E,
    forall fuel, max_id small_graph <= fuel ->
      enrichAstWithDeps fuel small_graph = Ret E /\ enrichAstWithDeps fuel E = Ret E.
Proof.
  apply (enrichAstWithDeps_idempotent small_graph 2).
  - apply ast_treeb_sound. vm_compute. reflexivity.
  - apply distinct_startsb_sound. vm_compute. reflexivity.
  - reflexivity.
Defined.
